(** * Gradium SDK (TypeScript): streaming sessions, wire codec and error mapping

    A shallow embedding of the parts of the SDK that the specification talks
    about:

    - [src/resources/tts.ts]  ([TTSStream], [TTS]),
    - [src/resources/stt.ts]  ([STTStream], [STT]),
    - [src/errors.ts]         (the error classes and [handleAPIError]),
    - [src/types.ts]          (the message types),

    together with the platform functions these files call ([btoa], [atob],
    [String.fromCharCode], [JSON.stringify], [JSON.parse], [Number.parseInt],
    [Promise]), modelled after their standards (WHATWG HTML / Infra,
    ECMA-262).

    Conventions.
    - A JavaScript string is a [string] that holds its 16-bit code units
      one after the other, each written the way UTF-8 writes a code point
      of that value: one character for a code unit below 0x80, two below
      0x800 and three from there on. A string literal of this file is so
      the JavaScript string of the same text, and a surrogate pair is two
      groups of three characters.
    - A binary string, which is what [btoa] takes and what [atob] and
      [String.fromCharCode] on bytes give, has code units below 256 only.
      It is a [binary_string], with one character per code unit.
    - A [Uint8Array] is a [list byte].
    - A promise is its settlement state; the event loop is the list of events
      delivered to the socket's handlers, one handler run per event, and a
      suspended [await] resumes right after the handler run that settles the
      awaited promise.
    - A call that may throw returns a [completion]: [Return v] or
      [Throw e].
    - A message of the socket is what [JSON.parse] made of its data: a
      message of the protocol, [null], another value, or the
      [SyntaxError] thrown.
    - A number is the decimal digits ECMA-262 prints it with;
      [Number_value] rounds a decimal to the nearest double.
    - [String.fromCharCode(...audio)] is a call with as many arguments
      as [audio] has bytes. An engine bounds the number of arguments of
      a call and throws a [RangeError] beyond; the bound is the
      parameter [max_arguments] of the class [Engine], of which only
      that it admits the 3840 bytes of a chunk of [transcribe] is
      assumed. *)

From Stdlib Require Import String Ascii List ZArith NArith Bool Lia Arith.
From Stdlib.Strings Require Import Byte.
From Stdlib Require DecimalN.
From Equations Require Import Equations.
Import ListNotations.

Local Open Scope string_scope.
Local Open Scope list_scope.

Set Implicit Arguments.

(* ===================================================================== *)
(** * Platform: binary strings and base64 ([String.fromCharCode], [btoa], [atob]) *)
(* ===================================================================== *)

Module Base64.

Local Open Scope N_scope.

(** A string whose code units are all below 256, with one character
    per code unit. The code makes such strings with
    [String.fromCharCode] from bytes and with [atob], and it only
    passes them to [btoa] and reads them with [charCodeAt]. *)
Definition binary_string : Type := string.

(** [String.fromCharCode(...audio)]: one code unit per byte. *)
Definition String_fromCharCode (a : list byte) : binary_string :=
  string_of_list_byte a.

(** [Uint8Array.from(s, (c) => c.charCodeAt(0))]: one byte per code unit. *)
Definition Uint8Array_from_charCodes (s : binary_string) : list byte :=
  list_byte_of_string s.

Definition alphabet : list ascii :=
  list_ascii_of_string
    "ABCDEFGHIJKLMNOPQRSTUVWXYZabcdefghijklmnopqrstuvwxyz0123456789+/".

(** The character of a 6-bit group. *)
Definition sextet_char (n : N) : ascii :=
  nth (N.to_nat n) alphabet "A"%char.

(** The 6-bit group of a character of the alphabet. *)
Definition char_sextet (c : ascii) : option N :=
  let n := N_of_ascii c in
  if (65 <=? n) && (n <=? 90) then Some (n - 65)
  else if (97 <=? n) && (n <=? 122) then Some (n - 71)
  else if (48 <=? n) && (n <=? 57) then Some (n + 4)
  else if n =? 43 then Some 62
  else if n =? 47 then Some 63
  else None.

Definition pad : ascii := "="%char.

(** Three bytes give four characters; one or two trailing bytes are
    completed with zero bits and padded with [=]. *)
Fixpoint encode (l : list N) : list ascii :=
  match l with
  | [] => []
  | [a] =>
      [sextet_char (a / 4); sextet_char ((a mod 4) * 16); pad; pad]
  | [a; b] =>
      [sextet_char (a / 4); sextet_char ((a mod 4) * 16 + b / 16);
       sextet_char ((b mod 16) * 4); pad]
  | a :: b :: c :: rest =>
      sextet_char (a / 4)
        :: sextet_char ((a mod 4) * 16 + b / 16)
        :: sextet_char ((b mod 16) * 4 + c / 64)
        :: sextet_char (c mod 64)
        :: encode rest
  end.

(** [btoa(s)]. Every code unit of a binary string is below 256, so
    the [InvalidCharacterError] of [btoa] cannot happen. *)
Definition btoa (s : binary_string) : string :=
  string_of_list_ascii (encode (map N_of_ascii (list_ascii_of_string s))).

(** ASCII whitespace: TAB, LF, FF, CR, SPACE. *)
Definition is_ascii_whitespace (c : ascii) : bool :=
  let n := N_of_ascii c in
  (n =? 9) || (n =? 10) || (n =? 12) || (n =? 13) || (n =? 32).

(** Remove one or two trailing [=]. *)
Definition strip_padding (data : list ascii) : list ascii :=
  match rev data with
  | x :: r =>
      if Ascii.eqb x pad then
        match r with
        | y :: r' => if Ascii.eqb y pad then rev r' else rev r
        | [] => rev r
        end
      else data
  | [] => data
  end.

Fixpoint sextets (data : list ascii) : option (list N) :=
  match data with
  | [] => Some []
  | c :: r =>
      match char_sextet c, sextets r with
      | Some n, Some ns => Some (n :: ns)
      | _, _ => None
      end
  end.

(** Four 6-bit groups give three bytes; a rest of two or three groups
    gives one or two bytes, the spare bits being dropped. *)
Fixpoint decode (l : list N) : list N :=
  match l with
  | s1 :: s2 :: s3 :: s4 :: rest =>
      (s1 * 4 + s2 / 16)
        :: ((s2 mod 16) * 16 + s3 / 4)
        :: ((s3 mod 4) * 64 + s4)
        :: decode rest
  | [s1; s2; s3] => [s1 * 4 + s2 / 16; (s2 mod 16) * 16 + s3 / 4]
  | [s1; s2] => [s1 * 4 + s2 / 16]
  | _ => []
  end.

(** [atob(s)] (forgiving-base64 decode); [None] stands for the
    [InvalidCharacterError] it throws. A code unit of [s] from 0x80 on
    is characters that are not of the alphabet, and [atob] throws. *)
Definition atob (s : string) : option binary_string :=
  let data := filter (fun c => negb (is_ascii_whitespace c))
                     (list_ascii_of_string s) in
  let data := if (length data mod 4 =? 0)%nat then strip_padding data
              else data in
  if (length data mod 4 =? 1)%nat then None
  else
    match sextets data with
    | None => None
    | Some sx => Some (string_of_list_ascii (map ascii_of_N (decode sx)))
    end.

End Base64.

(* ===================================================================== *)
(** * Platform: numbers, JSON values, [JSON.stringify] and [JSON.parse] *)
(* ===================================================================== *)

Module JS.

(** ** Numbers

    A finite non-zero number is kept as the triple ECMA-262 prints it from
    ([Number::toString]): a sign, the significant decimal digits
    [d1 ... dk] (most significant first, [d1] and [dk] not zero) and the
    position [n] of the decimal point, the value being
    [0.d1...dk * 10^n]. Where the platform turns a numeral into a
    number, [Number_value] rounds it to the nearest double. *)

Inductive digit := Dg0 | Dg1 | Dg2 | Dg3 | Dg4 | Dg5 | Dg6 | Dg7 | Dg8 | Dg9.

Inductive number :=
| NaN
| Infinity (negative : bool)
| Zero (negative : bool)
| Finite (negative : bool) (digits : list digit) (n : Z).

Definition digit_char (d : digit) : ascii :=
  match d with
  | Dg0 => "0" | Dg1 => "1" | Dg2 => "2" | Dg3 => "3" | Dg4 => "4"
  | Dg5 => "5" | Dg6 => "6" | Dg7 => "7" | Dg8 => "8" | Dg9 => "9"
  end%char.

Definition char_digit (c : ascii) : option digit :=
  match c with
  | "0" => Some Dg0 | "1" => Some Dg1 | "2" => Some Dg2 | "3" => Some Dg3
  | "4" => Some Dg4 | "5" => Some Dg5 | "6" => Some Dg6 | "7" => Some Dg7
  | "8" => Some Dg8 | "9" => Some Dg9 | _ => None
  end%char.

Definition is_zero_digit (d : digit) : bool :=
  match d with Dg0 => true | _ => false end.

(** The digits of a canonical finite number. *)
Definition canonical_digits (ds : list digit) : bool :=
  match ds with
  | [] => false
  | d :: _ => negb (is_zero_digit d) && negb (is_zero_digit (last ds Dg0))
  end.

Definition canonical (x : number) : bool :=
  match x with
  | Finite _ ds _ => canonical_digits ds
  | _ => true
  end.

Fixpoint strip_leading_zeros (ds : list digit) (n : Z) : list digit * Z :=
  match ds with
  | Dg0 :: r => strip_leading_zeros r (n - 1)
  | _ => (ds, n)
  end.

Fixpoint drop_zeros (ds : list digit) : list digit :=
  match ds with
  | Dg0 :: r => drop_zeros r
  | _ => ds
  end.

Definition strip_trailing_zeros (ds : list digit) : list digit :=
  rev (drop_zeros (rev ds)).

(** The number [0.ds * 10^n], [ds] being any digits. *)
Definition mk_number (negative : bool) (ds : list digit) (n : Z) : number :=
  let '(ds1, n1) := strip_leading_zeros ds n in
  match strip_trailing_zeros ds1 with
  | [] => Zero negative
  | ds2 => Finite negative ds2 n1
  end.

Fixpoint digits_of_uint (u : Decimal.uint) : list digit :=
  match u with
  | Decimal.Nil => []
  | Decimal.D0 r => Dg0 :: digits_of_uint r
  | Decimal.D1 r => Dg1 :: digits_of_uint r
  | Decimal.D2 r => Dg2 :: digits_of_uint r
  | Decimal.D3 r => Dg3 :: digits_of_uint r
  | Decimal.D4 r => Dg4 :: digits_of_uint r
  | Decimal.D5 r => Dg5 :: digits_of_uint r
  | Decimal.D6 r => Dg6 :: digits_of_uint r
  | Decimal.D7 r => Dg7 :: digits_of_uint r
  | Decimal.D8 r => Dg8 :: digits_of_uint r
  | Decimal.D9 r => Dg9 :: digits_of_uint r
  end.

Fixpoint uint_of_digits (ds : list digit) : Decimal.uint :=
  match ds with
  | [] => Decimal.Nil
  | Dg0 :: r => Decimal.D0 (uint_of_digits r)
  | Dg1 :: r => Decimal.D1 (uint_of_digits r)
  | Dg2 :: r => Decimal.D2 (uint_of_digits r)
  | Dg3 :: r => Decimal.D3 (uint_of_digits r)
  | Dg4 :: r => Decimal.D4 (uint_of_digits r)
  | Dg5 :: r => Decimal.D5 (uint_of_digits r)
  | Dg6 :: r => Decimal.D6 (uint_of_digits r)
  | Dg7 :: r => Decimal.D7 (uint_of_digits r)
  | Dg8 :: r => Decimal.D8 (uint_of_digits r)
  | Dg9 :: r => Decimal.D9 (uint_of_digits r)
  end.

(** Decimal digits of a natural number, most significant first ([0] is
    the one digit [0]). *)
Definition digits_of_N (n : N) : list digit := digits_of_uint (N.to_uint n).
Definition N_of_digits (ds : list digit) : N := N.of_uint (uint_of_digits ds).

Definition number_of_Z (z : Z) : number :=
  let ds := digits_of_N (Z.abs_N z) in
  mk_number (z <? 0)%Z ds (Z.of_nat (length ds)).

(** ** The Number value of a decimal

    What the platform makes of a decimal numeral ([JSON.parse],
    [Number.parseInt]): the double nearest to its value, a tie going to
    the even significand, here as the digits [Number::toString] prints
    that double from. The arithmetic is exact, on fractions of two
    positive integers. *)

Local Open Scope Z_scope.

Definition fraction : Type := Z * Z.

Definition fraction_mul (x y : fraction) : fraction :=
  (fst x * fst y, snd x * snd y).

Definition fraction_leb (x y : fraction) : bool :=
  fst x * snd y <=? fst y * snd x.

Definition fraction_ltb (x y : fraction) : bool :=
  fst x * snd y <? fst y * snd x.

(** [b^n] for an exponent of either sign. *)
Definition power (b n : Z) : fraction :=
  if 0 <=? n then (b ^ n, 1) else (1, b ^ (- n)).

Definition fraction_floor (x : fraction) : Z := fst x / snd x.

(** The nearest integer, a tie going to the even one. *)
Definition round_half_even (x : fraction) : Z :=
  let q := fst x / snd x in
  let r := fst x mod snd x in
  match (2 * r) ?= snd x with
  | Lt => q
  | Gt => q + 1
  | Eq => if Z.even q then q else q + 1
  end.

(** [floor (log2 x)] *)
Definition floor_log2 (x : fraction) : Z :=
  let t := Z.log2 (fst x) - Z.log2 (snd x) in
  if fraction_ltb x (power 2 t) then t - 1 else t.

(** A finite double that is not zero is [m * 2^e] with [0 < m < 2^53]
    and [-1074 <= e <= 971], [m] being at least [2^52] unless [e] is
    [-1074]. *)
Inductive nearest :=
| Overflow
| Underflow
| Double (m e : Z).

(** The double nearest to a positive rational. *)
Definition nearest_double (x : fraction) : nearest :=
  let e := Z.max (floor_log2 x - 52) (-1074) in
  let m := round_half_even (fraction_mul x (power 2 (- e))) in
  let '(m, e) := if m =? 2 ^ 53 then (2 ^ 52, e + 1) else (m, e) in
  if 971 <? e then Overflow
  else if m =? 0 then Underflow
  else Double m e.

(** The rationals that round to the double [m * 2^e] lie between the
    middle to the double below and the middle to the double above, the
    double below being half as far when [m] is [2^52]; the two middles
    round to it when [m] is even. In units of [2^(e-2)]: *)
Definition lower_bound (m e : Z) : Z :=
  if (m =? 2 ^ 52) && (-1074 <? e) then 4 * m - 1 else 4 * m - 2.

Definition upper_bound (m : Z) : Z := 4 * m + 2.

Definition rounds_to (m e : Z) (x : fraction) : bool :=
  let y := fraction_mul x (power 2 (2 - e)) in
  if Z.even m then
    fraction_leb (lower_bound m e, 1) y && fraction_leb y (upper_bound m, 1)
  else
    fraction_ltb (lower_bound m e, 1) y && fraction_ltb y (upper_bound m, 1).

(** The first [n] from [n0] on with [x < 10^n]. *)
Fixpoint magnitude_from (fuel : nat) (x : fraction) (n0 : Z) : Z :=
  match fuel with
  | O => n0
  | S fuel =>
      if fraction_ltb x (power 10 n0) then n0
      else magnitude_from fuel x (n0 + 1)
  end.

(** [n] with [10^(n-1) <= x < 10^n]; the search starts below it. *)
Definition magnitude (x : fraction) : Z :=
  magnitude_from 8 x (floor_log2 x * 30103 / 100000 - 1).

(** [Number::toString], step 5: integers [n], [k] and [s] such that
    [s] has [k] digits, [s * 10^(n-k)] rounds to the double and [k] is
    as small as possible; of two such [s] the one whose value is closer
    to the double. The result is [s] and [n - k]; seventeen digits
    always do. *)
Fixpoint shortest_from (fuel : nat) (m e n k : Z) : Z * Z :=
  let v := fraction_mul (m, 1) (power 2 e) in
  let below := fraction_floor (fraction_mul v (power 10 (k - n))) in
  let above := below + 1 in
  let unit := power 10 (n - k) in
  let below_is_closer :=
    fraction_leb (fraction_mul (2, 1) v)
                 (fraction_mul (below + above, 1) unit) in
  let below_rounds := rounds_to m e (fraction_mul (below, 1) unit) in
  let above_rounds := rounds_to m e (fraction_mul (above, 1) unit) in
  match fuel with
  | O => (if below_is_closer then below else above, n - k)
  | S fuel =>
      if below_rounds && (below_is_closer || negb above_rounds)
      then (below, n - k)
      else if above_rounds then (above, n - k)
      else shortest_from fuel m e n (k + 1)
  end.

Definition shortest (m e : Z) : Z * Z :=
  shortest_from 17 m e (magnitude (fraction_mul (m, 1) (power 2 e))) 1.

(** The value [0.ds * 10^n]. *)
Definition decimal_value (ds : list digit) (n : Z) : fraction :=
  fraction_mul (Z.of_N (N_of_digits ds), 1)
               (power 10 (n - Z.of_nat (length ds))).

(** An integer up to [2^53] is a double, printed from its own
    digits. *)
Definition is_safe_integer (ds : list digit) (n : Z) : bool :=
  (Z.of_nat (length ds) <=? n) && (n <=? 16)
  && (N_of_digits (ds ++ repeat Dg0 (Z.to_nat n - length ds)) <=? 2 ^ 53)%N.

(** The Number value of the mathematical value of [x]. *)
Definition Number_value (x : number) : number :=
  match x with
  | Finite negative ds n =>
      if canonical_digits ds && is_safe_integer ds n then x
      else
        match mk_number negative ds n with
        | Finite negative ds n =>
            match nearest_double (decimal_value ds n) with
            | Overflow => Infinity negative
            | Underflow => Zero negative
            | Double m e =>
                let '(s, j) := shortest m e in
                let digits := digits_of_N (Z.to_N s) in
                mk_number negative digits (Z.of_nat (length digits) + j)
            end
        | zero => zero
        end
  | _ => x
  end.

Local Close Scope Z_scope.

Definition digit_eqb (a b : digit) : bool :=
  match a, b with
  | Dg0, Dg0 | Dg1, Dg1 | Dg2, Dg2 | Dg3, Dg3 | Dg4, Dg4
  | Dg5, Dg5 | Dg6, Dg6 | Dg7, Dg7 | Dg8, Dg8 | Dg9, Dg9 => true
  | _, _ => false
  end.

Fixpoint digits_eqb (a b : list digit) : bool :=
  match a, b with
  | [], [] => true
  | x :: a, y :: b => digit_eqb x y && digits_eqb a b
  | _, _ => false
  end.

Definition number_eqb (x y : number) : bool :=
  match x, y with
  | NaN, NaN => true
  | Infinity a, Infinity b | Zero a, Zero b => Bool.eqb a b
  | Finite a ds n, Finite b ds' n' =>
      Bool.eqb a b && digits_eqb ds ds' && (n =? n')%Z
  | _, _ => false
  end.

(** [x] is a number as the platform has it: the digits of a double. *)
Definition is_Number (x : number) : bool :=
  canonical x && number_eqb (Number_value x) x.

Definition chars_of_digits (ds : list digit) : list ascii := map digit_char ds.

(** Decimal text of an integer, as a template literal prints it. *)
Definition Z_to_chars (z : Z) : list ascii :=
  (if (z <? 0)%Z then ["-"%char] else [])
    ++ chars_of_digits (digits_of_N (Z.abs_N z)).

Definition Z_to_string (z : Z) : string := string_of_list_ascii (Z_to_chars z).

Definition zeros (k : nat) : list ascii := repeat "0"%char k.

(** [Number::toString] on the digits [ds] (there are [k] of them) and the
    point position [n]: steps 6 to 10 of the algorithm. *)
Definition finite_to_chars (ds : list digit) (n : Z) : list ascii :=
  let k := Z.of_nat (length ds) in
  let cs := chars_of_digits ds in
  if ((k <=? n) && (n <=? 21))%Z then
    cs ++ zeros (Z.to_nat (n - k))
  else if ((0 <? n) && (n <=? 21))%Z then
    firstn (Z.to_nat n) cs ++ "."%char :: skipn (Z.to_nat n) cs
  else if ((-6 <? n) && (n <=? 0))%Z then
    "0"%char :: "."%char :: zeros (Z.to_nat (- n)) ++ cs
  else
    let e := (n - 1)%Z in
    let exponent :=
      "e"%char :: (if (e <? 0)%Z then "-"%char else "+"%char)
               :: chars_of_digits (digits_of_N (Z.abs_N e)) in
    match cs with
    | [] => exponent
    | [d] => d :: exponent
    | d :: more => d :: "."%char :: more ++ exponent
    end.

Definition number_to_chars (x : number) : list ascii :=
  match x with
  | NaN => list_ascii_of_string "NaN"
  | Infinity false => list_ascii_of_string "Infinity"
  | Infinity true => list_ascii_of_string "-Infinity"
  | Zero _ => ["0"%char]
  | Finite negative ds n =>
      (if negative then ["-"%char] else []) ++ finite_to_chars ds n
  end.

(** [Number.prototype.toString()] / [String(x)] on a number. *)
Definition number_to_string (x : number) : string :=
  string_of_list_ascii (number_to_chars x).

Definition is_finite (x : number) : bool :=
  match x with
  | NaN | Infinity _ => false
  | _ => true
  end.

(** ** Values

    The values [JSON.parse] produces and [JSON.stringify] takes in this
    code base. An object is the list of its own properties in the order
    [Object.keys] and [JSON.stringify] go through them: the keys that
    are array indices first, in ascending order, and then the others in
    insertion order. The objects the code makes have no array index for
    a key. A property that is absent (or [undefined]) is not in the
    list. *)

#[warnings="-register-all"]
Inductive JSValue :=
| JNull
| JBool (b : bool)
| JNum (x : number)
| JStr (s : string)
| JArr (elements : list JSValue)
| JObj (properties : list (string * JSValue)).

(** [o.key] / ["key" in o] on an object. *)
Fixpoint get_property (key : string) (props : list (string * JSValue))
  : option JSValue :=
  match props with
  | [] => None
  | (k, v) :: r => if String.eqb k key then Some v else get_property key r
  end.

Fixpoint join_chars (sep : list ascii) (parts : list (list ascii))
  : list ascii :=
  match parts with
  | [] => []
  | [p] => p
  | p :: r => p ++ sep ++ join_chars sep r
  end.

(** [Array.prototype.join] on strings. *)
Definition join (sep : string) (parts : list string) : string :=
  string_of_list_ascii
    (join_chars (list_ascii_of_string sep) (map list_ascii_of_string parts)).

(** [String(v)]: [ToString] on a value; an array joins its elements with
    a comma, [null] elements giving the empty string. *)
Fixpoint to_chars (v : JSValue) : list ascii :=
  match v with
  | JNull => list_ascii_of_string "null"
  | JBool true => list_ascii_of_string "true"
  | JBool false => list_ascii_of_string "false"
  | JNum x => number_to_chars x
  | JStr s => list_ascii_of_string s
  | JArr l =>
      join_chars [","%char]
        (map (fun e => match e with JNull => [] | _ => to_chars e end) l)
  | JObj _ => list_ascii_of_string "[object Object]"
  end.

Definition ToString (v : JSValue) : string := string_of_list_ascii (to_chars v).

(** [String(x)] where [x] may be [undefined]. *)
Definition String_of (v : option JSValue) : string :=
  match v with
  | None => "undefined"
  | Some v => ToString v
  end.

(** ** Code units and code points *)

(** The characters of a code unit. *)
Definition encode_unit (n : N) : list ascii :=
  if (n <? 128)%N then [ascii_of_N n]
  else if (n <? 2048)%N then
    [ascii_of_N (192 + n / 64); ascii_of_N (128 + n mod 64)]%N
  else
    [ascii_of_N (224 + n / 4096); ascii_of_N (128 + (n / 64) mod 64);
     ascii_of_N (128 + n mod 64)]%N.

Definition is_continuation (c : ascii) : bool :=
  ((128 <=? N_of_ascii c) && (N_of_ascii c <? 192))%N.

(** The first character of a surrogate, a code unit from 0xD800 to
    0xDFFF, is 0xED; its second is from 0xA0 on, and below 0xB0 in a
    high surrogate (a code unit below 0xDC00). *)
Definition surrogate_lead : ascii := ascii_of_N 237.

Definition is_high_surrogate (c1 c2 c3 : ascii) : bool :=
  ((N_of_ascii c1 =? 237) && (160 <=? N_of_ascii c2)
   && (N_of_ascii c2 <? 176))%N
  && is_continuation c3.

Definition is_low_surrogate (c1 c2 c3 : ascii) : bool :=
  ((N_of_ascii c1 =? 237) && (176 <=? N_of_ascii c2)
   && (N_of_ascii c2 <? 192))%N
  && is_continuation c3.

(** The surrogate whose second and third characters are [c2] and
    [c3]. *)
Definition surrogate (c2 c3 : ascii) : N :=
  (53248 + (N_of_ascii c2 - 128) * 64 + (N_of_ascii c3 - 128))%N.

(** [StringToCodePoints]: a high surrogate and the low surrogate that
    follows it are one code point, and a surrogate that is not of such
    a pair is a code point of its own. Of the other code points each
    character is kept apart. *)
Inductive CodePoint :=
| Character (c : ascii)
| SurrogatePair (c2 c3 d2 d3 : ascii)
| LoneSurrogate (c2 c3 : ascii).

Fixpoint StringToCodePoints (s : list ascii) : list CodePoint :=
  match s with
  | [] => []
  | c1 :: r1 =>
      match r1 with
      | c2 :: c3 :: r3 =>
          if is_high_surrogate c1 c2 c3 then
            match r3 with
            | d1 :: d2 :: d3 :: r6 =>
                if is_low_surrogate d1 d2 d3 then
                  SurrogatePair c2 c3 d2 d3 :: StringToCodePoints r6
                else LoneSurrogate c2 c3 :: StringToCodePoints r3
            | _ => LoneSurrogate c2 c3 :: StringToCodePoints r3
            end
          else if is_low_surrogate c1 c2 c3 then
            LoneSurrogate c2 c3 :: StringToCodePoints r3
          else Character c1 :: StringToCodePoints r1
      | _ => Character c1 :: StringToCodePoints r1
      end
  end.

(** The characters of a code point. *)
Definition code_point_chars (p : CodePoint) : list ascii :=
  match p with
  | Character c => [c]
  | SurrogatePair c2 c3 d2 d3 =>
      [surrogate_lead; c2; c3; surrogate_lead; d2; d3]
  | LoneSurrogate c2 c3 => [surrogate_lead; c2; c3]
  end.

(** ** [JSON.stringify]

    [QuoteJSONString]: the two-character escapes, [\u00xx] for the other
    control characters, [\udxxx] for a surrogate that is not of a pair,
    every other code point as it is. *)

Definition hex_char (n : N) : ascii :=
  nth (N.to_nat n) (list_ascii_of_string "0123456789abcdef") "0"%char.

Definition escape_char (c : ascii) : list ascii :=
  let n := N_of_ascii c in
  if (n =? 8)%N then list_ascii_of_string "\b"
  else if (n =? 9)%N then list_ascii_of_string "\t"
  else if (n =? 10)%N then list_ascii_of_string "\n"
  else if (n =? 12)%N then list_ascii_of_string "\f"
  else if (n =? 13)%N then list_ascii_of_string "\r"
  else if (n =? 34)%N then ["\"%char; c]
  else if (n =? 92)%N then list_ascii_of_string "\\"
  else if (n <? 32)%N then
    list_ascii_of_string "\u00" ++ [hex_char (n / 16); hex_char (n mod 16)]
  else [c].

(** [UnicodeEscape]: [\u] and the four lowercase hexadecimal digits
    of the code unit. *)
Definition UnicodeEscape (n : N) : list ascii :=
  list_ascii_of_string "\u"
    ++ [hex_char (n / 4096); hex_char ((n / 256) mod 16);
        hex_char ((n / 16) mod 16); hex_char (n mod 16)]%N.

Definition quote_code_point (p : CodePoint) : list ascii :=
  match p with
  | Character c => escape_char c
  | SurrogatePair _ _ _ _ => code_point_chars p
  | LoneSurrogate c2 c3 => UnicodeEscape (surrogate c2 c3)
  end.

(** The quotation mark, code unit 34. *)
Definition quotation_mark : ascii := ascii_of_N 34.

Definition quote_chars (s : list ascii) : list ascii :=
  quotation_mark
    :: flat_map quote_code_point (StringToCodePoints s) ++ [quotation_mark].

Definition quote (s : string) : list ascii :=
  quote_chars (list_ascii_of_string s).

(** [SerializeJSONProperty] on a number: a number that is not finite is
    written [null]. *)
Definition json_number (x : number) : list ascii :=
  if is_finite x then number_to_chars x else list_ascii_of_string "null".

Fixpoint stringify_chars (v : JSValue) : list ascii :=
  match v with
  | JNull => list_ascii_of_string "null"
  | JBool true => list_ascii_of_string "true"
  | JBool false => list_ascii_of_string "false"
  | JNum x => json_number x
  | JStr s => quote s
  | JArr l =>
      "["%char :: join_chars [","%char] (map stringify_chars l) ++ ["]"%char]
  | JObj props =>
      "{"%char
        :: join_chars [","%char]
             (map (fun kv => quote (fst kv) ++ ":"%char :: stringify_chars (snd kv))
                  props)
        ++ ["}"%char]
  end.

Definition JSON_stringify (v : JSValue) : string :=
  string_of_list_ascii (stringify_chars v).

(** ** [JSON.parse] *)

(** JSON white space: TAB, LF, CR, SPACE. *)
Definition is_json_ws (c : ascii) : bool :=
  let n := N_of_ascii c in
  ((n =? 9) || (n =? 10) || (n =? 13) || (n =? 32))%N.

Fixpoint skip_ws (s : list ascii) : list ascii :=
  match s with
  | c :: r => if is_json_ws c then skip_ws r else s
  | [] => []
  end.

Definition hex_value (c : ascii) : option N :=
  let n := N_of_ascii c in
  if ((48 <=? n) && (n <=? 57))%N then Some (n - 48)%N
  else if ((97 <=? n) && (n <=? 102))%N then Some (n - 87)%N
  else if ((65 <=? n) && (n <=? 70))%N then Some (n - 55)%N
  else None.

(** The code unit of [\uh1h2h3h4]. *)
Definition unicode_escape (h1 h2 h3 h4 : ascii) : option N :=
  match hex_value h1, hex_value h2, hex_value h3, hex_value h4 with
  | Some a, Some b, Some c, Some d =>
      Some (((a * 16 + b) * 16 + c) * 16 + d)%N
  | _, _, _, _ => None
  end.

Definition cons_chars (cs : list ascii) (r : option (list ascii * list ascii))
  : option (list ascii * list ascii) :=
  match r with
  | Some (cs', rest) => Some (cs ++ cs', rest)
  | None => None
  end.

Definition cons_char (c : ascii) (r : option (list ascii * list ascii))
  : option (list ascii * list ascii) :=
  cons_chars [c] r.

(** The characters of a string literal, after its opening quote, and the
    input after its closing quote. *)
Fixpoint parse_string_chars (s : list ascii)
  : option (list ascii * list ascii) :=
  match s with
  | [] => None
  | c :: r =>
      if (N_of_ascii c =? 34)%N then Some ([], r)
      else if (N_of_ascii c =? 92)%N then
        match r with
        | [] => None
        | e :: r1 =>
            if (N_of_ascii e =? 34)%N then cons_char e (parse_string_chars r1)
            else
            match e with
            | "\"%char => cons_char "\"%char (parse_string_chars r1)
            | "/"%char => cons_char "/"%char (parse_string_chars r1)
            | "b"%char => cons_char (ascii_of_N 8) (parse_string_chars r1)
            | "f"%char => cons_char (ascii_of_N 12) (parse_string_chars r1)
            | "n"%char => cons_char (ascii_of_N 10) (parse_string_chars r1)
            | "r"%char => cons_char (ascii_of_N 13) (parse_string_chars r1)
            | "t"%char => cons_char (ascii_of_N 9) (parse_string_chars r1)
            | "u"%char =>
                match r1 with
                | h1 :: h2 :: h3 :: h4 :: r2 =>
                    match unicode_escape h1 h2 h3 h4 with
                    | Some u =>
                        cons_chars (encode_unit u) (parse_string_chars r2)
                    | None => None
                    end
                | _ => None
                end
            | _ => None
            end
        end
      else if (N_of_ascii c <? 32)%N then None
      else cons_char c (parse_string_chars r)
  end.

Definition parse_string (s : list ascii) : option (string * list ascii) :=
  match parse_string_chars s with
  | Some (cs, rest) => Some (string_of_list_ascii cs, rest)
  | None => None
  end.

(** The longest prefix of digits. *)
Fixpoint span_digits (s : list ascii) : list digit * list ascii :=
  match s with
  | c :: r =>
      match char_digit c with
      | Some d => let '(ds, rest) := span_digits r in (d :: ds, rest)
      | None => ([], s)
      end
  | [] => ([], [])
  end.

(** What can follow a run of digits without joining it. *)
Definition not_digit_start (rest : list ascii) : Prop :=
  match rest with
  | [] => True
  | c :: _ => char_digit c = None
  end.

(** What follows a value in the text [JSON.stringify] writes: nothing,
    a comma or a closing bracket. *)
Definition value_end (rest : list ascii) : Prop :=
  match rest with
  | [] => True
  | c :: _ => c = ","%char \/ c = "]"%char \/ c = "}"%char
  end.

(** The first character of a value in the text [JSON.stringify] writes:
    of [null], [true], [false], a string, an array, an object, a
    number. *)
Definition value_start (c : ascii) : bool :=
  match c with
  | "n" | "t" | "f" | "[" | "{" | "-" => true
  | _ => (N_of_ascii c =? 34)%N
         || match char_digit c with Some _ => true | None => false end
  end%char.

(** [int]: a single [0], or digits that do not start with [0]. *)
Definition parse_int (s : list ascii) : option (list digit * list ascii) :=
  match s with
  | "0"%char :: r => Some ([Dg0], r)
  | _ => match span_digits s with
         | ([], _) => None
         | (ds, rest) => Some (ds, rest)
         end
  end.

(** [frac]: nothing, or a point and at least one digit. *)
Definition parse_frac (s : list ascii) : option (list digit * list ascii) :=
  match s with
  | "."%char :: r =>
      match span_digits r with
      | ([], _) => None
      | (ds, rest) => Some (ds, rest)
      end
  | _ => Some ([], s)
  end.

Definition parse_exp_digits (negative : bool) (s : list ascii)
  : option (Z * list ascii) :=
  match span_digits s with
  | ([], _) => None
  | (ds, rest) =>
      let e := Z.of_N (N_of_digits ds) in
      Some (if negative then (- e)%Z else e, rest)
  end.

(** [exp]: nothing, or [e]/[E], an optional sign and at least one digit. *)
Definition parse_exp (s : list ascii) : option (Z * list ascii) :=
  match s with
  | c :: r =>
      if ((N_of_ascii c =? 101) || (N_of_ascii c =? 69))%N then
        match r with
        | "+"%char :: r1 => parse_exp_digits false r1
        | "-"%char :: r1 => parse_exp_digits true r1
        | _ => parse_exp_digits false r
        end
      else Some (0%Z, s)
  | [] => Some (0%Z, s)
  end.

Definition parse_unsigned (negative : bool) (s : list ascii)
  : option (number * list ascii) :=
  match parse_int s with
  | None => None
  | Some (int_digits, r1) =>
      match parse_frac r1 with
      | None => None
      | Some (frac_digits, r2) =>
          match parse_exp r2 with
          | None => None
          | Some (e, r3) =>
              Some (Number_value
                      (mk_number negative (int_digits ++ frac_digits)
                         (Z.of_nat (length int_digits) + e)),
                    r3)
          end
      end
  end.

Definition parse_number (s : list ascii) : option (number * list ascii) :=
  match s with
  | "-"%char :: r => parse_unsigned true r
  | _ => parse_unsigned false s
  end.

(** A value, the elements of an array after the first is due, the
    members of an object after the first is due. [fuel] bounds the number
    of nested calls; [JSON_parse] gives more than the text can use. *)
(** The objects of [JSON.parse]. *)

(** An array index: the canonical decimal form of an integer below
    [2^32 - 1]. *)
Definition array_index (key : string) : option N :=
  match span_digits (list_ascii_of_string key) with
  | (d :: ds, []) =>
      if is_zero_digit d && negb (length ds =? 0)%nat then None
      else
        let n := N_of_digits (d :: ds) in
        if (n <? 4294967295)%N then Some n else None
  | _ => None
  end.

Fixpoint has_property (key : string) (props : list (string * JSValue))
  : bool :=
  match props with
  | [] => false
  | (k, _) :: r => String.eqb k key || has_property key r
  end.

Fixpoint replace_property (key : string) (v : JSValue)
                          (props : list (string * JSValue))
  : list (string * JSValue) :=
  match props with
  | [] => []
  | (k, w) :: r =>
      if String.eqb k key then (k, v) :: r
      else (k, w) :: replace_property key v r
  end.

(** A new property whose key is the array index [i] comes after the
    smaller array indices. *)
Fixpoint insert_index (i : N) (key : string) (v : JSValue)
                      (props : list (string * JSValue))
  : list (string * JSValue) :=
  match props with
  | [] => [(key, v)]
  | (k, w) :: r =>
      match array_index k with
      | Some j =>
          if (j <? i)%N then (k, w) :: insert_index i key v r
          else (key, v) :: props
      | None => (key, v) :: props
      end
  end.

(** [CreateDataProperty(object, key, v)]: a property the object has
    keeps its place and takes the value, a new one takes its place in
    the order of the keys. *)
Definition define_property (key : string) (v : JSValue)
                           (props : list (string * JSValue))
  : list (string * JSValue) :=
  if has_property key props then replace_property key v props
  else
    match array_index key with
    | Some i => insert_index i key v props
    | None => props ++ [(key, v)]
    end.

(** The object of the members of an object literal, which are defined
    from left to right. *)
Definition object_of (members : list (string * JSValue))
  : list (string * JSValue) :=
  fold_left (fun object kv => define_property (fst kv) (snd kv) object)
            members [].

Fixpoint parse_value (fuel : nat) (s : list ascii)
  : option (JSValue * list ascii) :=
  match fuel with
  | O => None
  | S fuel =>
      match skip_ws s with
      | "n"%char :: "u"%char :: "l"%char :: "l"%char :: r => Some (JNull, r)
      | "t"%char :: "r"%char :: "u"%char :: "e"%char :: r => Some (JBool true, r)
      | "f"%char :: "a"%char :: "l"%char :: "s"%char :: "e"%char :: r =>
          Some (JBool false, r)
      | "["%char :: r =>
          match skip_ws r with
          | "]"%char :: rest => Some (JArr [], rest)
          | _ =>
              match parse_elements fuel r with
              | Some (l, rest) => Some (JArr l, rest)
              | None => None
              end
          end
      | "{"%char :: r =>
          match skip_ws r with
          | "}"%char :: rest => Some (JObj [], rest)
          | _ =>
              match parse_members fuel r with
              | Some (l, rest) => Some (JObj (object_of l), rest)
              | None => None
              end
          end
      | c :: r =>
          if (N_of_ascii c =? 34)%N then
            match parse_string r with
            | Some (str, rest) => Some (JStr str, rest)
            | None => None
            end
          else
            match parse_number (c :: r) with
            | Some (x, rest) => Some (JNum x, rest)
            | None => None
            end
      | [] => None
      end
  end

with parse_elements (fuel : nat) (s : list ascii)
  : option (list JSValue * list ascii) :=
  match fuel with
  | O => None
  | S fuel =>
      match parse_value fuel s with
      | None => None
      | Some (v, r) =>
          match skip_ws r with
          | ","%char :: r1 =>
              match parse_elements fuel r1 with
              | Some (l, rest) => Some (v :: l, rest)
              | None => None
              end
          | "]"%char :: rest => Some ([v], rest)
          | _ => None
          end
      end
  end

with parse_members (fuel : nat) (s : list ascii)
  : option (list (string * JSValue) * list ascii) :=
  match fuel with
  | O => None
  | S fuel =>
      match skip_ws s with
      | c :: r =>
          if (N_of_ascii c =? 34)%N then
            match parse_string r with
            | None => None
            | Some (key, r1) =>
                match skip_ws r1 with
                | ":"%char :: r2 =>
                    match parse_value fuel r2 with
                    | None => None
                    | Some (v, r3) =>
                        match skip_ws r3 with
                        | ","%char :: r4 =>
                            match parse_members fuel r4 with
                            | Some (l, rest) => Some ((key, v) :: l, rest)
                            | None => None
                            end
                        | "}"%char :: rest => Some ([(key, v)], rest)
                        | _ => None
                        end
                    end
                | _ => None
                end
            end
          else None
      | [] => None
      end
  end.

(** [JSON.parse(text)]; [None] stands for the [SyntaxError] it throws. *)
Definition JSON_parse (text : string) : option JSValue :=
  let s := list_ascii_of_string text in
  match parse_value (S (length s)) s with
  | Some (v, rest) =>
      match skip_ws rest with
      | [] => Some v
      | _ => None
      end
  | None => None
  end.

End JS.

(* ===================================================================== *)
(** * [src/errors.ts]: error classes and [handleAPIError] *)
(* ===================================================================== *)

Module Errors.

Import JS.

(** The classes of the exceptions that occur: the SDK's own hierarchy
    and the platform's [SyntaxError] ([JSON.parse]), [TypeError],
    [RangeError] (a call with too many arguments) and [DOMException]
    ([atob]). *)
Inductive ErrorClass :=
| Error_
| SyntaxError_
| TypeError_
| RangeError_
| DOMException_
| GradiumError_
| AuthenticationError_
| ValidationError_
| APIError_
| NotFoundError_
| RateLimitError_
| InternalServerError_
| WebSocketError_
| TimeoutError_
| ConnectionError_.

(** [class C extends parent]. *)
Definition parent (c : ErrorClass) : option ErrorClass :=
  match c with
  | Error_ => None
  | SyntaxError_ | TypeError_ | RangeError_ | DOMException_
  | GradiumError_ => Some Error_
  | AuthenticationError_ | ValidationError_ | APIError_
  | WebSocketError_ | TimeoutError_ | ConnectionError_ => Some GradiumError_
  | NotFoundError_ | RateLimitError_ | InternalServerError_ => Some APIError_
  end.

(** An exception value: one constructor per class that is instantiated,
    with the fields its constructor sets. *)
Inductive JSError :=
| SyntaxError (message : string)
| TypeError (message : string)
| RangeError (message : string)
| InvalidCharacterError
| AuthenticationError (message : string)
| ValidationError (errors : list JSValue) (message : string)
| APIError (status : Z) (message : string) (body : option JSValue)
| NotFoundError (message : string)
| RateLimitError (message : string) (retryAfter : option number)
| InternalServerError (status : Z) (message : string)
| WebSocketError (message : string) (code : option number)
| TimeoutError (message : string)
| ConnectionError (message : string).

Definition class_of (e : JSError) : ErrorClass :=
  match e with
  | SyntaxError _ => SyntaxError_
  | TypeError _ => TypeError_
  | RangeError _ => RangeError_
  | InvalidCharacterError => DOMException_
  | AuthenticationError _ => AuthenticationError_
  | ValidationError _ _ => ValidationError_
  | APIError _ _ _ => APIError_
  | NotFoundError _ => NotFoundError_
  | RateLimitError _ _ => RateLimitError_
  | InternalServerError _ _ => InternalServerError_
  | WebSocketError _ _ => WebSocketError_
  | TimeoutError _ => TimeoutError_
  | ConnectionError _ => ConnectionError_
  end.

Definition ErrorClass_eqb (a b : ErrorClass) : bool :=
  match a, b with
  | Error_, Error_ | SyntaxError_, SyntaxError_ | TypeError_, TypeError_
  | RangeError_, RangeError_
  | DOMException_, DOMException_ | GradiumError_, GradiumError_
  | AuthenticationError_, AuthenticationError_
  | ValidationError_, ValidationError_ | APIError_, APIError_
  | NotFoundError_, NotFoundError_ | RateLimitError_, RateLimitError_
  | InternalServerError_, InternalServerError_
  | WebSocketError_, WebSocketError_ | TimeoutError_, TimeoutError_
  | ConnectionError_, ConnectionError_ => true
  | _, _ => false
  end.

(** [c] is [d] or below it (the hierarchy is three deep). *)
Definition subclass (c d : ErrorClass) : bool :=
  ErrorClass_eqb c d
  || match parent c with
     | None => false
     | Some p =>
         ErrorClass_eqb p d
         || match parent p with
            | None => false
            | Some q =>
                ErrorClass_eqb q d
                || match parent q with
                   | None => false
                   | Some r => ErrorClass_eqb r d
                   end
            end
     end.

(** [e instanceof C]. *)
Definition instanceof (e : JSError) (c : ErrorClass) : bool :=
  subclass (class_of e) c.


(** How a call completes: by returning or by throwing. *)
Inductive completion (A : Type) :=
| Return (a : A)
| Throw (e : JSError).
Arguments Return {A} a.
Arguments Throw {A} e.

(** [Array.prototype.join]: [null] elements give the empty string. *)
Definition array_join (sep : string) (l : list JSValue) : string :=
  string_of_list_ascii
    (join_chars (list_ascii_of_string sep)
       (map (fun e => match e with JNull => [] | _ => to_chars e end) l)).

(** [`${e.loc.join(".")}: ${e.msg}`]; reading [loc] of something that is
    not an object, or [join] of something that is not an array, throws a
    [TypeError]. *)
Definition format_detail (e : JSValue) : completion string :=
  match e with
  | JObj props =>
      match get_property "loc" props with
      | Some (JArr loc) =>
          Return (array_join "." loc ++ ": "
                    ++ String_of (get_property "msg" props))%string
      | _ => Throw (TypeError "e.loc.join is not a function")
      end
  | _ => Throw (TypeError "undefined is not an object (evaluating 'e.loc.join')")
  end.

Fixpoint format_details (l : list JSValue) : completion (list string) :=
  match l with
  | [] => Return []
  | e :: r =>
      match format_detail e with
      | Throw err => Throw err
      | Return s =>
          match format_details r with
          | Throw err => Throw err
          | Return ss => Return (s :: ss)
          end
      end
  end.

(** [ValidationError.formatErrors(errors)]:
    [errors.map((e) => ...).join("; ")]. *)
Definition formatErrors (errors : JSValue) : completion string :=
  match errors with
  | JArr l =>
      match format_details l with
      | Throw err => Throw err
      | Return ss => Return (join "; " ss)
      end
  | _ => Throw (TypeError "errors.map is not a function")
  end.

(** [new ValidationError(errors)], the [message] argument left out. The
    value [detail] of the response body is passed unchecked: when it is
    not a list of details, [formatErrors] throws inside the
    constructor. *)
Definition new_ValidationError (errors : JSValue) : completion JSError :=
  match formatErrors errors with
  | Throw err => Throw err
  | Return errorMessage =>
      match errors with
      | JArr l => Return (ValidationError l errorMessage)
      | _ => Throw (TypeError "errors.map is not a function")
      end
  end.



(** What [handleAPIError] reads of a [Response]: its status, the outcome
    of [response.json()] and of [response.text()] ([None] when the
    promise rejects) and [response.headers.get("retry-after")]. *)
Record Response := {
  status : Z;
  json : option JSValue;
  text : option string;
  retry_after : option string
}.

(** [try { body = await response.json(); } catch
    { body = await response.text().catch(() => null); }] *)
Definition read_body (response : Response) : JSValue :=
  match json response with
  | Some v => v
  | None =>
      match text response with
      | Some s => JStr s
      | None => JNull
      end
  end.

(** [typeof body === "object" && body && "detail" in body], with the
    value of [body.detail] when it holds. *)
Definition detail_in (body : JSValue) : option JSValue :=
  match body with
  | JObj props => get_property "detail" props
  | _ => None
  end.

Definition detail_or (body : JSValue) (fallback : string) : string :=
  match detail_in body with
  | Some detail => ToString detail
  | None => fallback
  end.

(** [StrWhiteSpaceChar], which [parseInt] skips: the code units of
    [WhiteSpace] (TAB, VT, FF, the byte order mark and the space
    separators) and of [LineTerminator]. *)
Definition StrWhiteSpaceChar : list N :=
  [9; 10; 11; 12; 13; 32; 160; 5760; 8192; 8193; 8194; 8195; 8196; 8197;
   8198; 8199; 8200; 8201; 8202; 8232; 8233; 8239; 8287; 12288; 65279]%N.

(** [cs] is the characters of such a code unit. *)
Definition is_StrWhiteSpaceChar (cs : list ascii) : bool :=
  existsb (fun n => String.eqb (string_of_list_ascii (encode_unit n))
                               (string_of_list_ascii cs))
          StrWhiteSpaceChar.

Fixpoint skip_StrWhiteSpace (s : list ascii) : list ascii :=
  match s with
  | [] => []
  | c1 :: r1 =>
      if is_StrWhiteSpaceChar [c1] then skip_StrWhiteSpace r1
      else
        match r1 with
        | [] => s
        | c2 :: r2 =>
            if is_StrWhiteSpaceChar [c1; c2] then skip_StrWhiteSpace r2
            else
              match r2 with
              | [] => s
              | c3 :: r3 =>
                  if is_StrWhiteSpaceChar [c1; c2; c3]
                  then skip_StrWhiteSpace r3
                  else s
              end
        end
  end.

Definition parse_digits (negative : bool) (s : list ascii) : number :=
  match span_digits s with
  | ([], _) => NaN
  | (ds, _) => Number_value (mk_number negative ds (Z.of_nat (length ds)))
  end.

(** [Number.parseInt(s, 10)]. *)
Definition parseInt10 (s : string) : number :=
  match skip_StrWhiteSpace (list_ascii_of_string s) with
  | "-"%char :: r => parse_digits true r
  | "+"%char :: r => parse_digits false r
  | r => parse_digits false r
  end.

(** [retryAfter ? Number.parseInt(retryAfter, 10) : undefined]. *)
Definition retryAfter_of (header : option string) : option number :=
  match header with
  | None => None
  | Some s => if String.eqb s EmptyString then None else Some (parseInt10 s)
  end.

(** [handleAPIError(response)]. Its result type is [Promise<never>]: the
    promise it returns can only reject, with the error thrown. *)
Definition handleAPIError (response : Response) : completion Empty_set :=
  let status := status response in
  let body := read_body response in
  match (if (status =? 422)%Z then detail_in body else None) with
  | Some detail =>
      match new_ValidationError detail with
      | Return validationError => Throw validationError
      | Throw err => Throw err
      end
  | None =>
      if ((status =? 401) || (status =? 403))%Z then
        Throw (AuthenticationError (detail_or body "Authentication failed"))
      else if (status =? 404)%Z then
        Throw (NotFoundError (detail_or body "Resource not found"))
      else if (status =? 429)%Z then
        Throw (RateLimitError (detail_or body "Rate limit exceeded")
                 (retryAfter_of (retry_after response)))
      else if (500 <=? status)%Z then
        Throw (InternalServerError status
                 (detail_or body ("Server error (" ++ Z_to_string status ++ ")")%string))
      else
        Throw (APIError status
                 (detail_or body ("API error (" ++ Z_to_string status ++ ")")%string)
                 (Some body))
  end.

End Errors.

(* ===================================================================== *)
(** * [src/types.ts]: the messages of the two protocols *)
(* ===================================================================== *)

Module Types.

Import JS.

Inductive TTSOutputFormat :=
| wav | pcm | opus | ulaw_8000 | alaw_8000 | pcm_16000 | pcm_24000.

Definition TTSOutputFormat_string (f : TTSOutputFormat) : string :=
  match f with
  | wav => "wav" | pcm => "pcm" | opus => "opus"
  | ulaw_8000 => "ulaw_8000" | alaw_8000 => "alaw_8000"
  | pcm_16000 => "pcm_16000" | pcm_24000 => "pcm_24000"
  end.

(** [json_config?: { padding_bonus?: number }] *)
Record TTSJsonConfig := { padding_bonus : option number }.

Record TTSSetupParams := {
  tts_voice_id : string;
  tts_output_format : TTSOutputFormat;
  tts_model_name : option string;
  tts_json_config : option TTSJsonConfig
}.

(** [TTSClientMessage] *)
Record TTSSetupMessage := {
  setup_voice_id : string;
  setup_output_format : TTSOutputFormat;
  setup_model_name : string;
  setup_json_config : option TTSJsonConfig
}.

Inductive TTSClientMessage :=
| TTSSetup (m : TTSSetupMessage)
| TTSText (text : string)
| TTSEndOfStream.

(** [TTSServerMessage] *)
Inductive TTSServerMessage :=
| TTSReady (request_id : string)
| TTSAudio (audio : string)
| TTSError (message : string) (code : number)
| TTSServerEndOfStream.

Record TTSResult := {
  raw_data : list byte;
  sample_rate : number;
  request_id : string
}.

Inductive STTInputFormat := stt_pcm | stt_wav | stt_opus.

Definition STTInputFormat_string (f : STTInputFormat) : string :=
  match f with
  | stt_pcm => "pcm" | stt_wav => "wav" | stt_opus => "opus"
  end.

Record STTSetupParams := {
  stt_input_format : STTInputFormat;
  stt_model_name : option string
}.

Record STTSetupMessage := {
  setup_input_format : STTInputFormat;
  stt_setup_model_name : string
}.

(** [STTClientMessage] *)
Inductive STTClientMessage :=
| STTSetup (m : STTSetupMessage)
| STTAudio (audio : string)
| STTEndOfStream.

Record STTReadyMessage := {
  ready_request_id : string;
  ready_model_name : string;
  ready_sample_rate : number;
  ready_frame_size : number;
  ready_delay_in_tokens : number;
  ready_text_stream_names : list string
}.

(** [stream_id?: number | null]: absent, [null] or a number. *)
Record STTTextMessage := {
  text : string;
  start_s : number;
  text_stream_id : option (option number)
}.

Record VADPrediction := {
  horizon_s : number;
  inactivity_prob : number
}.

Record STTStepMessage := {
  vad : list VADPrediction;
  step_idx : number;
  step_duration_s : number;
  total_duration_s : number
}.

Record STTEndTextMessage := {
  stop_s : number;
  end_text_stream_id : option (option number)
}.

(** [STTServerMessage] *)
Inductive STTServerMessage :=
| STTReady (m : STTReadyMessage)
| STTText (m : STTTextMessage)
| STTStep (m : STTStepMessage)
| STTEndText (m : STTEndTextMessage)
| STTError (message : string) (code : number)
| STTServerEndOfStream.

(** The object a client message is when it is handed to
    [JSON.stringify]: the properties of the object literal in the order
    the code writes them ([json_config] is assigned afterwards and comes
    last). *)
Definition TTSJsonConfig_object (c : TTSJsonConfig) : JSValue :=
  JObj match padding_bonus c with
       | Some x => [("padding_bonus", JNum x)]
       | None => []
       end.

Definition TTSClientMessage_object (m : TTSClientMessage) : JSValue :=
  match m with
  | TTSSetup s =>
      JObj ([("type", JStr "setup");
             ("voice_id", JStr (setup_voice_id s));
             ("output_format",
              JStr (TTSOutputFormat_string (setup_output_format s)));
             ("model_name", JStr (setup_model_name s))]
            ++ match setup_json_config s with
               | Some c => [("json_config", TTSJsonConfig_object c)]
               | None => []
               end)
  | TTSText text => JObj [("type", JStr "text"); ("text", JStr text)]
  | TTSEndOfStream => JObj [("type", JStr "end_of_stream")]
  end.

Definition STTClientMessage_object (m : STTClientMessage) : JSValue :=
  match m with
  | STTSetup s =>
      JObj [("type", JStr "setup");
            ("input_format",
             JStr (STTInputFormat_string (setup_input_format s)));
            ("model_name", JStr (stt_setup_model_name s))]
  | STTAudio audio => JObj [("type", JStr "audio"); ("audio", JStr audio)]
  | STTEndOfStream => JObj [("type", JStr "end_of_stream")]
  end.

End Types.

(* ===================================================================== *)
(** * Platform: promises and the socket *)
(* ===================================================================== *)

Module Platform.

Import Errors.

(** A promise is pending until the first call of one of its resolving
    functions; later calls do nothing. *)
Inductive Promise (A : Type) :=
| Pending
| Fulfilled (value : A)
| Rejected (reason : JSError).
Arguments Pending {A}.
Arguments Fulfilled {A} value.
Arguments Rejected {A} reason.

Definition resolve {A} (p : Promise A) (value : A) : Promise A :=
  match p with
  | Pending => Fulfilled value
  | _ => p
  end.

Definition reject {A} (p : Promise A) (reason : JSError) : Promise A :=
  match p with
  | Pending => Rejected reason
  | _ => p
  end.

Definition settled {A} (p : Promise A) : bool :=
  match p with
  | Pending => false
  | _ => true
  end.

Inductive ReadyState := CONNECTING | OPEN | CLOSING | CLOSED.

(** The socket as the sessions use it and as
    [src/__tests__/mocks/websocket.ts] provides it: [send] appends to the
    messages written to the channel, [close] closes. *)
Record WebSocket := {
  readyState : ReadyState;
  sentMessages : list string
}.

Definition new_WebSocket : WebSocket :=
  {| readyState := CONNECTING; sentMessages := [] |}.

Definition send (ws : WebSocket) (data : string) : WebSocket :=
  {| readyState := readyState ws;
     sentMessages := sentMessages ws ++ [data] |}.

Definition close (ws : WebSocket) : WebSocket :=
  {| readyState := CLOSED; sentMessages := sentMessages ws |}.

Definition open (ws : WebSocket) : WebSocket :=
  {| readyState := OPEN; sentMessages := sentMessages ws |}.

(** [event.data] of a message event, by what [JSON.parse] does with it
    ([const message: M = JSON.parse(event.data as string)]): it throws,
    or it returns a message of the declared type [M], or a value the
    declaration does not keep out at run time: [null], or any other
    value whose [type] is none the code tests for (a number, a string,
    an array, an object of another kind). *)
Inductive MessageData (M : Type) :=
| Unparsable (e : JSError)
| Parsed (message : M)
| ParsedNull
| ParsedOther.
Arguments Unparsable {M} e.
Arguments Parsed {M} message.
Arguments ParsedNull {M}.
Arguments ParsedOther {M}.

(** An element of [messageQueue]: what [JSON.parse] returned. *)
Inductive Queued (M : Type) :=
| Message (message : M)
| Null
| Other.
Arguments Message {M} message.
Arguments Null {M}.
Arguments Other {M}.

(** The [TypeError] of reading a property of [null], in the words of
    JavaScriptCore. *)
Definition null_is_not_an_object (expression : string) : JSError :=
  TypeError ("null is not an object (evaluating '" ++ expression ++ "')").

(** The engine the code runs on bounds the number of arguments of a
    call; ECMA-262 leaves the bound to it. Every engine takes the
    3840 arguments of a chunk of [transcribe]. *)
Class Engine := {
  max_arguments : nat;
  max_arguments_chunk : 1920 * 2 <= max_arguments
}.

(** An engine that takes 65536 arguments, as JavaScriptCore does. *)
Definition Engine_65536 : Engine :=
  {| max_arguments := 65536;
     max_arguments_chunk := proj1 (Nat.leb_le (1920 * 2) 65536) eq_refl |}.

(** [f(...args)]: with more arguments than the engine takes the call
    throws a [RangeError] and [f] does not run. *)
Definition spread_call {engine : Engine} {A B : Type}
                       (f : list A -> B) (args : list A) : completion B :=
  if (max_arguments <? length args)%nat
  then Throw (RangeError "Maximum call stack size exceeded.")
  else Return (f args).

(** The events the socket delivers, one handler run each. *)
Inductive WsEvent (M : Type) :=
| OnOpen
| OnMessage (data : MessageData M)
| OnError
| OnClose (wasClean : bool) (code : Z) (reason : string).
Arguments OnOpen {M}.
Arguments OnMessage {M} data.
Arguments OnError {M}.
Arguments OnClose {M} wasClean code reason.

(** What one resumption of an async generator gives: a value, the end,
    an exception, or nothing yet (the generator is in its 10 ms sleep and
    polls again later). *)
Inductive IterStep (A : Type) :=
| Yield (value : A)
| Done
| Threw (e : JSError)
| Sleeping.
Arguments Yield {A} value.
Arguments Done {A}.
Arguments Threw {A} e.
Arguments Sleeping {A}.

End Platform.

(* ===================================================================== *)
(** * The polling generators of the two streams *)
(* ===================================================================== *)

Module Generator.

Import Errors Platform.

(** [TTSStream[Symbol.asyncIterator]], [STTStream.iterText] and
    [STTStream.iterVAD] are the same generator over three buffers:
<<
    let processedIndex = 0;
    while (true) {
      while (processedIndex < buffer.length) {        // first loop
        yield buffer[processedIndex]; processedIndex++;
      }
      const hasEnded = this.messageQueue.some(...);
      if (hasEnded) {
        while (processedIndex < buffer.length) {      // second loop
          yield buffer[processedIndex]; processedIndex++;
        }
        break;
      }
      await new Promise((resolve) => setTimeout(resolve, 10));
    }
>>
    A suspended generator is the loop it is in and its index. *)
Inductive Position := InFirstLoop | InSecondLoop | Finished.

Record t := {
  position : Position;
  processedIndex : nat
}.

Definition start : t := {| position := InFirstLoop; processedIndex := 0 |}.

Section Resume.

Variable A : Type.
(** The buffer as it is when the generator runs, and what the test
    [this.messageQueue.some(...)] for [hasEnded] does then: it throws
    when it meets a [null] in the queue. *)
Variable buffer : list A.
Variable hasEnded : completion bool.

(** An exception ends the generator. *)
Definition finished (g : t) : t :=
  {| position := Finished; processedIndex := processedIndex g |}.

Definition second_loop (g : t) : IterStep A * t :=
  match nth_error buffer (processedIndex g) with
  | Some x =>
      (Yield x,
       {| position := InSecondLoop; processedIndex := S (processedIndex g) |})
  | None =>
      (Done, {| position := Finished; processedIndex := processedIndex g |})
  end.

Definition first_loop (g : t) : IterStep A * t :=
  match nth_error buffer (processedIndex g) with
  | Some x =>
      (Yield x,
       {| position := InFirstLoop; processedIndex := S (processedIndex g) |})
  | None =>
      match hasEnded with
      | Throw e => (Threw e, finished g)
      | Return true => second_loop g
      | Return false => (Sleeping, g)
      end
  end.

(** The generator runs until its next [yield], its end, or its next
    sleep. *)
Definition resume (g : t) : IterStep A * t :=
  match position g with
  | InFirstLoop => first_loop g
  | InSecondLoop => second_loop g
  | Finished => (Done, g)
  end.

End Resume.

(** A consumer ([for await (const x of ...)]) and the socket share the
    event loop: a schedule says in which order events are delivered and
    the generator gets to run. A loop that an exception of the
    generator has ended resumes it no more. *)
Section Consume.

Variables Session Event GenState A : Type.
Variable dispatch : Session -> Event -> Session.
Variable resume : Session -> GenState -> IterStep A * GenState.

Inductive Action :=
| Deliver (ev : Event)
| Resume.

(** The generator, what it has yielded so far and the step its last
    resumption ended with. *)
Record Consumer := {
  generator : GenState;
  yielded : list A;
  last_step : IterStep A
}.

Definition begin (g : GenState) : Consumer :=
  {| generator := g; yielded := []; last_step := Sleeping |}.

Definition act (st : Session * Consumer) (a : Action) : Session * Consumer :=
  let '(session, c) := st in
  match a with
  | Deliver ev => (dispatch session ev, c)
  | Resume =>
      match last_step c with
      | Threw _ => st
      | _ =>
          let '(step, g) := resume session (generator c) in
          (session,
           {| generator := g;
              yielded := match step with
                         | Yield x => yielded c ++ [x]
                         | _ => yielded c
                         end;
              last_step := step |})
      end
  end.

Definition consume (st : Session * Consumer) (schedule : list Action)
  : Session * Consumer :=
  fold_left act schedule st.

End Consume.

Arguments Deliver {Event} ev.
Arguments Resume {Event}.
Arguments begin {GenState A} g.

End Generator.

(* ===================================================================== *)
(** * [src/resources/tts.ts] *)
(* ===================================================================== *)

Module TTSStream.

Import JS Errors Types Platform Base64.

Record t := {
  ws : WebSocket;
  audioChunks : list (list byte);
  requestId : string;
  sampleRate : number;
  isReady : bool;
  readyPromise : Promise unit;
  endPromise : Promise unit;
  messageQueue : list (Queued TTSServerMessage)
}.

(** [new TTSStream(ws)] *)
Definition new (ws : WebSocket) : t :=
  {| ws := ws;
     audioChunks := [];
     requestId := EmptyString;
     sampleRate := number_of_Z 48000;
     isReady := false;
     readyPromise := Pending;
     endPromise := Pending;
     messageQueue := [] |}.

Definition set_ws (w : WebSocket) (this : t) : t :=
  {| ws := w; audioChunks := audioChunks this; requestId := requestId this;
     sampleRate := sampleRate this; isReady := isReady this;
     readyPromise := readyPromise this; endPromise := endPromise this;
     messageQueue := messageQueue this |}.

Definition set_readyPromise (p : Promise unit) (this : t) : t :=
  {| ws := ws this; audioChunks := audioChunks this;
     requestId := requestId this; sampleRate := sampleRate this;
     isReady := isReady this; readyPromise := p;
     endPromise := endPromise this; messageQueue := messageQueue this |}.

Definition set_endPromise (p : Promise unit) (this : t) : t :=
  {| ws := ws this; audioChunks := audioChunks this;
     requestId := requestId this; sampleRate := sampleRate this;
     isReady := isReady this; readyPromise := readyPromise this;
     endPromise := p; messageQueue := messageQueue this |}.

Definition readyResolve (this : t) : t :=
  set_readyPromise (resolve (readyPromise this) tt) this.
Definition readyReject (error : JSError) (this : t) : t :=
  set_readyPromise (reject (readyPromise this) error) this.
Definition endResolve (this : t) : t :=
  set_endPromise (resolve (endPromise this) tt) this.
Definition endReject (error : JSError) (this : t) : t :=
  set_endPromise (reject (endPromise this) error) this.

(** [this.messageQueue.push(message)] *)
Definition push_message (message : Queued TTSServerMessage) (this : t) : t :=
  {| ws := ws this; audioChunks := audioChunks this;
     requestId := requestId this; sampleRate := sampleRate this;
     isReady := isReady this; readyPromise := readyPromise this;
     endPromise := endPromise this;
     messageQueue := messageQueue this ++ [message] |}.

(** [this.audioChunks.push(audioData)] *)
Definition push_chunk (audioData : list byte) (this : t) : t :=
  {| ws := ws this; audioChunks := audioChunks this ++ [audioData];
     requestId := requestId this; sampleRate := sampleRate this;
     isReady := isReady this; readyPromise := readyPromise this;
     endPromise := endPromise this; messageQueue := messageQueue this |}.

(** [this.requestId = message.request_id; this.isReady = true;] *)
Definition set_ready (request_id : string) (this : t) : t :=
  {| ws := ws this; audioChunks := audioChunks this;
     requestId := request_id; sampleRate := sampleRate this;
     isReady := true; readyPromise := readyPromise this;
     endPromise := endPromise this; messageQueue := messageQueue this |}.

(** [this.ws.onmessage]. The [catch] receives what [JSON.parse],
    [message.type] or [atob] throws; it rejects the end promise only. *)
Definition onmessage (data : MessageData TTSServerMessage) (this : t) : t :=
  match data with
  | Unparsable e => endReject e this
  | ParsedNull =>
      endReject (null_is_not_an_object "message.type") (push_message Null this)
  | ParsedOther => push_message Other this
  | Parsed message =>
      let this := push_message (Message message) this in
      match message with
      | TTSReady request_id => readyResolve (set_ready request_id this)
      | TTSAudio audio =>
          match atob audio with
          | Some binary => push_chunk (Uint8Array_from_charCodes binary) this
          | None => endReject InvalidCharacterError this
          end
      | TTSServerEndOfStream => endResolve this
      | TTSError message code =>
          let error := WebSocketError message (Some code) in
          endReject error (readyReject error this)
      end
  end.

(** [this.ws.onerror] *)
Definition onerror (this : t) : t :=
  let error := ConnectionError "WebSocket error occurred" in
  endReject error (readyReject error this).

(** [this.ws.onclose] *)
Definition onclose (wasClean : bool) (code : Z) (reason : string) (this : t)
  : t :=
  if negb wasClean && negb (code =? 1000)%Z then
    let error :=
      WebSocketError ("WebSocket closed unexpectedly: " ++ reason)%string
                     (Some (number_of_Z code)) in
    endReject error (readyReject error this)
  else this.

(** One event on the socket of a stream built with [new TTSStream(ws)],
    whose three handlers are the ones above; no handler is set for
    [open]. *)
Definition dispatch (this : t) (ev : WsEvent TTSServerMessage) : t :=
  match ev with
  | OnOpen => set_ws (open (ws this)) this
  | OnMessage data => onmessage data this
  | OnError => onerror this
  | OnClose wasClean code reason =>
      onclose wasClean code reason (set_ws (close (ws this)) this)
  end.

Definition run (this : t) (evs : list (WsEvent TTSServerMessage)) : t :=
  fold_left dispatch evs this.

(** [waitReady()]: the promise itself. *)
Definition waitReady (this : t) : Promise unit := readyPromise this.

Definition not_ready_error : JSError :=
  WebSocketError "Stream is not ready. Call waitReady() first." None.

(** [sendText(text)] *)
Definition sendText (text : string) (this : t) : completion t :=
  if negb (isReady this) then Throw not_ready_error
  else
    let message := TTSText text in
    Return (set_ws (send (ws this)
                      (JSON_stringify (TTSClientMessage_object message)))
              this).

(** [sendEndOfStream()] *)
Definition sendEndOfStream (this : t) : t :=
  set_ws (send (ws this)
            (JSON_stringify (TTSClientMessage_object TTSEndOfStream)))
    this.

(** [queue.some((msg) => msg.type === "end_of_stream" ||
    msg.type === "error")]: the elements are tested in order up to the
    first that passes; reading [msg.type] of a [null] throws. *)
Fixpoint some_ended (queue : list (Queued TTSServerMessage)) : completion bool :=
  match queue with
  | [] => Return false
  | Message TTSServerEndOfStream :: _ | Message (TTSError _ _) :: _ =>
      Return true
  | Null :: _ => Throw (null_is_not_an_object "msg.type")
  | _ :: later => some_ended later
  end.

Definition hasEnded (this : t) : completion bool :=
  some_ended (messageQueue this).

(** [[Symbol.asyncIterator]()]: one resumption of the generator. *)
Definition asyncIterator (this : t) (g : Generator.t)
  : IterStep (list byte) * Generator.t :=
  Generator.resume (audioChunks this) (hasEnded this) g.

(** [rawData.set(chunk, offset)] *)
Definition Uint8Array_set (rawData chunk : list byte) (offset : nat)
  : list byte :=
  firstn offset rawData ++ chunk ++ skipn (offset + length chunk) rawData.

(** The part of [collect()] after the [await]: the chunks copied one
    after the other into an array of their total length. *)
Definition collect_result (this : t) : TTSResult :=
  let totalLength :=
    fold_left (fun sum chunk => sum + length chunk) (audioChunks this) 0 in
  let rawData := repeat x00 totalLength in
  let copied :=
    fold_left (fun '(rawData, offset) chunk =>
                 (Uint8Array_set rawData chunk offset, offset + length chunk))
              (audioChunks this) (rawData, 0) in
  {| raw_data := fst copied;
     sample_rate := sampleRate this;
     request_id := requestId this |}.

(** [collect()], called in state [this] and followed by the events
    [future]: the call waits for the end promise and goes on right after
    the event that settles it. *)
Fixpoint collect (this : t) (future : list (WsEvent TTSServerMessage))
  : Promise TTSResult :=
  match endPromise this with
  | Fulfilled _ => Fulfilled (collect_result this)
  | Rejected e => Rejected e
  | Pending =>
      match future with
      | [] => Pending
      | ev :: later => collect (dispatch this ev) later
      end
  end.

(** [close()] *)
Definition close (this : t) : t := set_ws (Platform.close (ws this)) this.

(** [getRequestId()] *)
Definition getRequestId (this : t) : string := requestId this.

End TTSStream.

Module TTS.

Import JS Errors Types Platform.

(** The call [stream(params)]: the socket's stream and the promise the
    call returned, which resolves with that stream. *)
Record StreamCall := {
  params : TTSSetupParams;
  session : TTSStream.t;
  result : Promise unit
}.

(** [stream(params)], up to the return of the promise: the socket is
    created and wrapped, [ws.onopen] is set and [ws.onerror] is set
    again, replacing the handler [new TTSStream(ws)] had put there. *)
Definition stream (params : TTSSetupParams) : StreamCall :=
  {| params := params;
     session := TTSStream.new new_WebSocket;
     result := Pending |}.

(** The setup message of [ws.onopen]; [params.model_name || "default"]
    takes the default for an absent or empty name. *)
Definition setupMessage (params : TTSSetupParams) : TTSSetupMessage :=
  {| setup_voice_id := tts_voice_id params;
     setup_output_format := tts_output_format params;
     setup_model_name :=
       match tts_model_name params with
       | Some name => if String.eqb name EmptyString then "default" else name
       | None => "default"
       end;
     setup_json_config := tts_json_config params |}.

(** [ws.onopen] *)
Definition onopen (c : StreamCall) : StreamCall :=
  {| params := params c;
     session :=
       TTSStream.set_ws
         (send (TTSStream.ws (session c))
            (JSON_stringify
               (TTSClientMessage_object (TTSSetup (setupMessage (params c))))))
         (session c);
     result := resolve (result c) tt |}.

(** [ws.onerror] *)
Definition onerror (c : StreamCall) : StreamCall :=
  {| params := params c;
     session := session c;
     result :=
       reject (result c) (ConnectionError "Failed to connect to TTS WebSocket") |}.

Definition on_session (f : TTSStream.t -> TTSStream.t) (c : StreamCall)
  : StreamCall :=
  {| params := params c; session := f (session c); result := result c |}.

(** One event on a socket made by [stream(params)]. *)
Definition dispatch (c : StreamCall) (ev : WsEvent TTSServerMessage)
  : StreamCall :=
  match ev with
  | OnOpen =>
      onopen (on_session (fun s => TTSStream.set_ws (open (TTSStream.ws s)) s) c)
  | OnMessage data => on_session (TTSStream.onmessage data) c
  | OnError => onerror c
  | OnClose wasClean code reason =>
      on_session
        (fun s =>
           TTSStream.onclose wasClean code reason
             (TTSStream.set_ws (close (TTSStream.ws s)) s))
        c
  end.

(** Where [create(params)] is suspended. *)
Inductive Stage :=
| AwaitStream
| AwaitReady
| AwaitEnd
| Settled (outcome : completion TTSResult).

Record CreateCall := {
  call : StreamCall;
  text : string;
  stage : Stage
}.

Definition at_stage (st : Stage) (c : CreateCall) : CreateCall :=
  {| call := call c; text := text c; stage := st |}.

(** [return stream.collect()] once the end promise is settled. *)
Definition continue_collect (c : CreateCall) : CreateCall :=
  match TTSStream.endPromise (session (call c)) with
  | Fulfilled _ =>
      at_stage (Settled (Return (TTSStream.collect_result (session (call c))))) c
  | Rejected e => at_stage (Settled (Throw e)) c
  | Pending => at_stage AwaitEnd c
  end.

(** [stream.sendText(params.text); stream.sendEndOfStream();
    return stream.collect();] once [waitReady()] is settled. *)
Definition continue_ready (c : CreateCall) : CreateCall :=
  match TTSStream.waitReady (session (call c)) with
  | Fulfilled _ =>
      match TTSStream.sendText (text c) (session (call c)) with
      | Throw e => at_stage (Settled (Throw e)) c
      | Return s =>
          continue_collect
            {| call := on_session (fun _ => TTSStream.sendEndOfStream s) (call c);
               text := text c;
               stage := AwaitEnd |}
      end
  | Rejected e => at_stage (Settled (Throw e)) c
  | Pending => at_stage AwaitReady c
  end.

(** [await stream.waitReady(); ...] once [this.stream(params)] is
    settled. *)
Definition continue_stream (c : CreateCall) : CreateCall :=
  match result (call c) with
  | Fulfilled _ => continue_ready c
  | Rejected e => at_stage (Settled (Throw e)) c
  | Pending => at_stage AwaitStream c
  end.

(** The continuations that can run after a handler run. *)
Definition continue (c : CreateCall) : CreateCall :=
  match stage c with
  | AwaitStream => continue_stream c
  | AwaitReady => continue_ready c
  | AwaitEnd => continue_collect c
  | Settled _ => c
  end.

(** [create(params)] with [params.text = text], up to its first
    [await]. *)
Definition create (params : TTSSetupParams) (text : string) : CreateCall :=
  {| call := stream params; text := text; stage := AwaitStream |}.

(** One event, then the continuations it makes runnable. *)
Definition create_step (c : CreateCall) (ev : WsEvent TTSServerMessage)
  : CreateCall :=
  continue {| call := dispatch (call c) ev; text := text c; stage := stage c |}.

Definition create_run (c : CreateCall) (evs : list (WsEvent TTSServerMessage))
  : CreateCall :=
  fold_left create_step evs c.

End TTS.

(* ===================================================================== *)
(** * [src/resources/stt.ts] *)
(* ===================================================================== *)

Module STTStream.

Import JS Errors Types Platform Base64.

Record t := {
  ws : WebSocket;
  requestId : string;
  sampleRate : number;
  frameSize : number;
  isReady : bool;
  readyPromise : Promise STTReadyMessage;
  endPromise : Promise unit;
  messageQueue : list (Queued STTServerMessage);
  textResults : list STTTextMessage;
  vadResults : list STTStepMessage
}.

(** [new STTStream(ws)] *)
Definition new (ws : WebSocket) : t :=
  {| ws := ws;
     requestId := EmptyString;
     sampleRate := number_of_Z 24000;
     frameSize := number_of_Z 1920;
     isReady := false;
     readyPromise := Pending;
     endPromise := Pending;
     messageQueue := [];
     textResults := [];
     vadResults := [] |}.

Definition set_ws (w : WebSocket) (this : t) : t :=
  {| ws := w; requestId := requestId this; sampleRate := sampleRate this;
     frameSize := frameSize this; isReady := isReady this;
     readyPromise := readyPromise this; endPromise := endPromise this;
     messageQueue := messageQueue this; textResults := textResults this;
     vadResults := vadResults this |}.

Definition set_readyPromise (p : Promise STTReadyMessage) (this : t) : t :=
  {| ws := ws this; requestId := requestId this;
     sampleRate := sampleRate this; frameSize := frameSize this;
     isReady := isReady this; readyPromise := p;
     endPromise := endPromise this; messageQueue := messageQueue this;
     textResults := textResults this; vadResults := vadResults this |}.

Definition set_endPromise (p : Promise unit) (this : t) : t :=
  {| ws := ws this; requestId := requestId this;
     sampleRate := sampleRate this; frameSize := frameSize this;
     isReady := isReady this; readyPromise := readyPromise this;
     endPromise := p; messageQueue := messageQueue this;
     textResults := textResults this; vadResults := vadResults this |}.

Definition readyResolve (value : STTReadyMessage) (this : t) : t :=
  set_readyPromise (resolve (readyPromise this) value) this.
Definition readyReject (error : JSError) (this : t) : t :=
  set_readyPromise (reject (readyPromise this) error) this.
Definition endResolve (this : t) : t :=
  set_endPromise (resolve (endPromise this) tt) this.
Definition endReject (error : JSError) (this : t) : t :=
  set_endPromise (reject (endPromise this) error) this.

(** [this.messageQueue.push(message)] *)
Definition push_message (message : Queued STTServerMessage) (this : t) : t :=
  {| ws := ws this; requestId := requestId this;
     sampleRate := sampleRate this; frameSize := frameSize this;
     isReady := isReady this; readyPromise := readyPromise this;
     endPromise := endPromise this;
     messageQueue := messageQueue this ++ [message];
     textResults := textResults this; vadResults := vadResults this |}.

(** [this.textResults.push(message)] *)
Definition push_text (message : STTTextMessage) (this : t) : t :=
  {| ws := ws this; requestId := requestId this;
     sampleRate := sampleRate this; frameSize := frameSize this;
     isReady := isReady this; readyPromise := readyPromise this;
     endPromise := endPromise this; messageQueue := messageQueue this;
     textResults := textResults this ++ [message];
     vadResults := vadResults this |}.

(** [this.vadResults.push(message)] *)
Definition push_vad (message : STTStepMessage) (this : t) : t :=
  {| ws := ws this; requestId := requestId this;
     sampleRate := sampleRate this; frameSize := frameSize this;
     isReady := isReady this; readyPromise := readyPromise this;
     endPromise := endPromise this; messageQueue := messageQueue this;
     textResults := textResults this;
     vadResults := vadResults this ++ [message] |}.

(** [this.requestId = message.request_id;
    this.sampleRate = message.sample_rate;
    this.frameSize = message.frame_size; this.isReady = true;] *)
Definition set_ready (message : STTReadyMessage) (this : t) : t :=
  {| ws := ws this; requestId := ready_request_id message;
     sampleRate := ready_sample_rate message;
     frameSize := ready_frame_size message; isReady := true;
     readyPromise := readyPromise this; endPromise := endPromise this;
     messageQueue := messageQueue this; textResults := textResults this;
     vadResults := vadResults this |}.

(** [this.ws.onmessage]; an [end_text] message has no case in the
    [switch]. *)
Definition onmessage (data : MessageData STTServerMessage) (this : t) : t :=
  match data with
  | Unparsable e => endReject e this
  | ParsedNull =>
      endReject (null_is_not_an_object "message.type") (push_message Null this)
  | ParsedOther => push_message Other this
  | Parsed message =>
      let this := push_message (Message message) this in
      match message with
      | STTReady m => readyResolve m (set_ready m this)
      | STTText m => push_text m this
      | STTStep m => push_vad m this
      | STTEndText _ => this
      | STTServerEndOfStream => endResolve this
      | STTError message code =>
          let error := WebSocketError message (Some code) in
          endReject error (readyReject error this)
      end
  end.

(** [this.ws.onerror] *)
Definition onerror (this : t) : t :=
  let error := ConnectionError "WebSocket error occurred" in
  endReject error (readyReject error this).

(** [this.ws.onclose] *)
Definition onclose (wasClean : bool) (code : Z) (reason : string) (this : t)
  : t :=
  if negb wasClean && negb (code =? 1000)%Z then
    let error :=
      WebSocketError ("WebSocket closed unexpectedly: " ++ reason)%string
                     (Some (number_of_Z code)) in
    endReject error (readyReject error this)
  else this.

(** One event on the socket of a stream built with [new STTStream(ws)]. *)
Definition dispatch (this : t) (ev : WsEvent STTServerMessage) : t :=
  match ev with
  | OnOpen => set_ws (open (ws this)) this
  | OnMessage data => onmessage data this
  | OnError => onerror this
  | OnClose wasClean code reason =>
      onclose wasClean code reason (set_ws (close (ws this)) this)
  end.

Definition run (this : t) (evs : list (WsEvent STTServerMessage)) : t :=
  fold_left dispatch evs this.

(** [waitReady()]: the promise itself. *)
Definition waitReady (this : t) : Promise STTReadyMessage := readyPromise this.

Definition not_ready_error : JSError :=
  WebSocketError "Stream is not ready. Call waitReady() first." None.

(** [sendAudio(audio)]; [String.fromCharCode(...audio)] is a call
    with one argument for each byte. *)
Definition sendAudio {engine : Engine} (audio : list byte) (this : t)
  : completion t :=
  if negb (isReady this) then Throw not_ready_error
  else
    match spread_call String_fromCharCode audio with
    | Throw e => Throw e
    | Return binary =>
        let base64Audio := btoa binary in
        let message := STTAudio base64Audio in
        Return (set_ws (send (ws this)
                          (JSON_stringify (STTClientMessage_object message)))
                  this)
    end.

(** [sendEndOfStream()] *)
Definition sendEndOfStream (this : t) : t :=
  set_ws (send (ws this)
            (JSON_stringify (STTClientMessage_object STTEndOfStream)))
    this.

(** [queue.some((msg) => msg.type === "end_of_stream" ||
    msg.type === "error")]: the elements are tested in order up to the
    first that passes; reading [msg.type] of a [null] throws. *)
Fixpoint some_ended (queue : list (Queued STTServerMessage)) : completion bool :=
  match queue with
  | [] => Return false
  | Message STTServerEndOfStream :: _ | Message (STTError _ _) :: _ =>
      Return true
  | Null :: _ => Throw (null_is_not_an_object "msg.type")
  | _ :: later => some_ended later
  end.

Definition hasEnded (this : t) : completion bool :=
  some_ended (messageQueue this).

(** [iterText()], also [[Symbol.asyncIterator]()]: one resumption. *)
Definition iterText (this : t) (g : Generator.t)
  : IterStep STTTextMessage * Generator.t :=
  Generator.resume (textResults this) (hasEnded this) g.

(** [iterVAD()]: one resumption. *)
Definition iterVAD (this : t) (g : Generator.t)
  : IterStep STTStepMessage * Generator.t :=
  Generator.resume (vadResults this) (hasEnded this) g.

(** [message.type === "ready"] on an element that is not [null]. *)
Definition is_ready_message (message : Queued STTServerMessage) : bool :=
  match message with
  | Message (STTReady _) => true
  | _ => false
  end.

(** The inner loop of [iter()] over the elements of the queue from
    [processedIndex] on: a [ready] message is passed over, any other
    element is yielded; reading [message.type] of a [null] throws. *)
Fixpoint iter_loop (rest : list (Queued STTServerMessage)) (processedIndex : nat)
  : completion (option (Queued STTServerMessage) * nat) :=
  match rest with
  | [] => Return (None, processedIndex)
  | Null :: _ => Throw (null_is_not_an_object "message.type")
  | message :: later =>
      if is_ready_message message then iter_loop later (S processedIndex)
      else Return (Some message, S processedIndex)
  end.

(** [iter()]: one resumption. Its generator has one inner loop. *)
Definition iter (this : t) (g : Generator.t)
  : IterStep (Queued STTServerMessage) * Generator.t :=
  match Generator.position g with
  | Generator.Finished => (Done, g)
  | _ =>
      match iter_loop (skipn (Generator.processedIndex g) (messageQueue this))
                      (Generator.processedIndex g) with
      | Throw e => (Threw e, Generator.finished g)
      | Return (Some message, index) =>
          (Yield message,
           {| Generator.position := Generator.InFirstLoop;
              Generator.processedIndex := index |})
      | Return (None, index) =>
          match hasEnded this with
          | Throw e => (Threw e, Generator.finished g)
          | Return true =>
              (Done,
               {| Generator.position := Generator.Finished;
                  Generator.processedIndex := index |})
          | Return false =>
              (Sleeping,
               {| Generator.position := Generator.InFirstLoop;
                  Generator.processedIndex := index |})
          end
      end
  end.

(** [this.textResults.map((t) => t.text).join(" ")] *)
Definition collect_result (this : t) : string :=
  join " " (map text (textResults this)).

(** [collectText()], called in state [this] and followed by the events
    [future]. *)
Fixpoint collectText (this : t) (future : list (WsEvent STTServerMessage))
  : Promise string :=
  match endPromise this with
  | Fulfilled _ => Fulfilled (collect_result this)
  | Rejected e => Rejected e
  | Pending =>
      match future with
      | [] => Pending
      | ev :: later => collectText (dispatch this ev) later
      end
  end.

(** [close()] *)
Definition close (this : t) : t := set_ws (Platform.close (ws this)) this.

Definition getRequestId (this : t) : string := requestId this.
Definition getSampleRate (this : t) : number := sampleRate this.
Definition getFrameSize (this : t) : number := frameSize this.

End STTStream.

Module STT.

Import JS Errors Types Platform.

Record StreamCall := {
  params : STTSetupParams;
  session : STTStream.t;
  result : Promise unit
}.

(** [stream(params)], up to the return of the promise. *)
Definition stream (params : STTSetupParams) : StreamCall :=
  {| params := params;
     session := STTStream.new new_WebSocket;
     result := Pending |}.

Definition setupMessage (params : STTSetupParams) : STTSetupMessage :=
  {| setup_input_format := stt_input_format params;
     stt_setup_model_name :=
       match stt_model_name params with
       | Some name => if String.eqb name EmptyString then "default" else name
       | None => "default"
       end |}.

(** [ws.onopen] *)
Definition onopen (c : StreamCall) : StreamCall :=
  {| params := params c;
     session :=
       STTStream.set_ws
         (send (STTStream.ws (session c))
            (JSON_stringify
               (STTClientMessage_object (STTSetup (setupMessage (params c))))))
         (session c);
     result := resolve (result c) tt |}.

(** [ws.onerror], which replaces the stream's. *)
Definition onerror (c : StreamCall) : StreamCall :=
  {| params := params c;
     session := session c;
     result :=
       reject (result c) (ConnectionError "Failed to connect to STT WebSocket") |}.

Definition on_session (f : STTStream.t -> STTStream.t) (c : StreamCall)
  : StreamCall :=
  {| params := params c; session := f (session c); result := result c |}.

(** One event on a socket made by [stream(params)]. *)
Definition dispatch (c : StreamCall) (ev : WsEvent STTServerMessage)
  : StreamCall :=
  match ev with
  | OnOpen =>
      onopen (on_session (fun s => STTStream.set_ws (open (STTStream.ws s)) s) c)
  | OnMessage data => on_session (STTStream.onmessage data) c
  | OnError => onerror c
  | OnClose wasClean code reason =>
      on_session
        (fun s =>
           STTStream.onclose wasClean code reason
             (STTStream.set_ws (close (STTStream.ws s)) s))
        c
  end.

(** [const chunkSize = 1920 * 2;] *)
Definition chunkSize : nat := 1920 * 2.

(** [audio.slice(begin, end)] for [begin <= end]. *)
Definition Uint8Array_slice (audio : list byte) (begin end_ : nat) : list byte :=
  firstn (end_ - begin) (skipn begin audio).

(** The loop of [transcribe], from [i] on:
<<
    for (let i = 0; i < audio.length; i += chunkSize) {
      const chunk = audio.slice(i, Math.min(i + chunkSize, audio.length));
      stream.sendAudio(chunk);
    }
>>
*)
Equations? send_chunks {engine : Engine} (audio : list byte) (i : nat)
                        (stream : STTStream.t)
  : completion STTStream.t by wf (length audio - i) lt :=
  send_chunks audio i stream with lt_dec i (length audio) := {
    | left _ with STTStream.sendAudio
                    (Uint8Array_slice audio i
                       (Nat.min (i + chunkSize) (length audio)))
                    stream := {
        | Throw e => Throw e
        | Return stream' => send_chunks audio (i + chunkSize) stream' };
    | right _ => Return stream }.
Proof.
  unfold chunkSize. lia.
Defined.

(** Where [transcribe(params, audio)] is suspended. *)
Inductive Stage :=
| AwaitStream
| AwaitReady
| AwaitEnd
| Settled (outcome : completion string).

Record TranscribeCall := {
  call : StreamCall;
  audio : list byte;
  stage : Stage
}.

Definition at_stage (st : Stage) (c : TranscribeCall) : TranscribeCall :=
  {| call := call c; audio := audio c; stage := st |}.

(** [return stream.collectText()] once the end promise is settled. *)
Definition continue_collect (c : TranscribeCall) : TranscribeCall :=
  match STTStream.endPromise (session (call c)) with
  | Fulfilled _ =>
      at_stage (Settled (Return (STTStream.collect_result (session (call c))))) c
  | Rejected e => at_stage (Settled (Throw e)) c
  | Pending => at_stage AwaitEnd c
  end.

(** The loop, [stream.sendEndOfStream()] and
    [return stream.collectText()], once [waitReady()] is settled. *)
Definition continue_ready {engine : Engine} (c : TranscribeCall)
  : TranscribeCall :=
  match STTStream.waitReady (session (call c)) with
  | Fulfilled _ =>
      match send_chunks (audio c) 0 (session (call c)) with
      | Throw e => at_stage (Settled (Throw e)) c
      | Return s =>
          continue_collect
            {| call := on_session (fun _ => STTStream.sendEndOfStream s) (call c);
               audio := audio c;
               stage := AwaitEnd |}
      end
  | Rejected e => at_stage (Settled (Throw e)) c
  | Pending => at_stage AwaitReady c
  end.

Definition continue_stream {engine : Engine} (c : TranscribeCall)
  : TranscribeCall :=
  match result (call c) with
  | Fulfilled _ => continue_ready c
  | Rejected e => at_stage (Settled (Throw e)) c
  | Pending => at_stage AwaitStream c
  end.

Definition continue {engine : Engine} (c : TranscribeCall) : TranscribeCall :=
  match stage c with
  | AwaitStream => continue_stream c
  | AwaitReady => continue_ready c
  | AwaitEnd => continue_collect c
  | Settled _ => c
  end.

(** [transcribe(params, audio)], up to its first [await]. *)
Definition transcribe (params : STTSetupParams) (audio : list byte)
  : TranscribeCall :=
  {| call := stream params; audio := audio; stage := AwaitStream |}.

Definition transcribe_step {engine : Engine} (c : TranscribeCall)
                           (ev : WsEvent STTServerMessage)
  : TranscribeCall :=
  continue {| call := dispatch (call c) ev; audio := audio c; stage := stage c |}.

Definition transcribe_run {engine : Engine} (c : TranscribeCall)
                          (evs : list (WsEvent STTServerMessage))
  : TranscribeCall :=
  fold_left transcribe_step evs c.

End STT.

(* ===================================================================== *)
(** * Reading back what was written to the channel *)
(* ===================================================================== *)

Module Wire.

Import JS Base64.

(** The payload of a written audio envelope, read the way
    [src/__tests__/resources/stt.test.ts] reads it:
    [JSON.parse] of the frame, [type] is ["audio"], and
    [Uint8Array.from(atob(sentMessage.audio), (c) => c.charCodeAt(0))]. *)
Definition audio_payload (frame : string) : option (list byte) :=
  match JSON_parse frame with
  | Some (JObj props) =>
      match get_property "type" props, get_property "audio" props with
      | Some (JStr "audio"), Some (JStr audio) =>
          match atob audio with
          | Some binary => Some (Uint8Array_from_charCodes binary)
          | None => None
          end
      | _, _ => None
      end
  | _ => None
  end.

(** A written frame is the [end_of_stream] envelope. *)
Definition is_end_of_stream (frame : string) : bool :=
  match JSON_parse frame with
  | Some (JObj [("type", JStr "end_of_stream")]) => true
  | _ => false
  end.

(** The values that [JSON.stringify] writes without loss: no number is
    [NaN], infinite or the negative zero. ([is_Number] holds of every
    number as the platform has it; it is a condition on the
    representation, not on the value. So is [plain_keys] of every
    object the code writes.) *)
Definition representable_number (x : number) : bool :=
  match x with
  | NaN | Infinity _ | Zero true => false
  | Zero false => true
  | Finite _ _ _ => is_Number x
  end.

(** The keys of an object as the code makes them: each once, and none
    an array index. *)
Fixpoint plain_keys (props : list (string * JSValue)) : bool :=
  match props with
  | [] => true
  | (k, _) :: r =>
      negb (has_property k r)
      && match array_index k with Some _ => false | None => true end
      && plain_keys r
  end.

Fixpoint representable (v : JSValue) : bool :=
  match v with
  | JNull | JBool _ | JStr _ => true
  | JNum x => representable_number x
  | JArr l => forallb representable l
  | JObj props =>
      plain_keys props && forallb (fun kv => representable (snd kv)) props
  end.

End Wire.

(* ===================================================================== *)
(** * The phase of a session, as the specification defines it *)
(* ===================================================================== *)

Module Spec.

Import Types Platform.

(** Modelled from the spec: the code has no phase field (it keeps
    [isReady] and two promises); the specification's data model gives a
    session a [phase] with the transitions
    Connecting -> AwaitingReady -> Active -> Ended or Failed, an error
    envelope forcing Failed from any phase, a decode failure and a
    channel failure terminating the session, and Ended and Failed being
    final. *)
Inductive Phase := Connecting | AwaitingReady | Active | Ended | Failed.

Inductive Kind := KReady | KEndOfStream | KError | KOther.

Definition terminal (p : Phase) : bool :=
  match p with
  | Ended | Failed => true
  | _ => false
  end.

Definition phase_step {M} (kind : M -> Kind) (p : Phase) (ev : WsEvent M)
  : Phase :=
  if terminal p then p
  else
    match ev with
    | OnOpen => match p with Connecting => AwaitingReady | _ => p end
    | OnMessage (Unparsable _) | OnMessage ParsedNull
    | OnMessage ParsedOther => Failed
    | OnMessage (Parsed m) =>
        match kind m with
        | KReady => match p with AwaitingReady => Active | _ => p end
        | KEndOfStream => match p with Active => Ended | _ => p end
        | KError => Failed
        | KOther => p
        end
    | OnError => Failed
    | OnClose wasClean code _ =>
        if negb wasClean && negb (code =? 1000)%Z then Failed else p
    end.

Definition phase {M} (kind : M -> Kind) (evs : list (WsEvent M)) : Phase :=
  fold_left (phase_step kind) evs Connecting.

Definition TTS_kind (m : TTSServerMessage) : Kind :=
  match m with
  | TTSReady _ => KReady
  | TTSAudio _ => KOther
  | TTSError _ _ => KError
  | TTSServerEndOfStream => KEndOfStream
  end.

Definition STT_kind (m : STTServerMessage) : Kind :=
  match m with
  | STTReady _ => KReady
  | STTError _ _ => KError
  | STTServerEndOfStream => KEndOfStream
  | _ => KOther
  end.

End Spec.

(* ===================================================================== *)
(** * What an event sequence contains *)
(* ===================================================================== *)

Module History.

Import Types Platform.

(** A [ready] envelope is among the events. *)
Definition TTS_received_ready (evs : list (WsEvent TTSServerMessage)) : bool :=
  existsb (fun ev => match ev with
                     | OnMessage (Parsed (TTSReady _)) => true
                     | _ => false
                     end) evs.

Definition STT_received_ready (evs : list (WsEvent STTServerMessage)) : bool :=
  existsb (fun ev => match ev with
                     | OnMessage (Parsed (STTReady _)) => true
                     | _ => false
                     end) evs.

(** An [end_of_stream] or an [error] envelope is among the events. *)
Definition TTS_received_terminal (evs : list (WsEvent TTSServerMessage)) : bool :=
  existsb (fun ev => match ev with
                     | OnMessage (Parsed TTSServerEndOfStream)
                     | OnMessage (Parsed (TTSError _ _)) => true
                     | _ => false
                     end) evs.

Definition STT_received_terminal (evs : list (WsEvent STTServerMessage)) : bool :=
  existsb (fun ev => match ev with
                     | OnMessage (Parsed STTServerEndOfStream)
                     | OnMessage (Parsed (STTError _ _)) => true
                     | _ => false
                     end) evs.

(** The messages of the server other than [error] and
    [end_of_stream]. *)
Definition STT_not_terminal (m : STTServerMessage) : bool :=
  match m with
  | STTError _ _ | STTServerEndOfStream => false
  | _ => true
  end.

(** The text fragments among messages, in their order. *)
Fixpoint STT_texts (ms : list STTServerMessage) : list string :=
  match ms with
  | [] => []
  | STTText m :: r => text m :: STT_texts r
  | _ :: r => STT_texts r
  end.

(** The audio envelope that carries a chunk. *)
Definition TTS_audio_event (chunk : list byte) : WsEvent TTSServerMessage :=
  OnMessage (Parsed (TTSAudio (Base64.btoa (Base64.String_fromCharCode chunk)))).

End History.

(* ===================================================================== *)
(** * What holds of [create] and [transcribe] between two events *)
(* ===================================================================== *)

Module Invariants.

Import JS Errors Types Platform.

(** The stage [create] is suspended at agrees with the promises it
    awaits, and a fulfilled ready promise comes with [isReady]. *)
Definition TTS_create (c : TTS.CreateCall) : Prop :=
  (TTS.stage c = TTS.AwaitStream -> TTS.result (TTS.call c) = Pending) /\
  (TTS.stage c <> TTS.AwaitStream -> settled (TTS.result (TTS.call c)) = true) /\
  (TTS.stage c = TTS.AwaitReady ->
   TTSStream.readyPromise (TTS.session (TTS.call c)) = Pending) /\
  (TTS.stage c = TTS.AwaitEnd ->
   TTSStream.endPromise (TTS.session (TTS.call c)) = Pending) /\
  (TTSStream.readyPromise (TTS.session (TTS.call c)) = Fulfilled tt ->
   TTSStream.isReady (TTS.session (TTS.call c)) = true).

Definition STT_transcribe (c : STT.TranscribeCall) : Prop :=
  (STT.stage c = STT.AwaitStream -> STT.result (STT.call c) = Pending) /\
  (STT.stage c <> STT.AwaitStream -> settled (STT.result (STT.call c)) = true) /\
  (STT.stage c = STT.AwaitReady ->
   STTStream.readyPromise (STT.session (STT.call c)) = Pending) /\
  (STT.stage c = STT.AwaitEnd ->
   STTStream.endPromise (STT.session (STT.call c)) = Pending) /\
  (forall m,
      STTStream.readyPromise (STT.session (STT.call c)) = Fulfilled m ->
      STTStream.isReady (STT.session (STT.call c)) = true).

(** The frames [create] has written on a socket that has opened: the
    setup frame, and after it the text frame and the end-of-stream
    frame once [waitReady()] has resolved. *)
Definition TTS_create_frames (params : TTSSetupParams) (text : string)
                             (ready : Promise unit) : list string :=
  JSON_stringify (TTSClientMessage_object (TTSSetup (TTS.setupMessage params)))
  :: match ready with
     | Fulfilled _ =>
         [JSON_stringify (TTSClientMessage_object (TTSText text));
          JSON_stringify (TTSClientMessage_object TTSEndOfStream)]
     | _ => []
     end.

(** [create] on a socket that has opened. *)
Definition TTS_create_opened (params : TTSSetupParams) (text : string)
                             (c : TTS.CreateCall) : Prop :=
  TTS.params (TTS.call c) = params /\
  TTS.text c = text /\
  TTS.result (TTS.call c) = Fulfilled tt /\
  TTS.stage c <> TTS.AwaitStream /\
  (TTSStream.readyPromise (TTS.session (TTS.call c)) = Pending ->
   TTS.stage c = TTS.AwaitReady) /\
  sentMessages (TTSStream.ws (TTS.session (TTS.call c)))
  = TTS_create_frames params text
      (TTSStream.readyPromise (TTS.session (TTS.call c))).

(** The frames [transcribe] has written on a socket that has opened,
    once [waitReady()] has resolved: the setup frame, one audio frame
    per chunk of the audio, and the end-of-stream frame. *)
Definition STT_transcribe_frames (params : STTSetupParams)
                                 (audio : list byte) (sent : list string)
  : Prop :=
  exists (chunks : list (list byte)) (frames : list string),
    sent
    = JSON_stringify
        (STTClientMessage_object (STTSetup (STT.setupMessage params)))
      :: frames
      ++ [JSON_stringify (STTClientMessage_object STTEndOfStream)] /\
    Forall2 (fun frame chunk => Wire.audio_payload frame = Some chunk)
      frames chunks /\
    Forall (fun frame => Wire.is_end_of_stream frame = false) frames /\
    Forall (fun chunk => 0 < length chunk <= 3840) chunks /\
    concat chunks = audio /\
    length audio <= length chunks * 3840 < length audio + 3840.

(** [transcribe] on a socket that has opened. *)
Definition STT_transcribe_opened (params : STTSetupParams)
                                 (audio : list byte)
                                 (c : STT.TranscribeCall) : Prop :=
  STT.params (STT.call c) = params /\
  STT.audio c = audio /\
  STT.result (STT.call c) = Fulfilled tt /\
  STT.stage c <> STT.AwaitStream /\
  (STTStream.readyPromise (STT.session (STT.call c)) = Pending ->
   STT.stage c = STT.AwaitReady) /\
  match STTStream.readyPromise (STT.session (STT.call c)) with
  | Fulfilled _ =>
      STT_transcribe_frames params audio
        (sentMessages (STTStream.ws (STT.session (STT.call c))))
  | _ =>
      sentMessages (STTStream.ws (STT.session (STT.call c)))
      = [JSON_stringify
           (STTClientMessage_object (STTSetup (STT.setupMessage params)))]
  end.

(** A consumer of one of the three generators, on the stream as it is
    when the consumer or the socket last ran: what it was yielded is
    the buffer up to the generator's index; the second loop runs only
    after the test for the end returned true; the generator is
    finished only after that test returned true or threw, and what the
    generator threw is what the test did and does. *)
Definition live (Session A : Type) (buffer : Session -> list A)
    (hasEnded : Session -> completion bool)
    (s : Session) (c : Generator.Consumer Generator.t A) : Prop :=
  Generator.yielded c
  = firstn (Generator.processedIndex (Generator.generator c)) (buffer s) /\
  Generator.processedIndex (Generator.generator c) <= length (buffer s) /\
  (Generator.position (Generator.generator c) = Generator.InSecondLoop ->
   hasEnded s = Return true) /\
  (Generator.position (Generator.generator c) = Generator.Finished ->
   (exists e, Generator.last_step c = Threw e) \/ hasEnded s = Return true) /\
  (Generator.last_step c = Done ->
   Generator.position (Generator.generator c) = Generator.Finished) /\
  (forall e, Generator.last_step c = Threw e -> hasEnded s = Throw e).

End Invariants.

(* ===================================================================== *)
(** * The ready envelopes of an event sequence *)
(* ===================================================================== *)

Module Latest.

Import Types Platform.

(** The first and the last [ready] message among the events. *)
Definition STT_first_ready (evs : list (WsEvent STTServerMessage))
  : option STTReadyMessage :=
  fold_left (fun found ev =>
               match found, ev with
               | None, OnMessage (Parsed (STTReady m)) => Some m
               | _, _ => found
               end)
            evs None.

Definition STT_last_ready (evs : list (WsEvent STTServerMessage))
  : option STTReadyMessage :=
  fold_left (fun found ev =>
               match ev with
               | OnMessage (Parsed (STTReady m)) => Some m
               | _ => found
               end)
            evs None.

(** The request id of the last [ready] message among the events. *)
Definition TTS_last_ready (evs : list (WsEvent TTSServerMessage))
  : option string :=
  fold_left (fun found ev =>
               match ev with
               | OnMessage (Parsed (TTSReady request_id)) => Some request_id
               | _ => found
               end)
            evs None.

End Latest.

(* ===================================================================== *)
(** * [src/client.ts] *)
(* ===================================================================== *)

Module Client.

Import JS Errors.

(** [type Region = "eu" | "us"] *)
Inductive Region := eu | us.

(** [GradiumClientOptions]: every property is optional. *)
Record GradiumClientOptions := {
  options_apiKey : option string;
  options_region : option Region;
  options_baseURL : option string;
  options_timeout : option number
}.

Definition API_URLS (region : Region) : string :=
  match region with
  | eu => "https://eu.api.gradium.ai/api"
  | us => "https://us.api.gradium.ai/api"
  end.

Definition WS_URLS (region : Region) : string :=
  match region with
  | eu => "wss://eu.api.gradium.ai/api/speech"
  | us => "wss://us.api.gradium.ai/api/speech"
  end.

(** [s.replace(/\/$/, "")]: a slash at the very end is removed, one at
    most. *)
Fixpoint remove_trailing_slash (s : string) : string :=
  match s with
  | EmptyString => EmptyString
  | String c r =>
      match r with
      | EmptyString => if Ascii.eqb c "/" then EmptyString else s
      | _ => String c (remove_trailing_slash r)
      end
  end.

(** [s.replace(/^http/, "ws")] *)
Definition replace_leading_http (s : string) : string :=
  match s with
  | String c1 (String c2 (String c3 (String c4 r))) =>
      if (Ascii.eqb c1 "h" && Ascii.eqb c2 "t"
          && Ascii.eqb c3 "t" && Ascii.eqb c4 "p")%bool
      then ("ws" ++ r)%string
      else s
  | _ => s
  end.

(** The fields of [Gradium] that are data. *)
Record Gradium := {
  apiKey : string;
  baseURL : string;
  wsURL : string;
  region : Region;
  timeout : number
}.

Definition missing_key : JSError :=
  AuthenticationError
    "API key is required. Pass it via options or set GRADIUM_API_KEY environment variable.".

(** [new Gradium(options)], [env] being
    [process.env.GRADIUM_API_KEY]. [??] takes its right operand for
    an absent left one only; [!apiKey] and [if (options.baseURL)]
    also reject the empty string. *)
Definition new_Gradium (env : option string) (options : GradiumClientOptions)
  : completion Gradium :=
  let apiKey := match options_apiKey options with
                | Some key => Some key
                | None => env
                end in
  match apiKey with
  | None => Throw missing_key
  | Some apiKey =>
      if String.eqb apiKey EmptyString then Throw missing_key
      else
        let region := match options_region options with
                      | Some region => region
                      | None => eu
                      end in
        let timeout := match options_timeout options with
                       | Some timeout => timeout
                       | None => number_of_Z 30000
                       end in
        let custom :=
          match options_baseURL options with
          | Some url => if String.eqb url EmptyString then None else Some url
          | None => None
          end in
        match custom with
        | Some url =>
            Return {| apiKey := apiKey;
                      baseURL := remove_trailing_slash url;
                      wsURL := (remove_trailing_slash (replace_leading_http url)
                                ++ "/speech")%string;
                      region := region;
                      timeout := timeout |}
        | None =>
            Return {| apiKey := apiKey;
                      baseURL := API_URLS region;
                      wsURL := WS_URLS region;
                      region := region;
                      timeout := timeout |}
        end
  end.

(** [get headers()] *)
Definition headers (client : Gradium) : list (string * string) :=
  [("x-api-key", apiKey client); ("Accept", "application/json")].

End Client.

(* ===================================================================== *)
(** * [TTS.streamText] and [STT.streamAudio] *)
(* ===================================================================== *)

Module Feeding.

Import JS Errors Types Platform.

(** What [next()] of the caller's iterator settles with: a value, the
    end, or a rejection. *)
Inductive IteratorResult (A : Type) :=
| Value (value : A)
| Completed
| Rejects (reason : JSError).
Arguments Value {A} value.
Arguments Completed {A}.
Arguments Rejects {A} reason.

(** The async function that is called and not awaited,
<<
  (async () => {
    for await (const text of textGenerator) { stream.sendText(text); }
    stream.sendEndOfStream();
  })();
>>
    It is suspended at [next()] of the iterator, has returned, or has
    thrown. *)
Inductive Feeder :=
| NotStarted
| AwaitNext
| Finished
| Failed (reason : JSError).

(** Where [streamText] / [streamAudio] is suspended; it resolves with
    the stream. *)
Inductive Stage :=
| AwaitStream
| AwaitReady
| Settled (outcome : completion unit).

(** The socket and the iterator share the event loop. *)
Inductive Action (M A : Type) :=
| Socket (ev : WsEvent M)
| Next (result : IteratorResult A).
Arguments Socket {M A} ev.
Arguments Next {M A} result.

(** The results the iterator gave, in order. *)
Definition generated {M A} (schedule : list (Action M A))
  : list (IteratorResult A) :=
  flat_map (fun a => match a with
                     | Next result => [result]
                     | Socket _ => []
                     end) schedule.

(** The frames a feeder writes for the results it is given, and where
    it is after them. *)
Fixpoint frames_fed {A} (frame : A -> string) (end_of_stream : string)
                    (results : list (IteratorResult A)) : list string :=
  match results with
  | [] => []
  | Value value :: later => frame value :: frames_fed frame end_of_stream later
  | Completed :: _ => [end_of_stream]
  | Rejects _ :: _ => []
  end.

Fixpoint feeder_after {A} (results : list (IteratorResult A)) : Feeder :=
  match results with
  | [] => AwaitNext
  | Value _ :: later => feeder_after later
  | Completed :: _ => Finished
  | Rejects reason :: _ => Failed reason
  end.

Module Text.

Record StreamTextCall := {
  call : TTS.StreamCall;
  stage : Stage;
  feeder : Feeder
}.

(** The rest of [streamText] once [waitReady()] is settled: the
    feeder is started, which runs up to its first [next()], and the
    stream is returned. *)
Definition continue_ready (c : StreamTextCall) : StreamTextCall :=
  match TTSStream.waitReady (TTS.session (call c)) with
  | Fulfilled _ =>
      {| call := call c; stage := Settled (Return tt); feeder := AwaitNext |}
  | Rejected e =>
      {| call := call c; stage := Settled (Throw e); feeder := feeder c |}
  | Pending =>
      {| call := call c; stage := AwaitReady; feeder := feeder c |}
  end.

Definition continue_stream (c : StreamTextCall) : StreamTextCall :=
  match TTS.result (call c) with
  | Fulfilled _ => continue_ready c
  | Rejected e =>
      {| call := call c; stage := Settled (Throw e); feeder := feeder c |}
  | Pending =>
      {| call := call c; stage := AwaitStream; feeder := feeder c |}
  end.

Definition continue (c : StreamTextCall) : StreamTextCall :=
  match stage c with
  | AwaitStream => continue_stream c
  | AwaitReady => continue_ready c
  | Settled _ => c
  end.

(** [streamText(params, textGenerator)], up to its first [await]. *)
Definition streamText (params : TTSSetupParams) : StreamTextCall :=
  {| call := TTS.stream params; stage := AwaitStream; feeder := NotStarted |}.

(** The feeder resumed with a result of [next()]. An exception of
    the loop body ends the loop. *)
Definition feed (c : StreamTextCall) (result : IteratorResult string)
  : StreamTextCall :=
  match feeder c with
  | AwaitNext =>
      match result with
      | Value text =>
          match TTSStream.sendText text (TTS.session (call c)) with
          | Return s =>
              {| call := TTS.on_session (fun _ => s) (call c);
                 stage := stage c; feeder := AwaitNext |}
          | Throw e =>
              {| call := call c; stage := stage c; feeder := Failed e |}
          end
      | Completed =>
          {| call := TTS.on_session TTSStream.sendEndOfStream (call c);
             stage := stage c; feeder := Finished |}
      | Rejects reason =>
          {| call := call c; stage := stage c; feeder := Failed reason |}
      end
  | _ => c
  end.

Definition step (c : StreamTextCall)
                (a : Action TTSServerMessage string) : StreamTextCall :=
  match a with
  | Socket ev =>
      continue {| call := TTS.dispatch (call c) ev;
                  stage := stage c; feeder := feeder c |}
  | Next result => feed c result
  end.

Definition run (c : StreamTextCall)
               (schedule : list (Action TTSServerMessage string))
  : StreamTextCall :=
  fold_left step schedule c.

Definition text_frame (text : string) : string :=
  JSON_stringify (TTSClientMessage_object (TTSText text)).

Definition end_frame : string :=
  JSON_stringify (TTSClientMessage_object TTSEndOfStream).

End Text.

Module Audio.

Record StreamAudioCall := {
  call : STT.StreamCall;
  stage : Stage;
  feeder : Feeder
}.

Definition continue_ready (c : StreamAudioCall) : StreamAudioCall :=
  match STTStream.waitReady (STT.session (call c)) with
  | Fulfilled _ =>
      {| call := call c; stage := Settled (Return tt); feeder := AwaitNext |}
  | Rejected e =>
      {| call := call c; stage := Settled (Throw e); feeder := feeder c |}
  | Pending =>
      {| call := call c; stage := AwaitReady; feeder := feeder c |}
  end.

Definition continue_stream (c : StreamAudioCall) : StreamAudioCall :=
  match STT.result (call c) with
  | Fulfilled _ => continue_ready c
  | Rejected e =>
      {| call := call c; stage := Settled (Throw e); feeder := feeder c |}
  | Pending =>
      {| call := call c; stage := AwaitStream; feeder := feeder c |}
  end.

Definition continue (c : StreamAudioCall) : StreamAudioCall :=
  match stage c with
  | AwaitStream => continue_stream c
  | AwaitReady => continue_ready c
  | Settled _ => c
  end.

(** [streamAudio(params, audioGenerator)], up to its first
    [await]. *)
Definition streamAudio (params : STTSetupParams) : StreamAudioCall :=
  {| call := STT.stream params; stage := AwaitStream; feeder := NotStarted |}.

(** What the body of the loop makes of a result of [next()]: an array
    that is too long for the spread call of [sendAudio] makes it throw
    there, and this ends the loop as a rejection of the iterator
    does. *)
Definition fed {engine : Engine} (result : IteratorResult (list byte))
  : IteratorResult (list byte) :=
  match result with
  | Value audio =>
      match spread_call Base64.String_fromCharCode audio with
      | Return _ => Value audio
      | Throw e => Rejects e
      end
  | _ => result
  end.

Definition feed {engine : Engine} (c : StreamAudioCall)
                (result : IteratorResult (list byte))
  : StreamAudioCall :=
  match feeder c with
  | AwaitNext =>
      match result with
      | Value audio =>
          match STTStream.sendAudio audio (STT.session (call c)) with
          | Return s =>
              {| call := STT.on_session (fun _ => s) (call c);
                 stage := stage c; feeder := AwaitNext |}
          | Throw e =>
              {| call := call c; stage := stage c; feeder := Failed e |}
          end
      | Completed =>
          {| call := STT.on_session STTStream.sendEndOfStream (call c);
             stage := stage c; feeder := Finished |}
      | Rejects reason =>
          {| call := call c; stage := stage c; feeder := Failed reason |}
      end
  | _ => c
  end.

Definition step {engine : Engine} (c : StreamAudioCall)
                (a : Action STTServerMessage (list byte)) : StreamAudioCall :=
  match a with
  | Socket ev =>
      continue {| call := STT.dispatch (call c) ev;
                  stage := stage c; feeder := feeder c |}
  | Next result => feed c result
  end.

Definition run {engine : Engine} (c : StreamAudioCall)
               (schedule : list (Action STTServerMessage (list byte)))
  : StreamAudioCall :=
  fold_left step schedule c.

Definition audio_frame (audio : list byte) : string :=
  JSON_stringify
    (STTClientMessage_object
       (STTAudio (Base64.btoa (Base64.String_fromCharCode audio)))).

Definition end_frame : string :=
  JSON_stringify (STTClientMessage_object STTEndOfStream).

End Audio.

End Feeding.

(* ===================================================================== *)
(** * [src/resources/credits.ts] and [src/resources/voices.ts] *)
(* ===================================================================== *)

Module Rest.

Import JS Errors Client.

(** ** What the resources use of [fetch] *)

Inductive Method := GET | POST | PUT | DELETE.

(** A [Blob]; a [File] is a blob with a name. *)
Record Blob := {
  blob_content : list byte;
  blob_name : option string
}.

(** An entry of a [FormData] as [append] was called: with a string, or
    with a blob and the file name given as third argument, if any. *)
Inductive FormDataEntryValue :=
| FormString (value : string)
| FormBlob (value : Blob) (filename : option string).

Inductive BodyInit :=
| TextBody (text : string)
| FormDataBody (entries : list (string * FormDataEntryValue)).

Record Request := {
  url : string;
  method : Method;
  request_headers : list (string * string);
  body : option BodyInit
}.

(** A response, with the reason [response.json()] rejects with when
    it does. *)
Record FetchResponse := {
  response : Response;
  json_rejection : JSError
}.

(** [response.ok]: the status is in the range 200 to 299. *)
Definition ok (r : FetchResponse) : bool :=
  ((200 <=? status (response r)) && (status (response r) <=? 299))%Z.

(** The end of every method that returns the body:
<<
  if (!response.ok) { await handleAPIError(response); }
  return response.json();
>>
*)
Definition json_if_ok (r : FetchResponse) : completion JSValue :=
  if ok r then
    match json (response r) with
    | Some value => Return value
    | None => Throw (json_rejection r)
    end
  else
    match handleAPIError (response r) with
    | Throw e => Throw e
    | Return never => match never with end
    end.

(** The end of [delete], which returns nothing. *)
Definition void_if_ok (r : FetchResponse) : completion unit :=
  if ok r then Return tt
  else
    match handleAPIError (response r) with
    | Throw e => Throw e
    | Return never => match never with end
    end.

(** [await fetch(request)] and then [k]. *)
Definition fetch_then {A} (fetch : Request -> completion FetchResponse)
                      (request : Request)
                      (k : FetchResponse -> completion A) : completion A :=
  match fetch request with
  | Throw e => Throw e
  | Return r => k r
  end.

(** ** [URLSearchParams] (URL Standard) *)

(** [set(name, value)]: the first tuple of that name gets the value
    and the others of that name are removed; without one the tuple is
    appended. *)
Fixpoint remove_name (name : string) (l : list (string * string))
  : list (string * string) :=
  match l with
  | [] => []
  | (k, v) :: r =>
      if String.eqb k name then remove_name name r
      else (k, v) :: remove_name name r
  end.

Fixpoint URLSearchParams_set (l : list (string * string))
                             (name value : string)
  : list (string * string) :=
  match l with
  | [] => [(name, value)]
  | (k, v) :: r =>
      if String.eqb k name then (name, value) :: remove_name name r
      else (k, v) :: URLSearchParams_set r name value
  end.

(** The bytes left as they are by the
    [application/x-www-form-urlencoded] serializer: ASCII letters and
    digits, [*], [-], [.] and [_]. *)
Definition is_urlencoded_safe (c : ascii) : bool :=
  let n := N_of_ascii c in
  (((48 <=? n) && (n <=? 57)) || ((65 <=? n) && (n <=? 90))
   || ((97 <=? n) && (n <=? 122))
   || (n =? 42) || (n =? 45) || (n =? 46) || (n =? 95))%N.

Definition upper_hex (n : N) : ascii :=
  nth (N.to_nat n) (list_ascii_of_string "0123456789ABCDEF") "0"%char.

Definition percent_encode_byte (b : N) : list ascii :=
  ["%"%char; upper_hex (b / 16); upper_hex (b mod 16)].

(** UTF-8 of a code point. Outside the surrogates the characters of
    a code unit are its UTF-8; a surrogate pair is a code point from
    0x10000 on, of four bytes; and a surrogate that is not of a pair
    is replaced by U+FFFD when [set] takes its arguments. *)
Definition utf8_bytes (p : CodePoint) : list N :=
  match p with
  | Character c => [N_of_ascii c]
  | SurrogatePair c2 c3 d2 d3 =>
      let n := (65536 + (surrogate c2 c3 - 55296) * 1024
                + (surrogate d2 d3 - 56320))%N in
      [240 + n / 262144; 128 + (n / 4096) mod 64; 128 + (n / 64) mod 64;
       128 + n mod 64]%N
  | LoneSurrogate _ _ => [239; 191; 189]%N
  end.

Definition urlencode_code_point (p : CodePoint) : list ascii :=
  match p with
  | Character c =>
      if Ascii.eqb c " " then ["+"%char]
      else if is_urlencoded_safe c then [c]
      else flat_map percent_encode_byte (utf8_bytes p)
  | _ => flat_map percent_encode_byte (utf8_bytes p)
  end.

Definition urlencode (s : string) : list ascii :=
  flat_map urlencode_code_point (StringToCodePoints (list_ascii_of_string s)).

(** [searchParams.toString()] *)
Definition URLSearchParams_toString (l : list (string * string)) : string :=
  string_of_list_ascii
    (join_chars ["&"%char]
       (map (fun kv => urlencode (fst kv) ++ "="%char :: urlencode (snd kv)) l)).

(** [String(b)] on a boolean. *)
Definition boolean_to_string (b : bool) : string :=
  if b then "true" else "false".

(** ** [Credits] *)

Module Credits.

Definition get_request (client : Gradium) : Request :=
  {| url := (baseURL client ++ "/usages/credits")%string;
     method := GET;
     request_headers := headers client;
     body := None |}.

(** [get()] *)
Definition get (fetch : Request -> completion FetchResponse)
               (client : Gradium) : completion JSValue :=
  fetch_then fetch (get_request client) json_if_ok.

End Credits.

(** ** [Voices] *)

Module Voices.

(** [VoiceListParams] *)
Record VoiceListParams := {
  skip : option number;
  limit : option number;
  include_catalog : option bool
}.

(** The search parameters of [list(params)]: each [set] is made
    when the property is not [undefined]. *)
Definition list_searchParams (params : option VoiceListParams)
  : list (string * string) :=
  let searchParams := [] in
  let searchParams :=
    match params with
    | Some {| skip := Some skip |} =>
        URLSearchParams_set searchParams "skip" (number_to_string skip)
    | _ => searchParams
    end in
  let searchParams :=
    match params with
    | Some {| limit := Some limit |} =>
        URLSearchParams_set searchParams "limit" (number_to_string limit)
    | _ => searchParams
    end in
  let searchParams :=
    match params with
    | Some {| include_catalog := Some include_catalog |} =>
        URLSearchParams_set searchParams "include_catalog"
          (boolean_to_string include_catalog)
    | _ => searchParams
    end in
  searchParams.

Definition list_request (client : Gradium) (params : option VoiceListParams)
  : Request :=
  let queryString := URLSearchParams_toString (list_searchParams params) in
  {| url := (baseURL client ++ "/voices/"
             ++ (if String.eqb queryString EmptyString then EmptyString
                 else "?" ++ queryString))%string;
     method := GET;
     request_headers := headers client;
     body := None |}.

(** [list(params?)] *)
Definition list (fetch : Request -> completion FetchResponse)
                (client : Gradium) (params : option VoiceListParams)
  : completion JSValue :=
  fetch_then fetch (list_request client params) json_if_ok.

Definition get_request (client : Gradium) (voiceUid : string) : Request :=
  {| url := (baseURL client ++ "/voices/" ++ voiceUid)%string;
     method := GET;
     request_headers := headers client;
     body := None |}.

(** [get(voiceUid)] *)
Definition get (fetch : Request -> completion FetchResponse)
               (client : Gradium) (voiceUid : string) : completion JSValue :=
  fetch_then fetch (get_request client voiceUid) json_if_ok.

(** [audio_file: File | Blob | string] *)
Inductive AudioFile :=
| FilePath (path : string)
| BlobValue (blob : Blob).

(** [VoiceCreateParams]; [description] and [language] can be
    absent, [null] or a string. *)
Record VoiceCreateParams := {
  audio_file : AudioFile;
  name : string;
  input_format : option string;
  description : option (option string);
  language : option (option string);
  start_s : option number;
  timeout_s : option number
}.

(** [s.split("/")]: never empty. *)
Fixpoint split_slash (s : string) : Datatypes.list string :=
  match s with
  | EmptyString => [EmptyString]
  | String c r =>
      if Ascii.eqb c "/" then EmptyString :: split_slash r
      else
        match split_slash r with
        | first :: others => String c first :: others
        | [] => [String c EmptyString]
        end
  end.

(** [params.audio_file.split("/").pop() || "audio.wav"] *)
Definition filename_of (path : string) : string :=
  let popped := last (split_slash path) EmptyString in
  if String.eqb popped EmptyString then "audio.wav" else popped.

Definition optional_entry (key : string) (value : option string)
  : Datatypes.list (string * FormDataEntryValue) :=
  match value with
  | Some v => [(key, FormString v)]
  | None => []
  end.

(** The form of [create(params)], [read_file] being
    [Bun.file(path).arrayBuffer()]. *)
Definition create_formData (read_file : string -> completion (Datatypes.list byte))
                           (params : VoiceCreateParams)
  : completion (Datatypes.list (string * FormDataEntryValue)) :=
  let audio :=
    match audio_file params with
    | FilePath path =>
        match read_file path with
        | Throw e => Throw e
        | Return blob =>
            Return ("audio_file",
                    FormBlob {| blob_content := blob; blob_name := None |}
                             (Some (filename_of path)))
        end
    | BlobValue blob => Return ("audio_file", FormBlob blob None)
    end in
  match audio with
  | Throw e => Throw e
  | Return audio_entry =>
      Return
        (audio_entry
         :: ("name", FormString (name params))
         :: optional_entry "input_format"
              match input_format params with
              | Some f => if String.eqb f EmptyString then None else Some f
              | None => None
              end
         ++ optional_entry "description"
              match description params with
              | Some (Some d) => Some d
              | _ => None
              end
         ++ optional_entry "language"
              match language params with
              | Some (Some l) => Some l
              | _ => None
              end
         ++ optional_entry "start_s"
              (option_map number_to_string (start_s params))
         ++ optional_entry "timeout_s"
              (option_map number_to_string (timeout_s params)))
  end.

Definition create_request (client : Gradium)
                          (formData : Datatypes.list (string * FormDataEntryValue))
  : Request :=
  {| url := (baseURL client ++ "/voices/")%string;
     method := POST;
     request_headers := [("x-api-key", apiKey client)];
     body := Some (FormDataBody formData) |}.

(** [create(params)] *)
Definition create (read_file : string -> completion (Datatypes.list byte))
                  (fetch : Request -> completion FetchResponse)
                  (client : Gradium) (params : VoiceCreateParams)
  : completion JSValue :=
  match create_formData read_file params with
  | Throw e => Throw e
  | Return formData =>
      fetch_then fetch (create_request client formData) json_if_ok
  end.

(** [update(voiceUid, params)]; [params] is the caller's object. *)
Definition update_request (client : Gradium) (voiceUid : string)
                          (params : JSValue) : Request :=
  {| url := (baseURL client ++ "/voices/" ++ voiceUid)%string;
     method := PUT;
     request_headers :=
       headers client ++ [("Content-Type", "application/json")];
     body := Some (TextBody (JSON_stringify params)) |}.

Definition update (fetch : Request -> completion FetchResponse)
                  (client : Gradium) (voiceUid : string) (params : JSValue)
  : completion JSValue :=
  fetch_then fetch (update_request client voiceUid params) json_if_ok.

Definition delete_request (client : Gradium) (voiceUid : string) : Request :=
  {| url := (baseURL client ++ "/voices/" ++ voiceUid)%string;
     method := DELETE;
     request_headers := headers client;
     body := None |}.

(** [delete(voiceUid)] *)
Definition delete (fetch : Request -> completion FetchResponse)
                  (client : Gradium) (voiceUid : string) : completion unit :=
  fetch_then fetch (delete_request client voiceUid) void_if_ok.

End Voices.

End Rest.

(* ===================================================================== *)
(** * Facts: base64 *)
(* ===================================================================== *)

Module Base64Facts.
Import Base64.
Local Open Scope N_scope.

Ltac div_lia := zify; Z.to_euclidean_division_equations; lia.

Lemma list_ind3 (A : Type) (P : list A -> Prop) :
  P [] -> (forall a, P [a]) -> (forall a b, P [a; b]) ->
  (forall a b c l, P l -> P (a :: b :: c :: l)) ->
  forall l, P l.
Proof.
  intros H0 H1 H2 H3.
  fix IH 1. intros [|a [|b [|c l]]];
    [apply H0 | apply H1 | apply H2 | apply H3; apply IH].
Qed.

Lemma sextet_cases (n : N) (P : N -> Prop) :
  n < 64 ->
  (forall k, (k < 64)%nat -> P (N.of_nat k)) -> P n.
Proof.
  intros Hn H. rewrite <- (N2Nat.id n). apply H. lia.
Qed.

Lemma char_sextet_sextet_char n : n < 64 -> char_sextet (sextet_char n) = Some n.
Proof.
  intros Hn. pattern n. apply sextet_cases; [exact Hn|]. clear. intros k Hk.
  do 64 (destruct k as [|k]; [reflexivity|]). lia.
Qed.

Lemma sextet_char_not_ws n : n < 64 -> is_ascii_whitespace (sextet_char n) = false.
Proof.
  intros Hn. pattern n. apply sextet_cases; [exact Hn|]. clear. intros k Hk.
  do 64 (destruct k as [|k]; [reflexivity|]). lia.
Qed.

Lemma sextet_char_not_pad n : n < 64 -> sextet_char n <> pad.
Proof.
  intros Hn. pattern n. apply sextet_cases; [exact Hn|]. clear. intros k Hk.
  do 64 (destruct k as [|k]; [discriminate|]). lia.
Qed.


Lemma encode_no_ws l :
  Forall (fun b => b < 256) l ->
  filter (fun c => negb (is_ascii_whitespace c)) (encode l) = encode l.
Proof.
  induction l as [|a|a b|a b c l IH] using list_ind3; intros H.
  - reflexivity.
  - inversion_clear H. cbn [encode filter].
    rewrite !sextet_char_not_ws by div_lia. reflexivity.
  - inversion_clear H. inversion_clear H1. cbn [encode filter].
    rewrite !sextet_char_not_ws by div_lia. reflexivity.
  - inversion_clear H. inversion_clear H1. inversion_clear H2.
    cbn [encode filter].
    rewrite !sextet_char_not_ws by div_lia. cbn [negb]. now rewrite IH.
Qed.

Lemma encode_length l : (length (encode l) mod 4 = 0)%nat.
Proof.
  induction l as [|a|a b|a b c l IH] using list_ind3; try reflexivity.
  cbn [encode length].
  change (S (S (S (S (length (encode l)))))) with (4 + length (encode l))%nat.
  rewrite <- Nat.Div0.add_mod_idemp_l. exact IH.
Qed.

Lemma encode_nonempty a l : (4 <= length (encode (a :: l)))%nat.
Proof. destruct l as [|b [|c l]]; cbn; lia. Qed.

Lemma strip_padding_cons c data :
  (2 <= length data)%nat -> strip_padding (c :: data) = c :: strip_padding data.
Proof.
  intros H. unfold strip_padding. cbn [rev].
  assert (Hd : data = rev (rev data)) by now rewrite rev_involutive.
  destruct (rev data) as [|x [|y r]] eqn:E;
    try (apply (f_equal (@length _)) in Hd; cbn in Hd; lia).
  cbn [app]. destruct (Ascii.eqb x pad); [|reflexivity].
  destruct (Ascii.eqb y pad); cbn [rev]; now rewrite rev_app_distr.
Qed.

Lemma eqb_pad_sextet_char n : n < 64 -> Ascii.eqb (sextet_char n) pad = false.
Proof.
  intros H. apply Ascii.eqb_neq. now apply sextet_char_not_pad.
Qed.

Lemma encode_cons3 a b c l :
  encode (a :: b :: c :: l) =
  sextet_char (a / 4)
    :: sextet_char ((a mod 4) * 16 + b / 16)
    :: sextet_char ((b mod 16) * 4 + c / 64)
    :: sextet_char (c mod 64)
    :: encode l.
Proof. reflexivity. Qed.

(** What [atob] does after the white space is gone. *)
Lemma decode_encode l :
  Forall (fun b => b < 256) l ->
  exists sx,
    sextets (strip_padding (encode l)) = Some sx /\
    decode sx = l /\
    (length (strip_padding (encode l)) mod 4 <> 1)%nat.
Proof.
  induction l as [|a|a b|a b c l IH] using list_ind3; intros H.
  - exists []. repeat split. cbn. lia.
  - inversion_clear H.
    unfold strip_padding. cbn [encode rev app]. cbn [Ascii.eqb pad Bool.eqb].
    cbn [rev app sextets].
    rewrite !char_sextet_sextet_char by div_lia.
    eexists; repeat split; [|cbn; lia].
    cbn [decode]. f_equal. div_lia.
  - inversion_clear H. inversion_clear H1.
    unfold strip_padding. cbn [encode rev app]. cbn [Ascii.eqb pad Bool.eqb].
    rewrite eqb_pad_sextet_char by div_lia.
    cbn [rev app sextets].
    rewrite !char_sextet_sextet_char by div_lia.
    eexists; repeat split; [|cbn; lia].
    cbn [decode]. f_equal; [div_lia|f_equal; div_lia].
  - inversion_clear H. inversion_clear H1. inversion_clear H2.
    destruct l as [|d l].
    + unfold strip_padding. cbn [encode rev app].
      rewrite eqb_pad_sextet_char by div_lia.
      cbn [sextets].
      rewrite !char_sextet_sextet_char by div_lia.
      eexists; repeat split; [|cbn; lia].
      cbn [decode]. f_equal; [div_lia|f_equal; [div_lia|f_equal; div_lia]].
    + destruct (IH H3) as (sx & Hsx & Hdec & Hlen).
      pose proof (encode_nonempty d l) as Hne.
      rewrite encode_cons3.
      rewrite !strip_padding_cons by (cbn [length]; lia).
      cbn [sextets]. rewrite Hsx.
      rewrite !char_sextet_sextet_char by div_lia.
      eexists; repeat split.
      * cbn [decode]. rewrite Hdec.
        f_equal; [div_lia|f_equal; [div_lia|f_equal; div_lia]].
      * cbn [length].
        change (S (S (S (S ?n)))) with (4 + n)%nat.
        rewrite <- Nat.Div0.add_mod_idemp_l. exact Hlen.
Qed.

Lemma N_of_ascii_bounded cs : Forall (fun b => b < 256) (map N_of_ascii cs).
Proof.
  induction cs as [|c cs IH]; constructor; [apply N_ascii_bounded|exact IH].
Qed.

Lemma map_ascii_of_N_of_ascii cs : map ascii_of_N (map N_of_ascii cs) = cs.
Proof.
  induction cs as [|c cs IH]; [reflexivity|].
  cbn. now rewrite ascii_N_embedding, IH.
Qed.

(** [atob(btoa(s))] is [s]. *)
Lemma atob_btoa s : atob (btoa s) = Some s.
Proof.
  unfold atob, btoa.
  rewrite list_ascii_of_string_of_list_ascii.
  set (l := map N_of_ascii (list_ascii_of_string s)).
  assert (Hl : Forall (fun b => b < 256) l) by apply N_of_ascii_bounded.
  rewrite (encode_no_ws Hl), encode_length. cbn [Nat.eqb].
  destruct (decode_encode Hl) as (sx & Hsx & Hdec & Hlen).
  apply Nat.eqb_neq in Hlen. rewrite Hlen, Hsx, Hdec.
  unfold l. now rewrite map_ascii_of_N_of_ascii, string_of_list_ascii_of_string.
Qed.

(** The bytes of an audio chunk survive [btoa] and [atob]. *)
Lemma bytes_roundtrip (a : list byte) :
  option_map Uint8Array_from_charCodes (atob (btoa (String_fromCharCode a)))
  = Some a.
Proof.
  rewrite atob_btoa. cbn.
  unfold Uint8Array_from_charCodes, String_fromCharCode.
  now rewrite list_byte_of_string_of_list_byte.
Qed.

End Base64Facts.

(* ===================================================================== *)
(** * Facts: promises and the streams' waiters *)
(* ===================================================================== *)

Module PromiseFacts.
Import Errors Platform.

Lemma resolve_settled A (p : Promise A) v :
  settled p = true -> resolve p v = p.
Proof. destruct p; simpl; congruence. Qed.

Lemma reject_settled A (p : Promise A) e :
  settled p = true -> reject p e = p.
Proof. destruct p; simpl; congruence. Qed.

Lemma resolve_pending A (p : Promise A) v :
  p = Pending -> resolve p v = Fulfilled v.
Proof. intros ->; reflexivity. Qed.

Lemma reject_pending A (p : Promise A) e :
  p = Pending -> reject p e = Rejected e.
Proof. intros ->; reflexivity. Qed.

Lemma settled_resolve A (p : Promise A) v : settled (resolve p v) = true.
Proof. destruct p; reflexivity. Qed.

Lemma settled_reject A (p : Promise A) e : settled (reject p e) = true.
Proof. destruct p; reflexivity. Qed.

Lemma not_pending_settled A (p : Promise A) : p <> Pending <-> settled p = true.
Proof. destruct p; simpl; split; congruence. Qed.
End PromiseFacts.

Module TTSStreamFacts.
Import JS Errors Types Platform Base64 TTSStream PromiseFacts.

Ltac event_cases ev :=
  destruct ev as [ | [ ? | [ ? | ? | ? ? | ] | | ] | | ? ? ? ].

Ltac handlers :=
  unfold dispatch, onmessage, onerror, onclose, endReject, readyReject,
    endResolve, readyResolve, set_endPromise, set_readyPromise,
    push_message, push_chunk, set_ready, set_ws;
  repeat match goal with
    | |- context [match atob ?a with _ => _ end] => destruct (atob a)
    | |- context [if ?b then _ else _] => destruct b
    end;
  cbn.

Lemma TTS_readyPromise_dispatch_settled this ev :
  settled (readyPromise this) = true ->
  readyPromise (dispatch this ev) = readyPromise this.
Proof.
  intros H. event_cases ev; handlers;
    auto using resolve_settled, reject_settled.
Qed.

Lemma TTS_endPromise_dispatch_settled this ev :
  settled (endPromise this) = true ->
  endPromise (dispatch this ev) = endPromise this.
Proof.
  intros H. event_cases ev; handlers;
    auto using resolve_settled, reject_settled.
Qed.

Lemma TTS_readyPromise_run_settled evs : forall this,
  settled (readyPromise this) = true ->
  readyPromise (run this evs) = readyPromise this.
Proof.
  induction evs as [|ev evs IH]; intros this H; [reflexivity|].
  cbn. unfold run in IH. rewrite IH.
  - now apply TTS_readyPromise_dispatch_settled.
  - now rewrite TTS_readyPromise_dispatch_settled.
Qed.

Lemma TTS_endPromise_run_settled evs : forall this,
  settled (endPromise this) = true ->
  endPromise (run this evs) = endPromise this.
Proof.
  induction evs as [|ev evs IH]; intros this H; [reflexivity|].
  cbn. unfold run in IH. rewrite IH.
  - now apply TTS_endPromise_dispatch_settled.
  - now rewrite TTS_endPromise_dispatch_settled.
Qed.

Lemma TTS_run_app this evs1 evs2 :
  run this (evs1 ++ evs2) = run (run this evs1) evs2.
Proof. apply fold_left_app. Qed.

Lemma sampleRate_dispatch this ev : sampleRate (dispatch this ev) = sampleRate this.
Proof. event_cases ev; handlers; reflexivity. Qed.

Lemma sampleRate_run evs : forall this, sampleRate (run this evs) = sampleRate this.
Proof.
  induction evs as [|ev evs IH]; intros this; [reflexivity|].
  cbn. unfold run in IH. now rewrite IH, sampleRate_dispatch.
Qed.

(** The outcome of a [collect()] call only depends on the state in which the
    end promise is first seen settled. *)
Lemma collect_settled this future :
  settled (endPromise this) = true ->
  collect this future =
    match endPromise this with
    | Fulfilled _ => Fulfilled (collect_result this)
    | Rejected e => Rejected e
    | Pending => Pending
    end.
Proof. destruct future; simpl; destruct (endPromise this); simpl; congruence. Qed.

Lemma TTS_endPromise_pending_prefix evs1 : forall this evs2,
  endPromise (run this (evs1 ++ evs2)) = Pending ->
  endPromise (run this evs1) = Pending.
Proof.
  intros this evs2 H. rewrite TTS_run_app in H.
  destruct (endPromise (run this evs1)) eqn:E; [reflexivity| |];
    rewrite TTS_endPromise_run_settled in H by (rewrite E; reflexivity);
    congruence.
Qed.

Lemma collect_pending_prefix evs1 : forall this evs2,
  endPromise (run this evs1) = Pending ->
  collect this (evs1 ++ evs2) = collect (run this evs1) evs2.
Proof.
  induction evs1 as [|ev evs1 IH]; intros this evs2 H; [reflexivity|].
  assert (Hp : endPromise this = Pending).
  { apply (TTS_endPromise_pending_prefix [] this (ev :: evs1)). exact H. }
  cbn [app collect]. rewrite Hp. cbn. apply IH. exact H.
Qed.

End TTSStreamFacts.

Module STTStreamFacts.
Import JS Errors Types Platform Base64 STTStream PromiseFacts.

Ltac event_cases ev :=
  destruct ev as [ | [ ? | [ ? | ? | ? | ? | ? ? | ] | | ] | | ? ? ? ].

Ltac handlers :=
  unfold dispatch, onmessage, onerror, onclose, endReject, readyReject,
    endResolve, readyResolve, set_endPromise, set_readyPromise,
    push_message, push_text, push_vad, set_ready, set_ws;
  repeat match goal with
    | |- context [if ?b then _ else _] => destruct b
    end;
  cbn.

Lemma STT_readyPromise_dispatch_settled this ev :
  settled (readyPromise this) = true ->
  readyPromise (dispatch this ev) = readyPromise this.
Proof.
  intros H. event_cases ev; handlers;
    auto using resolve_settled, reject_settled.
Qed.

Lemma STT_endPromise_dispatch_settled this ev :
  settled (endPromise this) = true ->
  endPromise (dispatch this ev) = endPromise this.
Proof.
  intros H. event_cases ev; handlers;
    auto using resolve_settled, reject_settled.
Qed.

Lemma STT_readyPromise_run_settled evs : forall this,
  settled (readyPromise this) = true ->
  readyPromise (run this evs) = readyPromise this.
Proof.
  induction evs as [|ev evs IH]; intros this H; [reflexivity|].
  cbn. unfold run in IH. rewrite IH.
  - now apply STT_readyPromise_dispatch_settled.
  - now rewrite STT_readyPromise_dispatch_settled.
Qed.

Lemma STT_endPromise_run_settled evs : forall this,
  settled (endPromise this) = true ->
  endPromise (run this evs) = endPromise this.
Proof.
  induction evs as [|ev evs IH]; intros this H; [reflexivity|].
  cbn. unfold run in IH. rewrite IH.
  - now apply STT_endPromise_dispatch_settled.
  - now rewrite STT_endPromise_dispatch_settled.
Qed.

Lemma STT_run_app this evs1 evs2 :
  run this (evs1 ++ evs2) = run (run this evs1) evs2.
Proof. apply fold_left_app. Qed.

Lemma collectText_settled this future :
  settled (endPromise this) = true ->
  collectText this future =
    match endPromise this with
    | Fulfilled _ => Fulfilled (collect_result this)
    | Rejected e => Rejected e
    | Pending => Pending
    end.
Proof. destruct future; simpl; destruct (endPromise this); simpl; congruence. Qed.

Lemma STT_endPromise_pending_prefix evs1 : forall this evs2,
  endPromise (run this (evs1 ++ evs2)) = Pending ->
  endPromise (run this evs1) = Pending.
Proof.
  intros this evs2 H. rewrite STT_run_app in H.
  destruct (endPromise (run this evs1)) eqn:E; [reflexivity| |];
    rewrite STT_endPromise_run_settled in H by (rewrite E; reflexivity);
    congruence.
Qed.

Lemma collectText_pending_prefix evs1 : forall this evs2,
  endPromise (run this evs1) = Pending ->
  collectText this (evs1 ++ evs2) = collectText (run this evs1) evs2.
Proof.
  induction evs1 as [|ev evs1 IH]; intros this evs2 H; [reflexivity|].
  assert (Hp : endPromise this = Pending).
  { apply (STT_endPromise_pending_prefix [] this (ev :: evs1)). exact H. }
  cbn [app collectText]. rewrite Hp. cbn. apply IH. exact H.
Qed.

End STTStreamFacts.

(* ===================================================================== *)
(** * Error envelopes (claim C1) *)
(* ===================================================================== *)

Module ErrorEnvelope.
Import JS Errors Types Platform PromiseFacts.

Lemma TTS_error_envelope ws pre1 pre2 post message code :
  let error := WebSocketError message (Some code) in
  let envelope := OnMessage (Parsed (TTSError message code)) in
  let before := TTSStream.run (TTSStream.new ws) (pre1 ++ pre2) in
  let after := TTSStream.run before (envelope :: post) in
  (TTSStream.readyPromise before = Pending ->
   TTSStream.waitReady after = Rejected error) /\
  (forall v, TTSStream.readyPromise before = Fulfilled v ->
             TTSStream.waitReady after = Fulfilled v) /\
  (TTSStream.endPromise before = Pending ->
   (forall future, TTSStream.collect after future = Rejected error) /\
   TTSStream.collect (TTSStream.run (TTSStream.new ws) pre1)
                     (pre2 ++ envelope :: post) = Rejected error).
Proof.
  intros error envelope before after.
  assert (Hready : TTSStream.readyPromise before = Pending ->
                   TTSStream.readyPromise after = Rejected error).
  { intros H. unfold after. cbn [TTSStream.run fold_left].
    fold (TTSStream.run (TTSStream.dispatch before envelope) post).
    rewrite TTSStreamFacts.TTS_readyPromise_run_settled; cbn; rewrite H; reflexivity. }
  assert (Hend : TTSStream.endPromise before = Pending ->
                 TTSStream.endPromise after = Rejected error).
  { intros H. unfold after. cbn [TTSStream.run fold_left].
    fold (TTSStream.run (TTSStream.dispatch before envelope) post).
    rewrite TTSStreamFacts.TTS_endPromise_run_settled; cbn; rewrite H; reflexivity. }
  split; [exact Hready|]. split.
  - intros v H. unfold TTSStream.waitReady, after.
    rewrite TTSStreamFacts.TTS_readyPromise_run_settled; rewrite H; reflexivity.
  - intros H. specialize (Hend H).
    assert (Hfuture : forall future, TTSStream.collect after future = Rejected error).
    { intros future. rewrite TTSStreamFacts.collect_settled; rewrite Hend; reflexivity. }
    split; [exact Hfuture|].
    unfold before in H. rewrite TTSStreamFacts.TTS_run_app in H.
    rewrite TTSStreamFacts.collect_pending_prefix by exact H.
    cbn [TTSStream.collect]. rewrite H.
    rewrite TTSStreamFacts.collect_settled; cbn; rewrite H; reflexivity.
Qed.

Lemma STT_error_envelope ws pre1 pre2 post message code :
  let error := WebSocketError message (Some code) in
  let envelope := OnMessage (Parsed (STTError message code)) in
  let before := STTStream.run (STTStream.new ws) (pre1 ++ pre2) in
  let after := STTStream.run before (envelope :: post) in
  (STTStream.readyPromise before = Pending ->
   STTStream.waitReady after = Rejected error) /\
  (forall v, STTStream.readyPromise before = Fulfilled v ->
             STTStream.waitReady after = Fulfilled v) /\
  (STTStream.endPromise before = Pending ->
   (forall future, STTStream.collectText after future = Rejected error) /\
   STTStream.collectText (STTStream.run (STTStream.new ws) pre1)
                         (pre2 ++ envelope :: post) = Rejected error).
Proof.
  intros error envelope before after.
  assert (Hready : STTStream.readyPromise before = Pending ->
                   STTStream.readyPromise after = Rejected error).
  { intros H. unfold after. cbn [STTStream.run fold_left].
    fold (STTStream.run (STTStream.dispatch before envelope) post).
    rewrite STTStreamFacts.STT_readyPromise_run_settled; cbn; rewrite H; reflexivity. }
  assert (Hend : STTStream.endPromise before = Pending ->
                 STTStream.endPromise after = Rejected error).
  { intros H. unfold after. cbn [STTStream.run fold_left].
    fold (STTStream.run (STTStream.dispatch before envelope) post).
    rewrite STTStreamFacts.STT_endPromise_run_settled; cbn; rewrite H; reflexivity. }
  split; [exact Hready|]. split.
  - intros v H. unfold STTStream.waitReady, after.
    rewrite STTStreamFacts.STT_readyPromise_run_settled; rewrite H; reflexivity.
  - intros H. specialize (Hend H).
    assert (Hfuture : forall future, STTStream.collectText after future = Rejected error).
    { intros future. rewrite STTStreamFacts.collectText_settled; rewrite Hend; reflexivity. }
    split; [exact Hfuture|].
    unfold before in H. rewrite STTStreamFacts.STT_run_app in H.
    rewrite STTStreamFacts.collectText_pending_prefix by exact H.
    cbn [STTStream.collectText]. rewrite H.
    rewrite STTStreamFacts.collectText_settled; cbn; rewrite H; reflexivity.
Qed.

(** C1, as stated, fails in the ready-then-error ordering: the ready
    promise was resolved by the [ready] envelope and a resolved promise
    cannot be rejected, so [waitReady()] does not reject. *)
Lemma error_after_ready_waitReady_resolved :
  let after :=
    TTSStream.run (TTSStream.new new_WebSocket)
      [OnMessage (Parsed (TTSReady "req-123"));
       OnMessage (Parsed (TTSError "Voice not found" (number_of_Z 404)))] in
  TTSStream.waitReady after = Fulfilled tt /\
  TTSStream.waitReady after
    <> Rejected (WebSocketError "Voice not found" (Some (number_of_Z 404))).
Proof. split; [reflexivity|discriminate]. Qed.

(** C1 (amended). Once an error envelope with message [message] and code
    [code] is processed, every outstanding and every future
    [waitReady()] and [collect()]/[collectText()] call whose promise was
    still pending when the envelope arrived rejects with the
    [WebSocketError] carrying [message] and [code]: both do in the
    error-before-ready ordering; in the ready-then-error ordering
    [collect()]/[collectText()] rejects and [waitReady()] keeps the
    resolution the [ready] envelope gave it. The same holds of a TTS and
    of an STT session. *)
Theorem error_envelope_rejects_pending_waiters :
  forall ws message code
         (pre1 pre2 post : list (WsEvent TTSServerMessage))
         (pre1' pre2' post' : list (WsEvent STTServerMessage)),
    let error := WebSocketError message (Some code) in
    (let envelope := OnMessage (Parsed (TTSError message code)) in
     let before := TTSStream.run (TTSStream.new ws) (pre1 ++ pre2) in
     let after := TTSStream.run before (envelope :: post) in
     (TTSStream.readyPromise before = Pending ->
      TTSStream.waitReady after = Rejected error) /\
     (forall v, TTSStream.readyPromise before = Fulfilled v ->
                TTSStream.waitReady after = Fulfilled v) /\
     (TTSStream.endPromise before = Pending ->
      (forall future, TTSStream.collect after future = Rejected error) /\
      TTSStream.collect (TTSStream.run (TTSStream.new ws) pre1)
                        (pre2 ++ envelope :: post) = Rejected error))
    /\
    (let envelope := OnMessage (Parsed (STTError message code)) in
     let before := STTStream.run (STTStream.new ws) (pre1' ++ pre2') in
     let after := STTStream.run before (envelope :: post') in
     (STTStream.readyPromise before = Pending ->
      STTStream.waitReady after = Rejected error) /\
     (forall v, STTStream.readyPromise before = Fulfilled v ->
                STTStream.waitReady after = Fulfilled v) /\
     (STTStream.endPromise before = Pending ->
      (forall future, STTStream.collectText after future = Rejected error) /\
      STTStream.collectText (STTStream.run (STTStream.new ws) pre1')
                            (pre2' ++ envelope :: post') = Rejected error)).
Proof.
  intros. split.
  - apply TTS_error_envelope.
  - apply STT_error_envelope.
Qed.

(** The error-before-ready ordering of the tests: both calls reject. *)
Lemma error_envelope_rejects_pending_waiters_witness :
  let error := WebSocketError "Voice not found" (Some (number_of_Z 404)) in
  let envelope := OnMessage (Parsed (TTSError "Voice not found" (number_of_Z 404))) in
  TTSStream.waitReady (TTSStream.run (TTSStream.new new_WebSocket) [envelope])
    = Rejected error /\
  TTSStream.collect (TTSStream.new new_WebSocket) [envelope] = Rejected error.
Proof.
  intros error envelope.
  destruct (error_envelope_rejects_pending_waiters new_WebSocket
              "Voice not found" (number_of_Z 404) [] [] [] [] [] [])
    as [[Hready [_ Hend]] _].
  split.
  - apply Hready. reflexivity.
  - apply Hend. reflexivity.
Defined.

End ErrorEnvelope.

(* ===================================================================== *)
(** * The ready envelope (claim C2) *)
(* ===================================================================== *)

Module ReadyEnvelope.
Import JS Errors Types Platform PromiseFacts.

(** C2, as stated, fails on a sequence that ends in a [ready] envelope
    after an [error] envelope: the ready promise is already rejected and
    [waitReady()] does not resolve with the metadata. *)
Lemma ready_after_error_waitReady_rejected :
  let m := {| ready_request_id := "req-123";
              ready_model_name := "default";
              ready_sample_rate := number_of_Z 24000;
              ready_frame_size := number_of_Z 1920;
              ready_delay_in_tokens := number_of_Z 3;
              ready_text_stream_names := ["primary"] |} in
  let after :=
    STTStream.run (STTStream.new new_WebSocket)
      [OnMessage (Parsed (STTError "Invalid audio format" (number_of_Z 400)));
       OnMessage (Parsed (STTReady m))] in
  STTStream.waitReady after
    = Rejected (WebSocketError "Invalid audio format" (Some (number_of_Z 400))) /\
  STTStream.waitReady after <> Fulfilled m.
Proof. split; [reflexivity|discriminate]. Qed.

Lemma TTS_ready_envelope ws pre request_id later :
  TTSStream.readyPromise (TTSStream.run (TTSStream.new ws) pre) = Pending ->
  TTSStream.waitReady
    (TTSStream.run (TTSStream.new ws)
       (pre ++ OnMessage (Parsed (TTSReady request_id)) :: later))
  = Fulfilled tt /\
  TTSStream.getRequestId
    (TTSStream.run (TTSStream.new ws)
       (pre ++ [OnMessage (Parsed (TTSReady request_id))]))
  = request_id.
Proof.
  intros H. split.
  - unfold TTSStream.waitReady. rewrite TTSStreamFacts.TTS_run_app.
    cbn [TTSStream.run fold_left].
    fold (TTSStream.run
            (TTSStream.dispatch (TTSStream.run (TTSStream.new ws) pre)
               (OnMessage (Parsed (TTSReady request_id)))) later).
    rewrite TTSStreamFacts.TTS_readyPromise_run_settled; cbn; rewrite H; reflexivity.
  - rewrite TTSStreamFacts.TTS_run_app. reflexivity.
Qed.

Lemma STT_ready_envelope ws pre m later :
  STTStream.readyPromise (STTStream.run (STTStream.new ws) pre) = Pending ->
  STTStream.waitReady
    (STTStream.run (STTStream.new ws)
       (pre ++ OnMessage (Parsed (STTReady m)) :: later))
  = Fulfilled m.
Proof.
  intros H.
  unfold STTStream.waitReady. rewrite STTStreamFacts.STT_run_app.
  cbn [STTStream.run fold_left].
  fold (STTStream.run
          (STTStream.dispatch (STTStream.run (STTStream.new ws) pre)
             (OnMessage (Parsed (STTReady m)))) later).
  rewrite STTStreamFacts.STT_readyPromise_run_settled; cbn; rewrite H; reflexivity.
Qed.

(** C2 (amended). For every inbound sequence that ends in a [ready]
    envelope and in which the ready promise is still pending when that
    envelope arrives (no earlier [ready] or [error] envelope, channel
    error or unclean close), the STT [waitReady()] resolves with
    exactly that [ready] message (request id, sample rate, frame size
    and the rest); the TTS [waitReady()] resolves, with no value, and
    [getRequestId()] then returns the request id of the envelope. The
    resolution belongs to the one promise every caller receives, so
    callers before and after the envelope observe it alike, and no
    later event changes it. *)
Theorem ready_envelope_resolves_waitReady :
  forall ws
         (pre later : list (WsEvent TTSServerMessage)) request_id
         (pre' later' : list (WsEvent STTServerMessage)) m,
    TTSStream.readyPromise (TTSStream.run (TTSStream.new ws) pre) = Pending ->
    STTStream.readyPromise (STTStream.run (STTStream.new ws) pre') = Pending ->
    (TTSStream.waitReady
       (TTSStream.run (TTSStream.new ws)
          (pre ++ OnMessage (Parsed (TTSReady request_id)) :: later))
     = Fulfilled tt /\
     TTSStream.getRequestId
       (TTSStream.run (TTSStream.new ws)
          (pre ++ [OnMessage (Parsed (TTSReady request_id))]))
     = request_id) /\
    STTStream.waitReady
      (STTStream.run (STTStream.new ws)
         (pre' ++ OnMessage (Parsed (STTReady m)) :: later'))
    = Fulfilled m.
Proof.
  intros ws pre later request_id pre' later' m H H'. split.
  - now apply TTS_ready_envelope.
  - now apply STT_ready_envelope.
Qed.

Lemma ready_envelope_resolves_waitReady_witness :
  let m := {| ready_request_id := "req-123";
              ready_model_name := "default";
              ready_sample_rate := number_of_Z 24000;
              ready_frame_size := number_of_Z 1920;
              ready_delay_in_tokens := number_of_Z 3;
              ready_text_stream_names := ["primary"] |} in
  (TTSStream.waitReady
     (TTSStream.run (TTSStream.new new_WebSocket)
        [OnMessage (Parsed (TTSReady "req-123"))])
   = Fulfilled tt /\
   TTSStream.getRequestId
     (TTSStream.run (TTSStream.new new_WebSocket)
        [OnMessage (Parsed (TTSReady "req-123"))])
   = "req-123") /\
  STTStream.waitReady
    (STTStream.run (STTStream.new new_WebSocket)
       [OnMessage (Parsed (STTReady m));
        OnMessage (Parsed (STTText {| text := "Hello"; start_s := Zero false;
                                      text_stream_id := None |}))])
  = Fulfilled m.
Proof.
  intros m.
  apply (ready_envelope_resolves_waitReady new_WebSocket [] [] "req-123" []
           [OnMessage (Parsed (STTText {| text := "Hello"; start_s := Zero false;
                                          text_stream_id := None |}))] m);
    reflexivity.
Defined.

End ReadyEnvelope.

(* ===================================================================== *)
(** * Decode failures (claim C5) *)
(* ===================================================================== *)

Module DecodeFailure.
Import JS Errors Types Platform.

(** C5, on the code. When [JSON.parse] throws [e] on the first message
    of a session, the [catch] block rejects the end promise with [e]
    and leaves the ready promise pending: [waitReady()] never settles.
    (The handlers of an [error] envelope, of [onerror] and of [onclose]
    reject both promises.) *)
Theorem decode_failure_leaves_ready_pending :
  forall ws e,
    (let s := TTSStream.dispatch (TTSStream.new ws) (OnMessage (Unparsable e)) in
     TTSStream.waitReady s = Pending /\
     TTSStream.endPromise s = Rejected e /\
     TTSStream.collect s [] = Rejected e)
    /\
    (let s := STTStream.dispatch (STTStream.new ws) (OnMessage (Unparsable e)) in
     STTStream.waitReady s = Pending /\
     STTStream.endPromise s = Rejected e /\
     STTStream.collectText s [] = Rejected e).
Proof. intros ws e. repeat split. Qed.

End DecodeFailure.

(* ===================================================================== *)
(** * Sending input (claim C6) *)
(* ===================================================================== *)

Module SendInput.
Import JS Errors Types Platform History.

Lemma TTS_isReady_run evs : forall this,
  TTSStream.isReady (TTSStream.run this evs)
  = TTSStream.isReady this || TTS_received_ready evs.
Proof.
  induction evs as [|ev evs IH]; intros this.
  - cbn. now rewrite orb_false_r.
  - cbn [TTSStream.run fold_left TTS_received_ready existsb].
    fold (TTSStream.run (TTSStream.dispatch this ev) evs).
    fold (TTS_received_ready evs).
    rewrite IH, orb_assoc. f_equal.
    TTSStreamFacts.event_cases ev; TTSStreamFacts.handlers;
      rewrite ?orb_false_r, ?orb_true_r; reflexivity.
Qed.

Lemma STT_isReady_run evs : forall this,
  STTStream.isReady (STTStream.run this evs)
  = STTStream.isReady this || STT_received_ready evs.
Proof.
  induction evs as [|ev evs IH]; intros this.
  - cbn. now rewrite orb_false_r.
  - cbn [STTStream.run fold_left STT_received_ready existsb].
    fold (STTStream.run (STTStream.dispatch this ev) evs).
    fold (STT_received_ready evs).
    rewrite IH, orb_assoc. f_equal.
    STTStreamFacts.event_cases ev; STTStreamFacts.handlers;
      rewrite ?orb_false_r, ?orb_true_r; reflexivity.
Qed.

(** C6, as stated, fails after a terminal state: the guard of
    [sendText] is [isReady], which [end_of_stream] does not reset. The
    phase is Ended, not Active, and the text is written to the channel. *)
Lemma sendText_after_end_of_stream_writes :
  let evs := [OnOpen;
              OnMessage (Parsed (TTSReady "req-123"));
              OnMessage (Parsed TTSServerEndOfStream)] in
  let s := TTSStream.run (TTSStream.new new_WebSocket) evs in
  Spec.phase Spec.TTS_kind evs = Spec.Ended /\
  exists s',
    TTSStream.sendText "Hello" s = Return s' /\
    sentMessages (TTSStream.ws s) = [] /\
    sentMessages (TTSStream.ws s')
    = [JSON_stringify (JObj [("type", JStr "text"); ("text", JStr "Hello")])].
Proof.
  split; [reflexivity|]. eexists. repeat split.
Qed.

(** C6 (amended). A call of [sendText] (TTS) or [sendAudio] (STT) throws
    the local 'not ready' error, and writes nothing to the channel, if
    and only if no [ready] envelope has been received; once one has
    been received the call writes one envelope to the channel, also
    after the session has reached a terminal state. The one exception
    is a [sendAudio] whose array has more bytes than the engine takes
    arguments in a call: [String.fromCharCode(...audio)] then throws a
    [RangeError] and nothing is written. *)
Theorem send_throws_iff_no_ready_received :
  forall (engine : Engine) ws
         (evs : list (WsEvent TTSServerMessage)) text
         (evs' : list (WsEvent STTServerMessage)) audio,
    (let s := TTSStream.run (TTSStream.new ws) evs in
     (TTSStream.sendText text s = Throw TTSStream.not_ready_error
      <-> TTS_received_ready evs = false) /\
     (TTS_received_ready evs = true <->
      exists s', TTSStream.sendText text s = Return s' /\
                 sentMessages (TTSStream.ws s')
                 = sentMessages (TTSStream.ws s)
                     ++ [JSON_stringify (TTSClientMessage_object (TTSText text))]))
    /\
    (let s := STTStream.run (STTStream.new ws) evs' in
     (STTStream.sendAudio audio s = Throw STTStream.not_ready_error
      <-> STT_received_ready evs' = false) /\
     (STT_received_ready evs' = true /\ length audio <= max_arguments <->
      exists s', STTStream.sendAudio audio s = Return s' /\
                 sentMessages (STTStream.ws s')
                 = sentMessages (STTStream.ws s)
                     ++ [JSON_stringify
                           (STTClientMessage_object
                              (STTAudio (Base64.btoa (Base64.String_fromCharCode audio))))]) /\
     (STT_received_ready evs' = true /\ max_arguments < length audio <->
      exists message,
        STTStream.sendAudio audio s = Throw (RangeError message))).
Proof.
  intros engine ws evs text evs' audio. split.
  - cbn zeta. unfold TTSStream.sendText.
    rewrite TTS_isReady_run. cbn [TTSStream.isReady TTSStream.new orb].
    destruct (TTS_received_ready evs); cbn [negb]; repeat split;
      try discriminate; try reflexivity.
    + intros _. eexists. split; reflexivity.
    + intros (s' & H & _). discriminate.
  - cbn zeta. unfold STTStream.sendAudio, spread_call.
    rewrite STT_isReady_run. cbn [STTStream.isReady STTStream.new orb].
    destruct (STT_received_ready evs'); cbn [negb].
    + destruct (max_arguments <? length audio)%nat eqn:E;
        [apply Nat.ltb_lt in E|apply Nat.ltb_ge in E].
      * split; [split; discriminate|]. split; split.
        -- intros [_ H]. lia.
        -- intros (s' & H & _). discriminate.
        -- intros _. eexists. reflexivity.
        -- intros _. split; [reflexivity|exact E].
      * split; [split; discriminate|]. split; split.
        -- intros _. eexists. split; reflexivity.
        -- intros _. split; [reflexivity|exact E].
        -- intros [_ H]. lia.
        -- intros (message & H). discriminate.
    + split; [split; reflexivity|]. split; split.
      * intros [H _]. discriminate.
      * intros (s' & H & _). discriminate.
      * intros [H _]. discriminate.
      * intros (message & H). discriminate.
Qed.

End SendInput.

(* ===================================================================== *)
(** * The sample rate of a TTS result (claim C9) *)
(* ===================================================================== *)

Module SampleRate.
Import JS Errors Types Platform.

Lemma collect_sample_rate future : forall this r,
  TTSStream.collect this future = Fulfilled r ->
  sample_rate r = TTSStream.sampleRate this.
Proof.
  induction future as [|ev future IH]; intros this r; cbn [TTSStream.collect];
    destruct (TTSStream.endPromise this); try discriminate;
    try (intros H; inversion H; reflexivity).
  intros H. apply IH in H. now rewrite TTSStreamFacts.sampleRate_dispatch in H.
Qed.

Lemma create_continue_collect c :
  TTSStream.sampleRate (TTS.session (TTS.call c)) = number_of_Z 48000 ->
  TTSStream.sampleRate (TTS.session (TTS.call (TTS.continue_collect c)))
  = number_of_Z 48000 /\
  forall r, TTS.stage (TTS.continue_collect c) = TTS.Settled (Return r) ->
            sample_rate r = number_of_Z 48000.
Proof.
  intros H. unfold TTS.continue_collect.
  destruct (TTSStream.endPromise (TTS.session (TTS.call c))); cbn;
    (split; [exact H|]); intros r; try discriminate.
  intros E. inversion E. exact H.
Qed.

Lemma create_continue_ready c :
  TTSStream.sampleRate (TTS.session (TTS.call c)) = number_of_Z 48000 ->
  TTSStream.sampleRate (TTS.session (TTS.call (TTS.continue_ready c)))
  = number_of_Z 48000 /\
  forall r, TTS.stage (TTS.continue_ready c) = TTS.Settled (Return r) ->
            sample_rate r = number_of_Z 48000.
Proof.
  intros H. unfold TTS.continue_ready.
  destruct (TTSStream.waitReady (TTS.session (TTS.call c))); cbn;
    try (split; [exact H|]; intros r; discriminate).
  unfold TTSStream.sendText.
  destruct (negb (TTSStream.isReady (TTS.session (TTS.call c)))); cbn;
    try (split; [exact H|]; intros r; discriminate).
  apply create_continue_collect. cbn. exact H.
Qed.

Lemma create_continue c :
  TTSStream.sampleRate (TTS.session (TTS.call c)) = number_of_Z 48000 ->
  (forall r, TTS.stage c = TTS.Settled (Return r) ->
             sample_rate r = number_of_Z 48000) ->
  TTSStream.sampleRate (TTS.session (TTS.call (TTS.continue c)))
  = number_of_Z 48000 /\
  forall r, TTS.stage (TTS.continue c) = TTS.Settled (Return r) ->
            sample_rate r = number_of_Z 48000.
Proof.
  intros H Hr. unfold TTS.continue.
  destruct (TTS.stage c) eqn:E.
  - unfold TTS.continue_stream.
    destruct (TTS.result (TTS.call c)); cbn;
      try (split; [exact H|]; intros r; discriminate).
    now apply create_continue_ready.
  - now apply create_continue_ready.
  - now apply create_continue_collect.
  - split; [exact H|]. rewrite E. exact Hr.
Qed.

Lemma create_dispatch_sampleRate call ev :
  TTSStream.sampleRate (TTS.session (TTS.dispatch call ev))
  = TTSStream.sampleRate (TTS.session call).
Proof.
  destruct ev as [ | data | | wasClean code reason ]; cbn.
  - reflexivity.
  - apply (TTSStreamFacts.sampleRate_dispatch (TTS.session call) (OnMessage data)).
  - reflexivity.
  - unfold TTSStream.onclose.
    destruct (negb wasClean && negb (code =? 1000)%Z); reflexivity.
Qed.

Lemma create_run_sample_rate evs : forall c,
  TTSStream.sampleRate (TTS.session (TTS.call c)) = number_of_Z 48000 ->
  (forall r, TTS.stage c = TTS.Settled (Return r) ->
             sample_rate r = number_of_Z 48000) ->
  forall r, TTS.stage (TTS.create_run c evs) = TTS.Settled (Return r) ->
            sample_rate r = number_of_Z 48000.
Proof.
  induction evs as [|ev evs IH]; intros c H Hr; [exact Hr|].
  cbn [TTS.create_run fold_left].
  fold (TTS.create_run (TTS.create_step c ev) evs).
  unfold TTS.create_step.
  destruct (@create_continue
              {| TTS.call := TTS.dispatch (TTS.call c) ev;
                 TTS.text := TTS.text c; TTS.stage := TTS.stage c |})
    as [H1 H2].
  - cbn. now rewrite create_dispatch_sampleRate.
  - exact Hr.
  - now apply IH.
Qed.

(** C9. The result of [TTSStream.collect()] reports the sample rate
    48000: every result the call returns does, whatever the socket and
    the events before and after the call, and the call returns one as
    soon as the end promise is fulfilled; the same holds of the result
    of [TTS.create], whatever the setup parameters (and so the output
    format) and the text. *)
Theorem collect_sample_rate_is_48000 :
  forall ws evs future params text evs',
    (forall r,
        TTSStream.collect (TTSStream.run (TTSStream.new ws) evs) future
        = Fulfilled r ->
        sample_rate r = number_of_Z 48000) /\
    (TTSStream.endPromise (TTSStream.run (TTSStream.new ws) evs) = Fulfilled tt ->
     exists r,
       TTSStream.collect (TTSStream.run (TTSStream.new ws) evs) future
       = Fulfilled r /\
       sample_rate r = number_of_Z 48000) /\
    (forall r,
        TTS.stage (TTS.create_run (TTS.create params text) evs')
        = TTS.Settled (Return r) ->
        sample_rate r = number_of_Z 48000).
Proof.
  intros ws evs future params text evs'.
  assert (H1 : forall r,
             TTSStream.collect (TTSStream.run (TTSStream.new ws) evs) future
             = Fulfilled r ->
             sample_rate r = number_of_Z 48000).
  { intros r H. apply collect_sample_rate in H.
    now rewrite TTSStreamFacts.sampleRate_run in H. }
  split; [exact H1|]. split.
  - intros H. eexists. split.
    + rewrite TTSStreamFacts.collect_settled; rewrite H; reflexivity.
    + cbn. apply TTSStreamFacts.sampleRate_run.
  - apply create_run_sample_rate.
    + reflexivity.
    + intros r'. discriminate.
Qed.

Lemma collect_sample_rate_is_48000_witness :
  let params := {| tts_voice_id := "test-voice"; tts_output_format := pcm_16000;
                   tts_model_name := None; tts_json_config := None |} in
  let evs := [OnOpen;
              OnMessage (Parsed (TTSReady "req-456"));
              History.TTS_audio_event [x01; x02; x03; x04; x05]%byte;
              OnMessage (Parsed TTSServerEndOfStream)] in
  let r := {| raw_data := [x01; x02; x03; x04; x05]%byte;
              sample_rate := Finite false [Dg4; Dg8] 5;
              request_id := "req-456" |} in
  TTS.stage (TTS.create_run (TTS.create params "Hello, world!") evs)
    = TTS.Settled (Return r) /\
  sample_rate r = number_of_Z 48000.
Proof.
  intros params evs r.
  assert (H : TTS.stage (TTS.create_run (TTS.create params "Hello, world!") evs)
              = TTS.Settled (Return r)) by (vm_compute; reflexivity).
  split; [exact H|].
  destruct (collect_sample_rate_is_48000 new_WebSocket [] [] params
              "Hello, world!" evs) as (_ & _ & H3).
  apply H3. exact H.
Defined.

End SampleRate.

(* ===================================================================== *)
(** * Collecting (claim C3) *)
(* ===================================================================== *)

Module Collecting.
Import JS Errors Types Platform History Base64.

Lemma total_length (chunks : list (list byte)) : forall n,
  fold_left (fun sum chunk => sum + length chunk) chunks n
  = n + length (concat chunks).
Proof.
  induction chunks as [|c chunks IH]; intros n; cbn.
  - lia.
  - rewrite IH, length_app. lia.
Qed.

Lemma Uint8Array_set_at_end (done chunk : list byte) k :
  TTSStream.Uint8Array_set (done ++ repeat x00 (length chunk + k)) chunk (length done)
  = (done ++ chunk) ++ repeat x00 k.
Proof.
  unfold TTSStream.Uint8Array_set.
  rewrite firstn_app, firstn_all, Nat.sub_diag, firstn_O, app_nil_r.
  rewrite skipn_app, skipn_all2 by lia.
  replace (length done + length chunk - length done) with (length chunk) by lia.
  rewrite repeat_app, skipn_app, skipn_all2 by (rewrite repeat_length; lia).
  rewrite repeat_length, Nat.sub_diag, skipn_O. cbn.
  now rewrite <- app_assoc.
Qed.

(** Copying the chunks one after the other into an array of their total
    length gives their concatenation. *)
Lemma copy_chunks (chunks : list (list byte)) : forall done,
  fold_left (fun '(rawData, offset) chunk =>
               (TTSStream.Uint8Array_set rawData chunk offset,
                offset + length chunk))
            chunks (done ++ repeat x00 (length (concat chunks)), length done)
  = (done ++ concat chunks, length done + length (concat chunks)).
Proof.
  induction chunks as [|c chunks IH]; intros done; cbn [fold_left concat].
  - cbn. now rewrite !app_nil_r, Nat.add_0_r.
  - rewrite length_app, Uint8Array_set_at_end.
    replace (length done + length c) with (length (done ++ c))
      by now rewrite length_app.
    rewrite IH, <- app_assoc, length_app. f_equal. lia.
Qed.

Lemma collect_result_raw_data this :
  raw_data (TTSStream.collect_result this) = concat (TTSStream.audioChunks this).
Proof.
  unfold TTSStream.collect_result. cbn [raw_data].
  rewrite total_length. cbn [Nat.add].
  pose proof (copy_chunks (TTSStream.audioChunks this) []) as H.
  cbn [app length Nat.add] in H. now rewrite H.
Qed.

Lemma TTS_run_audio chunks : forall this,
  let s := TTSStream.run this (map TTS_audio_event chunks) in
  TTSStream.audioChunks s = TTSStream.audioChunks this ++ chunks /\
  TTSStream.endPromise s = TTSStream.endPromise this /\
  TTSStream.readyPromise s = TTSStream.readyPromise this /\
  TTSStream.requestId s = TTSStream.requestId this /\
  TTSStream.sampleRate s = TTSStream.sampleRate this.
Proof.
  induction chunks as [|c chunks IH]; intros this.
  - cbn. now rewrite app_nil_r.
  - cbn [map TTSStream.run fold_left].
    fold (TTSStream.run (TTSStream.dispatch this (TTS_audio_event c))
            (map TTS_audio_event chunks)).
    destruct (IH (TTSStream.dispatch this (TTS_audio_event c)))
      as (H1 & H2 & H3 & H4 & H5).
    cbn zeta. rewrite H1, H2, H3, H4, H5.
    unfold TTS_audio_event. cbn [TTSStream.dispatch TTSStream.onmessage].
    rewrite Base64Facts.atob_btoa.
    unfold Uint8Array_from_charCodes, String_fromCharCode.
    rewrite list_byte_of_string_of_list_byte. cbn.
    now rewrite <- app_assoc.
Qed.

Lemma TTS_collect ws (ready : option string) chunks :
  let prefix := match ready with
                | Some request_id => [OnMessage (Parsed (TTSReady request_id))]
                | None => []
                end in
  let evs := prefix ++ map TTS_audio_event chunks in
  TTSStream.collect (TTSStream.new ws) evs = Pending /\
  TTSStream.collect (TTSStream.new ws)
    (evs ++ [OnMessage (Parsed TTSServerEndOfStream)])
  = Fulfilled {| raw_data := concat chunks;
                 sample_rate := number_of_Z 48000;
                 request_id := match ready with
                               | Some request_id => request_id
                               | None => EmptyString
                               end |}.
Proof.
  intros prefix evs.
  set (s0 := TTSStream.run (TTSStream.new ws) prefix).
  assert (H0 : TTSStream.endPromise s0 = Pending /\
               TTSStream.audioChunks s0 = [] /\
               TTSStream.sampleRate s0 = number_of_Z 48000 /\
               TTSStream.requestId s0 = match ready with
                                        | Some request_id => request_id
                                        | None => EmptyString
                                        end).
  { unfold s0, prefix. destruct ready; repeat split. }
  destruct H0 as (He & Ha & Hs & Hr).
  destruct (TTS_run_audio chunks s0) as (H1 & H2 & H3 & H4 & H5).
  assert (Hp : TTSStream.endPromise (TTSStream.run (TTSStream.new ws) evs) = Pending).
  { unfold evs. rewrite TTSStreamFacts.TTS_run_app. fold s0. now rewrite H2. }
  split.
  - rewrite <- (app_nil_r evs).
    rewrite TTSStreamFacts.collect_pending_prefix by exact Hp.
    cbn. now rewrite Hp.
  - rewrite TTSStreamFacts.collect_pending_prefix by exact Hp.
    cbn [TTSStream.collect]. rewrite Hp.
    cbn [TTSStream.dispatch TTSStream.onmessage].
    unfold TTSStream.endResolve, TTSStream.push_message, TTSStream.set_endPromise.
    cbn. rewrite Hp. cbn. f_equal.
    unfold evs. rewrite TTSStreamFacts.TTS_run_app. fold s0.
    set (s := TTSStream.run s0 (map TTS_audio_event chunks)) in *.
    cbn zeta in H1, H4, H5.
    pose proof (collect_result_raw_data
                  {| TTSStream.ws := TTSStream.ws s;
                     TTSStream.audioChunks := TTSStream.audioChunks s;
                     TTSStream.requestId := TTSStream.requestId s;
                     TTSStream.sampleRate := TTSStream.sampleRate s;
                     TTSStream.isReady := TTSStream.isReady s;
                     TTSStream.readyPromise := TTSStream.readyPromise s;
                     TTSStream.endPromise := Fulfilled tt;
                     TTSStream.messageQueue :=
                       TTSStream.messageQueue s ++ [Message TTSServerEndOfStream] |}) as Hraw.
    unfold TTSStream.collect_result in *. cbn in *.
    rewrite Hraw, H1, Ha, H4, H5, Hs, Hr. reflexivity.
Qed.

Lemma STT_run_messages msgs : forall this,
  forallb STT_not_terminal msgs = true ->
  let s := STTStream.run this (map (fun m => OnMessage (Parsed m)) msgs) in
  map text (STTStream.textResults s)
  = map text (STTStream.textResults this) ++ STT_texts msgs /\
  STTStream.endPromise s = STTStream.endPromise this.
Proof.
  induction msgs as [|m msgs IH]; intros this H.
  - cbn. now rewrite app_nil_r.
  - cbn [forallb] in H. apply andb_prop in H. destruct H as [Hm H].
    cbn [map STTStream.run fold_left].
    fold (STTStream.run (STTStream.dispatch this (OnMessage (Parsed m)))
            (map (fun m => OnMessage (Parsed m)) msgs)).
    destruct (IH (STTStream.dispatch this (OnMessage (Parsed m))) H) as (H1 & H2).
    cbn zeta. rewrite H1, H2.
    destruct m; try discriminate; cbn; rewrite ?map_app, <- ?app_assoc;
      split; try reflexivity.
    all: unfold STTStream.readyResolve, STTStream.set_readyPromise; reflexivity.
Qed.

Lemma STT_collectText ws msgs :
  forallb STT_not_terminal msgs = true ->
  let evs := map (fun m => OnMessage (Parsed m)) msgs in
  STTStream.collectText (STTStream.new ws) evs = Pending /\
  STTStream.collectText (STTStream.new ws)
    (evs ++ [OnMessage (Parsed STTServerEndOfStream)])
  = Fulfilled (join " " (STT_texts msgs)).
Proof.
  intros H evs.
  destruct (STT_run_messages msgs (STTStream.new ws) H) as (H1 & H2).
  cbn zeta in H1, H2. fold evs in H1, H2. cbn in H1, H2.
  split.
  - rewrite <- (app_nil_r evs).
    rewrite STTStreamFacts.collectText_pending_prefix by exact H2.
    cbn. now rewrite H2.
  - rewrite STTStreamFacts.collectText_pending_prefix by exact H2.
    cbn [STTStream.collectText]. rewrite H2.
    cbn [STTStream.dispatch STTStream.onmessage].
    unfold STTStream.endResolve, STTStream.push_message, STTStream.set_endPromise.
    cbn. rewrite H2. cbn.
    unfold STTStream.collect_result. cbn. now rewrite H1.
Qed.

Example collectText_Hello_world :
  STTStream.collectText (STTStream.new new_WebSocket)
    [OnMessage (Parsed (STTText {| text := "Hello"; start_s := Zero false;
                                   text_stream_id := None |}));
     OnMessage (Parsed (STTText {| text := "world";
                                   start_s := Finite false [Dg5] 0;
                                   text_stream_id := None |}));
     OnMessage (Parsed STTServerEndOfStream)]
  = Fulfilled "Hello world".
Proof. reflexivity. Qed.

(** C3. A TTS session that receives the audio chunks [chunks] in that
    order (after a [ready] envelope or without one) followed by
    [end_of_stream] returns from [collect()] their byte-exact
    concatenation; an STT session that receives messages whose text
    fragments are [STT_texts msgs], among [ready], [step] and
    [end_text] messages, followed by [end_of_stream], returns from
    [collectText()] the fragments joined in arrival order with a single
    space. Both calls are pending until the [end_of_stream] envelope
    has been received. *)
Theorem collect_concatenates_in_arrival_order :
  forall ws (ready : option string) (chunks : list (list byte))
         (msgs : list STTServerMessage),
    forallb STT_not_terminal msgs = true ->
    (let prefix := match ready with
                   | Some request_id => [OnMessage (Parsed (TTSReady request_id))]
                   | None => []
                   end in
     let evs := prefix ++ map TTS_audio_event chunks in
     TTSStream.collect (TTSStream.new ws) evs = Pending /\
     exists r,
       TTSStream.collect (TTSStream.new ws)
         (evs ++ [OnMessage (Parsed TTSServerEndOfStream)]) = Fulfilled r /\
       raw_data r = concat chunks)
    /\
    (let evs := map (fun m => OnMessage (Parsed m)) msgs in
     STTStream.collectText (STTStream.new ws) evs = Pending /\
     STTStream.collectText (STTStream.new ws)
       (evs ++ [OnMessage (Parsed STTServerEndOfStream)])
     = Fulfilled (join " " (STT_texts msgs))).
Proof.
  intros ws ready chunks msgs H. split.
  - destruct (TTS_collect ws ready chunks) as [H1 H2]. cbn zeta in *.
    split; [exact H1|]. eexists. split; [exact H2|reflexivity].
  - now apply STT_collectText.
Qed.

Lemma collect_concatenates_in_arrival_order_witness :
  (exists r,
      TTSStream.collect (TTSStream.new new_WebSocket)
        [OnMessage (Parsed (TTSReady "req-123"));
         TTS_audio_event [x01; x02; x03]%byte;
         TTS_audio_event [x04; x05; x06]%byte;
         OnMessage (Parsed TTSServerEndOfStream)] = Fulfilled r /\
      raw_data r = [x01; x02; x03; x04; x05; x06]%byte) /\
  STTStream.collectText (STTStream.new new_WebSocket)
    [OnMessage (Parsed (STTText {| text := "Hello"; start_s := Zero false;
                                   text_stream_id := None |}));
     OnMessage (Parsed (STTText {| text := "world";
                                   start_s := Finite false [Dg5] 0;
                                   text_stream_id := None |}));
     OnMessage (Parsed STTServerEndOfStream)]
  = Fulfilled "Hello world".
Proof.
  destruct (collect_concatenates_in_arrival_order new_WebSocket
              (Some "req-123")
              [[x01; x02; x03]; [x04; x05; x06]]%byte
              [STTText {| text := "Hello"; start_s := Zero false;
                          text_stream_id := None |};
               STTText {| text := "world"; start_s := Finite false [Dg5] 0;
                          text_stream_id := None |}]
              eq_refl) as [[_ H1] [_ H2]].
  split; [exact H1|exact H2].
Defined.

End Collecting.

(* ===================================================================== *)
(** * The iterators (claim C4) *)
(* ===================================================================== *)

Module Iterating.
Import JS Errors Types Platform History.

Lemma consume_step Session Event GenState A
      (dispatch : Session -> Event -> Session)
      (resume : Session -> GenState -> IterStep A * GenState) st a schedule :
  Generator.consume dispatch resume st (a :: schedule)
  = Generator.consume dispatch resume (Generator.act dispatch resume st a) schedule.
Proof. reflexivity. Qed.

Section Draining.

Variables Session Event A : Type.
Variable dispatch : Session -> Event -> Session.
Variable buffer : Session -> list A.
Variable hasEnded : Session -> completion bool.

Let resume (s : Session) (g : Generator.t) :=
  Generator.resume (buffer s) (hasEnded s) g.

(** What a resumption throws is what the test for the end threw. *)
Lemma resume_throws s g e : fst (resume s g) = Threw e -> hasEnded s = Throw e.
Proof.
  unfold resume, Generator.resume, Generator.first_loop, Generator.second_loop.
  destruct (Generator.position g);
    destruct (nth_error (buffer s) (Generator.processedIndex g));
    try destruct (hasEnded s) as [[]|e']; cbn; try discriminate.
  all: try destruct (nth_error (buffer s) (Generator.processedIndex g));
    cbn; try discriminate.
  all: intros H; inversion H; reflexivity.
Qed.

Lemma consume_cons st a schedule :
  Generator.consume dispatch resume st (a :: schedule)
  = Generator.consume dispatch resume (Generator.act dispatch resume st a) schedule.
Proof. reflexivity. Qed.

Lemma act_yield s k ys st x :
  (forall e, st <> Threw e) ->
  nth_error (buffer s) k = Some x ->
  Generator.act dispatch resume
    (s, {| Generator.generator :=
             {| Generator.position := Generator.InFirstLoop;
                Generator.processedIndex := k |};
           Generator.yielded := ys;
           Generator.last_step := st |})
    Generator.Resume
  = (s, {| Generator.generator :=
             {| Generator.position := Generator.InFirstLoop;
                Generator.processedIndex := S k |};
           Generator.yielded := ys ++ [x];
           Generator.last_step := Yield x |}).
Proof.
  intros Hst E. cbn [Generator.act Generator.last_step Generator.generator
                     Generator.yielded].
  unfold resume, Generator.resume, Generator.first_loop. cbn.
  rewrite E. destruct st; try reflexivity. now contradiction (Hst e).
Qed.

Lemma act_done s k ys st :
  (forall e, st <> Threw e) ->
  hasEnded s = Return true ->
  nth_error (buffer s) k = None ->
  Generator.act dispatch resume
    (s, {| Generator.generator :=
             {| Generator.position := Generator.InFirstLoop;
                Generator.processedIndex := k |};
           Generator.yielded := ys;
           Generator.last_step := st |})
    Generator.Resume
  = (s, {| Generator.generator :=
             {| Generator.position := Generator.Finished;
                Generator.processedIndex := k |};
           Generator.yielded := ys;
           Generator.last_step := Done |}).
Proof.
  intros Hst H E. cbn [Generator.act Generator.last_step Generator.generator
                       Generator.yielded].
  unfold resume, Generator.resume, Generator.first_loop,
    Generator.second_loop. cbn.
  rewrite E, H. destruct st; try reflexivity. now contradiction (Hst e).
Qed.

Lemma skipn_nth_error (l : list A) : forall k x,
  nth_error l k = Some x -> skipn k l = x :: skipn (S k) l.
Proof.
  induction l as [|y l IH]; intros [|k] x E; try discriminate; cbn in *.
  - now inversion E.
  - now apply IH.
Qed.

(** With the end seen, a generator in its first loop yields what is
    left of the buffer and then ends. *)
Lemma drain s : hasEnded s = Return true ->
  forall n k ys st,
    (forall e, st <> Threw e) ->
    k + n = length (buffer s) ->
    Generator.consume dispatch resume
      (s, {| Generator.generator :=
               {| Generator.position := Generator.InFirstLoop;
                  Generator.processedIndex := k |};
             Generator.yielded := ys;
             Generator.last_step := st |})
      (repeat Generator.Resume (S n))
    = (s, {| Generator.generator :=
               {| Generator.position := Generator.Finished;
                  Generator.processedIndex := length (buffer s) |};
             Generator.yielded := ys ++ skipn k (buffer s);
             Generator.last_step := Done |}).
Proof.
  intros Hended. induction n as [|n IH]; intros k ys st Hst Hk.
  - cbn [repeat]. rewrite consume_cons, act_done
      by (try apply nth_error_None; auto; lia).
    cbn. rewrite skipn_all2, app_nil_r by lia.
    repeat f_equal. lia.
  - change (repeat (@Generator.Resume Event) (S (S n)))
      with (@Generator.Resume Event :: repeat Generator.Resume (S n)).
    destruct (nth_error (buffer s) k) as [x|] eqn:E.
    + rewrite consume_cons. erewrite act_yield by (exact Hst || exact E).
      rewrite IH by (discriminate || lia).
      pose proof (@skipn_nth_error _ _ _ E) as Hs.
      rewrite Hs. now rewrite <- app_assoc.
    + apply nth_error_None in E. lia.
Qed.

End Draining.

(** ** The test for the end *)

Lemma TTS_some_ended_app queue x b :
  TTSStream.some_ended queue = Return b ->
  TTSStream.some_ended (queue ++ [x])
  = if b then Return true else TTSStream.some_ended [x].
Proof.
  induction queue as [|[[]| |] queue IH]; cbn [app TTSStream.some_ended];
    try (intros H; inversion H; reflexivity); try discriminate; exact IH.
Qed.

Lemma STT_some_ended_app queue x b :
  STTStream.some_ended queue = Return b ->
  STTStream.some_ended (queue ++ [x])
  = if b then Return true else STTStream.some_ended [x].
Proof.
  induction queue as [|[[]| |] queue IH]; cbn [app STTStream.some_ended];
    try (intros H; inversion H; reflexivity); try discriminate; exact IH.
Qed.

Lemma TTS_some_ended_throws queue e :
  TTSStream.some_ended queue = Throw e ->
  In Null queue /\ e = null_is_not_an_object "msg.type".
Proof.
  induction queue as [|[[]| |] queue IH]; cbn [TTSStream.some_ended In];
    try discriminate;
    try (intros H; destruct (IH H) as [H1 H2]; split; [now right|exact H2]).
  intros H. inversion H. split; [now left|reflexivity].
Qed.

Lemma STT_some_ended_throws queue e :
  STTStream.some_ended queue = Throw e ->
  In Null queue /\ e = null_is_not_an_object "msg.type".
Proof.
  induction queue as [|[[]| |] queue IH]; cbn [STTStream.some_ended In];
    try discriminate;
    try (intros H; destruct (IH H) as [H1 H2]; split; [now right|exact H2]).
  intros H. inversion H. split; [now left|reflexivity].
Qed.

(** A [null] is in the queue only if a message was [null]. *)
Lemma TTS_null_queued evs : forall this,
  In Null (TTSStream.messageQueue (TTSStream.run this evs)) ->
  In Null (TTSStream.messageQueue this) \/ In (OnMessage ParsedNull) evs.
Proof.
  induction evs as [|ev evs IH]; intros this H; [now left|].
  cbn [TTSStream.run fold_left] in H.
  destruct (IH _ H) as [Hq|Hin]; [|right; now right].
  revert Hq.
  TTSStreamFacts.event_cases ev; TTSStreamFacts.handlers;
    rewrite ?in_app_iff; cbn [In]; intros Hq;
    try (now left);
    try (destruct Hq as [Hq|[Hq|[]]]; [now left|discriminate]).
  destruct Hq as [Hq|[Hq|[]]]; [now left|right; now left].
Qed.

Lemma STT_null_queued evs : forall this,
  In Null (STTStream.messageQueue (STTStream.run this evs)) ->
  In Null (STTStream.messageQueue this) \/ In (OnMessage ParsedNull) evs.
Proof.
  induction evs as [|ev evs IH]; intros this H; [now left|].
  cbn [STTStream.run fold_left] in H.
  destruct (IH _ H) as [Hq|Hin]; [|right; now right].
  revert Hq.
  STTStreamFacts.event_cases ev; STTStreamFacts.handlers;
    rewrite ?in_app_iff; cbn [In]; intros Hq;
    try (now left);
    try (destruct Hq as [Hq|[Hq|[]]]; [now left|discriminate]).
  destruct Hq as [Hq|[Hq|[]]]; [now left|right; now left].
Qed.

Lemma TTS_hasEnded_run evs : forall this b,
  TTSStream.hasEnded this = Return b ->
  ~ In (OnMessage ParsedNull) evs ->
  TTSStream.hasEnded (TTSStream.run this evs)
  = Return (b || TTS_received_terminal evs).
Proof.
  induction evs as [|ev evs IH]; intros this b Hb Hnull.
  - cbn. now rewrite orb_false_r.
  - cbn [TTSStream.run fold_left TTS_received_terminal existsb].
    fold (TTSStream.run (TTSStream.dispatch this ev) evs).
    fold (TTS_received_terminal evs).
    rewrite orb_assoc. apply IH; [|intros H; apply Hnull; now right].
    assert (Hev : ev <> OnMessage ParsedNull)
      by (intros ->; apply Hnull; now left).
    unfold TTSStream.hasEnded in *. revert Hev.
    TTSStreamFacts.event_cases ev; TTSStreamFacts.handlers; intros Hev;
      try rewrite (@TTS_some_ended_app _ _ _ Hb); rewrite ?orb_false_r;
      try assumption; try (destruct b; reflexivity).
    congruence.
Qed.

Lemma STT_hasEnded_run evs : forall this b,
  STTStream.hasEnded this = Return b ->
  ~ In (OnMessage ParsedNull) evs ->
  STTStream.hasEnded (STTStream.run this evs)
  = Return (b || STT_received_terminal evs).
Proof.
  induction evs as [|ev evs IH]; intros this b Hb Hnull.
  - cbn. now rewrite orb_false_r.
  - cbn [STTStream.run fold_left STT_received_terminal existsb].
    fold (STTStream.run (STTStream.dispatch this ev) evs).
    fold (STT_received_terminal evs).
    rewrite orb_assoc. apply IH; [|intros H; apply Hnull; now right].
    assert (Hev : ev <> OnMessage ParsedNull)
      by (intros ->; apply Hnull; now left).
    unfold STTStream.hasEnded in *. revert Hev.
    STTStreamFacts.event_cases ev; STTStreamFacts.handlers; intros Hev;
      try rewrite (@STT_some_ended_app _ _ _ Hb); rewrite ?orb_false_r;
      try assumption; try (destruct b; reflexivity).
    congruence.
Qed.

(** ** [STTStream.iter] *)

Lemma iter_loop_throws rest : forall index e,
  STTStream.iter_loop rest index = Throw e ->
  In Null rest /\ e = null_is_not_an_object "message.type".
Proof.
  induction rest as [|m rest IH]; intros index e; cbn [STTStream.iter_loop In];
    [discriminate|].
  destruct m as [m| |].
  - destruct (STTStream.is_ready_message (Message m)); [|discriminate].
    intros H. destruct (IH _ _ H) as [H1 H2]. split; [now right|exact H2].
  - intros H. inversion H. split; [now left|reflexivity].
  - cbn. discriminate.
Qed.

Lemma iter_throws this g e :
  fst (STTStream.iter this g) = Threw e ->
  In Null (STTStream.messageQueue this) /\ class_of e = TypeError_.
Proof.
  unfold STTStream.iter.
  destruct (Generator.position g); try discriminate.
  all: destruct (STTStream.iter_loop _ _) as [[[m|] j]|e'] eqn:E; cbn;
    try discriminate.
  all: try (intros H; inversion H; subst e';
            destruct (iter_loop_throws _ _ E) as [Hin ->];
            split; [|reflexivity];
            clear - Hin; revert Hin;
            generalize (Generator.processedIndex g);
            generalize (STTStream.messageQueue this);
            induction l as [|x l IH]; intros [|k] Hin; cbn in *;
            try contradiction; auto; right; eapply IH; exact Hin).
  all: destruct (STTStream.hasEnded this) as [[]|e'] eqn:Eh; cbn;
    try discriminate.
  all: intros H; inversion H; subst e';
    destruct (STT_some_ended_throws _ Eh) as [Hin ->];
    split; [exact Hin|reflexivity].
Qed.

Lemma iter_loop_spec rest : ~ In Null rest -> forall index,
  match STTStream.iter_loop rest index with
  | Return (Some message, j) =>
      exists d,
        j = index + S d /\ S d <= length rest /\
        filter (fun m => negb (STTStream.is_ready_message m)) rest
        = message :: filter (fun m => negb (STTStream.is_ready_message m))
                            (skipn (S d) rest)
  | Return (None, j) =>
      j = index + length rest /\
      filter (fun m => negb (STTStream.is_ready_message m)) rest = []
  | Throw _ => False
  end.
Proof.
  induction rest as [|m rest IH]; intros Hnull index;
    cbn [STTStream.iter_loop].
  - split; [cbn; lia|reflexivity].
  - assert (Hm : m <> Null) by (intros ->; apply Hnull; now left).
    assert (Hrest : ~ In Null rest) by (intros H; apply Hnull; now right).
    assert (E : STTStream.iter_loop (m :: rest) index
                = if STTStream.is_ready_message m
                  then STTStream.iter_loop rest (S index)
                  else Return (Some m, S index))
      by (destruct m; [reflexivity|congruence|reflexivity]).
    cbn [STTStream.iter_loop] in E. rewrite E. clear E.
    cbn [filter]. destruct (STTStream.is_ready_message m) eqn:E; cbn [negb].
    + specialize (IH Hrest (S index)).
      destruct (STTStream.iter_loop rest (S index)) as [[[message|] j]|e].
      * destruct IH as (d & Hj & Hd & Hf). exists (S d).
        repeat split; [lia|cbn; lia|]. rewrite Hf. reflexivity.
      * destruct IH as [Hj Hf]. split; [cbn; lia|exact Hf].
      * exact IH.
    + exists 0. repeat split; [lia|cbn; lia].
Qed.

Lemma not_in_skipn (B : Type) (x : B) (l : list B) k :
  ~ In x l -> ~ In x (skipn k l).
Proof.
  intros H Hin. apply H. rewrite <- (firstn_skipn k l).
  apply in_or_app. now right.
Qed.

Lemma iter_drain this :
  STTStream.hasEnded this = Return true ->
  ~ In Null (STTStream.messageQueue this) ->
  forall n k ys st,
    (forall e, st <> Threw e) ->
    k <= length (STTStream.messageQueue this) ->
    length (filter (fun m => negb (STTStream.is_ready_message m))
                   (skipn k (STTStream.messageQueue this))) = n ->
    Generator.consume STTStream.dispatch STTStream.iter
      (this, {| Generator.generator :=
                  {| Generator.position := Generator.InFirstLoop;
                     Generator.processedIndex := k |};
                Generator.yielded := ys;
                Generator.last_step := st |})
      (repeat Generator.Resume (S n))
    = (this, {| Generator.generator :=
                  {| Generator.position := Generator.Finished;
                     Generator.processedIndex :=
                       length (STTStream.messageQueue this) |};
                Generator.yielded :=
                  ys ++ filter (fun m => negb (STTStream.is_ready_message m))
                               (skipn k (STTStream.messageQueue this));
                Generator.last_step := Done |}).
Proof.
  intros Hended Hnull.
  assert (Hact : forall st c,
             (forall e, st <> Threw e) ->
             Generator.last_step c = st ->
             Generator.act STTStream.dispatch STTStream.iter (this, c)
               Generator.Resume
             = let '(step, g) := STTStream.iter this (Generator.generator c) in
               (this,
                {| Generator.generator := g;
                   Generator.yielded :=
                     match step with
                     | Yield x => Generator.yielded c ++ [x]
                     | _ => Generator.yielded c
                     end;
                   Generator.last_step := step |})).
  { intros st c Hst Hc. cbn [Generator.act]. rewrite Hc.
    destruct st; try reflexivity. now contradiction (Hst e). }
  induction n as [|n IH]; intros k ys st Hst Hk Hn.
  - cbn [repeat Generator.consume fold_left].
    rewrite (Hact st) by (exact Hst || reflexivity).
    unfold STTStream.iter. cbn [Generator.position Generator.processedIndex
                                 Generator.generator Generator.yielded].
    pose proof (@iter_loop_spec _ (@not_in_skipn _ _ _ k Hnull) k) as Hs.
    destruct (STTStream.iter_loop _ k) as [[[message|] j]|e]; [| |contradiction].
    + destruct Hs as (d & _ & _ & Hf). rewrite Hf in Hn. discriminate.
    + destruct Hs as [Hj Hf]. rewrite Hended, Hf, app_nil_r.
      rewrite length_skipn in Hj. repeat f_equal. lia.
  - change (repeat (@Generator.Resume (WsEvent STTServerMessage)) (S (S n)))
      with (@Generator.Resume (WsEvent STTServerMessage)
              :: repeat Generator.Resume (S n)).
    rewrite consume_step.
    rewrite (Hact st) by (exact Hst || reflexivity).
    unfold STTStream.iter at 2. cbn [Generator.position Generator.processedIndex
                                 Generator.generator Generator.yielded].
    pose proof (@iter_loop_spec _ (@not_in_skipn _ _ _ k Hnull) k) as Hs.
    destruct (STTStream.iter_loop _ k) as [[[message|] j]|e]; [| |contradiction].
    + destruct Hs as (d & Hj & Hd & Hf).
      rewrite length_skipn in Hd.
      rewrite skipn_skipn in Hf.
      replace (S d + k) with j in Hf by lia.
      rewrite IH.
      * rewrite Hf, <- app_assoc. reflexivity.
      * discriminate.
      * lia.
      * rewrite Hf in Hn. cbn in Hn. lia.
    + destruct Hs as [_ Hf]. rewrite Hf in Hn. discriminate.
Qed.

(** C4, as stated, fails when an [error] envelope was received: the
    generators treat it like [end_of_stream] and end normally; they have
    no [throw]. *)
Lemma iterator_ends_normally_after_error :
  let s :=
    TTSStream.run (TTSStream.new new_WebSocket)
      [TTS_audio_event [x01; x02; x03]%byte;
       OnMessage (Parsed (TTSError "Voice not found" (number_of_Z 404)))] in
  let resume := Generator.Resume in
  let c := snd (Generator.consume TTSStream.dispatch TTSStream.asyncIterator
                  (s, Generator.begin Generator.start) [resume; resume]) in
  Generator.yielded c = [[x01; x02; x03]%byte] /\
  Generator.last_step c = Done /\
  Generator.last_step c
    <> Threw (WebSocketError "Voice not found" (Some (number_of_Z 404))).
Proof. repeat split. discriminate. Qed.

(** C4 (amended). Once an [end_of_stream] or an [error] envelope has
    been received, and no message received was [null], each iterator
    (the TTS audio-chunk iterator, the STT [iterText], [iterVAD] and
    [iter]) yields to a consumer whose loop is running the matching
    messages it has not yielded yet, in order, and then ends without
    error; this is so after an [error] envelope too. An iterator never
    throws the error of an [error] envelope: a resumption throws only
    when a message was [null], and then a [TypeError]. ([iter] matches
    every message but [ready].) *)
Theorem iterators_end_without_error :
  forall ws (evs : list (WsEvent TTSServerMessage))
         (evs' : list (WsEvent STTServerMessage)),
    (let s := TTSStream.run (TTSStream.new ws) evs in
     (forall g e, fst (TTSStream.asyncIterator s g) = Threw e ->
                  In (OnMessage ParsedNull) evs /\ class_of e = TypeError_) /\
     (TTS_received_terminal evs = true ->
      ~ In (OnMessage ParsedNull) evs ->
      forall k ys st,
        (forall e, st <> Threw e) ->
        k <= length (TTSStream.audioChunks s) ->
        Generator.consume TTSStream.dispatch TTSStream.asyncIterator
          (s, {| Generator.generator :=
                   {| Generator.position := Generator.InFirstLoop;
                      Generator.processedIndex := k |};
                 Generator.yielded := ys;
                 Generator.last_step := st |})
          (repeat Generator.Resume
                  (S (length (TTSStream.audioChunks s) - k)))
        = (s, {| Generator.generator :=
                   {| Generator.position := Generator.Finished;
                      Generator.processedIndex := length (TTSStream.audioChunks s) |};
                 Generator.yielded := ys ++ skipn k (TTSStream.audioChunks s);
                 Generator.last_step := Done |})))
    /\
    (let s := STTStream.run (STTStream.new ws) evs' in
     (forall g e,
         fst (STTStream.iterText s g) = Threw e \/
         fst (STTStream.iterVAD s g) = Threw e \/
         fst (STTStream.iter s g) = Threw e ->
         In (OnMessage ParsedNull) evs' /\ class_of e = TypeError_) /\
     (STT_received_terminal evs' = true ->
      ~ In (OnMessage ParsedNull) evs' ->
      forall k ys_text ys_vad ys_all st_text st_vad st_all,
        (forall e, st_text <> Threw e /\ st_vad <> Threw e
                   /\ st_all <> Threw e) ->
        (k <= length (STTStream.textResults s) ->
         Generator.consume STTStream.dispatch STTStream.iterText
           (s, {| Generator.generator :=
                    {| Generator.position := Generator.InFirstLoop;
                       Generator.processedIndex := k |};
                  Generator.yielded := ys_text;
                  Generator.last_step := st_text |})
           (repeat Generator.Resume
                   (S (length (STTStream.textResults s) - k)))
         = (s, {| Generator.generator :=
                    {| Generator.position := Generator.Finished;
                       Generator.processedIndex := length (STTStream.textResults s) |};
                  Generator.yielded := ys_text ++ skipn k (STTStream.textResults s);
                  Generator.last_step := Done |})) /\
        (k <= length (STTStream.vadResults s) ->
         Generator.consume STTStream.dispatch STTStream.iterVAD
           (s, {| Generator.generator :=
                    {| Generator.position := Generator.InFirstLoop;
                       Generator.processedIndex := k |};
                  Generator.yielded := ys_vad;
                  Generator.last_step := st_vad |})
           (repeat Generator.Resume
                   (S (length (STTStream.vadResults s) - k)))
         = (s, {| Generator.generator :=
                    {| Generator.position := Generator.Finished;
                       Generator.processedIndex := length (STTStream.vadResults s) |};
                  Generator.yielded := ys_vad ++ skipn k (STTStream.vadResults s);
                  Generator.last_step := Done |})) /\
        (k <= length (STTStream.messageQueue s) ->
         let rest := filter (fun m => negb (STTStream.is_ready_message m))
                            (skipn k (STTStream.messageQueue s)) in
         Generator.consume STTStream.dispatch STTStream.iter
           (s, {| Generator.generator :=
                    {| Generator.position := Generator.InFirstLoop;
                       Generator.processedIndex := k |};
                  Generator.yielded := ys_all;
                  Generator.last_step := st_all |})
           (repeat Generator.Resume (S (length rest)))
         = (s, {| Generator.generator :=
                    {| Generator.position := Generator.Finished;
                       Generator.processedIndex := length (STTStream.messageQueue s) |};
                  Generator.yielded := ys_all ++ rest;
                  Generator.last_step := Done |})))).
Proof.
  intros ws evs evs'. split; cbn zeta.
  - split.
    + intros g e H.
      apply (resume_throws TTSStream.audioChunks TTSStream.hasEnded) in H.
      destruct (TTS_some_ended_throws _ H) as [Hin ->].
      split; [|reflexivity].
      destruct (TTS_null_queued _ _ Hin) as [[]|Hev]. exact Hev.
    + intros Hterm Hnull k ys st Hst Hk.
      apply (drain TTSStream.dispatch TTSStream.audioChunks TTSStream.hasEnded).
      * rewrite (@TTS_hasEnded_run evs (TTSStream.new ws) false eq_refl Hnull).
        now rewrite Hterm.
      * exact Hst.
      * lia.
  - split.
    + intros g e [H|[H|H]].
      * apply (resume_throws STTStream.textResults STTStream.hasEnded) in H.
        destruct (STT_some_ended_throws _ H) as [Hin ->].
        split; [|reflexivity].
        destruct (STT_null_queued _ _ Hin) as [[]|Hev]. exact Hev.
      * apply (resume_throws STTStream.vadResults STTStream.hasEnded) in H.
        destruct (STT_some_ended_throws _ H) as [Hin ->].
        split; [|reflexivity].
        destruct (STT_null_queued _ _ Hin) as [[]|Hev]. exact Hev.
      * destruct (iter_throws _ _ H) as [Hin Hc]. split; [|exact Hc].
        destruct (STT_null_queued _ _ Hin) as [[]|Hev]. exact Hev.
    + intros Hterm Hnull k ys_text ys_vad ys_all st_text st_vad st_all Hst.
      assert (Hended : STTStream.hasEnded (STTStream.run (STTStream.new ws) evs')
                       = Return true).
      { rewrite (@STT_hasEnded_run evs' (STTStream.new ws) false eq_refl Hnull).
        now rewrite Hterm. }
      assert (Hqueue : ~ In Null (STTStream.messageQueue
                                    (STTStream.run (STTStream.new ws) evs'))).
      { intros Hin. destruct (STT_null_queued _ _ Hin) as [[]|Hev].
        now apply Hnull. }
      repeat split.
      * intros Hk.
        apply (drain STTStream.dispatch STTStream.textResults STTStream.hasEnded);
          [exact Hended|intros e; apply (Hst e)|lia].
      * intros Hk.
        apply (drain STTStream.dispatch STTStream.vadResults STTStream.hasEnded);
          [exact Hended|intros e; apply (Hst e)|lia].
      * intros Hk. apply iter_drain; try assumption; try reflexivity.
        intros e. apply (Hst e).
Qed.

(** A consumer that starts after two chunks and an [error] envelope gets
    the two chunks and then the end. *)
Lemma iterators_end_without_error_witness :
  let s :=
    TTSStream.run (TTSStream.new new_WebSocket)
      [TTS_audio_event [x01; x02; x03]%byte;
       TTS_audio_event [x04; x05; x06]%byte;
       OnMessage (Parsed (TTSError "Voice not found" (number_of_Z 404)))] in
  Generator.consume TTSStream.dispatch TTSStream.asyncIterator
    (s, Generator.begin Generator.start)
    (repeat Generator.Resume 3)
  = (s, {| Generator.generator :=
             {| Generator.position := Generator.Finished;
                Generator.processedIndex := 2 |};
           Generator.yielded := [[x01; x02; x03]; [x04; x05; x06]]%byte;
           Generator.last_step := Done |}).
Proof.
  intros s.
  destruct (iterators_end_without_error new_WebSocket
              [TTS_audio_event [x01; x02; x03]%byte;
               TTS_audio_event [x04; x05; x06]%byte;
               OnMessage (Parsed (TTSError "Voice not found" (number_of_Z 404)))]
              []) as [[_ H] _].
  apply (H eq_refl); [|discriminate|cbn; lia].
  unfold TTS_audio_event. intros [E|[E|[E|[]]]]; discriminate.
Defined.

End Iterating.

(* ===================================================================== *)
(** * Facts: digits *)
(* ===================================================================== *)

Module DigitFacts.
Import JS.

Lemma char_digit_digit_char d : char_digit (digit_char d) = Some d.
Proof. destruct d; reflexivity. Qed.

Lemma span_digits_chars ds rest :
  not_digit_start rest ->
  span_digits (chars_of_digits ds ++ rest) = (ds, rest).
Proof.
  intros H. induction ds as [|d ds IH]; cbn.
  - destruct rest as [|c rest]; [reflexivity|].
    cbn in *. now rewrite H.
  - unfold chars_of_digits in IH. now rewrite char_digit_digit_char, IH.
Qed.

Lemma uint_of_digits_of_uint u : uint_of_digits (digits_of_uint u) = u.
Proof. induction u; cbn; congruence. Qed.

Lemma N_of_digits_of_N n : N_of_digits (digits_of_N n) = n.
Proof.
  unfold N_of_digits, digits_of_N.
  rewrite uint_of_digits_of_uint. apply DecimalN.Unsigned.of_to.
Qed.

End DigitFacts.


(* ===================================================================== *)
(** * Facts: [JSON.parse] reads what [JSON.stringify] writes *)
(* ===================================================================== *)

Module JSONFacts.
Import JS DigitFacts Wire.

(** ** Strings *)

Section Strings.
Local Open Scope N_scope.

Lemma N_of_ascii_237 c : (N_of_ascii c =? 237) = true -> c = surrogate_lead.
Proof.
  intros H. apply N.eqb_eq in H. rewrite <- (ascii_N_embedding c), H. reflexivity.
Qed.

Lemma high_lead c1 c2 c3 : is_high_surrogate c1 c2 c3 = true -> c1 = surrogate_lead.
Proof.
  unfold is_high_surrogate. intros H.
  apply andb_prop in H. destruct H as [H _].
  apply andb_prop in H. destruct H as [H _].
  apply andb_prop in H. destruct H as [H _].
  now apply N_of_ascii_237.
Qed.

Lemma low_lead c1 c2 c3 : is_low_surrogate c1 c2 c3 = true -> c1 = surrogate_lead.
Proof.
  unfold is_low_surrogate. intros H.
  apply andb_prop in H. destruct H as [H _].
  apply andb_prop in H. destruct H as [H _].
  apply andb_prop in H. destruct H as [H _].
  now apply N_of_ascii_237.
Qed.

Lemma StringToCodePoints_three c1 c2 c3 r3 :
  StringToCodePoints (c1 :: c2 :: c3 :: r3)
  = if is_high_surrogate c1 c2 c3 then
      match r3 with
      | d1 :: d2 :: d3 :: r6 =>
          if is_low_surrogate d1 d2 d3 then
            SurrogatePair c2 c3 d2 d3 :: StringToCodePoints r6
          else LoneSurrogate c2 c3 :: StringToCodePoints r3
      | _ => LoneSurrogate c2 c3 :: StringToCodePoints r3
      end
    else if is_low_surrogate c1 c2 c3 then
      LoneSurrogate c2 c3 :: StringToCodePoints r3
    else Character c1 :: StringToCodePoints (c2 :: c3 :: r3).
Proof. reflexivity. Qed.

(** The code points of a string, written out, are the string. *)
Lemma StringToCodePoints_chars n : forall s,
  (length s <= n)%nat ->
  flat_map code_point_chars (StringToCodePoints s) = s.
Proof.
  induction n as [|n IH]; intros s Hn.
  - destruct s; [reflexivity|cbn in Hn; lia].
  - destruct s as [|c1 [|c2 [|c3 r3]]]; try reflexivity.
    + rewrite StringToCodePoints_three.
      assert (H3 : flat_map code_point_chars (StringToCodePoints r3) = r3)
        by (apply IH; cbn [length] in *; lia).
      assert (H1 : flat_map code_point_chars (StringToCodePoints (c2 :: c3 :: r3))
                   = c2 :: c3 :: r3)
        by (apply IH; cbn [length] in *; lia).
      destruct (is_high_surrogate c1 c2 c3) eqn:Hh.
      * apply high_lead in Hh. subst c1.
        destruct r3 as [|d1 [|d2 [|d3 r6]]];
          try (cbn [flat_map code_point_chars app]; now rewrite H3).
        destruct (is_low_surrogate d1 d2 d3) eqn:Hl.
        -- apply low_lead in Hl. subst d1.
           cbn [flat_map code_point_chars app]. do 6 f_equal.
           apply IH. cbn [length] in *. lia.
        -- cbn [flat_map code_point_chars app]. now rewrite H3.
      * destruct (is_low_surrogate c1 c2 c3) eqn:Hl.
        -- apply low_lead in Hl. subst c1.
           cbn [flat_map code_point_chars app]. now rewrite H3.
        -- cbn [flat_map code_point_chars app]. now rewrite H1.
Qed.

Lemma parse_escape_char c tail :
  parse_string_chars (escape_char c ++ tail)
  = cons_chars [c] (parse_string_chars tail).
Proof.
  destruct c as [[] [] [] [] [] [] [] []]; reflexivity.
Qed.

Lemma hex_value_char k : k < 16 -> hex_value (hex_char k) = Some k.
Proof.
  intros H.
  assert (E : k = 0 \/ k = 1 \/ k = 2 \/ k = 3 \/ k = 4 \/ k = 5 \/ k = 6
              \/ k = 7 \/ k = 8 \/ k = 9 \/ k = 10 \/ k = 11 \/ k = 12
              \/ k = 13 \/ k = 14 \/ k = 15) by lia.
  repeat (destruct E as [-> | E]; [reflexivity|]). now subst.
Qed.

Lemma unicode_escape_of n tail :
  n < 65536 ->
  parse_string_chars (UnicodeEscape n ++ tail)
  = cons_chars (encode_unit n) (parse_string_chars tail).
Proof.
  intros Hn. unfold UnicodeEscape.
  cbn [list_ascii_of_string app].
  change (parse_string_chars
            ("\"%char :: "u"%char :: hex_char (n / 4096)
               :: hex_char ((n / 256) mod 16) :: hex_char ((n / 16) mod 16)
               :: hex_char (n mod 16) :: tail))
    with (match unicode_escape (hex_char (n / 4096))
                  (hex_char ((n / 256) mod 16)) (hex_char ((n / 16) mod 16))
                  (hex_char (n mod 16)) with
          | Some u => cons_chars (encode_unit u) (parse_string_chars tail)
          | None => None
          end).
  unfold unicode_escape.
  rewrite !hex_value_char.
  - replace ((((n / 4096) * 16 + (n / 256) mod 16) * 16 + (n / 16) mod 16) * 16
             + n mod 16) with n; [reflexivity|].
    zify. Z.to_euclidean_division_equations. lia.
  - apply N.mod_lt. discriminate.
  - apply N.mod_lt. discriminate.
  - apply N.mod_lt. discriminate.
  - zify. Z.to_euclidean_division_equations. lia.
Qed.

Lemma N_of_ascii_lt c : N_of_ascii c < 256.
Proof. apply N_ascii_bounded. Qed.

Lemma encode_surrogate c1 c2 c3 :
  is_high_surrogate c1 c2 c3 = true \/ is_low_surrogate c1 c2 c3 = true ->
  surrogate c2 c3 < 65536 /\ encode_unit (surrogate c2 c3) = [surrogate_lead; c2; c3].
Proof.
  intros H.
  assert (R : 160 <= N_of_ascii c2 < 192 /\ 128 <= N_of_ascii c3 < 192).
  { unfold is_high_surrogate, is_low_surrogate, is_continuation in H.
    destruct H as [H|H];
      repeat match goal with
        | H : _ && _ = true |- _ => apply andb_prop in H; destruct H
        end;
      repeat match goal with
        | H : (_ <=? _) = true |- _ => apply N.leb_le in H
        | H : (_ <? _) = true |- _ => apply N.ltb_lt in H
        end; lia. }
  destruct R as [R2 R3]. unfold surrogate. split; [lia|].
  unfold encode_unit.
  set (n := 53248 + (N_of_ascii c2 - 128) * 64 + (N_of_ascii c3 - 128)).
  assert (E1 : (n <? 128) = false) by (apply N.ltb_ge; unfold n; lia).
  assert (E2 : (n <? 2048) = false) by (apply N.ltb_ge; unfold n; lia).
  rewrite E1, E2.
  assert (A : 224 + n / 4096 = 237)
    by (unfold n; zify; Z.to_euclidean_division_equations; lia).
  assert (B : 128 + (n / 64) mod 64 = N_of_ascii c2)
    by (unfold n; zify; Z.to_euclidean_division_equations; lia).
  assert (C : 128 + n mod 64 = N_of_ascii c3)
    by (unfold n; zify; Z.to_euclidean_division_equations; lia).
  rewrite A, B, C, !ascii_N_embedding. reflexivity.
Qed.

Lemma parse_raw c tail :
  128 <= N_of_ascii c ->
  parse_string_chars (c :: tail) = cons_chars [c] (parse_string_chars tail).
Proof.
  intros H. cbn [parse_string_chars].
  replace (N_of_ascii c =? 34) with false by (symmetry; apply N.eqb_neq; lia).
  replace (N_of_ascii c =? 92) with false by (symmetry; apply N.eqb_neq; lia).
  replace (N_of_ascii c <? 32) with false by (symmetry; apply N.ltb_ge; lia).
  reflexivity.
Qed.

Lemma surrogate_raw c1 c2 c3 :
  is_high_surrogate c1 c2 c3 = true \/ is_low_surrogate c1 c2 c3 = true ->
  128 <= N_of_ascii c2 /\ 128 <= N_of_ascii c3.
Proof.
  intros H.
  unfold is_high_surrogate, is_low_surrogate, is_continuation in H.
  destruct H as [H|H];
    repeat match goal with
      | H : _ && _ = true |- _ => apply andb_prop in H; destruct H
      end;
    repeat match goal with
      | H : (_ <=? _) = true |- _ => apply N.leb_le in H
      | H : (_ <? _) = true |- _ => apply N.ltb_lt in H
      end; lia.
Qed.

Lemma parse_lone_surrogate c1 c2 c3 tail :
  is_high_surrogate c1 c2 c3 = true \/ is_low_surrogate c1 c2 c3 = true ->
  parse_string_chars (quote_code_point (LoneSurrogate c2 c3) ++ tail)
  = cons_chars [surrogate_lead; c2; c3] (parse_string_chars tail).
Proof.
  intros H. destruct (encode_surrogate c1 c2 c3 H) as [Hlt He].
  cbn [quote_code_point]. now rewrite unicode_escape_of, He.
Qed.

Lemma parse_raw_surrogate c1 c2 c3 tail :
  is_high_surrogate c1 c2 c3 = true \/ is_low_surrogate c1 c2 c3 = true ->
  parse_string_chars (surrogate_lead :: c2 :: c3 :: tail)
  = cons_chars [surrogate_lead; c2; c3] (parse_string_chars tail).
Proof.
  intros H. destruct (surrogate_raw c1 c2 c3 H) as [H2 H3].
  rewrite parse_raw by (vm_compute; discriminate).
  rewrite (parse_raw c2) by exact H2. rewrite (parse_raw c3) by exact H3.
  now destruct (parse_string_chars tail) as [[cs rest]|].
Qed.

Lemma parse_string_chars_quote n : forall cs rest,
  (length cs <= n)%nat ->
  parse_string_chars
    (flat_map quote_code_point (StringToCodePoints cs) ++ quotation_mark :: rest)
  = Some (cs, rest).
Proof.
  induction n as [|n IH]; intros cs rest Hn.
  - destruct cs; [reflexivity|cbn in Hn; lia].
  - assert (Hone : forall c r,
               (length r <= n)%nat ->
               parse_string_chars
                 (flat_map quote_code_point
                    (Character c :: StringToCodePoints r)
                  ++ quotation_mark :: rest)
               = Some (c :: r, rest)).
    { intros c r Hr. cbn [flat_map quote_code_point].
      rewrite <- app_assoc, parse_escape_char, IH by exact Hr. reflexivity. }
    destruct cs as [|c1 [|c2 [|c3 r3]]].
    + reflexivity.
    + apply Hone. cbn [length] in *. lia.
    + apply (Hone c1 [c2]). cbn [length] in *. lia.
    + rewrite StringToCodePoints_three.
      assert (Hlone : is_high_surrogate c1 c2 c3 = true
                      \/ is_low_surrogate c1 c2 c3 = true ->
                      parse_string_chars
                        (flat_map quote_code_point
                           (LoneSurrogate c2 c3 :: StringToCodePoints r3)
                         ++ quotation_mark :: rest)
                      = Some (c1 :: c2 :: c3 :: r3, rest)).
      { intros H. cbn [flat_map]. rewrite <- app_assoc.
        rewrite (parse_lone_surrogate c1) by exact H.
        rewrite IH by (cbn [length] in *; lia).
        destruct H as [H|H]; [apply high_lead in H|apply low_lead in H];
          now subst c1. }
      destruct (is_high_surrogate c1 c2 c3) eqn:Hh.
      * destruct r3 as [|d1 [|d2 [|d3 r6]]]; try (apply Hlone; now left).
        destruct (is_low_surrogate d1 d2 d3) eqn:Hl; [|apply Hlone; now left].
        cbn [flat_map quote_code_point code_point_chars].
        rewrite <- app_assoc. cbn [app].
        rewrite (parse_raw_surrogate c1) by now left.
        rewrite (parse_raw_surrogate d1) by now right.
        rewrite IH by (cbn [length] in *; lia).
        apply high_lead in Hh. apply low_lead in Hl. now subst c1 d1.
      * destruct (is_low_surrogate c1 c2 c3) eqn:Hl; [apply Hlone; now right|].
        apply Hone. cbn [length] in *. lia.
Qed.

End Strings.

Lemma parse_string_quote s rest :
  exists tail,
    quote s ++ rest = quotation_mark :: tail /\
    parse_string tail = Some (s, rest).
Proof.
  unfold quote, quote_chars. eexists. split.
  - cbn [app]. rewrite <- app_assoc. reflexivity.
  - unfold parse_string. cbn [app].
    rewrite (@parse_string_chars_quote (length (list_ascii_of_string s)))
      by apply Nat.le_refl.
    now rewrite string_of_list_ascii_of_string.
Qed.

(** ** Numbers *)

Lemma strip_leading_zeros_repeat i : forall ds p,
  match ds with Dg0 :: _ => False | _ => True end ->
  strip_leading_zeros (repeat Dg0 i ++ ds) p = (ds, (p - Z.of_nat i)%Z).
Proof.
  induction i as [|i IH]; intros ds p H.
  - cbn [repeat app]. replace (p - Z.of_nat 0)%Z with p by lia.
    destruct ds as [|[] ds]; try reflexivity. contradiction.
  - cbn [repeat app strip_leading_zeros]. rewrite IH by exact H.
    f_equal. lia.
Qed.

Lemma drop_zeros_repeat j : forall ds,
  match ds with Dg0 :: _ => False | _ => True end ->
  drop_zeros (repeat Dg0 j ++ ds) = ds.
Proof.
  induction j as [|j IH]; intros ds H.
  - destruct ds as [|[] ds]; try reflexivity. contradiction.
  - cbn [repeat app drop_zeros]. now apply IH.
Qed.

Lemma rev_repeat (A : Type) (x : A) n : rev (repeat x n) = repeat x n.
Proof.
  induction n as [|n IH]; [reflexivity|].
  cbn [repeat rev]. rewrite IH. clear IH.
  induction n as [|n IH]; [reflexivity|]. cbn. now rewrite IH.
Qed.

Lemma canonical_digits_head ds :
  canonical_digits ds = true ->
  match ds with Dg0 :: _ => False | _ => True end.
Proof. destruct ds as [|[] ds]; cbn; try discriminate; auto. Qed.

Lemma canonical_digits_last ds :
  canonical_digits ds = true ->
  match rev ds with Dg0 :: _ => False | _ => True end.
Proof.
  intros H. destruct ds as [|d ds]; [discriminate|].
  unfold canonical_digits in H. apply andb_prop in H. destruct H as [_ H].
  assert (Hne : d :: ds <> []) by discriminate.
  destruct (exists_last Hne) as (front & x & E). rewrite E in *.
  rewrite last_last in H. rewrite rev_app_distr. cbn.
  destruct x; try exact I. discriminate.
Qed.

Lemma strip_trailing_zeros_repeat ds j :
  canonical_digits ds = true ->
  strip_trailing_zeros (ds ++ repeat Dg0 j) = ds.
Proof.
  intros H. unfold strip_trailing_zeros.
  rewrite rev_app_distr, rev_repeat, drop_zeros_repeat, rev_involutive.
  - reflexivity.
  - now apply canonical_digits_last.
Qed.

Lemma mk_number_canonical negative i ds j p :
  canonical_digits ds = true ->
  mk_number negative (repeat Dg0 i ++ ds ++ repeat Dg0 j) p
  = Finite negative ds (p - Z.of_nat i).
Proof.
  intros H. unfold mk_number.
  rewrite strip_leading_zeros_repeat.
  - rewrite strip_trailing_zeros_repeat by exact H.
    destruct ds; [discriminate|reflexivity].
  - destruct ds as [|[] ds]; cbn; try exact I; try discriminate.
Qed.

Lemma value_end_not_digit rest : value_end rest -> not_digit_start rest.
Proof.
  destruct rest as [|c rest]; cbn; [auto|].
  intros [-> | [-> | ->]]; reflexivity.
Qed.

Lemma parse_int_zero rest : parse_int ("0"%char :: rest) = Some ([Dg0], rest).
Proof. reflexivity. Qed.

Lemma parse_int_digits d ds rest :
  d <> Dg0 -> not_digit_start rest ->
  parse_int (chars_of_digits (d :: ds) ++ rest) = Some (d :: ds, rest).
Proof.
  intros Hd Hrest.
  assert (E : parse_int (chars_of_digits (d :: ds) ++ rest)
              = match span_digits (chars_of_digits (d :: ds) ++ rest) with
                | ([], _) => None
                | (digits, rest') => Some (digits, rest')
                end).
  { destruct d; try reflexivity. contradiction. }
  rewrite E, span_digits_chars by exact Hrest. reflexivity.
Qed.

Lemma parse_frac_digits ds rest :
  ds <> [] -> not_digit_start rest ->
  parse_frac ("."%char :: chars_of_digits ds ++ rest) = Some (ds, rest).
Proof.
  intros Hds Hrest. unfold parse_frac.
  rewrite span_digits_chars by exact Hrest.
  destruct ds; [contradiction|reflexivity].
Qed.

Lemma parse_frac_none rest :
  match rest with "."%char :: _ => False | _ => True end ->
  parse_frac rest = Some ([], rest).
Proof.
  destruct rest as [|c rest]; [reflexivity|].
  destruct c as [[] [] [] [] [] [] [] []]; try reflexivity. contradiction.
Qed.

Lemma parse_exp_none rest : value_end rest -> parse_exp rest = Some (0%Z, rest).
Proof.
  destruct rest as [|c rest]; [reflexivity|].
  intros [-> | [-> | ->]]; reflexivity.
Qed.

Lemma digits_of_N_nonempty m : exists d ds, digits_of_N m = d :: ds.
Proof.
  unfold digits_of_N.
  destruct m as [|p]; cbn; [now exists Dg0, []|].
  pose proof (DecimalPos.Unsigned.to_uint_nonnil p) as Hn.
  destruct (Pos.to_uint p); cbn; try (now contradiction Hn); eauto.
Qed.

Lemma parse_exp_digits_of_N negative m rest :
  not_digit_start rest ->
  parse_exp_digits negative (chars_of_digits (digits_of_N m) ++ rest)
  = Some (if negative then (- Z.of_N m)%Z else Z.of_N m, rest).
Proof.
  intros Hrest. unfold parse_exp_digits.
  rewrite span_digits_chars by exact Hrest.
  destruct (digits_of_N_nonempty m) as (d & ds & E).
  rewrite E, <- E, N_of_digits_of_N. reflexivity.
Qed.

(** The exponent part [Number::toString] writes. *)
Lemma parse_exp_exponent (e : Z) rest :
  not_digit_start rest ->
  parse_exp ("e"%char
               :: (if (e <? 0)%Z then "-"%char else "+"%char)
               :: chars_of_digits (digits_of_N (Z.abs_N e)) ++ rest)
  = Some (e, rest).
Proof.
  intros Hrest. unfold parse_exp. cbn [N_of_ascii N.eqb orb].
  change ((N_of_ascii "e" =? 101)%N || (N_of_ascii "e" =? 69)%N) with true.
  cbn iota.
  destruct (e <? 0)%Z eqn:E.
  - rewrite parse_exp_digits_of_N by exact Hrest.
    apply Z.ltb_lt in E. rewrite N2Z.inj_abs_N.
    now replace (- Z.abs e)%Z with e by lia.
  - rewrite parse_exp_digits_of_N by exact Hrest.
    apply Z.ltb_ge in E. rewrite N2Z.inj_abs_N.
    now replace (Z.abs e) with e by lia.
Qed.

Lemma zeros_chars j : zeros j = chars_of_digits (repeat Dg0 j).
Proof.
  unfold zeros, chars_of_digits.
  induction j as [|j IH]; [reflexivity|]. cbn. now rewrite IH.
Qed.

Lemma chars_of_digits_app a b :
  chars_of_digits (a ++ b) = chars_of_digits a ++ chars_of_digits b.
Proof. apply map_app. Qed.

Lemma canonical_digits_cons ds :
  canonical_digits ds = true -> exists d ds', ds = d :: ds' /\ d <> Dg0.
Proof.
  destruct ds as [|d ds']; [discriminate|].
  intros H. exists d, ds'. split; [reflexivity|].
  intros ->. discriminate.
Qed.

Lemma mk_number_plain negative ds p :
  canonical_digits ds = true ->
  mk_number negative ds p = Finite negative ds p.
Proof.
  intros H.
  pose proof (@mk_number_canonical negative 0 ds 0 p H) as E.
  cbn [repeat app] in E. rewrite app_nil_r in E.
  rewrite E. f_equal. lia.
Qed.

Lemma value_end_no_point rest :
  value_end rest -> match rest with "."%char :: _ => False | _ => True end.
Proof.
  destruct rest as [|c rest]; cbn; [auto|].
  intros [-> | [-> | ->]]; exact I.
Qed.

(** [JSON.parse] reads back the digits and the point position that
    [Number::toString] wrote. *)
Lemma parse_unsigned_finite negative ds n rest :
  canonical_digits ds = true ->
  value_end rest ->
  parse_unsigned negative (finite_to_chars ds n ++ rest)
  = Some (Number_value (Finite negative ds n), rest).
Proof.
  intros Hc Hrest.
  destruct (@canonical_digits_cons ds Hc) as (d & ds' & Eds & Hd).
  pose proof (@value_end_not_digit rest Hrest) as Hnd.
  unfold finite_to_chars.
  set (k := Z.of_nat (length ds)).
  destruct ((k <=? n)%Z && (n <=? 21)%Z) eqn:Ha.
  { (* digits, then zeros *)
    apply andb_prop in Ha. destruct Ha as [Ha _]. apply Z.leb_le in Ha.
    rewrite zeros_chars, <- chars_of_digits_app.
    unfold parse_unsigned.
    rewrite Eds at 1. cbn [app]. rewrite parse_int_digits by assumption.
    rewrite parse_frac_none by now apply value_end_no_point.
    rewrite parse_exp_none by exact Hrest.
    rewrite app_nil_r, !app_comm_cons, <- Eds.
    pose proof (@mk_number_canonical negative 0 ds (Z.to_nat (n - k))
                  (Z.of_nat (length (ds ++ repeat Dg0 (Z.to_nat (n - k)))) + 0)
                  Hc) as E.
    cbn [repeat app] in E. rewrite E. do 4 f_equal.
    rewrite length_app, repeat_length. unfold k in *. lia. }
  destruct ((0 <? n)%Z && (n <=? 21)%Z) eqn:Hb.
  { (* digits with a point inside *)
    apply andb_prop in Hb. destruct Hb as [Hb Hb21].
    apply Z.ltb_lt in Hb. apply Z.leb_le in Hb21.
    assert (Hlt : (n < k)%Z).
    { apply andb_false_iff in Ha.
      destruct Ha as [Ha|Ha]; apply Z.leb_gt in Ha; [exact Ha|lia]. }
    unfold chars_of_digits. rewrite firstn_map, skipn_map.
    fold (chars_of_digits (firstn (Z.to_nat n) ds)).
    fold (chars_of_digits (skipn (Z.to_nat n) ds)).
    unfold parse_unsigned.
    assert (Hfirst : exists f, firstn (Z.to_nat n) ds = d :: f).
    { rewrite Eds. destruct (Z.to_nat n) eqn:En; [lia|]. cbn. eauto. }
    destruct Hfirst as [f Hf].
    rewrite <- app_assoc, Hf, parse_int_digits; [|assumption|reflexivity].
    cbn [app]. rewrite parse_frac_digits; [| |assumption].
    - rewrite parse_exp_none by exact Hrest.
      rewrite app_comm_cons, <- Hf, firstn_skipn, mk_number_plain by exact Hc.
      do 4 f_equal. rewrite length_firstn. unfold k in *. lia.
    - intros E. apply (f_equal (@length _)) in E.
      rewrite length_skipn in E. cbn in E. unfold k in *. lia. }
  destruct ((-6 <? n)%Z && (n <=? 0)%Z) eqn:Hcse.
  { (* a zero, a point, zeros, digits *)
    apply andb_prop in Hcse. destruct Hcse as [_ Hcse]. apply Z.leb_le in Hcse.
    rewrite zeros_chars, <- chars_of_digits_app.
    unfold parse_unsigned. cbn [app]. rewrite parse_int_zero.
    rewrite parse_frac_digits; [| |assumption].
    - rewrite parse_exp_none by exact Hrest.
      pose proof (@mk_number_canonical negative (S (Z.to_nat (- n))) ds 0
                    (Z.of_nat (length [Dg0]) + 0) Hc) as E.
      cbn [repeat app] in E. rewrite app_nil_r in E.
      cbn [app]. rewrite E. do 4 f_equal. cbn [length]. lia.
    - rewrite Eds. destruct (repeat Dg0 (Z.to_nat (- n))); discriminate. }
  (* exponent notation *)
  set (exponent :=
         "e"%char
           :: (if (n - 1 <? 0)%Z then "-"%char else "+"%char)
           :: chars_of_digits (digits_of_N (Z.abs_N (n - 1)))).
  assert (Hexp : parse_exp (exponent ++ rest) = Some ((n - 1)%Z, rest))
    by (apply parse_exp_exponent; assumption).
  assert (Hne : not_digit_start (exponent ++ rest)) by reflexivity.
  assert (Hnp : match exponent ++ rest with
                | "."%char :: _ => False
                | _ => True
                end) by exact I.
  clearbody exponent.
  rewrite Eds. destruct ds' as [|d2 ds''].
  - change (parse_unsigned negative
              (chars_of_digits [d] ++ exponent ++ rest)
            = Some (Number_value (Finite negative [d] n), rest)).
    unfold parse_unsigned.
    rewrite parse_int_digits by assumption.
    rewrite parse_frac_none by exact Hnp.
    rewrite Hexp, app_nil_r, mk_number_plain by (rewrite <- Eds; exact Hc).
    do 4 f_equal. cbn [length]. lia.
  - change (parse_unsigned negative
              (chars_of_digits [d]
                 ++ "."%char :: (chars_of_digits (d2 :: ds'') ++ exponent) ++ rest)
            = Some (Number_value (Finite negative (d :: d2 :: ds'') n), rest)).
    unfold parse_unsigned.
    rewrite parse_int_digits; [|assumption|reflexivity].
    rewrite <- app_assoc.
    rewrite parse_frac_digits; [|discriminate|assumption].
    rewrite Hexp. cbn [app].
    rewrite mk_number_plain by (rewrite <- Eds; exact Hc).
    do 4 f_equal. cbn [length]. lia.
Qed.

Lemma finite_to_chars_head ds n :
  canonical_digits ds = true ->
  exists d t, finite_to_chars ds n = digit_char d :: t.
Proof.
  intros Hc.
  destruct (@canonical_digits_cons ds Hc) as (d & ds' & Eds & Hd).
  unfold finite_to_chars.
  destruct ((Z.of_nat (length ds) <=? n)%Z && (n <=? 21)%Z).
  { rewrite Eds. cbn. eauto. }
  destruct ((0 <? n)%Z && (n <=? 21)%Z) eqn:Hb.
  { apply andb_prop in Hb. destruct Hb as [Hb _]. apply Z.ltb_lt in Hb.
    rewrite Eds. destruct (Z.to_nat n) eqn:En; [lia|]. cbn. eauto. }
  destruct ((-6 <? n)%Z && (n <=? 0)%Z).
  { exists Dg0. eauto. }
  rewrite Eds. destruct ds'; cbn; eauto.
Qed.

Lemma parse_number_unsigned d t :
  parse_number (digit_char d :: t) = parse_unsigned false (digit_char d :: t).
Proof. destruct d; reflexivity. Qed.

Lemma digits_eqb_eq a : forall b, digits_eqb a b = true -> a = b.
Proof.
  induction a as [|x a IH]; intros [|y b]; cbn; try discriminate;
    [reflexivity|].
  intros H. apply andb_prop in H. destruct H as [Hx Ha].
  rewrite (IH _ Ha). destruct x, y; try discriminate; reflexivity.
Qed.

Lemma number_eqb_eq x y : number_eqb x y = true -> x = y.
Proof.
  destruct x as [|a|a|a ds n], y as [|b|b|b ds' n']; cbn; try discriminate;
    try reflexivity.
  - intros H. apply Bool.eqb_prop in H. now subst.
  - intros H. apply Bool.eqb_prop in H. now subst.
  - intros H. apply andb_prop in H. destruct H as [H Hn].
    apply andb_prop in H. destruct H as [Hs Hd].
    apply Bool.eqb_prop in Hs. apply digits_eqb_eq in Hd.
    apply Z.eqb_eq in Hn. now subst.
Qed.

(** A number as the platform has it has canonical digits and is its
    own Number value. *)
Lemma is_Number_finite negative ds n :
  is_Number (Finite negative ds n) = true ->
  canonical_digits ds = true /\
  Number_value (Finite negative ds n) = Finite negative ds n.
Proof.
  unfold is_Number. cbn [canonical]. intros H.
  apply andb_prop in H. destruct H as [Hc He].
  split; [exact Hc|now apply number_eqb_eq].
Qed.

Lemma parse_number_json x rest :
  representable_number x = true ->
  value_end rest ->
  parse_number (json_number x ++ rest) = Some (x, rest).
Proof.
  intros Hx Hrest.
  destruct x as [|neg|[]|negative ds n]; try discriminate.
  - (* +0 *)
    cbn [json_number is_finite number_to_chars app].
    unfold parse_number, parse_unsigned.
    rewrite parse_int_zero.
    rewrite parse_frac_none by now apply value_end_no_point.
    rewrite parse_exp_none by exact Hrest. reflexivity.
  - cbn [representable_number] in Hx.
    apply is_Number_finite in Hx. destruct Hx as [Hc Hv].
    cbn [json_number is_finite number_to_chars].
    destruct negative.
    + cbn [app]. unfold parse_number.
      rewrite parse_unsigned_finite by assumption. now rewrite Hv.
    + cbn [app].
      destruct (@finite_to_chars_head ds n Hc) as (d & t & E).
      rewrite E. cbn [app]. rewrite parse_number_unsigned.
      change (digit_char d :: t ++ rest) with ((digit_char d :: t) ++ rest).
      rewrite <- E, parse_unsigned_finite by assumption. now rewrite Hv.
Qed.

(** ** Values *)

Lemma JSValue_induction (P : JSValue -> Prop) :
  P JNull ->
  (forall b, P (JBool b)) ->
  (forall x, P (JNum x)) ->
  (forall s, P (JStr s)) ->
  (forall l, Forall P l -> P (JArr l)) ->
  (forall props, Forall (fun kv => P (snd kv)) props -> P (JObj props)) ->
  forall v, P v.
Proof.
  intros Hnull Hbool Hnum Hstr Harr Hobj.
  fix IH 1. intros [| b | x | s | l | props].
  - exact Hnull.
  - apply Hbool.
  - apply Hnum.
  - apply Hstr.
  - apply Harr. induction l as [|v l IHl]; constructor; [apply IH|exact IHl].
  - apply Hobj. induction props as [|[k v] props IHp]; constructor;
      [apply IH|exact IHp].
Qed.

Lemma stringify_head v :
  representable v = true ->
  exists c t, stringify_chars v = c :: t /\ value_start c = true.
Proof.
  destruct v as [| [] | x | s | l | props]; intros H; cbn [stringify_chars];
    try (eexists; eexists; split; reflexivity).
  cbn [representable] in H.
  destruct x as [|neg|[]|[] ds n]; try discriminate;
    try (eexists; eexists; split; reflexivity).
  cbn [representable_number] in H. apply is_Number_finite in H.
  destruct (@finite_to_chars_head ds n (proj1 H)) as (d & t & E).
  unfold json_number. cbn [is_finite number_to_chars app]. rewrite E.
  exists (digit_char d), t. split; [reflexivity|]. destruct d; reflexivity.
Qed.

Lemma value_start_skip_ws c t :
  value_start c = true -> skip_ws (c :: t) = c :: t.
Proof.
  destruct c as [[] [] [] [] [] [] [] []]; try discriminate; reflexivity.
Qed.

Lemma parse_value_number fuel c t :
  c = "-"%char \/ (exists d, c = digit_char d) ->
  parse_value (S fuel) (c :: t)
  = match parse_number (c :: t) with
    | Some (x, rest) => Some (JNum x, rest)
    | None => None
    end.
Proof.
  intros [-> | [d ->]]; [reflexivity|]. destruct d; reflexivity.
Qed.

Lemma parse_value_array fuel c t :
  value_start c = true ->
  parse_value (S fuel) ("["%char :: c :: t)
  = match parse_elements fuel (c :: t) with
    | Some (l, rest) => Some (JArr l, rest)
    | None => None
    end.
Proof.
  destruct c as [[] [] [] [] [] [] [] []]; try discriminate; reflexivity.
Qed.

Lemma parse_elements_step fuel s :
  parse_elements (S fuel) s
  = match parse_value fuel s with
    | None => None
    | Some (v, r) =>
        match skip_ws r with
        | ","%char :: r1 =>
            match parse_elements fuel r1 with
            | Some (l, rest) => Some (v :: l, rest)
            | None => None
            end
        | "]"%char :: rest => Some ([v], rest)
        | _ => None
        end
    end.
Proof. reflexivity. Qed.

Lemma parse_members_quote fuel tail :
  parse_members (S fuel) (quotation_mark :: tail)
  = match parse_string tail with
    | None => None
    | Some (key, r1) =>
        match skip_ws r1 with
        | ":"%char :: r2 =>
            match parse_value fuel r2 with
            | None => None
            | Some (v, r3) =>
                match skip_ws r3 with
                | ","%char :: r4 =>
                    match parse_members fuel r4 with
                    | Some (l, rest) => Some ((key, v) :: l, rest)
                    | None => None
                    end
                | "}"%char :: rest => Some ([(key, v)], rest)
                | _ => None
                end
            end
        | _ => None
        end
    end.
Proof. reflexivity. Qed.

Lemma parse_members_step fuel key tail r2 :
  parse_string tail = Some (key, ":"%char :: r2) ->
  parse_members (S fuel) (quotation_mark :: tail)
  = match parse_value fuel r2 with
    | None => None
    | Some (v, r3) =>
        match skip_ws r3 with
        | ","%char :: r4 =>
            match parse_members fuel r4 with
            | Some (l, rest) => Some ((key, v) :: l, rest)
            | None => None
            end
        | "}"%char :: rest => Some ([(key, v)], rest)
        | _ => None
        end
    end.
Proof.
  intros H. rewrite parse_members_quote, H. reflexivity.
Qed.

Lemma join_chars_cons sep p q r :
  join_chars sep (p :: q :: r) = p ++ sep ++ join_chars sep (q :: r).
Proof. reflexivity. Qed.

(** The elements of a non-empty array, up to its closing bracket. *)
Lemma parse_elements_join l :
  l <> [] ->
  Forall (fun v =>
            representable v = true ->
            forall rest, value_end rest ->
            forall fuel, length (stringify_chars v) <= fuel ->
            parse_value fuel (stringify_chars v ++ rest) = Some (v, rest)) l ->
  forallb representable l = true ->
  forall rest fuel,
    length (join_chars [","%char] (map stringify_chars l)) < fuel ->
    parse_elements fuel
      (join_chars [","%char] (map stringify_chars l) ++ "]"%char :: rest)
    = Some (l, rest).
Proof.
  intros Hne HP. induction HP as [|v l Hv HP IH]; [contradiction|].
  intros Hrep rest fuel Hfuel.
  cbn [forallb] in Hrep. apply andb_prop in Hrep. destruct Hrep as [Hrv Hrl].
  destruct fuel as [|fuel]; [lia|]. rewrite parse_elements_step.
  destruct l as [|v2 l].
  - cbn [map join_chars] in *.
    rewrite Hv; [|assumption|cbn; auto|lia]. reflexivity.
  - cbn [map] in *. rewrite join_chars_cons in *.
    rewrite length_app in Hfuel. cbn [app length] in Hfuel.
    rewrite <- app_assoc. cbn [app].
    rewrite Hv; [|assumption|cbn; auto|lia].
    cbn [skip_ws is_json_ws]. change (is_json_ws ","%char) with false. cbn iota.
    rewrite IH; [reflexivity|discriminate|assumption|lia].
Qed.

(** The members of a non-empty object, up to its closing brace. *)
Lemma parse_members_join props :
  props <> [] ->
  Forall (fun kv =>
            representable (snd kv) = true ->
            forall rest, value_end rest ->
            forall fuel, length (stringify_chars (snd kv)) <= fuel ->
            parse_value fuel (stringify_chars (snd kv) ++ rest)
            = Some (snd kv, rest)) props ->
  forallb (fun kv => representable (snd kv)) props = true ->
  forall rest fuel,
    length (join_chars [","%char]
              (map (fun kv => quote (fst kv) ++ ":"%char :: stringify_chars (snd kv))
                   props)) < fuel ->
    parse_members fuel
      (join_chars [","%char]
         (map (fun kv => quote (fst kv) ++ ":"%char :: stringify_chars (snd kv))
              props)
         ++ "}"%char :: rest)
    = Some (props, rest).
Proof.
  intros Hne HP. induction HP as [|[k v] props Hv HP IH]; [contradiction|].
  intros Hrep rest fuel Hfuel.
  cbn [forallb] in Hrep. apply andb_prop in Hrep. destruct Hrep as [Hrv Hrl].
  cbn [fst snd] in *.
  destruct fuel as [|fuel]; [lia|].
  destruct props as [|kv2 props].
  - cbn [map join_chars fst snd] in *.
    rewrite length_app in Hfuel. cbn [length] in Hfuel.
    destruct (parse_string_quote k
                (":"%char :: stringify_chars v ++ "}"%char :: rest))
      as (tail & Etail & Hparse).
    replace ((quote k ++ ":"%char :: stringify_chars v) ++ "}"%char :: rest)
      with (quotation_mark :: tail)
      by (rewrite <- Etail; repeat (rewrite <- ?app_assoc; cbn [app]);
          reflexivity).
    erewrite parse_members_step by exact Hparse.
    rewrite Hv; [|assumption|cbn; auto|lia]. reflexivity.
  - cbn [map] in *. rewrite join_chars_cons in *.
    cbn [fst snd] in *.
    rewrite !length_app in Hfuel. cbn [app length] in Hfuel.
    match goal with
    | |- context [ [","%char] ++ ?o ] => set (others := o) in *
    end.
    destruct (parse_string_quote k
                (":"%char :: stringify_chars v
                   ++ ","%char :: others ++ "}"%char :: rest))
      as (tail & Etail & Hparse).
    replace (((quote k ++ ":"%char :: stringify_chars v) ++ [","%char] ++ others)
               ++ "}"%char :: rest)
      with (quotation_mark :: tail)
      by (rewrite <- Etail; repeat (rewrite <- ?app_assoc; cbn [app]);
          reflexivity).
    erewrite parse_members_step by exact Hparse.
    rewrite Hv; [|assumption|cbn; auto|lia].
    cbn [skip_ws is_json_ws]. change (is_json_ws ","%char) with false. cbn iota.
    rewrite IH; [reflexivity|discriminate|assumption|lia].
Qed.

Lemma parse_value_string fuel tail :
  parse_value (S fuel) (quotation_mark :: tail)
  = match parse_string tail with
    | Some (str, rest) => Some (JStr str, rest)
    | None => None
    end.
Proof. reflexivity. Qed.

Lemma parse_value_object fuel tail :
  parse_value (S fuel) ("{"%char :: quotation_mark :: tail)
  = match parse_members fuel (quotation_mark :: tail) with
    | Some (l, rest) => Some (JObj (object_of l), rest)
    | None => None
    end.
Proof. reflexivity. Qed.

(** ** Objects *)

Lemma has_property_app key a b :
  has_property key (a ++ b) = has_property key a || has_property key b.
Proof.
  induction a as [|[k v] a IH]; [reflexivity|].
  cbn [app has_property]. now rewrite IH, orb_assoc.
Qed.

Lemma define_members props : forall object,
  plain_keys props = true ->
  (forall key, has_property key props = true ->
               has_property key object = false) ->
  fold_left (fun object kv => define_property (fst kv) (snd kv) object)
            props object
  = object ++ props.
Proof.
  induction props as [|[k v] props IH]; intros object Hplain Hnew.
  - cbn. now rewrite app_nil_r.
  - cbn [plain_keys] in Hplain.
    apply andb_prop in Hplain. destruct Hplain as [Hplain Hrest].
    apply andb_prop in Hplain. destruct Hplain as [Hk Hindex].
    apply negb_true_iff in Hk.
    cbn [fold_left fst snd]. unfold define_property at 2.
    rewrite (Hnew k) by (cbn [has_property]; now rewrite String.eqb_refl).
    destruct (array_index k); [discriminate|].
    rewrite IH; [now rewrite <- app_assoc|exact Hrest|].
    intros key Hkey. rewrite has_property_app.
    rewrite (Hnew key) by (cbn [has_property]; now rewrite Hkey, orb_true_r).
    cbn [has_property orb]. rewrite orb_false_r.
    destruct (String.eqb k key) eqn:E; [|reflexivity].
    apply String.eqb_eq in E. subst key. congruence.
Qed.

(** An object of plain keys is the object of its members. *)
Lemma object_of_plain props :
  plain_keys props = true -> object_of props = props.
Proof.
  intros H. unfold object_of. now rewrite define_members.
Qed.

Lemma json_number_head x :
  representable_number x = true ->
  exists c t,
    json_number x = c :: t /\
    (c = "-"%char \/ exists d, c = digit_char d).
Proof.
  destruct x as [|neg|[]|[] ds n]; try discriminate; intros H.
  - exists "0"%char, []. split; [reflexivity|]. right. now exists Dg0.
  - eexists; eexists. split; [reflexivity|]. now left.
  - cbn [representable_number] in H. apply is_Number_finite in H.
    destruct (@finite_to_chars_head ds n (proj1 H)) as (d & t & E).
    exists (digit_char d), t. split.
    + unfold json_number. cbn [is_finite number_to_chars app]. exact E.
    + right. now exists d.
Qed.

Lemma join_chars_head sep p r :
  exists tail, join_chars sep (p :: r) = p ++ tail.
Proof.
  destruct r as [|q r].
  - exists []. cbn. now rewrite app_nil_r.
  - eexists. apply join_chars_cons.
Qed.

(** [JSON.parse] reads a value that [JSON.stringify] wrote, whatever
    follows it in an array or an object. *)
Lemma parse_value_stringify v :
  representable v = true ->
  forall rest, value_end rest ->
  forall fuel, length (stringify_chars v) <= fuel ->
  parse_value fuel (stringify_chars v ++ rest) = Some (v, rest).
Proof.
  induction v as [| b | x | s | l IH | props IH] using JSValue_induction;
    intros Hrep rest Hrest fuel Hfuel.
  - destruct fuel; [cbn in Hfuel; lia|reflexivity].
  - destruct fuel; [destruct b; cbn in Hfuel; lia|destruct b; reflexivity].
  - cbn [representable] in Hrep. cbn [stringify_chars] in *.
    destruct (@json_number_head x Hrep) as (c & t & E & Hc).
    destruct fuel; [rewrite E in Hfuel; cbn in Hfuel; lia|].
    rewrite E. cbn [app]. rewrite parse_value_number by exact Hc.
    change (c :: t ++ rest) with ((c :: t) ++ rest). rewrite <- E.
    now rewrite parse_number_json.
  - cbn [stringify_chars] in *.
    destruct (parse_string_quote s rest) as (tail & E & Hparse).
    destruct fuel.
    { unfold quote, quote_chars in Hfuel. cbn [length] in Hfuel. lia. }
    now rewrite E, parse_value_string, Hparse.
  - cbn [representable] in Hrep. cbn [stringify_chars] in *.
    destruct fuel; [cbn in Hfuel; lia|].
    destruct l as [|v l]; [reflexivity|].
    cbn [length] in Hfuel. rewrite length_app in Hfuel. cbn [length] in Hfuel.
    cbn [app]. rewrite <- app_assoc. cbn [app].
    assert (Hhead : exists c t,
               join_chars [","%char] (map stringify_chars (v :: l)) = c :: t /\
               value_start c = true).
    { cbn [map].
      destruct (join_chars_head [","%char] (stringify_chars v)
                  (map stringify_chars l)) as (tail & Etail).
      cbn [forallb] in Hrep. apply andb_prop in Hrep. destruct Hrep as [Hv _].
      destruct (@stringify_head v Hv) as (c & t & Ec & Hc).
      exists c, (t ++ tail). split; [|exact Hc].
      now rewrite Etail, Ec. }
    destruct Hhead as (c & t & Ejoin & Hc).
    assert (Eparse :
              parse_elements fuel
                (join_chars [","%char] (map stringify_chars (v :: l))
                   ++ "]"%char :: rest)
              = Some (v :: l, rest)).
    { apply parse_elements_join; [discriminate|exact IH|exact Hrep|lia]. }
    rewrite Ejoin in *. cbn [app] in *.
    now rewrite parse_value_array, Eparse.
  - cbn [representable] in Hrep. cbn [stringify_chars] in *.
    apply andb_prop in Hrep. destruct Hrep as [Hplain Hrep].
    destruct fuel; [cbn in Hfuel; lia|].
    destruct props as [|[k v] props]; [reflexivity|].
    cbn [length] in Hfuel. rewrite length_app in Hfuel. cbn [length] in Hfuel.
    cbn [app]. rewrite <- app_assoc. cbn [app].
    set (members :=
           join_chars [","%char]
             (map (fun kv => quote (fst kv) ++ ":"%char :: stringify_chars (snd kv))
                  ((k, v) :: props))) in *.
    assert (Hhead : exists t, members = quotation_mark :: t).
    { unfold members. cbn [map fst snd].
      destruct (join_chars_head [","%char]
                  (quote k ++ ":"%char :: stringify_chars v)
                  (map (fun kv => quote (fst kv) ++ ":"%char :: stringify_chars (snd kv))
                       props)) as (tail & Etail).
      rewrite Etail. unfold quote, quote_chars. cbn [app]. eauto. }
    destruct Hhead as (t & Emembers).
    assert (Eparse : parse_members fuel (members ++ "}"%char :: rest)
                     = Some ((k, v) :: props, rest)).
    { apply parse_members_join; [discriminate|exact IH|exact Hrep|].
      fold members. lia. }
    rewrite Emembers in *. cbn [app] in *.
    now rewrite parse_value_object, Eparse, object_of_plain.
Qed.

(** [JSON.parse(JSON.stringify(v))] is [v] when nothing in [v] is a
    number that JSON cannot write. *)
Lemma JSON_parse_stringify v :
  representable v = true -> JSON_parse (JSON_stringify v) = Some v.
Proof.
  intros H. unfold JSON_parse, JSON_stringify.
  rewrite list_ascii_of_string_of_list_ascii.
  rewrite <- (app_nil_r (stringify_chars v)) at 2.
  rewrite parse_value_stringify; [reflexivity|exact H|exact I|lia].
Qed.

End JSONFacts.

(* ===================================================================== *)
(** * Facts: integers as [String] prints them *)
(* ===================================================================== *)

Module IntegerText.
Import JS.

Lemma nzhead_head (u : Decimal.uint) :
  match Decimal.nzhead u with Decimal.D0 _ => False | _ => True end.
Proof. induction u; cbn; auto. Qed.

Lemma to_uint_head (p : positive) :
  match Pos.to_uint p with Decimal.D0 _ => False | _ => True end.
Proof.
  pose proof (DecimalPos.Unsigned.of_to p) as H1.
  pose proof (DecimalPos.Unsigned.to_of (Pos.to_uint p)) as H2.
  rewrite H1 in H2. cbn [N.to_uint] in H2.
  pose proof (nzhead_head (Pos.to_uint p)) as H3.
  unfold Decimal.unorm in H2.
  destruct (Decimal.nzhead (Pos.to_uint p)) eqn:E; rewrite H2; auto.
  pose proof (DecimalPos.Unsigned.to_uint_nonzero p) as Hnz.
  congruence.
Qed.

Lemma digits_of_uint_head (u : Decimal.uint) :
  match u with Decimal.D0 _ => False | _ => True end ->
  match digits_of_uint u with Dg0 :: _ => False | _ => True end.
Proof. destruct u; cbn; auto. Qed.

(** Digits that do not start with zero are canonical digits followed
    by zeros. *)
Lemma trailing_zeros (ds : list digit) :
  ds <> [] ->
  match ds with Dg0 :: _ => False | _ => True end ->
  exists front j, ds = front ++ repeat Dg0 j /\ canonical_digits front = true.
Proof.
  induction ds as [|d ds IH] using rev_ind; [congruence|]. intros _ Hhead.
  destruct (match d with Dg0 => true | _ => false end) eqn:Ed.
  - destruct d; try discriminate.
    destruct ds as [|d0 ds'].
    + cbn in Hhead. contradiction.
    + destruct IH as (front & j & E & Hc); [discriminate| |].
      * destruct d0; cbn in *; auto.
      * exists front, (S j). split; [|exact Hc].
        rewrite E, <- app_assoc. f_equal.
        clear. induction j as [|j IH]; [reflexivity|].
        cbn [repeat app]. now rewrite IH.
  - exists (ds ++ [d]), 0. cbn [repeat]. rewrite app_nil_r.
    split; [reflexivity|].
    unfold canonical_digits. rewrite last_last.
    destruct ds as [|d0 ds']; cbn [app].
    + destruct d; cbn in *; congruence.
    + destruct d0; cbn in Hhead; try contradiction;
        destruct d; cbn in *; congruence.
Qed.

(** [String(z)] of an integer of at most 21 digits is its decimal
    text. *)
Lemma integer_to_string (z : Z) :
  length (digits_of_N (Z.abs_N z)) <= 21 ->
  number_to_string (number_of_Z z) = Z_to_string z.
Proof.
  intros Hlen. unfold number_to_string, Z_to_string. f_equal.
  unfold number_of_Z, Z_to_chars.
  set (ds := digits_of_N (Z.abs_N z)) in *.
  destruct (Z.abs_N z) as [|p] eqn:Ez.
  - destruct z; try discriminate. reflexivity.
  - assert (Hhead : match ds with Dg0 :: _ => False | _ => True end).
    { unfold ds, digits_of_N. cbn [N.to_uint].
      apply digits_of_uint_head, to_uint_head. }
    assert (Hne : ds <> []).
    { destruct (JSONFacts.digits_of_N_nonempty (N.pos p)) as (d & r & E).
      unfold ds. rewrite E. discriminate. }
    destruct (trailing_zeros Hne Hhead) as (front & j & E & Hc).
    pose proof (@JSONFacts.mk_number_canonical (z <? 0)%Z 0 front j
                  (Z.of_nat (length ds)) Hc) as Hmk.
    cbn [repeat app] in Hmk. rewrite <- E in Hmk. rewrite Hmk.
    cbn [number_to_chars]. f_equal.
    unfold finite_to_chars.
    assert (Hl : length ds = length front + j).
    { rewrite E, length_app, repeat_length. reflexivity. }
    replace ((Z.of_nat (length front) <=? Z.of_nat (length ds) - Z.of_nat 0)
             && (Z.of_nat (length ds) - Z.of_nat 0 <=? 21))%Z with true.
    + rewrite JSONFacts.zeros_chars, <- JSONFacts.chars_of_digits_app.
      rewrite E at 2. do 3 f_equal. lia.
    + symmetry. apply andb_true_intro. split; apply Z.leb_le; lia.
Qed.





End IntegerText.

(* ===================================================================== *)
(** * The error of an API response (claim C8) *)
(* ===================================================================== *)

Module APIErrors.
Import JS Errors DigitFacts.










End APIErrors.
(* ===================================================================== *)
(** * Input envelopes written and read back (claim C7) *)
(* ===================================================================== *)

Module RoundTrip.
Import JS Errors Types Platform Base64 Wire.

Lemma representable_TTSClientMessage (m : TTSClientMessage) :
  representable (TTSClientMessage_object m)
  = match m with
    | TTSSetup s =>
        match setup_json_config s with
        | Some c =>
            match padding_bonus c with
            | Some x => representable_number x
            | None => true
            end
        | None => true
        end
    | _ => true
    end.
Proof.
  destruct m as [[voice format model [[[x|]]|]] | text | ]; cbn;
    rewrite ?andb_true_r; reflexivity.
Qed.

Lemma representable_STTClientMessage (m : STTClientMessage) :
  representable (STTClientMessage_object m) = true.
Proof. destruct m as [[format model] | audio | ]; reflexivity. Qed.

Lemma property_of_audio_frame audio :
  let props := [("type", JStr "audio"); ("audio", JStr audio)] in
  get_property "type" props = Some (JStr "audio") /\
  get_property "audio" props = Some (JStr audio).
Proof. split; reflexivity. Qed.

(** The frame [sendAudio(a)] writes, read back: the bytes [a]. *)
Lemma audio_frame_payload (a : list byte) :
  audio_payload
    (JSON_stringify
       (STTClientMessage_object (STTAudio (btoa (String_fromCharCode a)))))
  = Some a.
Proof.
  unfold audio_payload.
  rewrite JSONFacts.JSON_parse_stringify by reflexivity.
  cbn [STTClientMessage_object].
  destruct (property_of_audio_frame (btoa (String_fromCharCode a)))
    as [Htype Haudio].
  cbn zeta in Htype, Haudio. rewrite Htype, Haudio.
  rewrite Base64Facts.atob_btoa.
  unfold Uint8Array_from_charCodes, String_fromCharCode.
  now rewrite list_byte_of_string_of_list_byte.
Qed.

(** What [sendAudio(a)] does on a stream that is ready, for an array
    the engine takes as the arguments of one call. *)
Lemma sendAudio_ready (engine : Engine) (a : list byte) (s : STTStream.t) :
  STTStream.isReady s = true ->
  length a <= max_arguments ->
  STTStream.sendAudio a s
  = Return
      (STTStream.set_ws
         (send (STTStream.ws s)
            (JSON_stringify
               (STTClientMessage_object
                  (STTAudio (btoa (String_fromCharCode a))))))
         s).
Proof.
  intros H Hlen. unfold STTStream.sendAudio, spread_call. rewrite H.
  apply Nat.ltb_ge in Hlen. now rewrite Hlen.
Qed.

(** The audio case of the output direction's [onmessage] on what
    [sendAudio(a)] put in the [audio] field: the chunk [a] is pushed. *)
Lemma onmessage_audio_of_sent (a : list byte) (s : TTSStream.t) :
  TTSStream.audioChunks
    (TTSStream.onmessage
       (Parsed (TTSAudio (btoa (String_fromCharCode a)))) s)
  = TTSStream.audioChunks s ++ [a].
Proof.
  unfold TTSStream.onmessage. rewrite Base64Facts.atob_btoa.
  unfold Uint8Array_from_charCodes, String_fromCharCode.
  now rewrite list_byte_of_string_of_list_byte.
Qed.

(** C7, as the code has it. A setup envelope whose [padding_bonus] is
    [NaN] (a [number], so the envelope is well typed) is written with
    [null] in its place: what is read back is not the envelope that was
    written. The frame is the one [TTS.stream] writes when the socket
    opens. *)
Lemma setup_with_NaN_padding_bonus_reads_back_null :
  let params := {| tts_voice_id := "test-voice"; tts_output_format := pcm;
                   tts_model_name := None;
                   tts_json_config := Some {| padding_bonus := Some NaN |} |} in
  let envelope := TTSClientMessage_object (TTSSetup (TTS.setupMessage params)) in
  let frame := JSON_stringify envelope in
  sentMessages
    (TTSStream.ws (TTS.session (TTS.dispatch (TTS.stream params) OnOpen)))
  = [frame] /\
  JSON_parse frame
  = Some (JObj [("type", JStr "setup");
                ("voice_id", JStr "test-voice");
                ("output_format", JStr "pcm");
                ("model_name", JStr "default");
                ("json_config", JObj [("padding_bonus", JNull)])]) /\
  JSON_parse frame <> Some envelope.
Proof.
  intros params envelope frame.
  split; [reflexivity|].
  assert (H : JSON_parse frame
              = Some (JObj [("type", JStr "setup");
                            ("voice_id", JStr "test-voice");
                            ("output_format", JStr "pcm");
                            ("model_name", JStr "default");
                            ("json_config", JObj [("padding_bonus", JNull)])]))
    by (vm_compute; reflexivity).
  split; [exact H|].
  rewrite H. discriminate.
Qed.

(** C7, amended. Every input envelope is read back by [JSON.parse] as
    an equal envelope, whatever the strings in it, provided no number
    in it is [NaN], infinite or the negative zero (the only number of
    an input envelope is the [padding_bonus] of a TTS setup envelope);
    and so are the envelopes the code writes: the setup envelope
    [stream] writes when the socket opens, the text envelope of
    [sendText], the audio envelope of [sendAudio] and the
    end-of-stream envelope of [sendEndOfStream]. And for every byte
    array [a], the audio envelope of [a] carries a base64 payload
    that decodes to exactly [a], both as the tests read a frame and as
    the audio case of [onmessage] decodes the field; a [sendAudio(a)]
    that returns has written that envelope, and on a ready stream it
    returns whenever [a] has no more bytes than the engine takes
    arguments in a call. *)
Theorem input_envelope_round_trip :
  forall (engine : Engine)
         (tts_params : TTSSetupParams) (stt_params : STTSetupParams)
         (text : string) (a : list byte)
         (t : TTSStream.t) (s : STTStream.t) (r : TTSStream.t),
    (forall config x,
        tts_json_config tts_params = Some config ->
        padding_bonus config = Some x ->
        representable_number x = true) ->
    TTSStream.isReady t = true ->
    STTStream.isReady s = true ->
    (forall m : TTSClientMessage,
        representable (TTSClientMessage_object m) = true ->
        JSON_parse (JSON_stringify (TTSClientMessage_object m))
        = Some (TTSClientMessage_object m)) /\
    (forall m : STTClientMessage,
        JSON_parse (JSON_stringify (STTClientMessage_object m))
        = Some (STTClientMessage_object m)) /\
    (exists frame,
        sentMessages
          (TTSStream.ws (TTS.session (TTS.dispatch (TTS.stream tts_params) OnOpen)))
        = [frame] /\
        JSON_parse frame
        = Some (TTSClientMessage_object (TTSSetup (TTS.setupMessage tts_params)))) /\
    (exists frame,
        sentMessages
          (STTStream.ws (STT.session (STT.dispatch (STT.stream stt_params) OnOpen)))
        = [frame] /\
        JSON_parse frame
        = Some (STTClientMessage_object (STTSetup (STT.setupMessage stt_params)))) /\
    (exists t' frame,
        TTSStream.sendText text t = Return t' /\
        sentMessages (TTSStream.ws t') = sentMessages (TTSStream.ws t) ++ [frame] /\
        JSON_parse frame = Some (TTSClientMessage_object (TTSText text))) /\
    (exists frame,
        sentMessages (TTSStream.ws (TTSStream.sendEndOfStream t))
        = sentMessages (TTSStream.ws t) ++ [frame] /\
        JSON_parse frame = Some (TTSClientMessage_object TTSEndOfStream)) /\
    (exists frame,
        sentMessages (STTStream.ws (STTStream.sendEndOfStream s))
        = sentMessages (STTStream.ws s) ++ [frame] /\
        JSON_parse frame = Some (STTClientMessage_object STTEndOfStream)) /\
    (let envelope :=
       STTClientMessage_object (STTAudio (btoa (String_fromCharCode a))) in
     JSON_parse (JSON_stringify envelope) = Some envelope /\
     audio_payload (JSON_stringify envelope) = Some a /\
     TTSStream.audioChunks
       (TTSStream.onmessage
          (Parsed (TTSAudio (btoa (String_fromCharCode a)))) r)
     = TTSStream.audioChunks r ++ [a] /\
     (forall s',
         STTStream.sendAudio a s = Return s' ->
         sentMessages (STTStream.ws s')
         = sentMessages (STTStream.ws s) ++ [JSON_stringify envelope]) /\
     (length a <= max_arguments ->
      exists s', STTStream.sendAudio a s = Return s')).
Proof.
  intros engine tts_params stt_params text a t s r Hnumber Ht Hs.
  split; [intros m; apply JSONFacts.JSON_parse_stringify|].
  split.
  { intros m. apply JSONFacts.JSON_parse_stringify,
      representable_STTClientMessage. }
  split.
  { eexists. split; [reflexivity|].
    apply JSONFacts.JSON_parse_stringify.
    rewrite representable_TTSClientMessage. cbn [TTS.setupMessage setup_json_config].
    destruct (tts_json_config tts_params) as [config|] eqn:Ec; [|reflexivity].
    destruct (padding_bonus config) as [x|] eqn:Ex; [|reflexivity].
    exact (Hnumber config x eq_refl Ex). }
  split.
  { eexists. split; [reflexivity|].
    apply JSONFacts.JSON_parse_stringify, representable_STTClientMessage. }
  split.
  { unfold TTSStream.sendText. rewrite Ht. cbn [negb].
    eexists; eexists. split; [reflexivity|]. split; [reflexivity|].
    now apply JSONFacts.JSON_parse_stringify. }
  split.
  { eexists. split; [reflexivity|].
    now apply JSONFacts.JSON_parse_stringify. }
  split.
  { eexists. split; [reflexivity|].
    now apply JSONFacts.JSON_parse_stringify. }
  cbn zeta.
  split; [now apply JSONFacts.JSON_parse_stringify|].
  split; [apply audio_frame_payload|].
  split; [apply onmessage_audio_of_sent|].
  split.
  - intros s'. unfold STTStream.sendAudio, spread_call. rewrite Hs.
    cbn [negb]. destruct (max_arguments <? length a)%nat; [discriminate|].
    intros H. inversion H. reflexivity.
  - intros Hlen. eexists. now apply sendAudio_ready.
Qed.

(** An instance. The text is [H], the letter e with an acute accent
    (the code unit 0xE9) and the surrogate 0xD800, with no low
    surrogate after it. *)
Lemma input_envelope_round_trip_witness :
  let engine := Engine_65536 in
  let text :=
    string_of_list_ascii (map ascii_of_N [72; 195; 169; 237; 160; 128]%N) in
  let tts_params :=
    {| tts_voice_id := "test-voice"; tts_output_format := pcm;
       tts_model_name := None;
       tts_json_config :=
         Some {| padding_bonus := Some (number_of_Z (-2)) |} |} in
  let stt_params := {| stt_input_format := stt_pcm; stt_model_name := None |} in
  let a := [x01; x02; x03; x04; x05]%byte in
  let t := TTSStream.run (TTSStream.new new_WebSocket)
             [OnOpen; OnMessage (Parsed (TTSReady "req-123"))] in
  let s := STTStream.run (STTStream.new new_WebSocket)
             [OnOpen;
              OnMessage
                (Parsed
                   (STTReady
                      {| ready_request_id := "req-123";
                         ready_model_name := "default";
                         ready_sample_rate := number_of_Z 24000;
                         ready_frame_size := number_of_Z 1920;
                         ready_delay_in_tokens := number_of_Z 0;
                         ready_text_stream_names := [] |}))] in
  (exists frame,
      sentMessages
        (TTSStream.ws (TTS.session (TTS.dispatch (TTS.stream tts_params) OnOpen)))
      = [frame] /\
      JSON_parse frame
      = Some (TTSClientMessage_object (TTSSetup (TTS.setupMessage tts_params)))) /\
  (exists t' frame,
      TTSStream.sendText text t = Return t' /\
      sentMessages (TTSStream.ws t') = [frame] /\
      JSON_parse frame = Some (TTSClientMessage_object (TTSText text))) /\
  JSON_stringify (JStr text)
  = string_of_list_ascii
      (quotation_mark
         :: map ascii_of_N [72; 195; 169]%N
         ++ list_ascii_of_string "\ud800" ++ [quotation_mark]) /\
  exists s',
    STTStream.sendAudio a s = Return s' /\
    sentMessages (STTStream.ws s')
    = [JSON_stringify
         (STTClientMessage_object (STTAudio (btoa (String_fromCharCode a))))] /\
    audio_payload
      (JSON_stringify
         (STTClientMessage_object (STTAudio (btoa (String_fromCharCode a)))))
    = Some a.
Proof.
  intros engine text tts_params stt_params a t s.
  assert (Hnumber : forall config x,
             tts_json_config tts_params = Some config ->
             padding_bonus config = Some x ->
             representable_number x = true).
  { intros config x Ec Ex. inversion Ec; subst config.
    inversion Ex; subst x. vm_compute. reflexivity. }
  assert (Ht : TTSStream.isReady t = true) by reflexivity.
  assert (Hs : STTStream.isReady s = true) by reflexivity.
  assert (Hlen : length a <= @max_arguments engine)
    by (apply Nat.leb_le; vm_compute; reflexivity).
  destruct (@input_envelope_round_trip engine tts_params stt_params text a
              t s (TTSStream.new new_WebSocket) Hnumber Ht Hs)
    as (_ & _ & H1 & _ & H3 & _ & _ & _ & H6 & _ & H7 & H8).
  split; [exact H1|]. split; [exact H3|]. split; [reflexivity|].
  destruct (H8 Hlen) as [s' Hs'].
  exists s'. split; [exact Hs'|]. split; [exact (H7 s' Hs')|exact H6].
Defined.

End RoundTrip.
(* ===================================================================== *)
(** * The frames [transcribe] writes (claim C10) *)
(* ===================================================================== *)

Module Transcribing.
Import JS Errors Types Platform Base64 Wire STT.

Lemma slice_length (audio : list byte) i :
  i < length audio ->
  let chunk := Uint8Array_slice audio i (Nat.min (i + chunkSize) (length audio)) in
  0 < length chunk <= chunkSize /\
  length chunk = Nat.min chunkSize (length audio - i).
Proof.
  intros Hi chunk. unfold chunk, Uint8Array_slice.
  rewrite length_firstn, length_skipn. unfold chunkSize. lia.
Qed.

Lemma slice_then_rest (audio : list byte) i :
  Uint8Array_slice audio i (Nat.min (i + chunkSize) (length audio))
    ++ skipn (i + chunkSize) audio
  = skipn i audio.
Proof.
  unfold Uint8Array_slice.
  rewrite Nat.add_comm, <- skipn_skipn.
  destruct (le_lt_dec chunkSize (length (skipn i audio))) as [Hle|Hlt].
  - rewrite length_skipn in Hle.
    replace (Nat.min (chunkSize + i) (length audio) - i) with chunkSize by lia.
    apply firstn_skipn.
  - rewrite (skipn_all2 (n := chunkSize)) by lia.
    rewrite app_nil_r. apply firstn_all2.
    rewrite length_skipn in *. lia.
Qed.

Lemma audio_frame_is_not_end_of_stream audio :
  is_end_of_stream (JSON_stringify (STTClientMessage_object (STTAudio audio)))
  = false.
Proof.
  unfold is_end_of_stream.
  now rewrite JSONFacts.JSON_parse_stringify by reflexivity.
Qed.

Lemma end_of_stream_frame :
  is_end_of_stream (JSON_stringify (STTClientMessage_object STTEndOfStream))
  = true.
Proof. reflexivity. Qed.

Section Engine.
Context {engine : Engine}.

Lemma send_chunks_unfold (audio : list byte) (i : nat) (s : STTStream.t) :
  send_chunks audio i s
  = if lt_dec i (length audio) then
      match STTStream.sendAudio
              (Uint8Array_slice audio i (Nat.min (i + chunkSize) (length audio)))
              s
      with
      | Throw e => Throw e
      | Return s' => send_chunks audio (i + chunkSize) s'
      end
    else Return s.
Proof.
  funelim (send_chunks audio i s);
    repeat match goal with
      | H : lt_dec _ _ = _ |- _ => rewrite H
      | H : STTStream.sendAudio _ _ = _ |- _ => rewrite H
      end; congruence.
Qed.

(** The loop on a ready stream, from [i] on: it completes, having
    written one audio frame per chunk, the chunks being the rest of
    [audio] cut every [chunkSize] bytes. *)
Lemma send_chunks_frames (audio : list byte) (n : nat) :
  forall (i : nat) (s : STTStream.t),
  length audio - i <= n ->
  STTStream.isReady s = true ->
  exists chunks frames s',
    send_chunks audio i s = Return s' /\
    STTStream.isReady s' = true /\
    STTStream.readyPromise s' = STTStream.readyPromise s /\
    STTStream.endPromise s' = STTStream.endPromise s /\
    sentMessages (STTStream.ws s') = sentMessages (STTStream.ws s) ++ frames /\
    Forall2 (fun frame chunk => audio_payload frame = Some chunk) frames chunks /\
    Forall (fun frame => is_end_of_stream frame = false) frames /\
    Forall (fun chunk => 0 < length chunk <= chunkSize) chunks /\
    concat chunks = skipn i audio /\
    length audio - i <= length chunks * chunkSize < length audio - i + chunkSize.
Proof.
  induction n as [|n IH]; intros i s Hn Hready;
    rewrite send_chunks_unfold;
    destruct (lt_dec i (length audio)) as [Hi|Hi]; try lia.
  - exists [], [], s.
    rewrite app_nil_r, skipn_all2 by lia.
    repeat split;
      try apply Forall2_nil; try apply Forall_nil; try exact Hready;
      cbn [length]; unfold chunkSize; lia.
  - destruct (@slice_length audio i Hi) as [Hchunk Hmin].
    rewrite (@RoundTrip.sendAudio_ready engine _ _ Hready)
      by (pose proof max_arguments_chunk; unfold chunkSize in *; lia).
    set (chunk := Uint8Array_slice audio i
                    (Nat.min (i + chunkSize) (length audio))) in *.
    set (frame := JSON_stringify
                    (STTClientMessage_object
                       (STTAudio (btoa (String_fromCharCode chunk))))).
    destruct (IH (i + chunkSize)
                (STTStream.set_ws (send (STTStream.ws s) frame) s))
      as (chunks & frames & s' & Hrun & Hr & Hrp & Hep & Hsent & Hpay
          & Hnot & Hlen & Hcat & Hcount).
    { unfold chunkSize. lia. }
    { exact Hready. }
    exists (chunk :: chunks), (frame :: frames), s'.
    split; [exact Hrun|]. split; [exact Hr|].
    split; [exact Hrp|]. split; [exact Hep|].
    split.
    { rewrite Hsent. cbn. now rewrite <- app_assoc. }
    split.
    { constructor; [apply RoundTrip.audio_frame_payload|exact Hpay]. }
    split.
    { constructor; [apply audio_frame_is_not_end_of_stream|exact Hnot]. }
    split; [constructor; [exact Hchunk|exact Hlen]|].
    split.
    { cbn [concat]. rewrite Hcat. apply slice_then_rest. }
    cbn [length]. unfold chunkSize in *. lia.
  - exists [], [], s.
    rewrite app_nil_r, skipn_all2 by lia.
    repeat split;
      try apply Forall2_nil; try apply Forall_nil; try exact Hready;
      cbn [length]; unfold chunkSize; lia.
Qed.

Lemma continue_collect_call c : call (continue_collect c) = call c.
Proof.
  unfold continue_collect.
  now destruct (STTStream.endPromise (session (call c))).
Qed.

Lemma continue_collect_stage c :
  stage (continue_collect c) = AwaitEnd \/
  exists outcome, stage (continue_collect c) = Settled outcome.
Proof.
  unfold continue_collect.
  destruct (STTStream.endPromise (session (call c))); cbn; eauto.
Qed.

(** [transcribe] is suspended at [await stream.waitReady()] only while
    the ready promise is pending. *)
Lemma continue_AwaitReady_pending c :
  stage (continue c) = AwaitReady ->
  STTStream.readyPromise (session (call (continue c))) = Pending.
Proof.
  assert (Hready : forall d,
             stage (continue_ready d) = AwaitReady ->
             STTStream.readyPromise (session (call (continue_ready d)))
             = Pending).
  { intros d. unfold continue_ready, STTStream.waitReady.
    destruct (STTStream.readyPromise (session (call d))) eqn:E; cbn;
      try discriminate; [intros _; exact E|].
    destruct (send_chunks (audio d) 0 (session (call d))); cbn;
      try discriminate.
    match goal with
    | |- stage (continue_collect ?x) = _ -> _ =>
        destruct (continue_collect_stage x) as [H|[o H]]; rewrite H
    end; discriminate. }
  unfold continue. destruct (stage c) eqn:E.
  - unfold continue_stream. destruct (result (call c)); cbn;
      try discriminate. apply Hready.
  - apply Hready.
  - destruct (continue_collect_stage c) as [H|[o H]]; rewrite H;
      discriminate.
  - rewrite E. discriminate.
Qed.

Lemma run_AwaitReady_pending params a evs :
  stage (transcribe_run (transcribe params a) evs) = AwaitReady ->
  STTStream.readyPromise
    (session (call (transcribe_run (transcribe params a) evs)))
  = Pending.
Proof.
  destruct evs as [|ev evs] using rev_ind; [discriminate|].
  unfold transcribe_run. rewrite fold_left_app. cbn [fold_left].
  unfold transcribe_step at 1 3. apply continue_AwaitReady_pending.
Qed.

Lemma run_audio params a evs :
  audio (transcribe_run (transcribe params a) evs) = a.
Proof.
  induction evs as [|ev evs IH] using rev_ind; [reflexivity|].
  unfold transcribe_run. rewrite fold_left_app. cbn [fold_left].
  unfold transcribe_step at 1, continue.
  cbn [stage call audio].
  assert (Hc : forall d, audio (continue_collect d) = audio d).
  { intros d. unfold continue_collect.
    now destruct (STTStream.endPromise (session (call d))). }
  assert (Hr : forall d, audio (continue_ready d) = audio d).
  { intros d. unfold continue_ready.
    destruct (STTStream.waitReady (session (call d))); try reflexivity.
    destruct (send_chunks (audio d) 0 (session (call d))); try reflexivity.
    now rewrite Hc. }
  match goal with
  | |- audio (match ?st with _ => _ end) = _ => destruct st
  end; try exact IH.
  - unfold continue_stream. cbn [call].
    match goal with
    | |- audio (match ?r with _ => _ end) = _ => destruct r
    end; try exact IH. now rewrite Hr.
  - now rewrite Hr.
  - now rewrite Hc.
Qed.

(** Events other than the opening of the socket write nothing. *)
Lemma dispatch_writes_nothing c ev :
  ev <> OnOpen ->
  sentMessages (STTStream.ws (session (dispatch c ev)))
  = sentMessages (STTStream.ws (session c)).
Proof.
  intros Hev.
  destruct ev as [ | [ e | [ m | m | m | m | message code | ] | | ] | | wasClean code reason ];
    try congruence; cbn; try reflexivity.
  unfold STTStream.onclose.
  now destruct (negb wasClean && negb (code =? 1000)%Z).
Qed.

(** Once the end of stream is written, [transcribe] only awaits the
    end promise: it writes nothing more. *)
Lemma after_end_writes_nothing evs : forall c,
  (stage c = AwaitEnd \/ exists outcome, stage c = Settled outcome) ->
  Forall (fun ev => ev <> OnOpen) evs ->
  sentMessages (STTStream.ws (session (call (transcribe_run c evs))))
  = sentMessages (STTStream.ws (session (call c))).
Proof.
  induction evs as [|ev evs IH]; intros c Hstage Hevs; [reflexivity|].
  inversion Hevs as [|? ? Hev Hrest]; subst.
  cbn [transcribe_run fold_left].
  fold (transcribe_run (transcribe_step c ev) evs).
  assert (Hstep :
            call (transcribe_step c ev) = dispatch (call c) ev /\
            (stage (transcribe_step c ev) = AwaitEnd \/
             exists outcome, stage (transcribe_step c ev) = Settled outcome)).
  { unfold transcribe_step, continue. cbn [stage].
    destruct Hstage as [H|[o H]]; rewrite H.
    - split; [apply continue_collect_call|apply continue_collect_stage].
    - cbn. split; [reflexivity|eauto]. }
  destruct Hstep as [Hcall Hstage'].
  rewrite IH by assumption.
  rewrite Hcall. now apply dispatch_writes_nothing.
Qed.

End Engine.

(** C10. [transcribe(params, a)] suspended at
    [await stream.waitReady()], when the ready envelope arrives: it
    writes one audio frame per chunk and then one end-of-stream frame.
    The chunks are the array [a] cut in order ([concat chunks = a]),
    each of at most 3840 bytes, and their number [n] is the least with
    [|a| <= n * 3840], that is [ceil(|a| / 3840)]; every audio frame
    carries its chunk in base64 and none is an end-of-stream frame;
    and no later event on the open socket makes [transcribe] write
    again. *)
Theorem transcribe_sends_chunks_then_end_of_stream :
  forall (engine : Engine) (params : STTSetupParams) (a : list byte)
         (evs : list (WsEvent STTServerMessage)) (m : STTReadyMessage),
    let c := transcribe_run (transcribe params a) evs in
    let c' := transcribe_step c (OnMessage (Parsed (STTReady m))) in
    stage c = AwaitReady ->
    exists (chunks : list (list byte)) (frames : list string) (eos : string),
      sentMessages (STTStream.ws (session (call c')))
      = sentMessages (STTStream.ws (session (call c))) ++ frames ++ [eos] /\
      Forall2 (fun frame chunk => audio_payload frame = Some chunk)
        frames chunks /\
      Forall (fun frame => is_end_of_stream frame = false) frames /\
      is_end_of_stream eos = true /\
      Forall (fun chunk => 0 < length chunk <= 3840) chunks /\
      concat chunks = a /\
      length a <= length chunks * 3840 < length a + 3840 /\
      forall evs',
        Forall (fun ev => ev <> OnOpen) evs' ->
        sentMessages (STTStream.ws (session (call (transcribe_run c' evs'))))
        = sentMessages (STTStream.ws (session (call c'))).
Proof.
  intros engine params a evs m c c' Hstage.
  assert (Hpending : STTStream.readyPromise (session (call c)) = Pending)
    by (now apply run_AwaitReady_pending).
  assert (Haudio : audio c = a) by apply run_audio.
  set (s := STTStream.onmessage (Parsed (STTReady m)) (session (call c))).
  assert (Hs : STTStream.isReady s = true) by reflexivity.
  assert (Hws : STTStream.ws s = STTStream.ws (session (call c)))
    by reflexivity.
  assert (Hwait : STTStream.waitReady s = Fulfilled m).
  { unfold s, STTStream.waitReady. cbn. now rewrite Hpending. }
  destruct (@send_chunks_frames engine a (length a) 0 s ltac:(lia) Hs)
    as (chunks & frames & s' & Hrun & _ & _ & Hend & Hsent & Hpay & Hnot
        & Hlen & Hcat & Hcount).
  assert (Hc' : c' = continue_collect
                       {| call := on_session
                                    (fun _ => STTStream.sendEndOfStream s')
                                    (on_session
                                       (STTStream.onmessage (Parsed (STTReady m)))
                                       (call c));
                          audio := a;
                          stage := AwaitEnd |}).
  { unfold c', transcribe_step, continue. rewrite Hstage. cbn [stage].
    unfold continue_ready. cbn [call dispatch on_session session audio].
    fold s. rewrite Hwait, Haudio, Hrun. reflexivity. }
  exists chunks, frames,
    (JSON_stringify (STTClientMessage_object STTEndOfStream)).
  split.
  { rewrite Hc', continue_collect_call. cbn. rewrite Hsent, Hws.
    now rewrite app_assoc. }
  split; [exact Hpay|]. split; [exact Hnot|].
  split; [apply end_of_stream_frame|].
  split; [exact Hlen|].
  split; [exact Hcat|].
  split; [unfold chunkSize in Hcount; lia|].
  intros evs' Hevs'. apply after_end_writes_nothing; [|exact Hevs'].
  rewrite Hc'. apply continue_collect_stage.
Qed.

Lemma transcribe_sends_chunks_then_end_of_stream_witness :
  let params := {| stt_input_format := stt_pcm; stt_model_name := None |} in
  let a := repeat x00%byte 4000 in
  let m := {| ready_request_id := "req-123";
              ready_model_name := "default";
              ready_sample_rate := number_of_Z 24000;
              ready_frame_size := number_of_Z 1920;
              ready_delay_in_tokens := number_of_Z 0;
              ready_text_stream_names := [] |} in
  let engine := Engine_65536 in
  let c := transcribe_run (transcribe params a) [OnOpen] in
  let c' := transcribe_step c (OnMessage (Parsed (STTReady m))) in
  stage c = AwaitReady /\
  exists chunks frames eos,
    sentMessages (STTStream.ws (session (call c')))
    = sentMessages (STTStream.ws (session (call c))) ++ frames ++ [eos] /\
    Forall2 (fun frame chunk => audio_payload frame = Some chunk)
      frames chunks /\
    is_end_of_stream eos = true /\
    concat chunks = a /\
    length chunks = 2.
Proof.
  intros params a m engine c c'.
  assert (Hstage : stage c = AwaitReady) by reflexivity.
  split; [exact Hstage|].
  destruct (@transcribe_sends_chunks_then_end_of_stream
              Engine_65536 params a [OnOpen] m Hstage)
    as (chunks & frames & eos & Hsent & Hpay & _ & Heos & _ & Hcat & Hcount & _).
  exists chunks, frames, eos.
  split; [exact Hsent|]. split; [exact Hpay|]. split; [exact Heos|].
  split; [exact Hcat|].
  assert (Hlen : length a = 4000) by apply repeat_length.
  rewrite Hlen in Hcount. lia.
Defined.

End Transcribing.

(* ===================================================================== *)
(** * The close event of the socket *)
(* ===================================================================== *)

Module ChannelClose.
Import JS Errors Types Platform.

Lemma TTS_onclose_clean wasClean code reason this :
  negb wasClean && negb (code =? 1000)%Z = false ->
  TTSStream.dispatch this (OnClose wasClean code reason) = TTSStream.close this.
Proof.
  intros H. cbn [TTSStream.dispatch]. unfold TTSStream.onclose.
  now rewrite H.
Qed.

Lemma STT_onclose_clean wasClean code reason this :
  negb wasClean && negb (code =? 1000)%Z = false ->
  STTStream.dispatch this (OnClose wasClean code reason) = STTStream.close this.
Proof.
  intros H. cbn [STTStream.dispatch]. unfold STTStream.onclose.
  now rewrite H.
Qed.

Lemma clean_or_1000 wasClean code :
  wasClean = true \/ code = 1000%Z ->
  negb wasClean && negb (code =? 1000)%Z = false.
Proof.
  intros [-> | ->]; [reflexivity|].
  rewrite Z.eqb_refl. apply andb_false_r.
Qed.

Lemma unclean_not_1000 code :
  code <> 1000%Z -> negb false && negb (code =? 1000)%Z = true.
Proof. intros H. apply Z.eqb_neq in H. now rewrite H. Qed.

(** [ws.onclose] of both streams rejects only when the close is not
    clean and its code is not 1000. Then a pending [waitReady()] and a
    pending [collect()] / [collectText()] reject with a
    [WebSocketError] that carries the reason and the code. A clean
    close, and a close with code 1000 even when it is not clean, has
    the effect of the local [close()]: no promise is settled, so calls
    that wait keep waiting. *)
Theorem close_event_rejects_only_unclean_not_1000 :
  forall (tts : TTSStream.t) (stt : STTStream.t)
         (wasClean : bool) (code : Z) (reason : string)
         (future : list (WsEvent TTSServerMessage))
         (future' : list (WsEvent STTServerMessage)),
    let error :=
      WebSocketError ("WebSocket closed unexpectedly: " ++ reason)%string
                     (Some (number_of_Z code)) in
    (wasClean = false -> code <> 1000%Z ->
     (TTSStream.waitReady tts = Pending ->
      TTSStream.waitReady
        (TTSStream.dispatch tts (OnClose wasClean code reason))
      = Rejected error) /\
     (TTSStream.endPromise tts = Pending ->
      TTSStream.collect tts (OnClose wasClean code reason :: future)
      = Rejected error) /\
     (STTStream.waitReady stt = Pending ->
      STTStream.waitReady
        (STTStream.dispatch stt (OnClose wasClean code reason))
      = Rejected error) /\
     (STTStream.endPromise stt = Pending ->
      STTStream.collectText stt (OnClose wasClean code reason :: future')
      = Rejected error)) /\
    (wasClean = true \/ code = 1000%Z ->
     TTSStream.dispatch tts (OnClose wasClean code reason)
     = TTSStream.close tts /\
     TTSStream.waitReady (TTSStream.close tts) = TTSStream.waitReady tts /\
     TTSStream.endPromise (TTSStream.close tts) = TTSStream.endPromise tts /\
     (TTSStream.endPromise tts = Pending ->
      TTSStream.collect tts [OnClose wasClean code reason] = Pending) /\
     STTStream.dispatch stt (OnClose wasClean code reason)
     = STTStream.close stt /\
     STTStream.waitReady (STTStream.close stt) = STTStream.waitReady stt /\
     STTStream.endPromise (STTStream.close stt) = STTStream.endPromise stt /\
     (STTStream.endPromise stt = Pending ->
      STTStream.collectText stt [OnClose wasClean code reason] = Pending)).
Proof.
  intros tts stt wasClean code reason future future' error. split.
  - intros -> Hcode. pose proof (unclean_not_1000 Hcode) as Hu.
    repeat split.
    + intros Hp. cbn [TTSStream.dispatch]. unfold TTSStream.onclose.
      rewrite Hu. cbn. unfold TTSStream.waitReady in Hp. now rewrite Hp.
    + intros Hp. cbn [TTSStream.collect]. rewrite Hp.
      cbn [TTSStream.dispatch]. unfold TTSStream.onclose. rewrite Hu.
      destruct future; cbn; now rewrite Hp.
    + intros Hp. cbn [STTStream.dispatch]. unfold STTStream.onclose.
      rewrite Hu. cbn. unfold STTStream.waitReady in Hp. now rewrite Hp.
    + intros Hp. cbn [STTStream.collectText]. rewrite Hp.
      cbn [STTStream.dispatch]. unfold STTStream.onclose. rewrite Hu.
      destruct future'; cbn; now rewrite Hp.
  - intros Hclean. pose proof (clean_or_1000 Hclean) as Hc.
    repeat split.
    + now apply TTS_onclose_clean.
    + intros Hp. cbn [TTSStream.collect]. rewrite Hp.
      rewrite TTS_onclose_clean by exact Hc. cbn. now rewrite Hp.
    + now apply STT_onclose_clean.
    + intros Hp. cbn [STTStream.collectText]. rewrite Hp.
      rewrite STT_onclose_clean by exact Hc. cbn. now rewrite Hp.
Qed.

Lemma close_event_rejects_only_unclean_not_1000_witness :
  let tts := TTSStream.run (TTSStream.new new_WebSocket)
               [OnOpen; OnMessage (Parsed (TTSReady "req-123"))] in
  let stt := STTStream.new new_WebSocket in
  TTSStream.collect tts [OnClose false 1006 "Connection lost"]
  = Rejected (WebSocketError "WebSocket closed unexpectedly: Connection lost"
                (Some (number_of_Z 1006))) /\
  TTSStream.collect tts [OnClose false 1000 "done"] = Pending /\
  STTStream.collectText stt [OnClose true 1005 EmptyString] = Pending.
Proof.
  intros tts stt.
  destruct (close_event_rejects_only_unclean_not_1000 tts stt false 1006
              "Connection lost" [] [])
    as [H _].
  destruct (H eq_refl ltac:(discriminate)) as (_ & H1 & _).
  destruct (close_event_rejects_only_unclean_not_1000 tts stt false 1000
              "done" [] [])
    as [_ H'].
  destruct (H' (or_intror eq_refl)) as (_ & _ & _ & H2 & _).
  destruct (close_event_rejects_only_unclean_not_1000 tts stt true 1005
              EmptyString [] [])
    as [_ H''].
  destruct (H'' (or_introl eq_refl)) as (_ & _ & _ & _ & _ & _ & _ & H3).
  split; [apply H1; reflexivity|].
  split; [apply H2; reflexivity|apply H3; reflexivity].
Defined.

End ChannelClose.

(* ===================================================================== *)
(** * Facts: the calls [create] and [transcribe] between two events *)
(* ===================================================================== *)

Module CallFacts.
Import JS Errors Types Platform PromiseFacts.

Ltac inv_cases :=
  repeat split; intros; try discriminate; try congruence; eauto.

Section Engine.
Context {engine : Engine}.

Lemma TTS_dispatch_result_settled c ev :
  settled (TTS.result c) = true ->
  TTS.result (TTS.dispatch c ev) = TTS.result c.
Proof.
  intros H. destruct ev as [ | data | | wasClean code reason ]; cbn;
    auto using resolve_settled, reject_settled.
Qed.

Lemma TTS_dispatch_result_pending c ev :
  TTS.result (TTS.dispatch c ev) = Pending -> TTS.result c = Pending.
Proof.
  destruct (TTS.result c) eqn:E; [reflexivity| |]; intros H;
    rewrite TTS_dispatch_result_settled in H by (rewrite E; reflexivity);
    congruence.
Qed.

(** A fulfilled ready promise comes with [isReady]: only the [ready]
    case of [onmessage] fulfils it, after setting the flag, and nothing
    resets the flag. *)
Lemma TTS_ready_flag_dispatch s ev :
  (TTSStream.readyPromise s = Fulfilled tt -> TTSStream.isReady s = true) ->
  TTSStream.readyPromise (TTSStream.dispatch s ev) = Fulfilled tt ->
  TTSStream.isReady (TTSStream.dispatch s ev) = true.
Proof.
  intros H.
  destruct ev as [ | [ e | [ rid | audio | message code | ] | | ] | | wasClean code reason ];
    cbn; try exact H.
  - reflexivity.
  - destruct (Base64.atob audio); cbn; exact H.
  - destruct (TTSStream.readyPromise s); cbn; try discriminate. exact H.
  - destruct (TTSStream.readyPromise s); cbn; try discriminate. exact H.
  - unfold TTSStream.onclose.
    destruct (negb wasClean && negb (code =? 1000)%Z); cbn; [|exact H].
    destruct (TTSStream.readyPromise s); cbn; try discriminate. exact H.
Qed.

Lemma TTS_ready_flag_call c ev :
  (TTSStream.readyPromise (TTS.session c) = Fulfilled tt ->
   TTSStream.isReady (TTS.session c) = true) ->
  TTSStream.readyPromise (TTS.session (TTS.dispatch c ev)) = Fulfilled tt ->
  TTSStream.isReady (TTS.session (TTS.dispatch c ev)) = true.
Proof.
  intros H.
  destruct ev as [ | data | | wasClean code reason ].
  - exact H.
  - apply (@TTS_ready_flag_dispatch (TTS.session c) (OnMessage data) H).
  - exact H.
  - apply (@TTS_ready_flag_dispatch (TTS.session c)
             (OnClose wasClean code reason) H).
Qed.

Lemma TTS_continue_collect_call c :
  TTS.call (TTS.continue_collect c) = TTS.call c.
Proof.
  unfold TTS.continue_collect.
  now destruct (TTSStream.endPromise (TTS.session (TTS.call c))).
Qed.

Lemma TTS_continue_collect_text c :
  TTS.text (TTS.continue_collect c) = TTS.text c.
Proof.
  unfold TTS.continue_collect.
  now destruct (TTSStream.endPromise (TTS.session (TTS.call c))).
Qed.

Lemma TTS_continue_collect_stage c :
  match TTSStream.endPromise (TTS.session (TTS.call c)) with
  | Pending => TTS.stage (TTS.continue_collect c) = TTS.AwaitEnd
  | Fulfilled _ =>
      TTS.stage (TTS.continue_collect c)
      = TTS.Settled (Return (TTSStream.collect_result (TTS.session (TTS.call c))))
  | Rejected e => TTS.stage (TTS.continue_collect c) = TTS.Settled (Throw e)
  end.
Proof.
  unfold TTS.continue_collect.
  now destruct (TTSStream.endPromise (TTS.session (TTS.call c))).
Qed.

(** What [continue_ready] does, by the state of the ready promise. *)
Lemma TTS_continue_ready_fulfilled c :
  TTSStream.readyPromise (TTS.session (TTS.call c)) = Fulfilled tt ->
  TTSStream.isReady (TTS.session (TTS.call c)) = true ->
  TTS.continue_ready c
  = TTS.continue_collect
      {| TTS.call :=
           TTS.on_session
             (fun s =>
                TTSStream.sendEndOfStream
                  (TTSStream.set_ws
                     (send (TTSStream.ws s)
                        (JSON_stringify
                           (TTSClientMessage_object (TTSText (TTS.text c)))))
                     s))
             (TTS.call c);
         TTS.text := TTS.text c;
         TTS.stage := TTS.AwaitEnd |}.
Proof.
  intros Hp Hr. unfold TTS.continue_ready, TTSStream.waitReady, TTSStream.sendText.
  now rewrite Hp, Hr.
Qed.

(** After a handler run and the continuations it makes runnable, the
    stage agrees with the promises. *)
Lemma TTS_continue_establishes d :
  (TTS.stage d <> TTS.AwaitStream -> settled (TTS.result (TTS.call d)) = true) ->
  (TTSStream.readyPromise (TTS.session (TTS.call d)) = Fulfilled tt ->
   TTSStream.isReady (TTS.session (TTS.call d)) = true) ->
  Invariants.TTS_create (TTS.continue d).
Proof.
  intros H2 H5.
  unfold TTS.continue.
  assert (Hcollect : forall d,
             settled (TTS.result (TTS.call d)) = true ->
             (TTSStream.readyPromise (TTS.session (TTS.call d)) = Fulfilled tt ->
              TTSStream.isReady (TTS.session (TTS.call d)) = true) ->
             Invariants.TTS_create (TTS.continue_collect d)).
  { intros d' Hs Hf. unfold Invariants.TTS_create.
    rewrite TTS_continue_collect_call.
    pose proof (TTS_continue_collect_stage d') as Hst.
    destruct (TTSStream.endPromise (TTS.session (TTS.call d'))) eqn:E;
      rewrite Hst; inv_cases. }
  assert (Hready : forall d,
             settled (TTS.result (TTS.call d)) = true ->
             (TTSStream.readyPromise (TTS.session (TTS.call d)) = Fulfilled tt ->
              TTSStream.isReady (TTS.session (TTS.call d)) = true) ->
             Invariants.TTS_create (TTS.continue_ready d)).
  { intros d' Hs Hf.
    destruct (TTSStream.readyPromise (TTS.session (TTS.call d'))) as [|[]|e] eqn:E.
    - unfold TTS.continue_ready, TTSStream.waitReady. rewrite E.
      unfold Invariants.TTS_create. cbn.
      inv_cases.
    - rewrite TTS_continue_ready_fulfilled by auto.
      apply Hcollect; cbn; auto.
    - unfold TTS.continue_ready, TTSStream.waitReady. rewrite E.
      unfold Invariants.TTS_create. cbn.
      inv_cases. }
  destruct (TTS.stage d) eqn:Hstage.
  - unfold TTS.continue_stream.
    destruct (TTS.result (TTS.call d)) eqn:E.
    + unfold Invariants.TTS_create. cbn.
      inv_cases.
    + apply Hready; [now rewrite E|exact H5].
    + unfold Invariants.TTS_create. cbn. rewrite E.
      inv_cases.
  - apply Hready; [apply H2; discriminate|exact H5].
  - apply Hcollect; [apply H2; discriminate|exact H5].
  - unfold Invariants.TTS_create. rewrite Hstage.
    inv_cases.
Qed.

Lemma TTS_create_step_keeps c ev :
  Invariants.TTS_create c -> Invariants.TTS_create (TTS.create_step c ev).
Proof.
  intros (H1 & H2 & H3 & H4 & H5).
  unfold TTS.create_step. apply TTS_continue_establishes; cbn.
  - intros Hs. rewrite TTS_dispatch_result_settled; auto.
  - now apply TTS_ready_flag_call.
Qed.

Lemma TTS_create_start params text :
  Invariants.TTS_create (TTS.create params text).
Proof.
  unfold Invariants.TTS_create. cbn.
  inv_cases.
Qed.

Lemma TTS_create_run_keeps evs : forall c,
  Invariants.TTS_create c -> Invariants.TTS_create (TTS.create_run c evs).
Proof.
  induction evs as [|ev evs IH]; intros c H; [exact H|].
  cbn [TTS.create_run fold_left].
  fold (TTS.create_run (TTS.create_step c ev) evs).
  now apply IH, TTS_create_step_keeps.
Qed.

Lemma TTS_reachable params text evs :
  Invariants.TTS_create (TTS.create_run (TTS.create params text) evs).
Proof. apply TTS_create_run_keeps, TTS_create_start. Qed.

Lemma STT_dispatch_result_settled c ev :
  settled (STT.result c) = true ->
  STT.result (STT.dispatch c ev) = STT.result c.
Proof.
  intros H. destruct ev as [ | data | | wasClean code reason ]; cbn;
    auto using resolve_settled, reject_settled.
Qed.

Lemma STT_ready_flag_dispatch s ev :
  (forall m, STTStream.readyPromise s = Fulfilled m ->
             STTStream.isReady s = true) ->
  forall m, STTStream.readyPromise (STTStream.dispatch s ev) = Fulfilled m ->
            STTStream.isReady (STTStream.dispatch s ev) = true.
Proof.
  intros H m.
  destruct ev as [ | [ e | [ r | t | v | t | message code | ] | | ] | | wasClean code reason ];
    cbn; try apply H.
  - reflexivity.
  - destruct (STTStream.readyPromise s); cbn; try discriminate. apply H.
  - destruct (STTStream.readyPromise s); cbn; try discriminate. apply H.
  - unfold STTStream.onclose.
    destruct (negb wasClean && negb (code =? 1000)%Z); cbn; [|apply H].
    destruct (STTStream.readyPromise s); cbn; try discriminate. apply H.
Qed.

Lemma STT_ready_flag_call c ev :
  (forall m, STTStream.readyPromise (STT.session c) = Fulfilled m ->
             STTStream.isReady (STT.session c) = true) ->
  forall m,
    STTStream.readyPromise (STT.session (STT.dispatch c ev)) = Fulfilled m ->
    STTStream.isReady (STT.session (STT.dispatch c ev)) = true.
Proof.
  intros H.
  destruct ev as [ | data | | wasClean code reason ].
  - exact H.
  - apply (@STT_ready_flag_dispatch (STT.session c) (OnMessage data) H).
  - exact H.
  - apply (@STT_ready_flag_dispatch (STT.session c)
             (OnClose wasClean code reason) H).
Qed.

Lemma STT_continue_collect_stage c :
  match STTStream.endPromise (STT.session (STT.call c)) with
  | Pending => STT.stage (STT.continue_collect c) = STT.AwaitEnd
  | Fulfilled _ =>
      STT.stage (STT.continue_collect c)
      = STT.Settled (Return (STTStream.collect_result (STT.session (STT.call c))))
  | Rejected e => STT.stage (STT.continue_collect c) = STT.Settled (Throw e)
  end.
Proof.
  unfold STT.continue_collect.
  now destruct (STTStream.endPromise (STT.session (STT.call c))).
Qed.

(** What [continue_ready] does once the ready promise is fulfilled:
    the loop completes and the end of stream is written. *)
Lemma STT_continue_ready_fulfilled c m :
  STTStream.readyPromise (STT.session (STT.call c)) = Fulfilled m ->
  STTStream.isReady (STT.session (STT.call c)) = true ->
  exists s',
    STT.send_chunks (STT.audio c) 0 (STT.session (STT.call c)) = Return s' /\
    STTStream.isReady s' = true /\
    STTStream.readyPromise s' = Fulfilled m /\
    STTStream.endPromise s'
    = STTStream.endPromise (STT.session (STT.call c)) /\
    STT.continue_ready c
    = STT.continue_collect
        {| STT.call :=
             STT.on_session (fun _ => STTStream.sendEndOfStream s') (STT.call c);
           STT.audio := STT.audio c;
           STT.stage := STT.AwaitEnd |}.
Proof.
  intros Hp Hr.
  destruct (@Transcribing.send_chunks_frames engine (STT.audio c)
              (length (STT.audio c)) 0 (STT.session (STT.call c))
              ltac:(lia) Hr)
    as (chunks & frames & s' & Hrun & Hr' & Hrp & Hep & _).
  exists s'. split; [exact Hrun|]. split; [exact Hr'|].
  split; [now rewrite Hrp|]. split; [exact Hep|].
  unfold STT.continue_ready, STTStream.waitReady. now rewrite Hp, Hrun.
Qed.

Lemma STT_continue_establishes d :
  (STT.stage d <> STT.AwaitStream -> settled (STT.result (STT.call d)) = true) ->
  (forall m, STTStream.readyPromise (STT.session (STT.call d)) = Fulfilled m ->
             STTStream.isReady (STT.session (STT.call d)) = true) ->
  Invariants.STT_transcribe (STT.continue d).
Proof.
  intros H2 H5.
  unfold STT.continue.
  assert (Hcollect : forall d,
             settled (STT.result (STT.call d)) = true ->
             (forall m,
                 STTStream.readyPromise (STT.session (STT.call d)) = Fulfilled m ->
                 STTStream.isReady (STT.session (STT.call d)) = true) ->
             Invariants.STT_transcribe (STT.continue_collect d)).
  { intros d' Hs Hf. unfold Invariants.STT_transcribe.
    rewrite Transcribing.continue_collect_call.
    pose proof (STT_continue_collect_stage d') as Hst.
    destruct (STTStream.endPromise (STT.session (STT.call d'))) eqn:E;
      rewrite Hst; inv_cases. }
  assert (Hready : forall d,
             settled (STT.result (STT.call d)) = true ->
             (forall m,
                 STTStream.readyPromise (STT.session (STT.call d)) = Fulfilled m ->
                 STTStream.isReady (STT.session (STT.call d)) = true) ->
             Invariants.STT_transcribe (STT.continue_ready d)).
  { intros d' Hs Hf.
    destruct (STTStream.readyPromise (STT.session (STT.call d'))) as [|m|e] eqn:E.
    - unfold STT.continue_ready, STTStream.waitReady. rewrite E.
      unfold Invariants.STT_transcribe. cbn. inv_cases.
    - destruct (@STT_continue_ready_fulfilled d' m E (Hf m eq_refl))
        as (s' & _ & Hr' & Hrp & _ & ->).
      apply Hcollect; cbn; auto.
    - unfold STT.continue_ready, STTStream.waitReady. rewrite E.
      unfold Invariants.STT_transcribe. cbn. inv_cases. }
  destruct (STT.stage d) eqn:Hstage.
  - unfold STT.continue_stream.
    destruct (STT.result (STT.call d)) eqn:E.
    + unfold Invariants.STT_transcribe. cbn. inv_cases.
    + apply Hready; [now rewrite E|exact H5].
    + unfold Invariants.STT_transcribe. cbn. rewrite E. inv_cases.
  - apply Hready; [apply H2; discriminate|exact H5].
  - apply Hcollect; [apply H2; discriminate|exact H5].
  - unfold Invariants.STT_transcribe. rewrite Hstage. inv_cases.
Qed.

Lemma STT_transcribe_step_keeps c ev :
  Invariants.STT_transcribe c ->
  Invariants.STT_transcribe (STT.transcribe_step c ev).
Proof.
  intros (H1 & H2 & H3 & H4 & H5).
  unfold STT.transcribe_step. apply STT_continue_establishes; cbn.
  - intros Hs. rewrite STT_dispatch_result_settled; auto.
  - now apply STT_ready_flag_call.
Qed.

Lemma STT_transcribe_start params audio :
  Invariants.STT_transcribe (STT.transcribe params audio).
Proof. unfold Invariants.STT_transcribe. cbn. inv_cases. Qed.

Lemma STT_transcribe_run_keeps evs : forall c,
  Invariants.STT_transcribe c ->
  Invariants.STT_transcribe (STT.transcribe_run c evs).
Proof.
  induction evs as [|ev evs IH]; intros c H; [exact H|].
  cbn [STT.transcribe_run fold_left].
  fold (STT.transcribe_run (STT.transcribe_step c ev) evs).
  now apply IH, STT_transcribe_step_keeps.
Qed.

Lemma STT_reachable params audio evs :
  Invariants.STT_transcribe (STT.transcribe_run (STT.transcribe params audio) evs).
Proof. apply STT_transcribe_run_keeps, STT_transcribe_start. Qed.

End Engine.

End CallFacts.

(* ===================================================================== *)
(** * The error event on a socket made by [stream] *)
(* ===================================================================== *)

Module FactoryErrors.
Import JS Errors Types Platform PromiseFacts.

Lemma TTS_error_before_open c :
  Invariants.TTS_create c ->
  TTS.stage c = TTS.AwaitStream ->
  TTS.stage (TTS.create_step c OnError)
  = TTS.Settled (Throw (ConnectionError "Failed to connect to TTS WebSocket")).
Proof.
  intros (H1 & _) Hs. specialize (H1 Hs).
  unfold TTS.create_step, TTS.continue. cbn [TTS.stage]. rewrite Hs.
  unfold TTS.continue_stream. cbn. now rewrite H1.
Qed.

Lemma TTS_error_after_open c :
  Invariants.TTS_create c ->
  TTS.stage c <> TTS.AwaitStream ->
  TTS.create_step c OnError = c.
Proof.
  intros (_ & H2 & H3 & H4 & _) Hs. specialize (H2 Hs).
  destruct c as [[p s r] t st]. cbn in H2, H3, H4, Hs.
  unfold TTS.create_step, TTS.continue.
  cbn [TTS.dispatch TTS.onerror TTS.call TTS.text TTS.stage TTS.params
       TTS.session TTS.result].
  unfold TTS.onerror. cbn [TTS.params TTS.session TTS.result].
  rewrite reject_settled by exact H2.
  destruct st as [ | | | o]; [congruence| | |reflexivity].
  - unfold TTS.continue_ready, TTSStream.waitReady. cbn.
    now rewrite H3.
  - unfold TTS.continue_collect. cbn. now rewrite H4.
Qed.

Section Engine.
Context {engine : Engine}.

Lemma STT_error_before_open c :
  Invariants.STT_transcribe c ->
  STT.stage c = STT.AwaitStream ->
  STT.stage (STT.transcribe_step c OnError)
  = STT.Settled (Throw (ConnectionError "Failed to connect to STT WebSocket")).
Proof.
  intros (H1 & _) Hs. specialize (H1 Hs).
  unfold STT.transcribe_step, STT.continue. cbn [STT.stage]. rewrite Hs.
  unfold STT.continue_stream. cbn. now rewrite H1.
Qed.

Lemma STT_error_after_open c :
  Invariants.STT_transcribe c ->
  STT.stage c <> STT.AwaitStream ->
  STT.transcribe_step c OnError = c.
Proof.
  intros (_ & H2 & H3 & H4 & _) Hs. specialize (H2 Hs).
  destruct c as [[p s r] a st]. cbn in H2, H3, H4, Hs.
  unfold STT.transcribe_step, STT.continue.
  cbn [STT.dispatch STT.onerror STT.call STT.audio STT.stage STT.params
       STT.session STT.result].
  unfold STT.onerror. cbn [STT.params STT.session STT.result].
  rewrite reject_settled by exact H2.
  destruct st as [ | | | o]; [congruence| | |reflexivity].
  - unfold STT.continue_ready, STTStream.waitReady. cbn.
    now rewrite H3.
  - unfold STT.continue_collect. cbn. now rewrite H4.
Qed.

End Engine.

(** [stream()] assigns [ws.onerror] after [new TTSStream(ws)] /
    [new STTStream(ws)] did, so on a socket it made an error event runs
    the factory's handler only. Before the socket has opened the event
    rejects [stream()], and [create] / [transcribe] with it, with a
    [ConnectionError]; once the socket has opened the event changes
    nothing at all: no promise of the stream is rejected and the call
    stays where it is. *)
Theorem error_event_rejects_only_before_open :
  forall (engine : Engine) (params : TTSSetupParams) (text : string)
         (evs : list (WsEvent TTSServerMessage))
         (params' : STTSetupParams) (audio : list byte)
         (evs' : list (WsEvent STTServerMessage)),
    let c := TTS.create_run (TTS.create params text) evs in
    let t := STT.transcribe_run (STT.transcribe params' audio) evs' in
    (TTS.stage c = TTS.AwaitStream ->
     TTS.stage (TTS.create_step c OnError)
     = TTS.Settled
         (Throw (ConnectionError "Failed to connect to TTS WebSocket"))) /\
    (TTS.stage c <> TTS.AwaitStream -> TTS.create_step c OnError = c) /\
    (STT.stage t = STT.AwaitStream ->
     STT.stage (STT.transcribe_step t OnError)
     = STT.Settled
         (Throw (ConnectionError "Failed to connect to STT WebSocket"))) /\
    (STT.stage t <> STT.AwaitStream -> STT.transcribe_step t OnError = t).
Proof.
  intros engine params text evs params' audio evs' c t.
  pose proof (CallFacts.TTS_reachable params text evs) as Hc.
  pose proof (CallFacts.STT_reachable params' audio evs') as Ht.
  fold c in Hc. fold t in Ht.
  split; [now apply TTS_error_before_open|].
  split; [now apply TTS_error_after_open|].
  split; [now apply STT_error_before_open|now apply STT_error_after_open].
Qed.

Lemma error_event_rejects_only_before_open_witness :
  let params := {| tts_voice_id := "test-voice"; tts_output_format := pcm;
                   tts_model_name := None; tts_json_config := None |} in
  let params' := {| stt_input_format := stt_pcm; stt_model_name := None |} in
  let engine := Engine_65536 in
  TTS.stage (TTS.create_run (TTS.create params "Hello") [OnError])
  = TTS.Settled (Throw (ConnectionError "Failed to connect to TTS WebSocket")) /\
  TTS.create_run (TTS.create params "Hello") [OnOpen; OnError]
  = TTS.create_run (TTS.create params "Hello") [OnOpen] /\
  STT.stage (STT.transcribe_run (STT.transcribe params' []) [OnError])
  = STT.Settled (Throw (ConnectionError "Failed to connect to STT WebSocket")) /\
  STT.transcribe_run (STT.transcribe params' []) [OnOpen; OnError]
  = STT.transcribe_run (STT.transcribe params' []) [OnOpen].
Proof.
  intros params params' engine.
  destruct (error_event_rejects_only_before_open engine params "Hello" []
              params' [] []) as (H1 & _ & H3 & _).
  destruct (error_event_rejects_only_before_open engine params "Hello" [OnOpen]
              params' [] [OnOpen]) as (_ & H2 & _ & H4).
  split; [apply H1; reflexivity|].
  split; [apply H2; discriminate|].
  split; [apply H3; reflexivity|apply H4; discriminate].
Defined.

End FactoryErrors.

(* ===================================================================== *)
(** * The frames [create] writes *)
(* ===================================================================== *)

Module CreateFrames.
Import JS Errors Types Platform PromiseFacts.

Lemma TTS_dispatch_sent c ev :
  ev <> OnOpen ->
  sentMessages (TTSStream.ws (TTS.session (TTS.dispatch c ev)))
  = sentMessages (TTSStream.ws (TTS.session c)).
Proof.
  intros Hev.
  destruct ev as [ | [ e | [ rid | audio | message code | ] | | ] | | wasClean code reason ];
    try congruence; cbn; try reflexivity.
  - now destruct (Base64.atob audio).
  - unfold TTSStream.onclose.
    now destruct (negb wasClean && negb (code =? 1000)%Z).
Qed.

Lemma TTS_dispatch_params c ev : TTS.params (TTS.dispatch c ev) = TTS.params c.
Proof. now destruct ev. Qed.

Lemma TTS_dispatch_ready_settled c ev :
  settled (TTSStream.readyPromise (TTS.session c)) = true ->
  TTSStream.readyPromise (TTS.session (TTS.dispatch c ev))
  = TTSStream.readyPromise (TTS.session c).
Proof.
  intros H. destruct ev as [ | data | | wasClean code reason ];
    try reflexivity.
  - apply (@TTSStreamFacts.TTS_readyPromise_dispatch_settled
             (TTS.session c) (OnMessage data) H).
  - apply (@TTSStreamFacts.TTS_readyPromise_dispatch_settled
             (TTS.session c) (OnClose wasClean code reason) H).
Qed.

(** Before the socket opens nothing is written. *)
Lemma TTS_not_opened evs : forall c,
  Forall (fun ev => ev <> OnOpen) evs ->
  TTS.result (TTS.call c) <> Fulfilled tt ->
  (TTS.stage c = TTS.AwaitStream \/ exists o, TTS.stage c = TTS.Settled o) ->
  sentMessages (TTSStream.ws (TTS.session (TTS.call (TTS.create_run c evs))))
  = sentMessages (TTSStream.ws (TTS.session (TTS.call c))).
Proof.
  induction evs as [|ev evs IH]; intros c Hevs Hres Hstage; [reflexivity|].
  inversion Hevs as [|? ? Hev Hrest]; subst.
  cbn [TTS.create_run fold_left].
  fold (TTS.create_run (TTS.create_step c ev) evs).
  assert (Hres' : TTS.result (TTS.dispatch (TTS.call c) ev) <> Fulfilled tt).
  { destruct ev as [ | data | | wasClean code reason ]; try congruence;
      try exact Hres. cbn.
    destruct (TTS.result (TTS.call c)) as [|[]|]; cbn; congruence. }
  assert (Hstep :
            TTS.call (TTS.create_step c ev) = TTS.dispatch (TTS.call c) ev /\
            (TTS.stage (TTS.create_step c ev) = TTS.AwaitStream \/
             exists o, TTS.stage (TTS.create_step c ev) = TTS.Settled o)).
  { unfold TTS.create_step, TTS.continue. cbn [TTS.stage].
    destruct Hstage as [Hs|[o Hs]]; rewrite Hs.
    - unfold TTS.continue_stream. cbn [TTS.call].
      destruct (TTS.result (TTS.dispatch (TTS.call c) ev)) as [|[]|e];
        cbn; [eauto|congruence|eauto].
    - cbn. eauto. }
  destruct Hstep as [Hcall Hstage'].
  rewrite IH; try assumption.
  - rewrite Hcall. now apply TTS_dispatch_sent.
  - now rewrite Hcall.
Qed.

Lemma TTS_opened_first params text :
  Invariants.TTS_create_opened params text
    (TTS.create_step (TTS.create params text) OnOpen).
Proof. unfold Invariants.TTS_create_opened. cbn. repeat split; congruence. Qed.

Lemma TTS_opened_step params text c ev :
  ev <> OnOpen ->
  Invariants.TTS_create c ->
  Invariants.TTS_create_opened params text c ->
  Invariants.TTS_create_opened params text (TTS.create_step c ev).
Proof.
  intros Hev (_ & _ & I3 & _ & I5) (Hp & Ht & Hres & Hstage & Hpending & Hsent).
  set (d := TTS.dispatch (TTS.call c) ev).
  assert (Dp : TTS.params d = params)
    by (unfold d; now rewrite TTS_dispatch_params).
  assert (Dres : TTS.result d = Fulfilled tt).
  { unfold d. rewrite CallFacts.TTS_dispatch_result_settled; [exact Hres|].
    now rewrite Hres. }
  assert (Dsent : sentMessages (TTSStream.ws (TTS.session d))
                  = sentMessages (TTSStream.ws (TTS.session (TTS.call c))))
    by (unfold d; now apply TTS_dispatch_sent).
  assert (Dflag : TTSStream.readyPromise (TTS.session d) = Fulfilled tt ->
                  TTSStream.isReady (TTS.session d) = true)
    by (unfold d; now apply CallFacts.TTS_ready_flag_call).
  assert (Dsettled : settled (TTSStream.readyPromise (TTS.session (TTS.call c))) = true ->
                     TTSStream.readyPromise (TTS.session d)
                     = TTSStream.readyPromise (TTS.session (TTS.call c)))
    by (unfold d; apply TTS_dispatch_ready_settled).
  assert (Hcollect : forall call',
             TTS.params call' = params ->
             TTS.result call' = Fulfilled tt ->
             TTSStream.readyPromise (TTS.session call') <> Pending ->
             sentMessages (TTSStream.ws (TTS.session call'))
             = Invariants.TTS_create_frames params text
                 (TTSStream.readyPromise (TTS.session call')) ->
             Invariants.TTS_create_opened params text
               (TTS.continue_collect
                  {| TTS.call := call'; TTS.text := text;
                     TTS.stage := TTS.AwaitEnd |})).
  { intros call' Cp Cres Cready Csent.
    unfold Invariants.TTS_create_opened.
    rewrite CallFacts.TTS_continue_collect_call,
      CallFacts.TTS_continue_collect_text.
    pose proof (CallFacts.TTS_continue_collect_stage
                  {| TTS.call := call'; TTS.text := text;
                     TTS.stage := TTS.AwaitEnd |}) as Hst.
    cbn [TTS.call TTS.text] in *.
    repeat split; try assumption.
    - destruct (TTSStream.endPromise (TTS.session call')); rewrite Hst;
        discriminate.
    - intros Hpend. now contradiction Cready. }
  unfold TTS.create_step, TTS.continue. cbn [TTS.stage]. fold d.
  destruct (TTS.stage c) eqn:Est; [congruence| | |].
  - (* suspended at waitReady() *)
    specialize (I3 eq_refl).
    destruct (TTSStream.readyPromise (TTS.session d)) as [|[]|e] eqn:Er.
    + unfold TTS.continue_ready, TTSStream.waitReady. cbn [TTS.call].
      rewrite Er. unfold Invariants.TTS_create_opened. cbn.
      repeat split; try assumption; try discriminate.
      rewrite Er, Dsent, Hsent, I3. reflexivity.
    + rewrite CallFacts.TTS_continue_ready_fulfilled
        by (cbn [TTS.call]; auto).
      cbn [TTS.call TTS.text]. rewrite Ht.
      apply Hcollect;
        unfold TTS.on_session, TTSStream.sendEndOfStream, TTSStream.set_ws, send;
        cbn [TTS.params TTS.session TTS.result TTSStream.ws
             TTSStream.readyPromise sentMessages].
      * exact Dp.
      * exact Dres.
      * rewrite Er. discriminate.
      * rewrite Er, Dsent, Hsent, I3.
        unfold Invariants.TTS_create_frames.
        now rewrite <- app_assoc.
    + unfold TTS.continue_ready, TTSStream.waitReady. cbn [TTS.call].
      rewrite Er. unfold Invariants.TTS_create_opened. cbn.
      repeat split; try assumption; try discriminate.
      * rewrite Er. discriminate.
      * rewrite Er, Dsent, Hsent, I3. reflexivity.
  - (* suspended at the end promise *)
    assert (Hset : settled (TTSStream.readyPromise (TTS.session (TTS.call c))) = true).
    { destruct (TTSStream.readyPromise (TTS.session (TTS.call c))) eqn:E;
        [|reflexivity|reflexivity].
      specialize (Hpending eq_refl). congruence. }
    replace {| TTS.call := d; TTS.text := TTS.text c; TTS.stage := TTS.AwaitEnd |}
      with {| TTS.call := d; TTS.text := text; TTS.stage := TTS.AwaitEnd |}
      by now rewrite Ht.
    apply Hcollect; try assumption.
    * rewrite Dsettled by exact Hset.
      destruct (TTSStream.readyPromise (TTS.session (TTS.call c)));
        [discriminate Hset|discriminate|discriminate].
    * now rewrite Dsettled, Dsent by exact Hset.
  - (* settled *)
    assert (Hset : settled (TTSStream.readyPromise (TTS.session (TTS.call c))) = true).
    { destruct (TTSStream.readyPromise (TTS.session (TTS.call c))) eqn:E;
        [|reflexivity|reflexivity].
      specialize (Hpending eq_refl). congruence. }
    unfold Invariants.TTS_create_opened. cbn.
    repeat split; try assumption; try discriminate.
    * rewrite Dsettled by exact Hset. intros E. rewrite E in Hset.
      discriminate.
    * now rewrite Dsettled, Dsent by exact Hset.
Qed.

Lemma TTS_opened_run params text rest : forall c,
  Forall (fun ev => ev <> OnOpen) rest ->
  Invariants.TTS_create c ->
  Invariants.TTS_create_opened params text c ->
  Invariants.TTS_create_opened params text (TTS.create_run c rest).
Proof.
  induction rest as [|ev rest IH]; intros c Hrest Hinv Hopened; [exact Hopened|].
  inversion Hrest as [|? ? Hev Hrest']; subst.
  cbn [TTS.create_run fold_left].
  fold (TTS.create_run (TTS.create_step c ev) rest).
  apply IH; [exact Hrest'| |].
  - now apply CallFacts.TTS_create_step_keeps.
  - now apply TTS_opened_step.
Qed.

(** The frames [create] writes, whatever the events on the socket
    (which opens once). Nothing is written before the socket opens.
    When it opens the setup frame is written; the text frame and the
    end-of-stream frame follow it, in that order, once [waitReady()]
    has resolved, and only then: while [waitReady()] is pending and
    when it has rejected, the setup frame is all that was written.
    Nothing else is ever written. *)
Theorem create_writes_setup_then_text_then_end :
  forall (params : TTSSetupParams) (text : string)
         (before rest : list (WsEvent TTSServerMessage)),
    Forall (fun ev => ev <> OnOpen) before ->
    Forall (fun ev => ev <> OnOpen) rest ->
    sentMessages
      (TTSStream.ws
         (TTS.session (TTS.call (TTS.create_run (TTS.create params text) before))))
    = [] /\
    let c := TTS.create_run (TTS.create params text) (OnOpen :: rest) in
    sentMessages (TTSStream.ws (TTS.session (TTS.call c)))
    = JSON_stringify
        (TTSClientMessage_object (TTSSetup (TTS.setupMessage params)))
      :: match TTSStream.waitReady (TTS.session (TTS.call c)) with
         | Fulfilled _ =>
             [JSON_stringify (TTSClientMessage_object (TTSText text));
              JSON_stringify (TTSClientMessage_object TTSEndOfStream)]
         | _ => []
         end.
Proof.
  intros params text before rest Hbefore Hrest. split.
  - rewrite TTS_not_opened; [reflexivity|exact Hbefore|discriminate|].
    now left.
  - intros c.
    assert (H : Invariants.TTS_create_opened params text c).
    { unfold c. cbn [TTS.create_run fold_left].
      fold (TTS.create_run (TTS.create_step (TTS.create params text) OnOpen) rest).
      apply TTS_opened_run; [exact Hrest| |apply TTS_opened_first].
      apply CallFacts.TTS_create_step_keeps, CallFacts.TTS_create_start. }
    destruct H as (_ & _ & _ & _ & _ & Hsent). exact Hsent.
Qed.

Lemma create_writes_setup_then_text_then_end_witness :
  let params := {| tts_voice_id := "test-voice"; tts_output_format := pcm;
                   tts_model_name := None; tts_json_config := None |} in
  let frames evs :=
    sentMessages
      (TTSStream.ws
         (TTS.session (TTS.call (TTS.create_run (TTS.create params "Hello") evs)))) in
  let setup := JSON_stringify
                 (TTSClientMessage_object (TTSSetup (TTS.setupMessage params))) in
  frames [OnOpen; OnMessage (Parsed (TTSError "Voice not found" (number_of_Z 404)));
          OnMessage (Parsed (TTSReady "req-123"))]
  = [setup] /\
  frames [OnOpen; OnMessage (Parsed (TTSReady "req-123"));
          OnMessage (Parsed TTSServerEndOfStream)]
  = [setup;
     JSON_stringify (TTSClientMessage_object (TTSText "Hello"));
     JSON_stringify (TTSClientMessage_object TTSEndOfStream)].
Proof.
  intros params frames setup.
  assert (Hno : forall evs : list (WsEvent TTSServerMessage),
             forallb (fun ev => match ev with OnOpen => false | _ => true end) evs
             = true ->
             Forall (fun ev => ev <> OnOpen) evs).
  { intros evs H. apply Forall_forall. intros ev Hin.
    rewrite forallb_forall in H. specialize (H ev Hin).
    destruct ev; congruence. }
  pose proof (Hno [] eq_refl) as Hnil.
  pose proof (Hno [OnMessage (Parsed (TTSError "Voice not found" (number_of_Z 404)));
                   OnMessage (Parsed (TTSReady "req-123"))] eq_refl) as Hfail.
  pose proof (Hno [OnMessage (Parsed (TTSReady "req-123"));
                   OnMessage (Parsed TTSServerEndOfStream)] eq_refl) as Hok.
  destruct (create_writes_setup_then_text_then_end params "Hello" Hnil Hfail)
    as [_ H1].
  destruct (create_writes_setup_then_text_then_end params "Hello" Hnil Hok)
    as [_ H2].
  cbn zeta in H1, H2.
  assert (E1 : TTSStream.waitReady
                 (TTS.session
                    (TTS.call
                       (TTS.create_run (TTS.create params "Hello")
                          [OnOpen;
                           OnMessage (Parsed (TTSError "Voice not found"
                                                (number_of_Z 404)));
                           OnMessage (Parsed (TTSReady "req-123"))])))
               = Rejected (WebSocketError "Voice not found"
                             (Some (number_of_Z 404))))
    by (vm_compute; reflexivity).
  assert (E2 : TTSStream.waitReady
                 (TTS.session
                    (TTS.call
                       (TTS.create_run (TTS.create params "Hello")
                          [OnOpen;
                           OnMessage (Parsed (TTSReady "req-123"));
                           OnMessage (Parsed TTSServerEndOfStream)])))
               = Fulfilled tt)
    by (vm_compute; reflexivity).
  rewrite E1 in H1. rewrite E2 in H2.
  split; [exact H1|exact H2].
Defined.

End CreateFrames.

(* ===================================================================== *)
(** * The frames [transcribe] writes *)
(* ===================================================================== *)

Module TranscribeFrames.
Import JS Errors Types Platform PromiseFacts.

Lemma STT_dispatch_params c ev : STT.params (STT.dispatch c ev) = STT.params c.
Proof. now destruct ev. Qed.

Lemma STT_dispatch_ready_settled c ev :
  settled (STTStream.readyPromise (STT.session c)) = true ->
  STTStream.readyPromise (STT.session (STT.dispatch c ev))
  = STTStream.readyPromise (STT.session c).
Proof.
  intros H. destruct ev as [ | data | | wasClean code reason ];
    try reflexivity.
  - apply (@STTStreamFacts.STT_readyPromise_dispatch_settled
             (STT.session c) (OnMessage data) H).
  - apply (@STTStreamFacts.STT_readyPromise_dispatch_settled
             (STT.session c) (OnClose wasClean code reason) H).
Qed.

Section Engine.
Context {engine : Engine}.

(** Before the socket opens nothing is written. *)
Lemma STT_not_opened evs : forall c,
  Forall (fun ev => ev <> OnOpen) evs ->
  STT.result (STT.call c) <> Fulfilled tt ->
  (STT.stage c = STT.AwaitStream \/ exists o, STT.stage c = STT.Settled o) ->
  sentMessages (STTStream.ws (STT.session (STT.call (STT.transcribe_run c evs))))
  = sentMessages (STTStream.ws (STT.session (STT.call c))).
Proof.
  induction evs as [|ev evs IH]; intros c Hevs Hres Hstage; [reflexivity|].
  inversion Hevs as [|? ? Hev Hrest]; subst.
  cbn [STT.transcribe_run fold_left].
  fold (STT.transcribe_run (STT.transcribe_step c ev) evs).
  assert (Hres' : STT.result (STT.dispatch (STT.call c) ev) <> Fulfilled tt).
  { destruct ev as [ | data | | wasClean code reason ]; try congruence;
      try exact Hres. cbn.
    destruct (STT.result (STT.call c)) as [|[]|]; cbn; congruence. }
  assert (Hstep :
            STT.call (STT.transcribe_step c ev) = STT.dispatch (STT.call c) ev /\
            (STT.stage (STT.transcribe_step c ev) = STT.AwaitStream \/
             exists o, STT.stage (STT.transcribe_step c ev) = STT.Settled o)).
  { unfold STT.transcribe_step, STT.continue. cbn [STT.stage].
    destruct Hstage as [Hs|[o Hs]]; rewrite Hs.
    - unfold STT.continue_stream. cbn [STT.call].
      destruct (STT.result (STT.dispatch (STT.call c) ev)) as [|[]|e];
        cbn; [eauto|congruence|eauto].
    - cbn. eauto. }
  destruct Hstep as [Hcall Hstage'].
  rewrite IH; try assumption.
  - rewrite Hcall. now apply Transcribing.dispatch_writes_nothing.
  - now rewrite Hcall.
Qed.

Lemma STT_opened_first params audio :
  Invariants.STT_transcribe_opened params audio
    (STT.transcribe_step (STT.transcribe params audio) OnOpen).
Proof.
  unfold Invariants.STT_transcribe_opened. cbn. repeat split; congruence.
Qed.

Lemma STT_opened_step params audio c ev :
  ev <> OnOpen ->
  Invariants.STT_transcribe c ->
  Invariants.STT_transcribe_opened params audio c ->
  Invariants.STT_transcribe_opened params audio (STT.transcribe_step c ev).
Proof.
  intros Hev (_ & _ & I3 & _ & I5) (Hp & Ha & Hres & Hstage & Hpending & Hsent).
  set (d := STT.dispatch (STT.call c) ev).
  assert (Dp : STT.params d = params)
    by (unfold d; now rewrite STT_dispatch_params).
  assert (Dres : STT.result d = Fulfilled tt).
  { unfold d. rewrite CallFacts.STT_dispatch_result_settled; [exact Hres|].
    now rewrite Hres. }
  assert (Dsent : sentMessages (STTStream.ws (STT.session d))
                  = sentMessages (STTStream.ws (STT.session (STT.call c))))
    by (unfold d; now apply Transcribing.dispatch_writes_nothing).
  assert (Dflag : forall m,
             STTStream.readyPromise (STT.session d) = Fulfilled m ->
             STTStream.isReady (STT.session d) = true)
    by (unfold d; now apply CallFacts.STT_ready_flag_call).
  assert (Dsettled : settled (STTStream.readyPromise (STT.session (STT.call c))) = true ->
                     STTStream.readyPromise (STT.session d)
                     = STTStream.readyPromise (STT.session (STT.call c)))
    by (unfold d; apply STT_dispatch_ready_settled).
  assert (Hcollect : forall call',
             STT.params call' = params ->
             STT.result call' = Fulfilled tt ->
             STTStream.readyPromise (STT.session call') <> Pending ->
             match STTStream.readyPromise (STT.session call') with
             | Fulfilled _ =>
                 Invariants.STT_transcribe_frames params audio
                   (sentMessages (STTStream.ws (STT.session call')))
             | _ =>
                 sentMessages (STTStream.ws (STT.session call'))
                 = [JSON_stringify
                      (STTClientMessage_object
                         (STTSetup (STT.setupMessage params)))]
             end ->
             Invariants.STT_transcribe_opened params audio
               (STT.continue_collect
                  {| STT.call := call'; STT.audio := audio;
                     STT.stage := STT.AwaitEnd |})).
  { intros call' Cp Cres Cready Csent.
    unfold Invariants.STT_transcribe_opened.
    rewrite Transcribing.continue_collect_call.
    pose proof (CallFacts.STT_continue_collect_stage
                  {| STT.call := call'; STT.audio := audio;
                     STT.stage := STT.AwaitEnd |}) as Hst.
    cbn [STT.call STT.audio] in *.
    repeat split; try assumption.
    - unfold STT.continue_collect. cbn [STT.call].
      now destruct (STTStream.endPromise (STT.session call')).
    - destruct (STTStream.endPromise (STT.session call')); rewrite Hst;
        discriminate.
    - intros Hpend. now contradiction Cready. }
  unfold STT.transcribe_step, STT.continue. cbn [STT.stage]. fold d.
  destruct (STT.stage c) eqn:Est; [congruence| | |].
  - (* suspended at waitReady() *)
    specialize (I3 eq_refl). rewrite I3 in Hsent.
    destruct (STTStream.readyPromise (STT.session d)) as [|m|e] eqn:Er.
    + unfold STT.continue_ready, STTStream.waitReady. cbn [STT.call].
      rewrite Er. unfold Invariants.STT_transcribe_opened. cbn.
      repeat split; try assumption; try discriminate.
      rewrite Er, Dsent. exact Hsent.
    + pose (d' := {| STT.call := d; STT.audio := STT.audio c;
                     STT.stage := STT.AwaitReady |}).
      assert (Hready : STTStream.isReady (STT.session (STT.call d')) = true)
        by (cbn; eauto).
      destruct (@Transcribing.send_chunks_frames engine (STT.audio d')
                  (length (STT.audio d')) 0 (STT.session (STT.call d'))
                  ltac:(lia) Hready)
        as (chunks & frames & s' & Hrun & Hr' & Hrp & Hep & Hs' & Hpay
            & Hnot & Hlen & Hcat & Hcount).
      unfold STT.continue_ready, STTStream.waitReady.
      subst d'. cbn [STT.call STT.audio STT.session] in *.
      rewrite Er, Hrun, Ha.
      apply Hcollect;
        unfold STT.on_session, STTStream.sendEndOfStream, STTStream.set_ws, send;
        cbn [STT.params STT.session STT.result STTStream.ws
             STTStream.readyPromise sentMessages].
      * exact Dp.
      * exact Dres.
      * rewrite Hrp, Er. discriminate.
      * rewrite Hrp, Er, Hs', Dsent, Hsent.
        exists chunks, frames. rewrite Ha in *.
        split; [now rewrite <- app_assoc|].
        split; [exact Hpay|]. split; [exact Hnot|].
        split; [exact Hlen|]. split; [exact Hcat|].
        unfold STT.chunkSize in Hcount. lia.
    + unfold STT.continue_ready, STTStream.waitReady. cbn [STT.call].
      rewrite Er. unfold Invariants.STT_transcribe_opened. cbn.
      repeat split; try assumption; try discriminate.
      * rewrite Er. discriminate.
      * rewrite Er, Dsent. exact Hsent.
  - (* suspended at the end promise *)
    assert (Hset : settled (STTStream.readyPromise (STT.session (STT.call c))) = true).
    { destruct (STTStream.readyPromise (STT.session (STT.call c))) eqn:E;
        [|reflexivity|reflexivity].
      specialize (Hpending eq_refl). congruence. }
    replace {| STT.call := d; STT.audio := STT.audio c; STT.stage := STT.AwaitEnd |}
      with {| STT.call := d; STT.audio := audio; STT.stage := STT.AwaitEnd |}
      by now rewrite Ha.
    apply Hcollect; try assumption.
    * rewrite Dsettled by exact Hset.
      destruct (STTStream.readyPromise (STT.session (STT.call c)));
        [discriminate Hset|discriminate|discriminate].
    * now rewrite Dsettled, Dsent by exact Hset.
  - (* settled *)
    assert (Hset : settled (STTStream.readyPromise (STT.session (STT.call c))) = true).
    { destruct (STTStream.readyPromise (STT.session (STT.call c))) eqn:E;
        [|reflexivity|reflexivity].
      specialize (Hpending eq_refl). congruence. }
    unfold Invariants.STT_transcribe_opened. cbn.
    repeat split; try assumption; try discriminate.
    * rewrite Dsettled by exact Hset. intros E. rewrite E in Hset.
      discriminate.
    * now rewrite Dsettled, Dsent by exact Hset.
Qed.

Lemma STT_opened_run params audio rest : forall c,
  Forall (fun ev => ev <> OnOpen) rest ->
  Invariants.STT_transcribe c ->
  Invariants.STT_transcribe_opened params audio c ->
  Invariants.STT_transcribe_opened params audio (STT.transcribe_run c rest).
Proof.
  induction rest as [|ev rest IH]; intros c Hrest Hinv Hopened; [exact Hopened|].
  inversion Hrest as [|? ? Hev Hrest']; subst.
  cbn [STT.transcribe_run fold_left].
  fold (STT.transcribe_run (STT.transcribe_step c ev) rest).
  apply IH; [exact Hrest'| |].
  - now apply CallFacts.STT_transcribe_step_keeps.
  - now apply STT_opened_step.
Qed.

End Engine.

(** The frames [transcribe] writes, whatever the events on the socket
    (which opens once). Nothing is written before the socket opens.
    When it opens the setup frame is written, and while [waitReady()]
    is pending and when it has rejected that frame is all that was
    written: no audio leaves before the ready envelope. Once
    [waitReady()] has resolved the frames are, for good, the setup
    frame, one audio frame per chunk of at most 3840 bytes, the chunks
    being the audio cut in order, and one end-of-stream frame. *)
Theorem transcribe_writes_no_audio_before_ready :
  forall (engine : Engine) (params : STTSetupParams) (audio : list byte)
         (before rest : list (WsEvent STTServerMessage)),
    Forall (fun ev => ev <> OnOpen) before ->
    Forall (fun ev => ev <> OnOpen) rest ->
    sentMessages
      (STTStream.ws
         (STT.session
            (STT.call (STT.transcribe_run (STT.transcribe params audio) before))))
    = [] /\
    let c := STT.transcribe_run (STT.transcribe params audio) (OnOpen :: rest) in
    let setup :=
      JSON_stringify
        (STTClientMessage_object (STTSetup (STT.setupMessage params))) in
    match STTStream.waitReady (STT.session (STT.call c)) with
    | Fulfilled _ =>
        exists (chunks : list (list byte)) (frames : list string),
          sentMessages (STTStream.ws (STT.session (STT.call c)))
          = setup :: frames
            ++ [JSON_stringify (STTClientMessage_object STTEndOfStream)] /\
          Forall2 (fun frame chunk => Wire.audio_payload frame = Some chunk)
            frames chunks /\
          Forall (fun frame => Wire.is_end_of_stream frame = false) frames /\
          Forall (fun chunk => 0 < length chunk <= 3840) chunks /\
          concat chunks = audio /\
          length audio <= length chunks * 3840 < length audio + 3840
    | _ => sentMessages (STTStream.ws (STT.session (STT.call c))) = [setup]
    end.
Proof.
  intros engine params audio before rest Hbefore Hrest. split.
  - rewrite STT_not_opened; [reflexivity|exact Hbefore|discriminate|].
    now left.
  - intros c setup.
    assert (H : Invariants.STT_transcribe_opened params audio c).
    { unfold c. cbn [STT.transcribe_run fold_left].
      fold (STT.transcribe_run
              (STT.transcribe_step (STT.transcribe params audio) OnOpen) rest).
      apply STT_opened_run; [exact Hrest| |apply STT_opened_first].
      apply CallFacts.STT_transcribe_step_keeps,
        CallFacts.STT_transcribe_start. }
    destruct H as (_ & _ & _ & _ & _ & Hsent). exact Hsent.
Qed.

Lemma ready_after_open {engine : Engine} params audio m :
  STTStream.waitReady
    (STT.session
       (STT.call
          (STT.transcribe_run (STT.transcribe params audio)
             [OnOpen; OnMessage (Parsed (STTReady m))])))
  = Fulfilled m.
Proof.
  cbn [STT.transcribe_run fold_left].
  set (c := STT.transcribe_step (STT.transcribe params audio) OnOpen).
  assert (Hstage : STT.stage c = STT.AwaitReady) by reflexivity.
  unfold STT.transcribe_step at 1, STT.continue. cbn [STT.stage].
  rewrite Hstage.
  set (d := {| STT.call := STT.dispatch (STT.call c) (OnMessage (Parsed (STTReady m)));
               STT.audio := STT.audio c; STT.stage := STT.AwaitReady |}).
  assert (Hp : STTStream.readyPromise (STT.session (STT.call d)) = Fulfilled m)
    by reflexivity.
  assert (Hr : STTStream.isReady (STT.session (STT.call d)) = true)
    by reflexivity.
  destruct (CallFacts.STT_continue_ready_fulfilled d Hp Hr)
    as (s' & _ & _ & Hrp & _ & ->).
  rewrite Transcribing.continue_collect_call. exact Hrp.
Qed.

Lemma transcribe_writes_no_audio_before_ready_witness :
  let params := {| stt_input_format := stt_pcm; stt_model_name := None |} in
  let m := {| ready_request_id := "req-123";
              ready_model_name := "default";
              ready_sample_rate := number_of_Z 24000;
              ready_frame_size := number_of_Z 1920;
              ready_delay_in_tokens := number_of_Z 0;
              ready_text_stream_names := [] |} in
  let audio := repeat x00%byte 4000 in
  let engine := Engine_65536 in
  let frames evs :=
    sentMessages
      (STTStream.ws
         (STT.session
            (STT.call (STT.transcribe_run (STT.transcribe params audio) evs)))) in
  let setup := JSON_stringify
                 (STTClientMessage_object (STTSetup (STT.setupMessage params))) in
  frames [OnOpen;
          OnMessage (Parsed (STTError "Invalid audio format" (number_of_Z 400)));
          OnMessage (Parsed (STTReady m))]
  = [setup] /\
  exists chunks audio_frames,
    frames [OnOpen; OnMessage (Parsed (STTReady m))]
    = setup :: audio_frames
      ++ [JSON_stringify (STTClientMessage_object STTEndOfStream)] /\
    concat chunks = audio /\
    length audio_frames = length chunks /\
    length chunks = 2.
Proof.
  intros params m audio engine frames setup.
  assert (Hno : forall evs : list (WsEvent STTServerMessage),
             forallb (fun ev => match ev with OnOpen => false | _ => true end) evs
             = true ->
             Forall (fun ev => ev <> OnOpen) evs).
  { intros evs H. apply Forall_forall. intros ev Hin.
    rewrite forallb_forall in H. specialize (H ev Hin).
    destruct ev; congruence. }
  pose proof (Hno [] eq_refl) as Hnil.
  pose proof (Hno [OnMessage (Parsed (STTError "Invalid audio format"
                                        (number_of_Z 400)));
                   OnMessage (Parsed (STTReady m))] eq_refl) as Hfail.
  pose proof (Hno [OnMessage (Parsed (STTReady m))] eq_refl) as Hok.
  destruct (transcribe_writes_no_audio_before_ready engine params audio
              Hnil Hfail) as [_ H1].
  destruct (transcribe_writes_no_audio_before_ready engine params audio
              Hnil Hok) as [_ H2].
  cbn zeta in H1, H2.
  assert (E1 : STTStream.waitReady
                 (STT.session
                    (STT.call
                       (STT.transcribe_run (STT.transcribe params audio)
                          [OnOpen;
                           OnMessage (Parsed (STTError "Invalid audio format"
                                                (number_of_Z 400)));
                           OnMessage (Parsed (STTReady m))])))
               = Rejected (WebSocketError "Invalid audio format"
                             (Some (number_of_Z 400))))
    by reflexivity.
  rewrite E1 in H1.
  rewrite (ready_after_open params audio m) in H2.
  split; [exact H1|].
  destruct H2 as (chunks & audio_frames & Hsent & Hpay & _ & _ & Hcat & Hcount).
  exists chunks, audio_frames.
  split; [exact Hsent|]. split; [exact Hcat|].
  split; [now apply Forall2_length in Hpay|].
  assert (Hlen : length audio = 4000) by apply repeat_length.
  rewrite Hlen in Hcount. lia.
Defined.

End TranscribeFrames.

(* ===================================================================== *)
(** * [create] and [transcribe] from the opening of the socket to the result *)
(* ===================================================================== *)

Module EndToEnd.
Import JS Errors Types Platform History PromiseFacts.

(** From [await stream.collect()] on, [create] settles as [collect()]
    does on the events that follow. *)
Lemma create_settles_as_collect evs : forall c,
  Forall (fun ev => ev <> OnOpen /\ ev <> OnError) evs ->
  TTS.stage c = TTS.AwaitEnd ->
  TTSStream.endPromise (TTS.session (TTS.call c)) = Pending ->
  TTS.stage (TTS.create_run c evs)
  = match TTSStream.collect (TTS.session (TTS.call c)) evs with
    | Fulfilled r => TTS.Settled (Return r)
    | Rejected e => TTS.Settled (Throw e)
    | Pending => TTS.AwaitEnd
    end.
Proof.
  induction evs as [|ev evs IH]; intros c Hevs Hstage Hpending.
  - cbn. now rewrite Hpending.
  - inversion Hevs as [|? ? [Hopen Herror] Hrest]; subst.
    cbn [TTS.create_run fold_left TTSStream.collect]. rewrite Hpending.
    fold (TTS.create_run (TTS.create_step c ev) evs).
    assert (Hsession : TTS.session (TTS.dispatch (TTS.call c) ev)
                       = TTSStream.dispatch (TTS.session (TTS.call c)) ev).
    { destruct ev; try congruence; reflexivity. }
    unfold TTS.create_step, TTS.continue. cbn [TTS.stage]. rewrite Hstage.
    pose proof (CallFacts.TTS_continue_collect_stage
                  {| TTS.call := TTS.dispatch (TTS.call c) ev;
                     TTS.text := TTS.text c; TTS.stage := TTS.AwaitEnd |}) as Hst.
    cbn [TTS.call] in Hst. rewrite Hsession in Hst.
    set (c' := TTS.continue_collect
                 {| TTS.call := TTS.dispatch (TTS.call c) ev;
                    TTS.text := TTS.text c; TTS.stage := TTS.AwaitEnd |}) in *.
    assert (Hcall : TTS.session (TTS.call c')
                    = TTSStream.dispatch (TTS.session (TTS.call c)) ev).
    { unfold c'. now rewrite CallFacts.TTS_continue_collect_call. }
    destruct (TTSStream.endPromise
                (TTSStream.dispatch (TTS.session (TTS.call c)) ev)) eqn:E.
    + rewrite IH; [now rewrite Hcall|exact Hrest|exact Hst|now rewrite Hcall].
    + rewrite TTSStreamFacts.collect_settled by now rewrite E.
      rewrite E.
      clear IH. revert Hst. generalize c'. clear.
      induction evs as [|ev' evs IH]; intros c' Hst; [exact Hst|].
      cbn [TTS.create_run fold_left].
      fold (TTS.create_run (TTS.create_step c' ev') evs).
      apply IH. unfold TTS.create_step, TTS.continue. cbn [TTS.stage].
      now rewrite Hst.
    + rewrite TTSStreamFacts.collect_settled by now rewrite E.
      rewrite E.
      clear IH. revert Hst. generalize c'. clear.
      induction evs as [|ev' evs IH]; intros c' Hst; [exact Hst|].
      cbn [TTS.create_run fold_left].
      fold (TTS.create_run (TTS.create_step c' ev') evs).
      apply IH. unfold TTS.create_step, TTS.continue. cbn [TTS.stage].
      now rewrite Hst.
Qed.

Lemma transcribe_settles_as_collectText {engine : Engine} evs : forall c,
  Forall (fun ev => ev <> OnOpen /\ ev <> OnError) evs ->
  STT.stage c = STT.AwaitEnd ->
  STTStream.endPromise (STT.session (STT.call c)) = Pending ->
  STT.stage (STT.transcribe_run c evs)
  = match STTStream.collectText (STT.session (STT.call c)) evs with
    | Fulfilled r => STT.Settled (Return r)
    | Rejected e => STT.Settled (Throw e)
    | Pending => STT.AwaitEnd
    end.
Proof.
  induction evs as [|ev evs IH]; intros c Hevs Hstage Hpending.
  - cbn. now rewrite Hpending.
  - inversion Hevs as [|? ? [Hopen Herror] Hrest]; subst.
    cbn [STT.transcribe_run fold_left STTStream.collectText]. rewrite Hpending.
    fold (STT.transcribe_run (STT.transcribe_step c ev) evs).
    assert (Hsession : STT.session (STT.dispatch (STT.call c) ev)
                       = STTStream.dispatch (STT.session (STT.call c)) ev).
    { destruct ev; try congruence; reflexivity. }
    unfold STT.transcribe_step, STT.continue. cbn [STT.stage]. rewrite Hstage.
    pose proof (CallFacts.STT_continue_collect_stage
                  {| STT.call := STT.dispatch (STT.call c) ev;
                     STT.audio := STT.audio c; STT.stage := STT.AwaitEnd |}) as Hst.
    cbn [STT.call] in Hst. rewrite Hsession in Hst.
    set (c' := STT.continue_collect
                 {| STT.call := STT.dispatch (STT.call c) ev;
                    STT.audio := STT.audio c; STT.stage := STT.AwaitEnd |}) in *.
    assert (Hcall : STT.session (STT.call c')
                    = STTStream.dispatch (STT.session (STT.call c)) ev).
    { unfold c'. now rewrite Transcribing.continue_collect_call. }
    destruct (STTStream.endPromise
                (STTStream.dispatch (STT.session (STT.call c)) ev)) eqn:E.
    + rewrite IH; [now rewrite Hcall|exact Hrest|exact Hst|now rewrite Hcall].
    + rewrite STTStreamFacts.collectText_settled by now rewrite E.
      rewrite E.
      clear IH. revert Hst. generalize c'. clear.
      induction evs as [|ev' evs IH]; intros c' Hst; [exact Hst|].
      cbn [STT.transcribe_run fold_left].
      fold (STT.transcribe_run (STT.transcribe_step c' ev') evs).
      apply IH. unfold STT.transcribe_step, STT.continue. cbn [STT.stage].
      now rewrite Hst.
    + rewrite STTStreamFacts.collectText_settled by now rewrite E.
      rewrite E.
      clear IH. revert Hst. generalize c'. clear.
      induction evs as [|ev' evs IH]; intros c' Hst; [exact Hst|].
      cbn [STT.transcribe_run fold_left].
      fold (STT.transcribe_run (STT.transcribe_step c' ev') evs).
      apply IH. unfold STT.transcribe_step, STT.continue. cbn [STT.stage].
      now rewrite Hst.
Qed.

(** [collect()] on a stream whose end promise is pending, over audio
    envelopes and then the end of the stream. *)
Lemma collect_audio_then_end this chunks :
  TTSStream.endPromise this = Pending ->
  TTSStream.collect this (map TTS_audio_event chunks) = Pending /\
  TTSStream.collect this
    (map TTS_audio_event chunks ++ [OnMessage (Parsed TTSServerEndOfStream)])
  = Fulfilled {| raw_data := concat (TTSStream.audioChunks this ++ chunks);
                 sample_rate := TTSStream.sampleRate this;
                 request_id := TTSStream.requestId this |} /\
  forall message code,
    TTSStream.collect this
      (map TTS_audio_event chunks ++ [OnMessage (Parsed (TTSError message code))])
    = Rejected (WebSocketError message (Some code)).
Proof.
  intros Hp.
  destruct (Collecting.TTS_run_audio chunks this) as (H1 & H2 & H3 & H4 & H5).
  cbn zeta in H1, H2, H3, H4, H5.
  set (s := TTSStream.run this (map TTS_audio_event chunks)) in *.
  assert (Hs : TTSStream.endPromise s = Pending) by (now rewrite H2).
  split; [|split].
  - rewrite <- (app_nil_r (map TTS_audio_event chunks)).
    rewrite TTSStreamFacts.collect_pending_prefix by exact Hs.
    fold s. cbn. now rewrite Hs.
  - rewrite TTSStreamFacts.collect_pending_prefix by exact Hs.
    fold s. cbn [TTSStream.collect]. rewrite Hs.
    cbn [TTSStream.dispatch TTSStream.onmessage].
    unfold TTSStream.endResolve, TTSStream.push_message, TTSStream.set_endPromise.
    cbn [TTSStream.endPromise]. rewrite Hs. cbn [resolve].
    f_equal.
    pose proof (Collecting.collect_result_raw_data
                  {| TTSStream.ws := TTSStream.ws s;
                     TTSStream.audioChunks := TTSStream.audioChunks s;
                     TTSStream.requestId := TTSStream.requestId s;
                     TTSStream.sampleRate := TTSStream.sampleRate s;
                     TTSStream.isReady := TTSStream.isReady s;
                     TTSStream.readyPromise := TTSStream.readyPromise s;
                     TTSStream.endPromise := Fulfilled tt;
                     TTSStream.messageQueue :=
                       TTSStream.messageQueue s ++ [Message TTSServerEndOfStream] |}) as Hraw.
    unfold TTSStream.collect_result in *.
    cbn [raw_data TTSStream.audioChunks TTSStream.sampleRate TTSStream.requestId
         TTSStream.ws TTSStream.isReady TTSStream.readyPromise
         TTSStream.messageQueue TTSStream.endPromise] in *.
    rewrite Hraw, H1, H4, H5. reflexivity.
  - intros message code.
    rewrite TTSStreamFacts.collect_pending_prefix by exact Hs.
    fold s. cbn [TTSStream.collect]. rewrite Hs.
    cbn [TTSStream.dispatch TTSStream.onmessage].
    unfold TTSStream.endReject, TTSStream.readyReject, TTSStream.push_message,
      TTSStream.set_endPromise, TTSStream.set_readyPromise.
    cbn [TTSStream.endPromise]. rewrite Hs. reflexivity.
Qed.

Lemma no_open_no_error_audio chunks (last : WsEvent TTSServerMessage) :
  last <> OnOpen -> last <> OnError ->
  Forall (fun ev : WsEvent TTSServerMessage => ev <> OnOpen /\ ev <> OnError)
    (map TTS_audio_event chunks ++ [last]).
Proof.
  intros H1 H2. apply Forall_app. split.
  - apply Forall_forall. intros ev Hin. apply in_map_iff in Hin.
    destruct Hin as (chunk & <- & _). split; discriminate.
  - constructor; [now split|constructor].
Qed.

(** [create] from the opening of the socket to its result. After the
    open event and the ready envelope, [create] waits while audio
    envelopes arrive; at the [end_of_stream] envelope it returns the
    concatenation of the chunks with the request id of the ready
    envelope and the sample rate 48000; at an [error] envelope
    instead, it throws the [WebSocketError] of the envelope. When the
    [error] envelope comes in place of the ready envelope, [create]
    throws it as well. *)
Theorem create_returns_audio_or_throws_error_envelope :
  forall (params : TTSSetupParams) (text request_id : string)
         (chunks : list (list byte)) (message : string) (code : number),
    let ready := OnMessage (Parsed (TTSReady request_id)) in
    let error := OnMessage (Parsed (TTSError message code)) in
    let stage evs := TTS.stage (TTS.create_run (TTS.create params text) evs) in
    stage (OnOpen :: ready :: map TTS_audio_event chunks) = TTS.AwaitEnd /\
    stage (OnOpen :: ready :: map TTS_audio_event chunks
             ++ [OnMessage (Parsed TTSServerEndOfStream)])
    = TTS.Settled (Return {| raw_data := concat chunks;
                             sample_rate := number_of_Z 48000;
                             request_id := request_id |}) /\
    stage (OnOpen :: ready :: map TTS_audio_event chunks ++ [error])
    = TTS.Settled (Throw (WebSocketError message (Some code))) /\
    stage [OnOpen; error]
    = TTS.Settled (Throw (WebSocketError message (Some code))).
Proof.
  intros params text request_id chunks message code ready error stage.
  set (c := TTS.create_run (TTS.create params text) [OnOpen; ready]).
  assert (Hstage : TTS.stage c = TTS.AwaitEnd) by reflexivity.
  assert (Hpending : TTSStream.endPromise (TTS.session (TTS.call c)) = Pending)
    by reflexivity.
  assert (Hrun : forall evs,
             stage (OnOpen :: ready :: evs) = TTS.stage (TTS.create_run c evs))
    by reflexivity.
  destruct (@collect_audio_then_end (TTS.session (TTS.call c)) chunks Hpending)
    as (H1 & H2 & H3).
  split; [|split; [|split]].
  - rewrite Hrun.
    rewrite <- (app_nil_r (map TTS_audio_event chunks)) at 1.
    rewrite create_settles_as_collect; try assumption.
    + rewrite app_nil_r. now rewrite H1.
    + rewrite app_nil_r. apply Forall_forall. intros ev Hin.
      apply in_map_iff in Hin. destruct Hin as (chunk & <- & _).
      split; discriminate.
  - change (OnOpen :: ready :: map TTS_audio_event chunks
              ++ [OnMessage (Parsed TTSServerEndOfStream)])
      with (OnOpen :: ready :: (map TTS_audio_event chunks
              ++ [OnMessage (Parsed TTSServerEndOfStream)])).
    rewrite Hrun.
    rewrite create_settles_as_collect; try assumption.
    + now rewrite H2.
    + apply no_open_no_error_audio; discriminate.
  - change (OnOpen :: ready :: map TTS_audio_event chunks ++ [error])
      with (OnOpen :: ready :: (map TTS_audio_event chunks ++ [error])).
    rewrite Hrun.
    rewrite create_settles_as_collect; try assumption.
    + unfold error. now rewrite H3.
    + apply no_open_no_error_audio; discriminate.
  - reflexivity.
Qed.

Lemma collectText_messages_then_end this msgs :
  forallb STT_not_terminal msgs = true ->
  STTStream.endPromise this = Pending ->
  let evs := map (fun m => OnMessage (Parsed m)) msgs in
  STTStream.collectText this evs = Pending /\
  STTStream.collectText this (evs ++ [OnMessage (Parsed STTServerEndOfStream)])
  = Fulfilled (join " " (map text (STTStream.textResults this) ++ STT_texts msgs)) /\
  forall message code,
    STTStream.collectText this
      (evs ++ [OnMessage (Parsed (STTError message code))])
    = Rejected (WebSocketError message (Some code)).
Proof.
  intros Hmsgs Hp evs.
  destruct (Collecting.STT_run_messages msgs this Hmsgs) as (H1 & H2).
  cbn zeta in H1, H2. fold evs in H1, H2.
  set (s := STTStream.run this evs) in *.
  assert (Hs : STTStream.endPromise s = Pending) by (now rewrite H2).
  split; [|split].
  - rewrite <- (app_nil_r evs).
    rewrite STTStreamFacts.collectText_pending_prefix by exact Hs.
    fold s. cbn. now rewrite Hs.
  - rewrite STTStreamFacts.collectText_pending_prefix by exact Hs.
    fold s. cbn [STTStream.collectText]. rewrite Hs.
    cbn [STTStream.dispatch STTStream.onmessage].
    unfold STTStream.endResolve, STTStream.push_message, STTStream.set_endPromise.
    cbn [STTStream.endPromise]. rewrite Hs. cbn [resolve].
    unfold STTStream.collect_result. cbn [STTStream.textResults].
    now rewrite H1.
  - intros message code.
    rewrite STTStreamFacts.collectText_pending_prefix by exact Hs.
    fold s. cbn [STTStream.collectText]. rewrite Hs.
    cbn [STTStream.dispatch STTStream.onmessage].
    unfold STTStream.endReject, STTStream.readyReject, STTStream.push_message,
      STTStream.set_endPromise, STTStream.set_readyPromise.
    cbn [STTStream.endPromise]. rewrite Hs. reflexivity.
Qed.

Lemma no_open_no_error_messages msgs (last : WsEvent STTServerMessage) :
  last <> OnOpen -> last <> OnError ->
  Forall (fun ev : WsEvent STTServerMessage => ev <> OnOpen /\ ev <> OnError)
    (map (fun m => OnMessage (Parsed m)) msgs ++ [last]).
Proof.
  intros H1 H2. apply Forall_app. split.
  - apply Forall_forall. intros ev Hin. apply in_map_iff in Hin.
    destruct Hin as (m & <- & _). split; discriminate.
  - constructor; [now split|constructor].
Qed.

(** The loop of [transcribe] touches nothing of the stream but its
    socket. *)
Lemma send_chunks_only_writes {engine : Engine} (audio : list byte) (n : nat) :
  forall (i : nat) (s s' : STTStream.t),
    length audio - i <= n ->
    STT.send_chunks audio i s = Return s' ->
    exists w, s' = STTStream.set_ws w s.
Proof.
  induction n as [|n IH]; intros i s s' Hn;
    rewrite Transcribing.send_chunks_unfold;
    destruct (lt_dec i (length audio)) as [Hi|Hi]; try lia.
  - intros H. inversion H. exists (STTStream.ws s'). now destruct s'.
  - unfold STTStream.sendAudio.
    destruct (negb (STTStream.isReady s)); [discriminate|].
    destruct (spread_call _ _); [|discriminate].
    intros H. apply IH in H; [|unfold STT.chunkSize; lia].
    destruct H as [w ->]. now exists w.
  - intros H. inversion H. exists (STTStream.ws s'). now destruct s'.
Qed.

Lemma transcribe_after_ready {engine : Engine} params audio m :
  let c := STT.transcribe_run (STT.transcribe params audio)
             [OnOpen; OnMessage (Parsed (STTReady m))] in
  STT.stage c = STT.AwaitEnd /\
  STTStream.endPromise (STT.session (STT.call c)) = Pending /\
  STTStream.textResults (STT.session (STT.call c)) = [].
Proof.
  cbn [STT.transcribe_run fold_left].
  set (c0 := STT.transcribe_step (STT.transcribe params audio) OnOpen).
  assert (Hstage : STT.stage c0 = STT.AwaitReady) by reflexivity.
  unfold STT.transcribe_step at 1 2 3, STT.continue. cbn [STT.stage].
  rewrite Hstage.
  set (d := {| STT.call := STT.dispatch (STT.call c0) (OnMessage (Parsed (STTReady m)));
               STT.audio := STT.audio c0; STT.stage := STT.AwaitReady |}).
  assert (Hp : STTStream.readyPromise (STT.session (STT.call d)) = Fulfilled m)
    by reflexivity.
  assert (Hr : STTStream.isReady (STT.session (STT.call d)) = true)
    by reflexivity.
  destruct (CallFacts.STT_continue_ready_fulfilled d Hp Hr)
    as (s' & Hrun & _ & _ & Hep & ->).
  destruct (@send_chunks_only_writes engine (STT.audio d) (length (STT.audio d))
              0 (STT.session (STT.call d)) s' ltac:(lia) Hrun) as [w ->].
  unfold STT.continue_collect. cbn. repeat split.
Qed.

(** [transcribe] from the opening of the socket to its result. After
    the open event and the ready envelope, [transcribe] waits while
    [text], [step], [end_text] and further [ready] messages arrive; at
    the [end_of_stream] envelope it returns the text fragments
    received, in arrival order, joined by single spaces (the empty
    string when there are none); at an [error] envelope instead, it
    throws the [WebSocketError] of the envelope. When the [error]
    envelope comes in place of the ready envelope, [transcribe] throws
    it as well. *)
Theorem transcribe_returns_text_or_throws_error_envelope :
  forall (engine : Engine)
         (params : STTSetupParams) (audio : list byte) (m : STTReadyMessage)
         (msgs : list STTServerMessage) (message : string) (code : number),
    forallb STT_not_terminal msgs = true ->
    let ready := OnMessage (Parsed (STTReady m)) in
    let error := OnMessage (Parsed (STTError message code)) in
    let received := map (fun m => OnMessage (Parsed m)) msgs in
    let stage evs :=
      STT.stage (STT.transcribe_run (STT.transcribe params audio) evs) in
    stage (OnOpen :: ready :: received) = STT.AwaitEnd /\
    stage (OnOpen :: ready :: received
             ++ [OnMessage (Parsed STTServerEndOfStream)])
    = STT.Settled (Return (join " " (STT_texts msgs))) /\
    stage (OnOpen :: ready :: received ++ [error])
    = STT.Settled (Throw (WebSocketError message (Some code))) /\
    stage [OnOpen; error]
    = STT.Settled (Throw (WebSocketError message (Some code))).
Proof.
  intros engine params audio m msgs message code Hmsgs ready error received
    stage.
  set (c := STT.transcribe_run (STT.transcribe params audio) [OnOpen; ready]).
  destruct (transcribe_after_ready params audio m) as (Hstage & Hpending & Htexts).
  fold ready c in Hstage, Hpending, Htexts.
  assert (Hrun : forall evs,
             stage (OnOpen :: ready :: evs) = STT.stage (STT.transcribe_run c evs))
    by reflexivity.
  destruct (@collectText_messages_then_end (STT.session (STT.call c)) msgs
              Hmsgs Hpending) as (H1 & H2 & H3).
  cbn zeta in H1, H2, H3. fold received in H1, H2, H3.
  rewrite Htexts in H2. cbn [map app] in H2.
  split; [|split; [|split]].
  - rewrite Hrun.
    rewrite <- (app_nil_r received) at 1.
    rewrite transcribe_settles_as_collectText; try assumption.
    + rewrite app_nil_r. now rewrite H1.
    + rewrite app_nil_r. apply Forall_forall. intros ev Hin.
      apply in_map_iff in Hin. destruct Hin as (x & <- & _).
      split; discriminate.
  - change (OnOpen :: ready :: received
              ++ [OnMessage (Parsed STTServerEndOfStream)])
      with (OnOpen :: ready :: (received
              ++ [OnMessage (Parsed STTServerEndOfStream)])).
    rewrite Hrun.
    rewrite transcribe_settles_as_collectText; try assumption.
    + now rewrite H2.
    + apply no_open_no_error_messages; discriminate.
  - change (OnOpen :: ready :: received ++ [error])
      with (OnOpen :: ready :: (received ++ [error])).
    rewrite Hrun.
    rewrite transcribe_settles_as_collectText; try assumption.
    + unfold error. now rewrite H3.
    + apply no_open_no_error_messages; discriminate.
  - reflexivity.
Qed.

Lemma transcribe_returns_text_or_throws_error_envelope_witness :
  let params := {| stt_input_format := stt_pcm; stt_model_name := None |} in
  let m := {| ready_request_id := "req-123";
              ready_model_name := "default";
              ready_sample_rate := number_of_Z 24000;
              ready_frame_size := number_of_Z 1920;
              ready_delay_in_tokens := number_of_Z 0;
              ready_text_stream_names := [] |} in
  let hello := STTText {| text := "Hello"; start_s := Zero false;
                          text_stream_id := None |} in
  let world := STTText {| text := "world"; start_s := Finite false [Dg5] 0;
                          text_stream_id := None |} in
  let engine := Engine_65536 in
  STT.stage
    (STT.transcribe_run (STT.transcribe params [x01; x02]%byte)
       [OnOpen; OnMessage (Parsed (STTReady m));
        OnMessage (Parsed hello); OnMessage (Parsed world);
        OnMessage (Parsed STTServerEndOfStream)])
  = STT.Settled (Return "Hello world").
Proof.
  intros params m hello world engine.
  destruct (@transcribe_returns_text_or_throws_error_envelope engine params
              [x01; x02]%byte m [hello; world] "unused" (Zero false) eq_refl)
    as (_ & H & _).
  exact H.
Defined.

End EndToEnd.

(* ===================================================================== *)
(** * What the getters return *)
(* ===================================================================== *)

Module ReadyMetadata.
Import JS Errors Types Platform Latest.

Lemma STT_getters ws evs :
  let s := STTStream.run (STTStream.new ws) evs in
  (STTStream.getRequestId s
   = match STT_last_ready evs with
     | Some m => ready_request_id m
     | None => EmptyString
     end) /\
  (STTStream.getSampleRate s
   = match STT_last_ready evs with
     | Some m => ready_sample_rate m
     | None => number_of_Z 24000
     end) /\
  (STTStream.getFrameSize s
   = match STT_last_ready evs with
     | Some m => ready_frame_size m
     | None => number_of_Z 1920
     end).
Proof.
  induction evs as [|ev evs IH] using rev_ind; [repeat split|].
  cbn zeta in *. unfold STT_last_ready in *.
  rewrite STTStreamFacts.STT_run_app, fold_left_app. cbn [fold_left STTStream.run].
  destruct IH as (H1 & H2 & H3).
  unfold STTStream.getRequestId, STTStream.getSampleRate,
    STTStream.getFrameSize in *.
  STTStreamFacts.event_cases ev; STTStreamFacts.handlers; auto.
Qed.

Lemma STT_first_resolution ws evs :
  let s := STTStream.run (STTStream.new ws) evs in
  (STTStream.waitReady s = Pending -> STT_first_ready evs = None) /\
  (forall m, STTStream.waitReady s = Fulfilled m ->
             STT_first_ready evs = Some m).
Proof.
  induction evs as [|ev evs IH] using rev_ind.
  - split; [reflexivity|discriminate].
  - cbn zeta in *. unfold STT_first_ready in *.
    rewrite STTStreamFacts.STT_run_app, fold_left_app.
    cbn [fold_left STTStream.run].
    destruct IH as (H1 & H2).
    unfold STTStream.waitReady in *.
    set (s := STTStream.run (STTStream.new ws) evs) in *.
    set (found := fold_left _ evs None) in *.
    destruct (STTStream.readyPromise s) as [|m0|e0] eqn:E;
      [pose proof (H1 eq_refl) as F|pose proof (H2 _ eq_refl) as F|];
      STTStreamFacts.event_cases ev; STTStreamFacts.handlers;
      rewrite ?E; cbn; rewrite ?F;
      (split; [intros X|intros m' X]);
      try discriminate; try (inversion X; subst); try reflexivity.
Qed.

Lemma TTS_getter ws evs :
  TTSStream.getRequestId (TTSStream.run (TTSStream.new ws) evs)
  = match TTS_last_ready evs with
    | Some request_id => request_id
    | None => EmptyString
    end.
Proof.
  induction evs as [|ev evs IH] using rev_ind; [reflexivity|].
  unfold TTS_last_ready in *.
  rewrite TTSStreamFacts.TTS_run_app, fold_left_app. cbn [fold_left TTSStream.run].
  unfold TTSStream.getRequestId in *.
  TTSStreamFacts.event_cases ev; TTSStreamFacts.handlers; auto.
Qed.

(** The getters of a stream return what the last [ready] envelope
    received carried, and before any [ready] envelope the initial
    values: the empty request id, the sample rate 24000 and the frame
    size 1920. Every [ready] envelope overwrites them, whereas
    [waitReady()] of the STT stream, once resolved, keeps the first
    [ready] message. *)
Theorem getters_follow_the_last_ready_envelope :
  forall ws (evs : list (WsEvent STTServerMessage))
         (evs' : list (WsEvent TTSServerMessage)),
    let s := STTStream.run (STTStream.new ws) evs in
    (STTStream.getRequestId s
     = match STT_last_ready evs with
       | Some m => ready_request_id m
       | None => EmptyString
       end) /\
    (STTStream.getSampleRate s
     = match STT_last_ready evs with
       | Some m => ready_sample_rate m
       | None => number_of_Z 24000
       end) /\
    (STTStream.getFrameSize s
     = match STT_last_ready evs with
       | Some m => ready_frame_size m
       | None => number_of_Z 1920
       end) /\
    (forall m, STTStream.waitReady s = Fulfilled m ->
               STT_first_ready evs = Some m) /\
    TTSStream.getRequestId (TTSStream.run (TTSStream.new ws) evs')
    = match TTS_last_ready evs' with
      | Some request_id => request_id
      | None => EmptyString
      end.
Proof.
  intros ws evs evs' s.
  destruct (STT_getters ws evs) as (H1 & H2 & H3).
  destruct (STT_first_resolution ws evs) as (_ & H4).
  repeat split; try assumption. apply TTS_getter.
Qed.

Lemma getters_follow_the_last_ready_envelope_witness :
  let m1 := {| ready_request_id := "req-1"; ready_model_name := "default";
               ready_sample_rate := number_of_Z 24000;
               ready_frame_size := number_of_Z 1920;
               ready_delay_in_tokens := number_of_Z 0;
               ready_text_stream_names := [] |} in
  let m2 := {| ready_request_id := "req-2"; ready_model_name := "default";
               ready_sample_rate := number_of_Z 16000;
               ready_frame_size := number_of_Z 1280;
               ready_delay_in_tokens := number_of_Z 0;
               ready_text_stream_names := [] |} in
  let s := STTStream.run (STTStream.new new_WebSocket)
             [OnMessage (Parsed (STTReady m1)); OnMessage (Parsed (STTReady m2))] in
  STTStream.waitReady s = Fulfilled m1 /\
  STTStream.getSampleRate s = number_of_Z 16000 /\
  STT_first_ready
    [OnMessage (Parsed (STTReady m1)); OnMessage (Parsed (STTReady m2))]
  = Some m1.
Proof.
  intros m1 m2 s.
  destruct (getters_follow_the_last_ready_envelope new_WebSocket
              [OnMessage (Parsed (STTReady m1)); OnMessage (Parsed (STTReady m2))]
              []) as (_ & H2 & _ & H4 & _).
  split; [reflexivity|]. split; [exact H2|].
  apply H4. reflexivity.
Defined.

End ReadyMetadata.

(* ===================================================================== *)
(** * An audio envelope that is not base64 *)
(* ===================================================================== *)

Module BadAudio.
Import JS Errors Types Platform Base64.

(** An audio envelope whose [audio] field [atob] refuses: the message
    is queued (the push comes before the [switch]), no chunk is added,
    the [catch] rejects the end promise with the exception of [atob]
    if it is pending, and the ready promise and [isReady] are left as
    they are. So a [collect()] that is waiting rejects, whatever
    arrives later, and [create] with it. *)
Theorem undecodable_audio_rejects_collect :
  forall (this : TTSStream.t) (audio : string)
         (future : list (WsEvent TTSServerMessage)),
    atob audio = None ->
    let s := TTSStream.onmessage (Parsed (TTSAudio audio)) this in
    TTSStream.audioChunks s = TTSStream.audioChunks this /\
    TTSStream.messageQueue s = TTSStream.messageQueue this ++ [Message (TTSAudio audio)] /\
    TTSStream.waitReady s = TTSStream.waitReady this /\
    TTSStream.isReady s = TTSStream.isReady this /\
    TTSStream.endPromise s
    = reject (TTSStream.endPromise this) InvalidCharacterError /\
    (TTSStream.endPromise this = Pending ->
     TTSStream.collect this (OnMessage (Parsed (TTSAudio audio)) :: future)
     = Rejected InvalidCharacterError).
Proof.
  intros this audio future H s. unfold s.
  cbn [TTSStream.onmessage]. rewrite H.
  repeat split.
  intros Hp. cbn [TTSStream.collect]. rewrite Hp.
  cbn [TTSStream.dispatch TTSStream.onmessage]. rewrite H.
  rewrite TTSStreamFacts.collect_settled.
  - cbn. now rewrite Hp.
  - cbn. now rewrite Hp.
Qed.

Lemma undecodable_audio_rejects_collect_witness :
  let this := TTSStream.run (TTSStream.new new_WebSocket)
                [OnOpen; OnMessage (Parsed (TTSReady "req-123"));
                 History.TTS_audio_event [x01; x02; x03]%byte] in
  atob "not base64!" = None /\
  TTSStream.collect this
    [OnMessage (Parsed (TTSAudio "not base64!"));
     OnMessage (Parsed TTSServerEndOfStream)]
  = Rejected InvalidCharacterError.
Proof.
  intros this.
  assert (H : atob "not base64!" = None) by reflexivity.
  split; [exact H|].
  destruct (@undecodable_audio_rejects_collect this "not base64!"
              [OnMessage (Parsed TTSServerEndOfStream)] H)
    as (_ & _ & _ & _ & _ & H').
  apply H'. reflexivity.
Defined.

End BadAudio.

(* ===================================================================== *)
(** * An iterator that runs while messages arrive *)
(* ===================================================================== *)

Module LiveIteration.
Import JS Errors Types Platform.

Section Live.

Variables Session Event A : Type.
Variable dispatch : Session -> Event -> Session.
Variable buffer : Session -> list A.
Variable hasEnded : Session -> completion bool.

(** The buffer is only appended to, and the test for the end, once it
  has returned true or thrown, does the same ever after. *)
Hypothesis buffer_grows :
forall s ev, exists more, buffer (dispatch s ev) = buffer s ++ more.
Hypothesis ended_stays :
forall s ev,
  hasEnded s <> Return false -> hasEnded (dispatch s ev) = hasEnded s.

Let resume (s : Session) (g : Generator.t) :=
Generator.resume (buffer s) (hasEnded s) g.

Lemma firstn_S_nth_error (l : list A) : forall k x,
nth_error l k = Some x -> firstn (S k) l = firstn k l ++ [x].
Proof.
induction l as [|y l IH]; intros [|k] x E; try discriminate; cbn in *.
- now inversion E.
- f_equal. now apply IH.
Qed.

Ltac simpl_state :=
cbn [fst snd Generator.yielded Generator.generator Generator.finished
     Generator.processedIndex Generator.position Generator.last_step].

Let live := Invariants.live buffer hasEnded.

Lemma act_keeps st a :
live (fst st) (snd st) ->
let st' := Generator.act dispatch resume st a in
live (fst st') (snd st').
Proof.
destruct st as [s [[pos k] ys step]]. unfold live, Invariants.live.
simpl_state.
intros (Hy & Hk & Hsecond & Hfinished & Hdone & Hthrew).
destruct a as [ev|].
- cbn. destruct (buffer_grows s ev) as [more Hmore]. rewrite Hmore.
  split; [|split; [|split; [|split; [|split]]]].
  + rewrite firstn_app. replace (k - length (buffer s)) with 0 by lia.
    cbn. now rewrite app_nil_r.
  + rewrite length_app. lia.
  + intros H. rewrite ended_stays; rewrite (Hsecond H); [reflexivity|].
    discriminate.
  + intros H. destruct (Hfinished H) as [He|He]; [now left|right].
    rewrite ended_stays; rewrite He; [reflexivity|discriminate].
  + exact Hdone.
  + intros e H. rewrite ended_stays; rewrite (Hthrew e H); [reflexivity|].
    discriminate.
- cbn [Generator.act Generator.last_step Generator.generator
       Generator.yielded].
  assert (Hresumed :
            let '(step', g) := resume s {| Generator.position := pos;
                                            Generator.processedIndex := k |} in
            (forall e, step <> Threw e) ->
            Generator.yielded
              {| Generator.generator := g;
                 Generator.yielded := match step' with
                                      | Yield x => ys ++ [x]
                                      | _ => ys
                                      end;
                 Generator.last_step := step' |}
            = firstn (Generator.processedIndex g) (buffer s) /\
            Generator.processedIndex g <= length (buffer s) /\
            (Generator.position g = Generator.InSecondLoop ->
             hasEnded s = Return true) /\
            (Generator.position g = Generator.Finished ->
             (exists e, step' = Threw e) \/ hasEnded s = Return true) /\
            (step' = Done -> Generator.position g = Generator.Finished) /\
            (forall e, step' = Threw e -> hasEnded s = Throw e)).
  { unfold resume, Generator.resume. simpl_state.
    destruct pos; cbv beta iota.
    + unfold Generator.first_loop, Generator.second_loop.
      simpl_state.
      destruct (nth_error (buffer s) k) as [x|] eqn:E.
      * intros _. simpl_state. repeat split; try congruence.
        -- rewrite (firstn_S_nth_error _ _ E). now rewrite Hy.
        -- apply Nat.le_succ_l. apply nth_error_Some. congruence.
      * destruct (hasEnded s) as [[]|e] eqn:He; intros _; simpl_state;
          repeat split; try congruence; try assumption; try discriminate;
          try (intros _; now right); try (intros _; left; now exists e).
    + unfold Generator.second_loop. simpl_state.
      assert (He : hasEnded s = Return true) by now apply Hsecond.
      destruct (nth_error (buffer s) k) as [x|] eqn:E.
      * intros _. simpl_state. repeat split; try congruence.
        -- rewrite (firstn_S_nth_error _ _ E). now rewrite Hy.
        -- apply Nat.le_succ_l. apply nth_error_Some. congruence.
      * intros _. simpl_state.
        repeat split; try congruence; try assumption.
        intros _. now right.
    + intros Hst. simpl_state.
      repeat split; try congruence; try assumption.
      intros _. right. destruct (Hfinished eq_refl) as [[e He]|He];
        [now contradiction (Hst e)|exact He]. }
  destruct (resume s {| Generator.position := pos;
                        Generator.processedIndex := k |}) as [step' g].
  destruct step as [x| |e|]; simpl_state;
    try (apply Hresumed; discriminate).
  repeat split; try assumption.
Qed.

(** Whatever the schedule, what a consumer has been yielded is the
  buffer up to the generator's index; the generator is done only
  after the test for the end returned true, and it throws what the
  test threw. *)
Lemma consume_keeps schedule : forall st,
live (fst st) (snd st) ->
let st' := Generator.consume dispatch resume st schedule in
Generator.yielded (snd st')
= firstn (Generator.processedIndex (Generator.generator (snd st')))
         (buffer (fst st')) /\
(Generator.last_step (snd st') = Done -> hasEnded (fst st') = Return true) /\
(forall e, Generator.last_step (snd st') = Threw e ->
           hasEnded (fst st') = Throw e).
Proof.
induction schedule as [|a schedule IH]; intros st H.
- cbn. unfold live, Invariants.live in H.
  destruct H as (Hy & _ & _ & Hfinished & Hdone & Hthrew).
  split; [exact Hy|]. split; [|exact Hthrew].
  intros Hd. destruct (Hfinished (Hdone Hd)) as [[e He]|He]; [|exact He].
  congruence.
- cbn [Generator.consume fold_left].
  apply (IH (Generator.act dispatch resume st a)).
  now apply act_keeps.
Qed.

Lemma consume_from_start s0 schedule :
let st := Generator.consume dispatch resume
            (s0, Generator.begin Generator.start) schedule in
(exists rest, buffer (fst st) = Generator.yielded (snd st) ++ rest) /\
(Generator.last_step (snd st) = Done -> hasEnded (fst st) = Return true) /\
(forall e, Generator.last_step (snd st) = Threw e ->
           hasEnded (fst st) = Throw e).
Proof.
destruct (@consume_keeps schedule (s0, Generator.begin Generator.start))
  as (Hy & Hd).
- unfold live, Invariants.live. cbn.
  repeat split; try lia; try congruence; try discriminate.
- cbn zeta in *. split; [|exact Hd].
  rewrite Hy. eexists. symmetry. apply firstn_skipn.
Qed.

End Live.

Lemma TTS_chunks_grow s ev :
  exists more,
    TTSStream.audioChunks (TTSStream.dispatch s ev)
    = TTSStream.audioChunks s ++ more.
Proof.
  TTSStreamFacts.event_cases ev; TTSStreamFacts.handlers;
    try (exists []; now rewrite app_nil_r).
  eexists; reflexivity.
Qed.

Lemma TTS_queue_grows s ev :
  exists more,
    TTSStream.messageQueue (TTSStream.dispatch s ev)
    = TTSStream.messageQueue s ++ more.
Proof.
  TTSStreamFacts.event_cases ev; TTSStreamFacts.handlers;
    try (exists []; now rewrite app_nil_r);
    eexists; reflexivity.
Qed.

Lemma STT_queue_grows s ev :
  exists more,
    STTStream.messageQueue (STTStream.dispatch s ev)
    = STTStream.messageQueue s ++ more.
Proof.
  STTStreamFacts.event_cases ev; STTStreamFacts.handlers;
    try (exists []; now rewrite app_nil_r);
    eexists; reflexivity.
Qed.

(** [some] stops at the first message of the queue that ends the
    stream, and at the first [null]. *)
Lemma TTS_some_ended_stays queue more :
  TTSStream.some_ended queue <> Return false ->
  TTSStream.some_ended (queue ++ more) = TTSStream.some_ended queue.
Proof.
  induction queue as [|[[]| |] queue IH]; cbn [app TTSStream.some_ended];
    try reflexivity; try exact IH.
  intros H. now contradiction H.
Qed.

Lemma STT_some_ended_stays queue more :
  STTStream.some_ended queue <> Return false ->
  STTStream.some_ended (queue ++ more) = STTStream.some_ended queue.
Proof.
  induction queue as [|[[]| |] queue IH]; cbn [app STTStream.some_ended];
    try reflexivity; try exact IH.
  intros H. now contradiction H.
Qed.

Lemma TTS_ended_stays s ev :
  TTSStream.hasEnded s <> Return false ->
  TTSStream.hasEnded (TTSStream.dispatch s ev) = TTSStream.hasEnded s.
Proof.
  intros H. unfold TTSStream.hasEnded.
  destruct (TTS_queue_grows s ev) as [more ->].
  now apply TTS_some_ended_stays.
Qed.

Lemma STT_ended_stays s ev :
  STTStream.hasEnded s <> Return false ->
  STTStream.hasEnded (STTStream.dispatch s ev) = STTStream.hasEnded s.
Proof.
  intros H. unfold STTStream.hasEnded.
  destruct (STT_queue_grows s ev) as [more ->].
  now apply STT_some_ended_stays.
Qed.

Lemma STT_texts_grow s ev :
  exists more,
    STTStream.textResults (STTStream.dispatch s ev)
    = STTStream.textResults s ++ more.
Proof.
  STTStreamFacts.event_cases ev; STTStreamFacts.handlers;
    try (exists []; now rewrite app_nil_r).
  eexists; reflexivity.
Qed.

Lemma STT_vad_grow s ev :
  exists more,
    STTStream.vadResults (STTStream.dispatch s ev)
    = STTStream.vadResults s ++ more.
Proof.
  STTStreamFacts.event_cases ev; STTStreamFacts.handlers;
    try (exists []; now rewrite app_nil_r).
  eexists; reflexivity.
Qed.

Lemma TTS_threw_null s e :
  TTSStream.hasEnded s = Throw e ->
  In Null (TTSStream.messageQueue s) /\ class_of e = TypeError_.
Proof.
  intros H. destruct (@Iterating.TTS_some_ended_throws _ e H) as [Hin ->].
  now split.
Qed.

Lemma STT_threw_null s e :
  STTStream.hasEnded s = Throw e ->
  In Null (STTStream.messageQueue s) /\ class_of e = TypeError_.
Proof.
  intros H. destruct (@Iterating.STT_some_ended_throws _ e H) as [Hin ->].
  now split.
Qed.

(** A consumer of the TTS iterator, of [iterText] or of [iterVAD]
    that starts in any state of the stream and runs while events are
    delivered, in any interleaving: at every moment what it has been
    yielded is a prefix of the stream's buffer, so every item comes
    once, in arrival order, nothing is skipped and nothing invented;
    and the iterator ends only after an [end_of_stream] or an [error]
    envelope has been queued. The iterator throws only with a [null]
    in the queue, and then a [TypeError]. *)
Theorem iterators_yield_a_prefix_of_the_buffer :
  forall (tts : TTSStream.t) (stt : STTStream.t)
         (schedule : list (Generator.Action (WsEvent TTSServerMessage)))
         (schedule' : list (Generator.Action (WsEvent STTServerMessage))),
    (let st := Generator.consume TTSStream.dispatch TTSStream.asyncIterator
                 (tts, Generator.begin Generator.start) schedule in
     (exists rest,
         TTSStream.audioChunks (fst st) = Generator.yielded (snd st) ++ rest) /\
     (Generator.last_step (snd st) = Done ->
      TTSStream.hasEnded (fst st) = Return true) /\
     (forall e, Generator.last_step (snd st) = Threw e ->
                In Null (TTSStream.messageQueue (fst st)) /\
                class_of e = TypeError_)) /\
    (let st := Generator.consume STTStream.dispatch STTStream.iterText
                 (stt, Generator.begin Generator.start) schedule' in
     (exists rest,
         STTStream.textResults (fst st) = Generator.yielded (snd st) ++ rest) /\
     (Generator.last_step (snd st) = Done ->
      STTStream.hasEnded (fst st) = Return true) /\
     (forall e, Generator.last_step (snd st) = Threw e ->
                In Null (STTStream.messageQueue (fst st)) /\
                class_of e = TypeError_)) /\
    (let st := Generator.consume STTStream.dispatch STTStream.iterVAD
                 (stt, Generator.begin Generator.start) schedule' in
     (exists rest,
         STTStream.vadResults (fst st) = Generator.yielded (snd st) ++ rest) /\
     (Generator.last_step (snd st) = Done ->
      STTStream.hasEnded (fst st) = Return true) /\
     (forall e, Generator.last_step (snd st) = Threw e ->
                In Null (STTStream.messageQueue (fst st)) /\
                class_of e = TypeError_)).
Proof.
  intros tts stt schedule schedule'. split; [|split].
  - destruct (consume_from_start TTSStream.dispatch TTSStream.audioChunks
                TTSStream.hasEnded TTS_chunks_grow TTS_ended_stays
                tts schedule) as (H1 & H2 & H3).
    cbn zeta. split; [exact H1|]. split.
    + exact H2.
    + intros e H. now apply TTS_threw_null, H3.
  - destruct (consume_from_start STTStream.dispatch STTStream.textResults
                STTStream.hasEnded STT_texts_grow STT_ended_stays
                stt schedule') as (H1 & H2 & H3).
    cbn zeta. split; [exact H1|]. split.
    + exact H2.
    + intros e H. now apply STT_threw_null, H3.
  - destruct (consume_from_start STTStream.dispatch STTStream.vadResults
                STTStream.hasEnded STT_vad_grow STT_ended_stays
                stt schedule') as (H1 & H2 & H3).
    cbn zeta. split; [exact H1|]. split.
    + exact H2.
    + intros e H. now apply STT_threw_null, H3.
Qed.

End LiveIteration.

(* ===================================================================== *)
(** * The class and the status of what [handleAPIError] throws *)
(* ===================================================================== *)

Module APIErrorClasses.
Import JS Errors.

Lemma handleAPIError_422_detail response detail :
  status response = 422%Z ->
  detail_in (read_body response) = Some detail ->
  handleAPIError response
  = match new_ValidationError detail with
    | Return validationError => Throw validationError
    | Throw err => Throw err
    end.
Proof.
  intros Hst Hd. unfold handleAPIError. rewrite Hst. cbn [Z.eqb Pos.eqb].
  now rewrite Hd.
Qed.


Lemma new_ValidationError_outcome detail :
  (exists l message,
      detail = JArr l /\
      new_ValidationError detail = Return (ValidationError l message)) \/
  (exists message, new_ValidationError detail = Throw (TypeError message)).
Proof.
  unfold new_ValidationError, formatErrors.
  destruct detail as [| b | x | s | l | props]; try (right; eauto; fail).
  destruct (format_details l) as [lines|e] eqn:E; [left; eauto|].
  right.
  assert (H : forall l e, format_details l = Throw e ->
                          exists message, e = TypeError message).
  { clear. induction l as [|x l IH]; intros e; cbn; [discriminate|].
    unfold format_detail.
    destruct x as [| | | | |props]; try (intros H; inversion H; eauto; fail).
    destruct (get_property "loc" props) as [[| | | |loc|]|];
      try (intros H; inversion H; eauto; fail).
    destruct (format_details l) as [|e'] eqn:E; [discriminate|].
    intros H. inversion H; subst. now apply IH. }
  destruct (H l e E) as [message ->]. eauto.
Qed.

(** A 422 response whose body has a [detail] that is not a list (a
    string, say) does not give a [ValidationError]: the constructor
    calls [errors.map] on it and [handleAPIError] throws the
    [TypeError] of that call, which is not a [GradiumError]. *)
Theorem validation_detail_that_is_no_list_throws_TypeError :
  forall (response : Response) (detail : JSValue),
    status response = 422%Z ->
    detail_in (read_body response) = Some detail ->
    (forall l, detail <> JArr l) ->
    exists message,
      handleAPIError response = Throw (TypeError message) /\
      instanceof (TypeError message) GradiumError_ = false.
Proof.
  intros response detail Hst Hd Hl.
  rewrite (handleAPIError_422_detail _ Hst Hd).
  destruct (new_ValidationError_outcome detail)
    as [(l & message & -> & _)|[message ->]].
  - now contradiction (Hl l).
  - exists message. split; reflexivity.
Qed.

Lemma validation_detail_that_is_no_list_throws_TypeError_witness :
  let response :=
    {| status := 422;
       json := Some (JObj [("detail", JStr "Unprocessable entity")]);
       text := None; retry_after := None |} in
  exists message,
    handleAPIError response = Throw (TypeError message) /\
    instanceof (TypeError message) GradiumError_ = false.
Proof.
  intros response.
  apply (@validation_detail_that_is_no_list_throws_TypeError response
           (JStr "Unprocessable entity") eq_refl eq_refl).
  intros l. discriminate.
Defined.



End APIErrorClasses.

(* ===================================================================== *)
(** * Facts: the client *)
(* ===================================================================== *)

Module ClientFacts.
Import JS Errors Client.

Lemma remove_trailing_slash_cons c s :
  s <> EmptyString ->
  remove_trailing_slash (String c s) = String c (remove_trailing_slash s).
Proof. destruct s; [congruence|reflexivity]. Qed.

Lemma remove_trailing_slash_app_slash s :
  s <> EmptyString ->
  remove_trailing_slash (s ++ "/") = s.
Proof.
  induction s as [|c s IH]; [congruence|]. intros _.
  destruct s as [|c' s].
  - reflexivity.
  - change ((String c (String c' s) ++ "/")%string)
      with (String c (String c' s ++ "/")%string).
    rewrite remove_trailing_slash_cons by (cbn; discriminate).
    rewrite IH by discriminate. reflexivity.
Qed.

Lemma remove_trailing_slash_empty s :
  remove_trailing_slash s = EmptyString -> s = EmptyString \/ s = "/"%string.
Proof.
  destruct s as [|c [|c' s]]; cbn; auto.
  - destruct (Ascii.eqb c "/") eqn:E; [|discriminate].
    apply Ascii.eqb_eq in E. subst. auto.
  - discriminate.
Qed.

(** Replacing the leading [http] and removing the trailing slash
    commute. *)
Lemma remove_replace_commute s :
  remove_trailing_slash (replace_leading_http s)
  = replace_leading_http (remove_trailing_slash s).
Proof.
  destruct s as [|c1 [|c2 [|c3 [|c4 r]]]]; try reflexivity.
  - cbn. destruct (Ascii.eqb c1 "/"); reflexivity.
  - cbn. destruct (Ascii.eqb c2 "/"); reflexivity.
  - cbn. destruct (Ascii.eqb c3 "/"); reflexivity.
  - destruct r as [|c5 r].
    + cbn [replace_leading_http remove_trailing_slash].
      destruct (Ascii.eqb c4 "/") eqn:E4.
      * apply Ascii.eqb_eq in E4. subst c4.
        replace (Ascii.eqb "/" "p") with false by reflexivity.
        rewrite !andb_false_r. reflexivity.
      * destruct (Ascii.eqb c1 "h" && Ascii.eqb c2 "t" && Ascii.eqb c3 "t"
                  && Ascii.eqb c4 "p")%bool eqn:E; [reflexivity|].
        cbn. now rewrite E4.
    + rewrite !remove_trailing_slash_cons by discriminate.
      cbn [replace_leading_http].
      destruct (Ascii.eqb c1 "h" && Ascii.eqb c2 "t" && Ascii.eqb c3 "t"
                && Ascii.eqb c4 "p")%bool eqn:E.
      * change ("ws" ++ String c5 r)%string with (String "w" (String "s" (String c5 r))).
        rewrite !remove_trailing_slash_cons by discriminate. reflexivity.
      * rewrite !remove_trailing_slash_cons by discriminate. reflexivity.
Qed.

Lemma append_associative (a b c : string) :
  ((a ++ b) ++ c = a ++ (b ++ c))%string.
Proof. induction a as [|x a IH]; [reflexivity|]. cbn. now rewrite IH. Qed.

Lemma replace_leading_https rest :
  replace_leading_http ("https://" ++ rest) = ("wss://" ++ rest)%string.
Proof. reflexivity. Qed.

Lemma new_Gradium_key env options :
  match new_Gradium env options with
  | Return client =>
      apiKey client <> EmptyString /\
      match options_apiKey options with
      | Some key => apiKey client = key
      | None => env = Some (apiKey client)
      end
  | Throw e =>
      e = missing_key /\
      (options_apiKey options = Some EmptyString \/
       options_apiKey options = None /\
       (env = None \/ env = Some EmptyString))
  end.
Proof.
  unfold new_Gradium.
  destruct (options_apiKey options) as [key|] eqn:Ek;
    [|destruct env as [key|]].
  - destruct (String.eqb key EmptyString) eqn:E.
    + apply String.eqb_eq in E. subst. auto.
    + apply String.eqb_neq in E.
      destruct (match options_baseURL options with
                | Some url => if String.eqb url EmptyString then None else Some url
                | None => None
                end); cbn; auto.
  - destruct (String.eqb key EmptyString) eqn:E.
    + apply String.eqb_eq in E. subst. auto.
    + apply String.eqb_neq in E.
      destruct (match options_baseURL options with
                | Some url => if String.eqb url EmptyString then None else Some url
                | None => None
                end); cbn; auto.
  - auto.
Qed.

(** The constructor wants a key that is not empty. The key of the
    options is taken when there is one, the environment's otherwise;
    an empty key in the options is not replaced by the environment's
    ([??] only replaces an absent one) and makes the constructor throw
    like a missing one. The client built carries the key in the
    [x-api-key] header. *)
Theorem client_takes_a_non_empty_api_key :
  forall (env : option string) (options : GradiumClientOptions),
    (forall client,
        new_Gradium env options = Return client ->
        apiKey client <> EmptyString /\
        (forall key, options_apiKey options = Some key -> apiKey client = key) /\
        (options_apiKey options = None -> env = Some (apiKey client)) /\
        headers client
        = [("x-api-key", apiKey client); ("Accept", "application/json")]) /\
    (forall e,
        new_Gradium env options = Throw e ->
        e = missing_key /\
        (options_apiKey options = Some EmptyString \/
         options_apiKey options = None /\
         (env = None \/ env = Some EmptyString))) /\
    (options_apiKey options = Some EmptyString ->
     new_Gradium env options = Throw missing_key).
Proof.
  intros env options.
  pose proof (new_Gradium_key env options) as H.
  split; [|split].
  - intros client E. rewrite E in H. destruct H as [Hne Hk].
    split; [exact Hne|]. split; [|split].
    + intros key Ek. now rewrite Ek in Hk.
    + intros Ek. now rewrite Ek in Hk.
    + reflexivity.
  - intros e E. now rewrite E in H.
  - intros Ek. unfold new_Gradium. now rewrite Ek.
Qed.

Lemma client_takes_a_non_empty_api_key_witness :
  let options key := {| options_apiKey := key; options_region := None;
                        options_baseURL := None; options_timeout := None |} in
  new_Gradium (Some "env-api-key") (options (Some EmptyString))
  = Throw missing_key /\
  (forall client,
      new_Gradium (Some "env-api-key") (options (Some "options-api-key"))
      = Return client ->
      apiKey client = "options-api-key") /\
  (forall client,
      new_Gradium (Some "env-api-key") (options None) = Return client ->
      Some "env-api-key" = Some (apiKey client)).
Proof.
  intros options.
  destruct (client_takes_a_non_empty_api_key (Some "env-api-key")
              (options (Some EmptyString))) as (_ & _ & H1).
  destruct (client_takes_a_non_empty_api_key (Some "env-api-key")
              (options (Some "options-api-key"))) as (H2 & _).
  destruct (client_takes_a_non_empty_api_key (Some "env-api-key")
              (options None)) as (H3 & _).
  split; [apply H1; reflexivity|]. split.
  - intros client E. destruct (H2 client E) as (_ & H & _).
    now apply H.
  - intros client E. destruct (H3 client E) as (_ & _ & H & _).
    now apply H.
Defined.

(** Whatever the options, the WebSocket URL of a client is its base
    URL with a leading [http] replaced by [ws], followed by
    [/speech]; so [https://...] gives [wss://.../speech]. A base URL
    given in the options is kept but for one trailing slash. *)
Theorem wsURL_is_baseURL_with_ws_scheme :
  forall (env : option string) (options : GradiumClientOptions)
         (client : Gradium),
    new_Gradium env options = Return client ->
    wsURL client = (replace_leading_http (baseURL client) ++ "/speech")%string /\
    (forall rest,
        baseURL client = ("https://" ++ rest)%string ->
        wsURL client = ("wss://" ++ rest ++ "/speech")%string) /\
    (forall url,
        options_baseURL options = Some url -> url <> EmptyString ->
        baseURL client = remove_trailing_slash url).
Proof.
  intros env options client E.
  assert (H : wsURL client
              = (replace_leading_http (baseURL client) ++ "/speech")%string /\
              (forall url,
                  options_baseURL options = Some url -> url <> EmptyString ->
                  baseURL client = remove_trailing_slash url)).
  { unfold new_Gradium in E.
    destruct (match options_apiKey options with
              | Some key => Some key
              | None => env
              end) as [key|]; [|discriminate].
    destruct (String.eqb key EmptyString); [discriminate|].
    destruct (options_baseURL options) as [url|] eqn:Eu.
    - destruct (String.eqb url EmptyString) eqn:Ee.
      + apply String.eqb_eq in Ee. inversion E; subst; cbn. split.
        * now destruct (options_region options) as [[]|].
        * intros url' Hu Hne. inversion Hu. congruence.
      + inversion E; subst; cbn. split.
        * now rewrite remove_replace_commute.
        * intros url' Hu _. now inversion Hu.
    - inversion E; subst; cbn. split.
      + now destruct (options_region options) as [[]|].
      + discriminate. }
  destruct H as [H1 H2]. split; [exact H1|]. split; [|exact H2].
  intros rest Hb. rewrite H1, Hb, replace_leading_https.
  now rewrite append_associative.
Qed.

Lemma wsURL_is_baseURL_with_ws_scheme_witness :
  let options := {| options_apiKey := Some "test-key"; options_region := None;
                    options_baseURL := Some "https://custom.api.example.com/";
                    options_timeout := None |} in
  exists client,
    new_Gradium None options = Return client /\
    baseURL client = "https://custom.api.example.com" /\
    wsURL client = "wss://custom.api.example.com/speech".
Proof.
  intros options.
  eexists. split; [reflexivity|].
  match goal with
  | |- baseURL ?c = _ /\ _ =>
      destruct (@wsURL_is_baseURL_with_ws_scheme None options c eq_refl)
        as (_ & H1 & H2)
  end.
  split.
  - rewrite (H2 "https://custom.api.example.com/" eq_refl); [reflexivity|].
    discriminate.
  - apply (H1 "custom.api.example.com"). reflexivity.
Defined.

(** A trailing slash of the base URL makes no difference, and neither
    does giving the URL of the region as the base URL: the client is
    the same. *)
Theorem trailing_slash_of_baseURL_is_ignored :
  forall (env : option string) (key : option string)
         (region : option Region) (timeout : option number) (url : string),
    url <> EmptyString ->
    remove_trailing_slash url = url ->
    let options baseURL :=
      {| options_apiKey := key; options_region := region;
         options_baseURL := baseURL; options_timeout := timeout |} in
    new_Gradium env (options (Some (url ++ "/")%string))
    = new_Gradium env (options (Some url)) /\
    new_Gradium env
      (options (Some (API_URLS match region with Some r => r | None => eu end)))
    = new_Gradium env (options None).
Proof.
  intros env key region timeout url Hne Hno options.
  unfold new_Gradium, options. cbn [options_apiKey options_region
    options_baseURL options_timeout].
  destruct (match key with Some k => Some k | None => env end) as [k|];
    [|split; reflexivity].
  destruct (String.eqb k EmptyString); [split; reflexivity|].
  split.
  - assert (E1 : String.eqb (url ++ "/") EmptyString = false).
    { apply String.eqb_neq. destruct url; discriminate. }
    assert (E2 : String.eqb url EmptyString = false)
      by (now apply String.eqb_neq).
    rewrite E1, E2. rewrite !remove_replace_commute.
    rewrite remove_trailing_slash_app_slash by exact Hne.
    now rewrite Hno.
  - now destruct region as [[]|].
Qed.

Lemma trailing_slash_of_baseURL_is_ignored_witness :
  let options baseURL :=
    {| options_apiKey := Some "test-key"; options_region := None;
       options_baseURL := baseURL; options_timeout := None |} in
  new_Gradium None (options (Some "https://custom.api.example.com/api/"))
  = new_Gradium None (options (Some "https://custom.api.example.com/api")) /\
  new_Gradium None (options (Some "https://eu.api.gradium.ai/api"))
  = new_Gradium None (options None).
Proof.
  intros options.
  apply (@trailing_slash_of_baseURL_is_ignored None (Some "test-key") None None
           "https://custom.api.example.com/api");
    [discriminate|reflexivity].
Defined.

End ClientFacts.

(* ===================================================================== *)
(** * Facts: the feeders *)
(* ===================================================================== *)

Module FeedingFacts.
Import JS Errors Types Platform Feeding.

Lemma TTS_isReady_dispatch c ev :
  TTSStream.isReady (TTS.session c) = true ->
  TTSStream.isReady (TTS.session (TTS.dispatch c ev)) = true.
Proof.
  intros H.
  destruct ev as [ | [ e | [ rid | audio | message code | ] | | ] | | wasClean code reason ];
    cbn; try exact H; try reflexivity.
  - now destruct (Base64.atob audio).
  - unfold TTSStream.onclose.
    now destruct (negb wasClean && negb (code =? 1000)%Z).
Qed.

Lemma STT_isReady_dispatch c ev :
  STTStream.isReady (STT.session c) = true ->
  STTStream.isReady (STT.session (STT.dispatch c ev)) = true.
Proof.
  intros H.
  destruct ev as [ | [ e | [ r | t | v | t | message code | ] | | ] | | wasClean code reason ];
    cbn; try exact H; try reflexivity.
  unfold STTStream.onclose.
  now destruct (negb wasClean && negb (code =? 1000)%Z).
Qed.

Section TextFeeder.

Import Feeding.Text.

Lemma text_idle schedule : forall c outcome,
Forall (fun a => a <> Socket OnOpen) schedule ->
stage c = Settled outcome ->
feeder c <> AwaitNext ->
sentMessages (TTSStream.ws (TTS.session (call (run c schedule)))) = sentMessages (TTSStream.ws (TTS.session (call c))) /\
feeder (run c schedule) = feeder c /\
stage (run c schedule) = Settled outcome.
Proof.
induction schedule as [|a schedule IH]; intros c outcome Hs Hstage Hf;
  [auto|].
inversion Hs as [|? ? Ha Hrest]; subst.
cbn [run fold_left]. fold (run (step c a) schedule).
assert (Hstep : sentMessages (TTSStream.ws (TTS.session (call (step c a)))) = sentMessages (TTSStream.ws (TTS.session (call c))) /\
                feeder (step c a) = feeder c /\
                stage (step c a) = Settled outcome).
{ destruct a as [ev|result].
  - cbn [step]. unfold continue. cbn [stage]. rewrite Hstage.
    cbn [call feeder stage]. split; [|split; reflexivity].
    apply CreateFrames.TTS_dispatch_sent. congruence.
  - cbn [step]. unfold feed.
    destruct (feeder c) eqn:E; try congruence; auto. }
destruct Hstep as (H1 & H2 & H3).
destruct (IH (step c a) outcome Hrest H3) as (I1 & I2 & I3);
  [congruence|].
rewrite I1, I2, I3, H1, H2. auto.
Qed.

Lemma text_feeding schedule : forall c outcome,
Forall (fun a => a <> Socket OnOpen) schedule ->
stage c = Settled outcome ->
feeder c = AwaitNext ->
TTSStream.isReady (TTS.session (call c)) = true ->
sentMessages (TTSStream.ws (TTS.session (call (run c schedule))))
= sentMessages (TTSStream.ws (TTS.session (call c))) ++ frames_fed text_frame end_frame (generated schedule) /\
feeder (run c schedule) = feeder_after (generated schedule) /\
stage (run c schedule) = Settled outcome.
Proof.
induction schedule as [|a schedule IH]; intros c outcome Hs Hstage Hf Hr.
- cbn. now rewrite app_nil_r.
- inversion Hs as [|? ? Ha Hrest]; subst.
  cbn [run fold_left]. fold (run (step c a) schedule).
  destruct a as [ev|[text| |reason]].
  + (* an event of the socket *)
    assert (Hstep : step c (Socket ev)
                    = {| call := TTS.dispatch (call c) ev;
                         stage := stage c; feeder := feeder c |}).
    { cbn [step]. unfold continue. cbn [stage]. now rewrite Hstage. }
    rewrite Hstep.
    destruct (IH {| call := TTS.dispatch (call c) ev;
                    stage := stage c; feeder := feeder c |} outcome Hrest)
      as (I1 & I2 & I3); cbn [call stage feeder]; try assumption.
    * now apply TTS_isReady_dispatch.
    * cbn [call] in I1. rewrite I1, I2, I3.
      rewrite CreateFrames.TTS_dispatch_sent by congruence. auto.
  + (* a text *)
    assert (Hstep : step c (Next (Value text))
                    = {| call := TTS.on_session
                                   (fun _ =>
                                      TTSStream.set_ws
                                        (send (TTSStream.ws (TTS.session (call c)))
                                           (text_frame text))
                                        (TTS.session (call c)))
                                   (call c);
                         stage := stage c; feeder := AwaitNext |}).
    { cbn [step]. unfold feed, TTSStream.sendText. now rewrite Hf, Hr. }
    rewrite Hstep.
    match goal with
    | |- context [run ?d schedule] =>
        destruct (IH d outcome Hrest) as (I1 & I2 & I3);
          cbn [call stage feeder]; try assumption; try reflexivity
    end.
    cbn [call] in I1. rewrite I1, I2, I3.
    cbn [generated flat_map app frames_fed feeder_after].
    fold (generated schedule).
    cbn. now rewrite <- app_assoc.
  + (* the end of the iterator *)
    set (d := {| call := TTS.on_session TTSStream.sendEndOfStream (call c);
                 stage := stage c; feeder := Finished |}).
    assert (Hstep : step c (Next Completed) = d).
    { cbn [step]. unfold feed. now rewrite Hf. }
    rewrite Hstep.
    destruct (@text_idle schedule d outcome Hrest) as (I1 & I2 & I3);
      [exact Hstage|discriminate|].
    rewrite I1, I2, I3. auto.
  + (* the iterator throws *)
    set (d := {| call := call c; stage := stage c; feeder := Failed reason |}).
    assert (Hstep : step c (Next (Rejects reason)) = d).
    { cbn [step]. unfold feed. now rewrite Hf. }
    rewrite Hstep.
    destruct (@text_idle schedule d outcome Hrest) as (I1 & I2 & I3);
      [exact Hstage|discriminate|].
    rewrite I1, I2, I3. cbn. now rewrite app_nil_r.
Qed.

End TextFeeder.

Section AudioFeeder.

Import Feeding.Audio.
Context {engine : Engine}.

Lemma audio_idle schedule : forall c outcome,
Forall (fun a => a <> Socket OnOpen) schedule ->
stage c = Settled outcome ->
feeder c <> AwaitNext ->
sentMessages (STTStream.ws (STT.session (call (run c schedule)))) = sentMessages (STTStream.ws (STT.session (call c))) /\
feeder (run c schedule) = feeder c /\
stage (run c schedule) = Settled outcome.
Proof.
induction schedule as [|a schedule IH]; intros c outcome Hs Hstage Hf;
  [auto|].
inversion Hs as [|? ? Ha Hrest]; subst.
cbn [run fold_left]. fold (run (step c a) schedule).
assert (Hstep : sentMessages (STTStream.ws (STT.session (call (step c a)))) = sentMessages (STTStream.ws (STT.session (call c))) /\
                feeder (step c a) = feeder c /\
                stage (step c a) = Settled outcome).
{ destruct a as [ev|result].
  - cbn [step]. unfold continue. cbn [stage]. rewrite Hstage.
    cbn [call feeder stage]. split; [|split; reflexivity].
    apply Transcribing.dispatch_writes_nothing. congruence.
  - cbn [step]. unfold feed.
    destruct (feeder c) eqn:E; try congruence; auto. }
destruct Hstep as (H1 & H2 & H3).
destruct (IH (step c a) outcome Hrest H3) as (I1 & I2 & I3);
  [congruence|].
rewrite I1, I2, I3, H1, H2. auto.
Qed.

Lemma audio_feeding schedule : forall c outcome,
Forall (fun a => a <> Socket OnOpen) schedule ->
stage c = Settled outcome ->
feeder c = AwaitNext ->
STTStream.isReady (STT.session (call c)) = true ->
sentMessages (STTStream.ws (STT.session (call (run c schedule))))
= sentMessages (STTStream.ws (STT.session (call c))) ++ frames_fed audio_frame end_frame (map fed (generated schedule)) /\
feeder (run c schedule) = feeder_after (map fed (generated schedule)) /\
stage (run c schedule) = Settled outcome.
Proof.
induction schedule as [|a schedule IH]; intros c outcome Hs Hstage Hf Hr.
- cbn. now rewrite app_nil_r.
- inversion Hs as [|? ? Ha Hrest]; subst.
  cbn [run fold_left]. fold (run (step c a) schedule).
  destruct a as [ev|[audio| |reason]].
  + (* an event of the socket *)
    assert (Hstep : step c (Socket ev)
                    = {| call := STT.dispatch (call c) ev;
                         stage := stage c; feeder := feeder c |}).
    { cbn [step]. unfold continue. cbn [stage]. now rewrite Hstage. }
    rewrite Hstep.
    destruct (IH {| call := STT.dispatch (call c) ev;
                    stage := stage c; feeder := feeder c |} outcome Hrest)
      as (I1 & I2 & I3); cbn [call stage feeder]; try assumption.
    * now apply STT_isReady_dispatch.
    * cbn [call] in I1. rewrite I1, I2, I3.
      rewrite Transcribing.dispatch_writes_nothing by congruence. auto.
  + (* an array *)
    cbn [generated flat_map app map fed]. fold (generated schedule).
    destruct (spread_call Base64.String_fromCharCode audio)
      as [binary|e] eqn:Hspread.
    * (* that the spread call takes *)
      assert (Hstep : step c (Next (Value audio))
                      = {| call := STT.on_session
                                     (fun _ =>
                                        STTStream.set_ws
                                          (send (STTStream.ws (STT.session (call c)))
                                             (audio_frame audio))
                                          (STT.session (call c)))
                                     (call c);
                           stage := stage c; feeder := AwaitNext |}).
      { cbn [step]. unfold feed, STTStream.sendAudio.
        rewrite Hf, Hr, Hspread. cbn [negb].
        unfold spread_call in Hspread.
        destruct (max_arguments <? length audio)%nat; [discriminate|].
        now inversion Hspread. }
      rewrite Hstep.
      match goal with
      | |- context [run ?d schedule] =>
          destruct (IH d outcome Hrest) as (I1 & I2 & I3);
            cbn [call stage feeder]; try assumption; try reflexivity
      end.
      cbn [call] in I1. rewrite I1, I2, I3.
      cbn [frames_fed feeder_after].
      cbn. now rewrite <- app_assoc.
    * (* that is too long for it *)
      set (d := {| call := call c; stage := stage c; feeder := Failed e |}).
      assert (Hstep : step c (Next (Value audio)) = d).
      { cbn [step]. unfold feed, STTStream.sendAudio.
        now rewrite Hf, Hr, Hspread. }
      rewrite Hstep.
      destruct (@audio_idle schedule d outcome Hrest) as (I1 & I2 & I3);
        [exact Hstage|discriminate|].
      rewrite I1, I2, I3. cbn. now rewrite app_nil_r.
  + (* the end of the iterator *)
    set (d := {| call := STT.on_session STTStream.sendEndOfStream (call c);
                 stage := stage c; feeder := Finished |}).
    assert (Hstep : step c (Next Completed) = d).
    { cbn [step]. unfold feed. now rewrite Hf. }
    rewrite Hstep.
    destruct (@audio_idle schedule d outcome Hrest) as (I1 & I2 & I3);
      [exact Hstage|discriminate|].
    rewrite I1, I2, I3. auto.
  + (* the iterator throws *)
    set (d := {| call := call c; stage := stage c; feeder := Failed reason |}).
    assert (Hstep : step c (Next (Rejects reason)) = d).
    { cbn [step]. unfold feed. now rewrite Hf. }
    rewrite Hstep.
    destruct (@audio_idle schedule d outcome Hrest) as (I1 & I2 & I3);
      [exact Hstage|discriminate|].
    rewrite I1, I2, I3. cbn. now rewrite app_nil_r.
Qed.

End AudioFeeder.

Lemma feeder_after_failed A (results : list (IteratorResult A)) e :
  feeder_after results = Failed e -> In (Rejects e) results.
Proof.
  induction results as [|[value| |reason] results IH]; cbn; try discriminate.
  - intros H. right. now apply IH.
  - intros H. inversion H. now left.
Qed.

Lemma no_open_forall M A (schedule : list (Action M A)) :
  forallb (fun a => match a with Socket OnOpen => false | _ => true end) schedule
  = true ->
  Forall (fun a => a <> Socket OnOpen) schedule.
Proof.
  intros H. apply Forall_forall. intros a Hin.
  rewrite forallb_forall in H. specialize (H a Hin).
  destruct a as [[]|]; congruence.
Qed.

(** [TTS.streamText]. After the open event and the ready envelope the
    call has returned the stream, with the setup frame written and
    nothing else. From then on, whatever the events on the socket and
    whenever the iterator gives its results, the feeder writes one
    text frame per text, in the order the iterator gives them, and
    one end-of-stream frame when the iterator ends; nothing after
    that. It fails only if the iterator rejects, and then it writes no
    end of stream: [sendText] never throws in it, [isReady] being set
    for good. When an [error] envelope comes in place of the ready
    envelope the call throws it and no feeder ever runs. *)
Theorem streamText_writes_each_text_then_the_end :
  forall (params : TTSSetupParams) (request_id message : string)
         (code : number)
         (schedule : list (Action TTSServerMessage string)),
    Forall (fun a => a <> Socket OnOpen) schedule ->
    let setup :=
      JSON_stringify
        (TTSClientMessage_object (TTSSetup (TTS.setupMessage params))) in
    let ready := Socket (OnMessage (Parsed (TTSReady request_id))) in
    let error := Socket (OnMessage (Parsed (TTSError message code))) in
    let returned := Text.run (Text.streamText params) [Socket OnOpen; ready] in
    let c := Text.run returned schedule in
    let failed := Text.run (Text.streamText params) [Socket OnOpen; error] in
    Text.stage returned = Settled (Return tt) /\
    sentMessages (TTSStream.ws (TTS.session (Text.call returned))) = [setup] /\
    sentMessages (TTSStream.ws (TTS.session (Text.call c)))
    = setup :: frames_fed Text.text_frame Text.end_frame (generated schedule) /\
    Text.feeder c = feeder_after (generated schedule) /\
    (forall e, Text.feeder c = Failed e -> In (Rejects e) (generated schedule)) /\
    Text.stage failed
    = Settled (Throw (WebSocketError message (Some code))) /\
    sentMessages
      (TTSStream.ws (TTS.session (Text.call (Text.run failed schedule))))
    = [setup] /\
    Text.feeder (Text.run failed schedule) = NotStarted.
Proof.
  intros params request_id message code schedule Hs setup ready error
    returned c failed.
  assert (H0 : Text.stage returned = Settled (Return tt)) by reflexivity.
  assert (H1 : sentMessages (TTSStream.ws (TTS.session (Text.call returned)))
               = [setup]) by reflexivity.
  destruct (@text_feeding schedule returned (Return tt) Hs H0)
    as (F1 & F2 & _); try reflexivity.
  destruct (@text_idle schedule failed
              (Throw (WebSocketError message (Some code))) Hs)
    as (I1 & I2 & _); try reflexivity; try discriminate.
  split; [exact H0|]. split; [exact H1|].
  split; [unfold c; rewrite F1, H1; reflexivity|].
  split; [exact F2|].
  split; [intros e He; apply feeder_after_failed; unfold c in He; congruence|].
  split; [reflexivity|].
  split; [rewrite I1; reflexivity|rewrite I2; reflexivity].
Qed.

Lemma streamText_writes_each_text_then_the_end_witness :
  let params := {| tts_voice_id := "test-voice"; tts_output_format := pcm;
                   tts_model_name := None; tts_json_config := None |} in
  let schedule :=
    [Next (Value "Hello, ");
     Socket (History.TTS_audio_event [x01; x02]%byte);
     Next (Value "world");
     Next Completed;
     Socket (OnMessage (Parsed TTSServerEndOfStream))] in
  let returned :=
    Text.run (Text.streamText params)
      [Socket OnOpen; Socket (OnMessage (Parsed (TTSReady "req-123")))] in
  sentMessages
    (TTSStream.ws (TTS.session (Text.call (Text.run returned schedule))))
  = [JSON_stringify
       (TTSClientMessage_object (TTSSetup (TTS.setupMessage params)));
     Text.text_frame "Hello, "; Text.text_frame "world"; Text.end_frame].
Proof.
  intros params schedule returned.
  destruct (@streamText_writes_each_text_then_the_end params "req-123"
              "unused" (Zero false) schedule (no_open_forall schedule eq_refl))
    as (_ & _ & H & _).
  cbn [generated flat_map app frames_fed] in H.
  exact H.
Defined.

Lemma fed_in_bound {engine : Engine} (results : list (IteratorResult (list byte))) :
  (forall audio, In (Value audio) results -> length audio <= max_arguments) ->
  map Audio.fed results = results.
Proof.
  induction results as [|result results IH]; intros H; [reflexivity|].
  cbn [map]. rewrite IH by (intros audio Hin; apply H; now right).
  f_equal. destruct result as [audio| |reason]; try reflexivity.
  unfold Audio.fed, spread_call.
  assert (Hlen : length audio <= max_arguments) by (apply H; now left).
  apply Nat.ltb_ge in Hlen. now rewrite Hlen.
Qed.

Lemma fed_failed {engine : Engine} (results : list (IteratorResult (list byte))) e :
  feeder_after (map Audio.fed results) = Failed e ->
  In (Rejects e) results \/
  class_of e = RangeError_ /\
  exists audio, In (Value audio) results /\ max_arguments < length audio.
Proof.
  induction results as [|[audio| |reason] results IH];
    cbn [map Audio.fed feeder_after]; try discriminate.
  - unfold spread_call.
    destruct (max_arguments <? length audio)%nat eqn:Hlen;
      cbn [feeder_after]; intros H.
    + inversion H. right. split; [reflexivity|].
      exists audio. split; [now left|now apply Nat.ltb_lt].
    + destruct (IH H) as [Hin|(Hc & a & Hin & Ha)]; [left; now right|].
      right. split; [exact Hc|]. exists a. split; [now right|exact Ha].
  - intros H. inversion H. left. now left.
Qed.

(** [STT.streamAudio]: the same for audio. After the open event and
    the ready envelope the call has returned the stream with the
    setup frame written; from then on the feeder writes one audio
    frame per array the iterator gives, each carrying the array in
    base64, in order, and one end-of-stream frame when the iterator
    ends, as long as no array has more bytes than the engine takes
    arguments in a call. It fails only if the iterator rejects, or at
    the first array that has more: there [sendAudio] throws the
    [RangeError] of its spread call, and the feeder writes neither
    that array nor anything after it. When an [error] envelope comes
    in place of the ready envelope the call throws it and no feeder
    ever runs. *)
Theorem streamAudio_writes_each_chunk_then_the_end :
  forall (engine : Engine)
         (params : STTSetupParams) (m : STTReadyMessage) (message : string)
         (code : number)
         (schedule : list (Action STTServerMessage (list byte))),
    Forall (fun a => a <> Socket OnOpen) schedule ->
    let setup :=
      JSON_stringify
        (STTClientMessage_object (STTSetup (STT.setupMessage params))) in
    let ready := Socket (OnMessage (Parsed (STTReady m))) in
    let error := Socket (OnMessage (Parsed (STTError message code))) in
    let returned := Audio.run (Audio.streamAudio params) [Socket OnOpen; ready] in
    let c := Audio.run returned schedule in
    let failed := Audio.run (Audio.streamAudio params) [Socket OnOpen; error] in
    Audio.stage returned = Settled (Return tt) /\
    sentMessages (STTStream.ws (STT.session (Audio.call returned))) = [setup] /\
    sentMessages (STTStream.ws (STT.session (Audio.call c)))
    = setup :: frames_fed Audio.audio_frame Audio.end_frame
                 (map Audio.fed (generated schedule)) /\
    (forall audio, Wire.audio_payload (Audio.audio_frame audio) = Some audio) /\
    Audio.feeder c = feeder_after (map Audio.fed (generated schedule)) /\
    ((forall audio, In (Value audio) (generated schedule) ->
                    length audio <= max_arguments) ->
     map Audio.fed (generated schedule) = generated schedule) /\
    (forall e,
        Audio.feeder c = Failed e ->
        In (Rejects e) (generated schedule) \/
        class_of e = RangeError_ /\
        exists audio,
          In (Value audio) (generated schedule) /\
          max_arguments < length audio) /\
    Audio.stage failed
    = Settled (Throw (WebSocketError message (Some code))) /\
    sentMessages
      (STTStream.ws (STT.session (Audio.call (Audio.run failed schedule))))
    = [setup] /\
    Audio.feeder (Audio.run failed schedule) = NotStarted.
Proof.
  intros engine params m message code schedule Hs setup ready error
    returned c failed.
  assert (H0 : Audio.stage returned = Settled (Return tt)) by reflexivity.
  assert (H1 : sentMessages (STTStream.ws (STT.session (Audio.call returned)))
               = [setup]) by reflexivity.
  destruct (@audio_feeding engine schedule returned (Return tt) Hs H0)
    as (F1 & F2 & _); try reflexivity.
  destruct (@audio_idle engine schedule failed
              (Throw (WebSocketError message (Some code))) Hs)
    as (I1 & I2 & _); try reflexivity; try discriminate.
  split; [exact H0|]. split; [exact H1|].
  split; [unfold c; rewrite F1, H1; reflexivity|].
  split; [intros audio; apply RoundTrip.audio_frame_payload|].
  split; [exact F2|].
  split; [apply fed_in_bound|].
  split; [intros e He; apply fed_failed; unfold c in He; congruence|].
  split; [reflexivity|].
  split; [rewrite I1; reflexivity|rewrite I2; reflexivity].
Qed.

Lemma streamAudio_writes_each_chunk_then_the_end_witness :
  let params := {| stt_input_format := stt_pcm; stt_model_name := None |} in
  let m := {| ready_request_id := "req-123";
              ready_model_name := "default";
              ready_sample_rate := number_of_Z 24000;
              ready_frame_size := number_of_Z 1920;
              ready_delay_in_tokens := number_of_Z 0;
              ready_text_stream_names := [] |} in
  let engine := Engine_65536 in
  let schedule :=
    [Next (Value [x01; x02; x03]%byte);
     Next (Value (repeat x00%byte 65537));
     Next (Value [x04]%byte);
     Next Completed] in
  let returned :=
    Audio.run (Audio.streamAudio params)
      [Socket OnOpen; Socket (OnMessage (Parsed (STTReady m)))] in
  let c := Audio.run returned schedule in
  sentMessages (STTStream.ws (STT.session (Audio.call c)))
  = [JSON_stringify
       (STTClientMessage_object (STTSetup (STT.setupMessage params)));
     Audio.audio_frame [x01; x02; x03]%byte] /\
  exists e, Audio.feeder c = Failed e /\ class_of e = RangeError_.
Proof.
  intros params m engine schedule returned c.
  destruct (@streamAudio_writes_each_chunk_then_the_end engine params m
              "unused" (Zero false) schedule (no_open_forall schedule eq_refl))
    as (_ & _ & H1 & _ & H2 & _).
  assert (Hfed : map Audio.fed (generated schedule)
                 = [Value [x01; x02; x03]%byte;
                    Rejects (RangeError "Maximum call stack size exceeded.");
                    Value [x04]%byte; Completed])
    by (vm_compute; reflexivity).
  rewrite Hfed in H1, H2.
  cbn [frames_fed feeder_after] in H1, H2.
  split; [exact H1|]. eexists. split; [exact H2|reflexivity].
Defined.

End FeedingFacts.


(* ===================================================================== *)
(** * Facts: the REST resources *)
(* ===================================================================== *)

Module RestFacts.
Import JS Errors Client Rest.

Lemma string_of_list_ascii_app (a b : list ascii) :
  string_of_list_ascii (a ++ b)
  = (string_of_list_ascii a ++ string_of_list_ascii b)%string.
Proof. induction a as [|c a IH]; cbn; [reflexivity|now rewrite IH]. Qed.

Lemma safe_is_no_space (c : ascii) :
  is_urlencoded_safe c = true -> Ascii.eqb c " " = false.
Proof.
  destruct c as [[] [] [] [] [] [] [] []]; vm_compute; congruence.
Qed.

Lemma safe_is_no_surrogate (c c2 c3 : ascii) :
  is_urlencoded_safe c = true ->
  is_high_surrogate c c2 c3 = false /\ is_low_surrogate c c2 c3 = false.
Proof.
  intros H. unfold is_high_surrogate, is_low_surrogate.
  assert (E : (N_of_ascii c =? 237)%N = false)
    by (destruct c as [[] [] [] [] [] [] [] []]; vm_compute in H |- *;
        congruence).
  now rewrite E.
Qed.

(** A safe character is a code point of its own. *)
Lemma StringToCodePoints_safe (c : ascii) (cs : list ascii) :
  is_urlencoded_safe c = true ->
  StringToCodePoints (c :: cs) = Character c :: StringToCodePoints cs.
Proof.
  intros H. destruct cs as [|c2 [|c3 r3]]; try reflexivity.
  rewrite JSONFacts.StringToCodePoints_three.
  destruct (safe_is_no_surrogate c c2 c3 H) as [-> ->]. reflexivity.
Qed.

Lemma urlencode_safe (cs : list ascii) :
  forallb is_urlencoded_safe cs = true ->
  urlencode (string_of_list_ascii cs) = cs.
Proof.
  unfold urlencode. rewrite list_ascii_of_string_of_list_ascii.
  induction cs as [|c cs IH]; [reflexivity|].
  cbn [forallb]. intros H. apply andb_prop in H as [Hc Hcs].
  rewrite (@StringToCodePoints_safe c cs Hc). cbn [flat_map].
  rewrite (IH Hcs). unfold urlencode_code_point.
  now rewrite (safe_is_no_space _ Hc), Hc.
Qed.

Lemma integer_chars_safe (z : Z) : forallb is_urlencoded_safe (Z_to_chars z) = true.
Proof.
  unfold Z_to_chars. rewrite forallb_app. apply andb_true_intro. split.
  - destruct (z <? 0)%Z; reflexivity.
  - unfold chars_of_digits.
    induction (digits_of_N (Z.abs_N z)) as [|d ds IH]; [reflexivity|].
    cbn [map forallb]. rewrite IH. now destruct d.
Qed.

Lemma urlencode_integer (z : Z) : urlencode (Z_to_string z) = Z_to_chars z.
Proof. apply urlencode_safe, integer_chars_safe. Qed.

Lemma urlencode_boolean (b : bool) :
  urlencode (boolean_to_string b)
  = list_ascii_of_string (if b then "true" else "false").
Proof. now destruct b. Qed.

Lemma integer_text_append (z : Z) (rest : list ascii) :
  string_of_list_ascii (Z_to_chars z ++ rest)
  = (Z_to_string z ++ string_of_list_ascii rest)%string.
Proof. apply string_of_list_ascii_app. Qed.

Lemma append_empty (s : string) : (s ++ "")%string = s.
Proof. induction s as [|c s IH]; cbn; [reflexivity|now rewrite IH]. Qed.

Ltac query_text :=
  cbn [URLSearchParams_set String.eqb Ascii.eqb Bool.eqb remove_name];
  unfold URLSearchParams_toString;
  cbn [map join_chars fst snd app];
  rewrite ?urlencode_integer, ?urlencode_boolean;
  change (urlencode "skip") with (list_ascii_of_string "skip");
  change (urlencode "limit") with (list_ascii_of_string "limit");
  change (urlencode "include_catalog")
    with (list_ascii_of_string "include_catalog");
  cbn [list_ascii_of_string app string_of_list_ascii];
  rewrite ?integer_text_append;
  cbn [list_ascii_of_string app string_of_list_ascii String.eqb
       Ascii.eqb Bool.eqb String.concat String.append];
  rewrite ?integer_text_append, ?append_empty;
  cbn [list_ascii_of_string app string_of_list_ascii String.append].

(** [Voices.list] with whole numbers for [skip] and [limit] (of at
    most 21 digits, so that [String] prints them without exponent)
    asks for [baseURL/voices/] followed by the query: the parameters
    given, in the order skip, limit, include_catalog, as [name=value]
    joined with [&] after a [?], nothing escaped. Without a parameter
    the URL ends with the slash and has no [?]. *)
Theorem list_url_has_the_given_parameters_in_order :
  forall (client : Gradium) (skip limit : option Z)
         (include_catalog : option bool),
    (forall z, skip = Some z -> length (digits_of_N (Z.abs_N z)) <= 21) ->
    (forall z, limit = Some z -> length (digits_of_N (Z.abs_N z)) <= 21) ->
    let params :=
      {| Voices.skip := option_map number_of_Z skip;
         Voices.limit := option_map number_of_Z limit;
         Voices.include_catalog := include_catalog |} in
    let pairs :=
      match skip with
      | Some z => [("skip=" ++ Z_to_string z)%string] | None => []
      end
      ++ match limit with
         | Some z => [("limit=" ++ Z_to_string z)%string] | None => []
         end
      ++ match include_catalog with
         | Some b =>
             [("include_catalog=" ++ if b then "true" else "false")%string]
         | None => []
         end in
    url (Voices.list_request client (Some params))
    = (baseURL client ++ "/voices/"
       ++ match pairs with
          | [] => ""
          | _ => "?" ++ String.concat "&" pairs
          end)%string
    /\ url (Voices.list_request client None)
       = (baseURL client ++ "/voices/")%string.
Proof.
  intros client skip limit include_catalog Hs Hl params pairs.
  split; [|reflexivity].
  unfold Voices.list_request, Voices.list_searchParams, params, pairs.
  cbn [url Voices.skip Voices.limit Voices.include_catalog].
  do 2 f_equal.
  assert (Es : forall z, skip = Some z ->
               number_to_string (number_of_Z z) = Z_to_string z)
    by (intros z E; apply IntegerText.integer_to_string, Hs, E).
  assert (El : forall z, limit = Some z ->
               number_to_string (number_of_Z z) = Z_to_string z)
    by (intros z E; apply IntegerText.integer_to_string, Hl, E).
  destruct skip as [s|]; destruct limit as [l|];
    destruct include_catalog as [[]|];
    cbn [option_map];
    try rewrite (Es _ eq_refl); try rewrite (El _ eq_refl);
    query_text; reflexivity.
Qed.

Lemma list_url_has_the_given_parameters_in_order_witness :
  let client :=
    {| apiKey := "test-api-key"; baseURL := "https://eu.api.gradium.ai/api";
       wsURL := "wss://eu.api.gradium.ai/api/speech"; region := eu;
       timeout := number_of_Z 30000 |} in
  url (Voices.list_request client
         (Some {| Voices.skip := Some (number_of_Z 10);
                  Voices.limit := Some (number_of_Z 20);
                  Voices.include_catalog := Some true |}))
  = "https://eu.api.gradium.ai/api/voices/?skip=10&limit=20&include_catalog=true"%string.
Proof.
  intros client.
  refine (proj1 (@list_url_has_the_given_parameters_in_order client
                   (Some 10%Z) (Some 20%Z) (Some true) _ _)).
  - intros z E. inversion E. vm_compute. lia.
  - intros z E. inversion E. vm_compute. lia.
Defined.

Lemma split_slash_no_slash (base : string) :
  forallb (fun c => negb (Ascii.eqb c "/")) (list_ascii_of_string base) = true ->
  Voices.split_slash base = [base].
Proof.
  induction base as [|c base IH]; [reflexivity|].
  cbn [list_ascii_of_string forallb Voices.split_slash].
  intros H. apply andb_prop in H as [Hc Hb].
  apply negb_true_iff in Hc. rewrite Hc, (IH Hb). reflexivity.
Qed.

Lemma split_slash_after_slash (dir base : string) :
  exists first others,
    Voices.split_slash (dir ++ "/" ++ base) = first :: others /\
    others <> [] /\
    last others EmptyString = last (Voices.split_slash base) EmptyString.
Proof.
  assert (Hne : forall s, Voices.split_slash s <> []).
  { intros s. destruct s as [|c s]; cbn; [discriminate|].
    destruct (Ascii.eqb c "/"); [discriminate|].
    destruct (Voices.split_slash s); discriminate. }
  induction dir as [|c dir IH].
  - exists EmptyString, (Voices.split_slash base).
    repeat split. apply Hne.
  - destruct IH as (first & others & E & Hn & Hl).
    cbn [String.append Voices.split_slash].
    change (String "/" base) with ("/" ++ base)%string. rewrite E.
    destruct (Ascii.eqb c "/").
    + exists EmptyString, (first :: others). repeat split; [discriminate|].
      destruct others; [congruence|exact Hl].
    + exists (String c first), others. repeat split; assumption.
Qed.

Lemma filename_of_path (dir : option string) (base : string) :
  forallb (fun c => negb (Ascii.eqb c "/")) (list_ascii_of_string base) = true ->
  Voices.filename_of
    match dir with Some d => (d ++ "/" ++ base)%string | None => base end
  = if String.eqb base EmptyString then "audio.wav"%string else base.
Proof.
  intros Hb. unfold Voices.filename_of.
  assert (E : last (Voices.split_slash
                      match dir with
                      | Some d => (d ++ "/" ++ base)%string
                      | None => base
                      end) EmptyString = base).
  { destruct dir as [d|].
    - destruct (split_slash_after_slash d base) as (first & others & E & Hn & Hl).
      rewrite E. destruct others; [congruence|].
      cbn [last] in *. rewrite Hl, (split_slash_no_slash _ Hb). reflexivity.
    - now rewrite (split_slash_no_slash _ Hb). }
  now rewrite E.
Qed.

Lemma in_optional_entry key value k v :
  In (k, v) (Voices.optional_entry key value) <->
  k = key /\ exists s, value = Some s /\ v = FormString s.
Proof.
  destruct value as [s|]; cbn.
  - split.
    + intros [E|[]]. inversion E. eauto.
    + intros (-> & s' & E & ->). inversion E. now left.
  - split; [contradiction|]. intros (_ & s & E & _). discriminate.
Qed.

(** [Voices.create] with a path for [audio_file]: the bytes read
    from the path are uploaded as the first field, [audio_file], under
    the file name that is the part of the path after its last slash,
    or [audio.wav] when that part is empty; [name] is the second
    field. After them come only optional fields: [input_format] when
    it is a non-empty string, [description] when it is a string, the
    empty one included. *)
Theorem create_uploads_the_file_under_its_last_path_segment :
  forall (read_file : string -> completion (list byte))
         (params : Voices.VoiceCreateParams)
         (dir : option string) (base : string) (bytes : list byte),
    let path :=
      match dir with Some d => (d ++ "/" ++ base)%string | None => base end in
    Voices.audio_file params = Voices.FilePath path ->
    forallb (fun c => negb (Ascii.eqb c "/")) (list_ascii_of_string base)
    = true ->
    read_file path = Return bytes ->
    exists fields,
      Voices.create_formData read_file params
      = Return
          (("audio_file"%string,
            FormBlob {| blob_content := bytes; blob_name := None |}
              (Some (if String.eqb base EmptyString then "audio.wav"%string
                     else base)))
           :: ("name"%string, FormString (Voices.name params)) :: fields) /\
      (forall k v, In (k, v) fields ->
                   In k ["input_format"; "description"; "language";
                         "start_s"; "timeout_s"]%string) /\
      (forall f, In ("input_format"%string, FormString f) fields <->
                 Voices.input_format params = Some f /\ f <> EmptyString) /\
      (forall d, In ("description"%string, FormString d) fields <->
                 Voices.description params = Some (Some d)).
Proof.
  intros read_file params dir base bytes path Hfile Hbase Hread.
  unfold Voices.create_formData. rewrite Hfile, Hread.
  unfold path. rewrite (@filename_of_path dir base Hbase).
  eexists. split; [reflexivity|].
  split; [|split].
  - intros k v H. rewrite !in_app_iff, !in_optional_entry in H.
    cbn [In].
    destruct H as [(-> & _)|[(-> & _)|[(-> & _)|[(-> & _)|(-> & _)]]]]; auto 6.
  - intros f. rewrite !in_app_iff, !in_optional_entry. split.
    + intros [(_ & s & E & Es)|[(? & _)|[(? & _)|[(? & _)|(? & _)]]]];
        try discriminate.
      inversion Es; subst s.
      destruct (Voices.input_format params) as [f'|]; [|discriminate].
      destruct (String.eqb f' EmptyString) eqn:Ee; inversion E; subst.
      split; [reflexivity|]. now apply String.eqb_neq.
    + intros (E & Hne). left. split; [reflexivity|]. exists f.
      rewrite E. apply String.eqb_neq in Hne. now rewrite Hne.
  - intros d. rewrite !in_app_iff, !in_optional_entry. split.
    + intros [(? & _)|[(_ & s & E & Es)|[(? & _)|[(? & _)|(? & _)]]]];
        try discriminate.
      inversion Es; subst s.
      destruct (Voices.description params) as [[d'|]|]; inversion E.
      reflexivity.
    + intros E. right. left. split; [reflexivity|]. exists d.
      now rewrite E.
Qed.

Lemma create_uploads_the_file_under_its_last_path_segment_witness :
  let params :=
    {| Voices.audio_file := Voices.FilePath "/path/to/audio.wav";
       Voices.name := "My Voice";
       Voices.input_format := Some EmptyString;
       Voices.description := Some (Some EmptyString);
       Voices.language := Some None;
       Voices.start_s := None;
       Voices.timeout_s := Some (number_of_Z 10) |} in
  let read_file := fun _ : string => Return [x00; x01] in
  exists fields,
    Voices.create_formData read_file params
    = Return
        (("audio_file"%string,
          FormBlob {| blob_content := [x00; x01]; blob_name := None |}
            (Some "audio.wav"%string))
         :: ("name"%string, FormString "My Voice") :: fields) /\
    (forall k v, In (k, v) fields ->
                 In k ["input_format"; "description"; "language";
                       "start_s"; "timeout_s"]%string) /\
    (forall f, In ("input_format"%string, FormString f) fields <->
               Some EmptyString = Some f /\ f <> EmptyString) /\
    (forall d, In ("description"%string, FormString d) fields <->
               Some (Some EmptyString) = Some (Some d)).
Proof.
  intros params read_file.
  exact (@create_uploads_the_file_under_its_last_path_segment read_file
           params (Some "/path/to"%string) "audio.wav"%string [x00; x01]
           eq_refl eq_refl eq_refl).
Defined.

(** Every method of [Credits] and [Voices] sends one request that
    carries the client's key as [x-api-key], and settles by what
    [fetch] gives: its rejection is rethrown; a status outside 200 to
    299 always throws, the error being the one [handleAPIError] makes
    of the response, and no body is returned; within the range the
    parsed body is returned, whatever it holds, and [delete] returns
    without reading it. [create] throws before any request when the
    file cannot be read. *)
Theorem resource_methods_settle_by_the_status :
  forall (fetch : Request -> completion FetchResponse)
         (read_file : string -> completion (list byte))
         (client : Gradium) (voiceUid : string)
         (listParams : option Voices.VoiceListParams)
         (updateParams : JSValue)
         (createParams : Voices.VoiceCreateParams),
    let settles (A : Type) (request : Request) (outcome : completion A)
                (on_ok : FetchResponse -> completion A) :=
      In ("x-api-key"%string, apiKey client) (request_headers request) /\
      match fetch request with
      | Throw e => outcome = Throw e
      | Return r =>
          if ((200 <=? status (response r))
              && (status (response r) <=? 299))%Z
          then outcome = on_ok r
          else exists e,
              handleAPIError (response r) = Throw e /\ outcome = Throw e
      end in
    let body (r : FetchResponse) :=
      match json (response r) with
      | Some value => Return value
      | None => Throw (json_rejection r)
      end in
    settles JSValue (Credits.get_request client)
            (Credits.get fetch client) body /\
    settles JSValue (Voices.list_request client listParams)
            (Voices.list fetch client listParams) body /\
    settles JSValue (Voices.get_request client voiceUid)
            (Voices.get fetch client voiceUid) body /\
    settles JSValue (Voices.update_request client voiceUid updateParams)
            (Voices.update fetch client voiceUid updateParams) body /\
    settles unit (Voices.delete_request client voiceUid)
            (Voices.delete fetch client voiceUid) (fun _ => Return tt) /\
    match Voices.create_formData read_file createParams with
    | Throw e => Voices.create read_file fetch client createParams = Throw e
    | Return formData =>
        settles JSValue (Voices.create_request client formData)
                (Voices.create read_file fetch client createParams) body
    end.
Proof.
  intros fetch read_file client voiceUid listParams updateParams createParams
         settles body.
  assert (Hjson : forall request,
             In ("x-api-key"%string, apiKey client) (request_headers request) ->
             settles JSValue request (fetch_then fetch request json_if_ok) body).
  { intros request Hin. split; [exact Hin|].
    unfold fetch_then, json_if_ok, ok.
    destruct (fetch request) as [r|e]; [|reflexivity].
    destruct ((200 <=? status (response r))
              && (status (response r) <=? 299))%Z; [reflexivity|].
    destruct (handleAPIError (response r)) as [[]|e]. eauto. }
  split; [|split; [|split; [|split; [|split]]]].
  - apply Hjson. now left.
  - apply Hjson. now left.
  - apply Hjson. now left.
  - apply Hjson. now left.
  - split; [now left|].
    unfold Voices.delete, fetch_then, void_if_ok, ok.
    destruct (fetch (Voices.delete_request client voiceUid)) as [r|e];
      [|reflexivity].
    destruct ((200 <=? status (response r))
              && (status (response r) <=? 299))%Z; [reflexivity|].
    destruct (handleAPIError (response r)) as [[]|e]. eauto.
  - unfold Voices.create.
    destruct (Voices.create_formData read_file createParams) as [formData|e];
      [|reflexivity].
    apply Hjson. now left.
Qed.

End RestFacts.
